(** * Late safepoint placement: a shallow embedding of SafepointPlacementPass.cpp

    The development follows the source file
    [lib/Transforms/Scalar/SafepointPlacementPass.cpp].  IR objects are
    identified the way the pass identifies them, by pointer: every [Value]
    carries the identity and the immutable attributes (class, type) that the
    pass reads through [isa<>], [dyn_cast<>] and [getType()].  Mutable IR
    (operands, instruction order, metadata) lives in [Function] records that
    are threaded explicitly through the transformations. *)

From stdpp Require Import gmap strings list sets.

#[local] Set Warnings "-clear-no-such-hyp,-notation-incompatible-prefix".

Open Scope Z_scope.
Open Scope nat_scope.

(** ** Types *)

Inductive Ty : Type :=
| VoidTy
| IntegerTy (bits : nat)
| FloatingPointTy
| PointerTy (addrspace : nat)
| AggregateTy.

#[global] Instance Ty_eq_dec : EqDecision Ty.
Proof. solve_decision. Defined.

Definition Ty_to_sum (t : Ty) : nat + (nat + nat) :=
  match t with
  | VoidTy => inl 0
  | FloatingPointTy => inl 1
  | AggregateTy => inl 2
  | IntegerTy b => inr (inl b)
  | PointerTy a => inr (inr a)
  end.

Definition Ty_of_sum (s : nat + (nat + nat)) : Ty :=
  match s with
  | inl 0 => VoidTy
  | inl 1 => FloatingPointTy
  | inl _ => AggregateTy
  | inr (inl b) => IntegerTy b
  | inr (inr a) => PointerTy a
  end.

#[global] Instance Ty_countable : Countable Ty.
Proof. by apply (inj_countable' Ty_to_sum Ty_of_sum); intros []. Defined.

Definition isVoidTy (t : Ty) : bool :=
  match t with VoidTy => true | _ => false end.
Definition isIntegerTy (t : Ty) : bool :=
  match t with IntegerTy _ => true | _ => false end.
Definition isFloatingPointTy (t : Ty) : bool :=
  match t with FloatingPointTy => true | _ => false end.
Definition isPointerTy (t : Ty) : bool :=
  match t with PointerTy _ => true | _ => false end.

(** Modelled from the spec: [isGCPointerType] is declared outside the pass
    (the statepoint support headers); the spec's data model fixes it:
    "GC pointer = pointer in address space 1". *)
Definition isGCPointerType (t : Ty) : bool :=
  match t with PointerTy 1 => true | _ => false end.

(** ** Instruction classes

    The classes the pass distinguishes with [isa<>]/[dyn_cast<>]. *)

Inductive Opcode : Type :=
| Alloca | Load | Store | GetElementPtr | Cast | IntToPtr
| PHI | Select | Call | Invoke
| Br | Ret | Unreachable | IndirectBr
| AtomicCmpXchg | AtomicRMW | ExtractValue | OtherOp.

#[global] Instance Opcode_eq_dec : EqDecision Opcode.
Proof. solve_decision. Defined.

Definition Opcode_to_nat (o : Opcode) : nat :=
  match o with
  | Alloca => 0 | Load => 1 | Store => 2 | GetElementPtr => 3 | Cast => 4
  | IntToPtr => 5 | PHI => 6 | Select => 7 | Call => 8 | Invoke => 9
  | Br => 10 | Ret => 11 | Unreachable => 12 | IndirectBr => 13
  | AtomicCmpXchg => 14 | AtomicRMW => 15 | ExtractValue => 16 | OtherOp => 17
  end.

Definition Opcode_of_nat (n : nat) : Opcode :=
  match n with
  | 0 => Alloca | 1 => Load | 2 => Store | 3 => GetElementPtr | 4 => Cast
  | 5 => IntToPtr | 6 => PHI | 7 => Select | 8 => Call | 9 => Invoke
  | 10 => Br | 11 => Ret | 12 => Unreachable | 13 => IndirectBr
  | 14 => AtomicCmpXchg | 15 => AtomicRMW | 16 => ExtractValue | _ => OtherOp
  end.

#[global] Instance Opcode_countable : Countable Opcode.
Proof. by apply (inj_countable' Opcode_to_nat Opcode_of_nat); intros []. Defined.

Definition isTerminatorOp (o : Opcode) : bool :=
  match o with
  | Br | Ret | Unreachable | IndirectBr | Invoke => true
  | _ => false
  end.

(** ** Intrinsics

    The intrinsic functions the pass tells apart ([Function::getIntrinsicID]). *)

Inductive IntrinsicID : Type :=
| not_intrinsic
| memset | memmove | memcpy
| statepoint | gc_relocate | gc_result_int | gc_result_float | gc_result_ptr
| gcroot
| other_intrinsic.

#[global] Instance IntrinsicID_eq_dec : EqDecision IntrinsicID.
Proof. solve_decision. Defined.

Definition IntrinsicID_to_nat (i : IntrinsicID) : nat :=
  match i with
  | not_intrinsic => 0 | memset => 1 | memmove => 2 | memcpy => 3
  | statepoint => 4 | gc_relocate => 5 | gc_result_int => 6
  | gc_result_float => 7 | gc_result_ptr => 8 | gcroot => 9
  | other_intrinsic => 10
  end.

Definition IntrinsicID_of_nat (n : nat) : IntrinsicID :=
  match n with
  | 0 => not_intrinsic | 1 => memset | 2 => memmove | 3 => memcpy
  | 4 => statepoint | 5 => gc_relocate | 6 => gc_result_int
  | 7 => gc_result_float | 8 => gc_result_ptr | 9 => gcroot
  | _ => other_intrinsic
  end.

#[global] Instance IntrinsicID_countable : Countable IntrinsicID.
Proof.
  by apply (inj_countable' IntrinsicID_to_nat IntrinsicID_of_nat); intros [].
Defined.

(** ** Values

    A [Value] is what a [Value*] denotes: the identity of the object together
    with the attributes that never change after creation (the class and the
    type; for a function, its name and the intrinsic it is). *)

Inductive Value : Type :=
| Argument (id : nat) (ty : Ty)
| Inst (id : nat) (op : Opcode) (ty : Ty)
| ConstantInt (bits : nat) (v : Z)
| ConstantPointerNull (ty : Ty)
| UndefValue (ty : Ty)
| GlobalVariable (name : string) (ty : Ty)
| FunctionRef (name : string) (id : IntrinsicID)
| InlineAsm (id : nat).

#[global] Instance Value_eq_dec : EqDecision Value.
Proof. solve_decision. Defined.

Definition Value_to_sum (v : Value)
  : (nat * Ty) + (nat * Opcode * Ty) + (nat * Z) + Ty + Ty
    + (string * Ty) + (string * IntrinsicID) + nat :=
  match v with
  | Argument i t => inl (inl (inl (inl (inl (inl (inl (i, t)))))))
  | Inst i o t => inl (inl (inl (inl (inl (inl (inr (i, o, t)))))))
  | ConstantInt b z => inl (inl (inl (inl (inl (inr (b, z))))))
  | ConstantPointerNull t => inl (inl (inl (inl (inr t))))
  | UndefValue t => inl (inl (inl (inr t)))
  | GlobalVariable n t => inl (inl (inr (n, t)))
  | FunctionRef n i => inl (inr (n, i))
  | InlineAsm i => inr i
  end.

Definition Value_of_sum
  (s : (nat * Ty) + (nat * Opcode * Ty) + (nat * Z) + Ty + Ty
       + (string * Ty) + (string * IntrinsicID) + nat) : Value :=
  match s with
  | inl (inl (inl (inl (inl (inl (inl (i, t))))))) => Argument i t
  | inl (inl (inl (inl (inl (inl (inr (i, o, t))))))) => Inst i o t
  | inl (inl (inl (inl (inl (inr (b, z)))))) => ConstantInt b z
  | inl (inl (inl (inl (inr t)))) => ConstantPointerNull t
  | inl (inl (inl (inr t))) => UndefValue t
  | inl (inl (inr (n, t))) => GlobalVariable n t
  | inl (inr (n, i)) => FunctionRef n i
  | inr i => InlineAsm i
  end.

#[global] Instance Value_countable : Countable Value.
Proof. by apply (inj_countable' Value_to_sum Value_of_sum); intros []. Defined.

(** [V->getType()].  Functions and inline assembly are addressed through
    pointers in the default address space. *)
Definition getType (v : Value) : Ty :=
  match v with
  | Argument _ t | Inst _ _ t | ConstantPointerNull t | UndefValue t
  | GlobalVariable _ t => t
  | ConstantInt b _ => IntegerTy b
  | FunctionRef _ _ | InlineAsm _ => PointerTy 0
  end.

Definition isaInstruction (v : Value) : bool :=
  match v with Inst _ _ _ => true | _ => false end.
Definition isaPHINode (v : Value) : bool :=
  match v with Inst _ PHI _ => true | _ => false end.
Definition isaSelectInst (v : Value) : bool :=
  match v with Inst _ Select _ => true | _ => false end.
Definition isaUndefValue (v : Value) : bool :=
  match v with UndefValue _ => true | _ => false end.
Definition isaConstant (v : Value) : bool :=
  match v with
  | ConstantInt _ _ | ConstantPointerNull _ | UndefValue _
  | GlobalVariable _ _ | FunctionRef _ _ => true
  | _ => false
  end.

(** [Constant::isNullValue()]: the all-zero constants. *)
Definition isNullValue (v : Value) : bool :=
  match v with
  | ConstantPointerNull _ => true
  | ConstantInt _ z => bool_decide (z = 0%Z)
  | _ => false
  end.

(** [isNull(V)] of the pass. *)
Definition isNull (v : Value) : bool := isaConstant v && isNullValue v.

(** ** The base-pointer lattice ([PhiState], [MeetPhiStates])

    [PhiState] is the class of the source: a status and a base pointer that
    the class documents as "non null only if status == base".  A null
    [Value*] is [None].  Assertions of the source are failures ([None]) of
    the embedded functions. *)

Inductive Status : Type := Unknown | Base | Conflict.

#[global] Instance Status_eq_dec : EqDecision Status.
Proof. solve_decision. Defined.

Record PhiState : Type := mkPhiState { getStatus : Status; getBase : option Value }.

#[global] Instance PhiState_eq_dec : EqDecision PhiState.
Proof. solve_decision. Defined.

(** The three constructors the analysis uses: [PhiState()],
    [PhiState(Value* b)] and [PhiState(PhiState::Conflict)]. *)
Definition PhiState_default : PhiState := mkPhiState Unknown None.
Definition PhiState_base (b : Value) : PhiState := mkPhiState Base (Some b).
Definition PhiState_status (s : Status) (b : option Value) : PhiState := mkPhiState s b.
Definition PhiState_conflict : PhiState := PhiState_status Conflict None.

Definition isBase (s : PhiState) : bool := bool_decide (getStatus s = Base).
Definition isUnknown (s : PhiState) : bool := bool_decide (getStatus s = Unknown).
Definition isConflict (s : PhiState) : bool := bool_decide (getStatus s = Conflict).

(** The class invariant: the constructors assert [status != Base || b], and
    the field comment says the base is non null only for status [Base].  The
    states that satisfy it are exactly the elements of the three-valued
    lattice. *)
Definition PhiState_wf (s : PhiState) : Prop :=
  match getStatus s with
  | Base => is_Some (getBase s)
  | Unknown | Conflict => getBase s = None
  end.

#[global] Instance PhiState_wf_dec s : Decision (PhiState_wf s).
Proof. unfold PhiState_wf. destruct (getStatus s); apply _. Defined.

(** The copy constructor, [PhiState(const PhiState &other)]: it asserts
    [status != Base || base]. *)
Definition PhiState_copy (other : PhiState) : option PhiState :=
  if decide (getStatus other ≠ Base ∨ is_Some (getBase other))
  then Some other else None.

(** [MeetPhiStates::pureMeet].  The arguments are references; [return
    stateA] and [return stateB] copy the state they return, which runs the
    assertion of the copy constructor.  In the [Base] case
    [assert(stateA.getBase())] comes first; [assert(stateA == stateB)] is
    reached with equal status and equal base and always holds. *)
Definition pureMeet (stateA stateB : PhiState) : option PhiState :=
  match getStatus stateA with
  | Unknown => PhiState_copy stateB
  | Base =>
      match getBase stateA with
      | None => None
      | Some _ =>
          if isUnknown stateB then PhiState_copy stateA
          else if isBase stateB then
                 if decide (getBase stateA = getBase stateB)
                 then PhiState_copy stateA
                 else Some PhiState_conflict
               else Some PhiState_conflict
      end
  | Conflict => PhiState_copy stateA
  end.

Section MeetPhiStates.
(** [cast<Instruction>(v)->getMetadata("is_base_value")] on the IR the
    resolver is working on. *)
Variable is_base_value : Value -> bool.

(** [isKnownBaseResult]. *)
Definition isKnownBaseResult (v : Value) : bool :=
  if negb (isaPHINode v) && negb (isaSelectInst v) then true
  else if is_base_value v then true
  else false.

(** [MeetPhiStates::lookupFromMap]: the lookup is asserted to succeed. *)
Definition lookupFromMap (phiStates : gmap Value PhiState) (V : Value)
  : option PhiState := phiStates !! V.

(** [MeetPhiStates::getStateForBDV]. *)
Definition getStateForBDV (phiStates : gmap Value PhiState) (baseValue : Value)
  : option PhiState :=
  if isKnownBaseResult baseValue then Some (PhiState_base baseValue)
  else lookupFromMap phiStates baseValue.

(** [MeetPhiStates::meetWith]: the new [currentResult], or [None] when an
    assertion fires; the second one is "meet does not commute!". *)
Definition meetWith (phiStates : gmap Value PhiState)
           (currentResult : PhiState) (V : Value) : option PhiState :=
  otherState ← getStateForBDV phiStates V;
  r1 ← pureMeet otherState currentResult;
  r2 ← pureMeet currentResult otherState;
  if decide (r1 = r2) then Some r1 else None.

(** The meet of a merge instruction over the base-defining values of its
    inputs, starting from [PhiState()] as [MeetPhiStates] does. *)
Definition meetAll (phiStates : gmap Value PhiState) (Vs : list Value)
  : option PhiState :=
  foldl (fun acc V => cur ← acc; meetWith phiStates cur V)
        (Some PhiState_default) Vs.
End MeetPhiStates.

(** ** [unique_unsorted]

    [seen] is the [std::set<T>]; [seen.insert(V).second] is true exactly when
    [V] was not yet in the set. *)

Section UniqueUnsorted.
Context {T : Type} {EqT : EqDecision T} {CountT : Countable T}.

Fixpoint unique_unsorted_loop (seen : gset T) (tmp : list T) (vec : list T)
  : list T :=
  match tmp with
  | [] => vec
  | V :: rest =>
      if decide (V ∈ seen)
      then unique_unsorted_loop seen rest vec
      else unique_unsorted_loop ({[V]} ∪ seen) rest (vec ++ [V])
  end.

Definition unique_unsorted (vec : list T) : list T :=
  unique_unsorted_loop ∅ vec [].

(** Position of the first occurrence ([std::find] then [std::distance]). *)
Fixpoint first_index (x : T) (l : list T) : option nat :=
  match l with
  | [] => None
  | y :: l' => if decide (y = x) then Some 0 else S <$> first_index x l'
  end.
End UniqueUnsorted.

(** [x] is met before [y] when scanning [l] from the front: both occur, and
    the first occurrence of [x] precedes the first occurrence of [y]. *)
Definition first_before {T : Type} {EqT : EqDecision T} (x y : T) (l : list T) : Prop :=
  exists i j, first_index x l = Some i /\ first_index y l = Some j /\ i < j.

(** ** Instructions, blocks, functions, modules *)

(** A [BasicBlock*]. *)
Definition label := nat.

(** [operands] are the value operands in operand order; a call or invoke
    lists its arguments first and the called value last.  The block operands
    of a terminator are kept in [successors] (in successor order) and the
    incoming blocks of a phi in [incoming], aligned with [operands]; blocks
    have label type and are never GC pointers. *)
Record Instruction : Type := mkInstruction {
  iid : nat;
  iop : Opcode;
  ity : Ty;
  operands : list Value;
  successors : list label;
  incoming : list label;
}.

#[global] Instance Instruction_eq_dec : EqDecision Instruction.
Proof. solve_decision. Defined.

(** The [Value] an instruction is: the same object seen as [Value*]. *)
Definition valueOf (I : Instruction) : Value := Inst (iid I) (iop I) (ity I).

Definition isTerminator (I : Instruction) : bool := isTerminatorOp (iop I).

Record BasicBlock : Type := mkBasicBlock {
  bid : label;
  insts : list Instruction;
}.

#[global] Instance BasicBlock_eq_dec : EqDecision BasicBlock.
Proof. solve_decision. Defined.

(** A function: a declaration has no blocks. *)
Record Function : Type := mkFunction {
  fname : string;
  fattrs : gmap string string;
  fargs : list Value;
  blocks : list BasicBlock;
}.

#[global] Instance Function_eq_dec : EqDecision Function.
Proof. solve_decision. Defined.

Record Module : Type := mkModule { functions : list Function }.

(** [F.getFnAttribute(k).getValueAsString().equals(v)]: a missing attribute
    has the empty string as value. *)
Definition fnAttrEquals (F : Function) (k v : string) : bool :=
  bool_decide (default ""%string (fattrs F !! k) = v).

Definition getFunction (M : Module) (name : string) : option Function :=
  List.find (fun F => bool_decide (fname F = name)) (functions M).

(** [inst_begin(F) .. inst_end(F)]. *)
Definition instructions (F : Function) : list Instruction :=
  flat_map insts (blocks F).

(** ** Control flow *)

(** [BB->getTerminator()]: the last instruction when it is a terminator. *)
Definition getTerminator (B : BasicBlock) : option Instruction :=
  match last (insts B) with
  | Some t => if isTerminator t then Some t else None
  | None => None
  end.

(** [succ_begin(BB) .. succ_end(BB)]. *)
Definition succs (B : BasicBlock) : list label :=
  match getTerminator B with
  | Some t => successors t
  | None => []
  end.

Definition getBlock (F : Function) (l : label) : option BasicBlock :=
  List.find (fun B => bool_decide (bid B = l)) (blocks F).

(** [pred_begin(BB) .. pred_end(BB)]: one entry per use of the block by a
    terminator, given as the using block together with that terminator. *)
Definition pred_edges (F : Function) (l : label) : list (BasicBlock * Instruction) :=
  flat_map (fun B =>
              match getTerminator B with
              | Some t => (fun _ => (B, t)) <$> filter (fun s => s = l) (successors t)
              | None => []
              end) (blocks F).

Definition preds (F : Function) (l : label) : list label :=
  (fun e => bid (fst e)) <$> pred_edges F l.

(** [getUniqueSuccessor] / [getUniquePredecessor] of [BasicBlock]: the one
    block all the edges lead to (come from), null when there is no edge or
    when two edges differ.  Several edges to (from) the same block are
    fine. *)
Definition unique_label (ls : list label) : option label :=
  match ls with
  | [] => None
  | l :: rest => if forallb (fun l' => bool_decide (l' = l)) rest then Some l else None
  end.

Definition getUniqueSuccessor (B : BasicBlock) : option label :=
  unique_label (succs B).

Definition getUniquePredecessor (F : Function) (l : label) : option label :=
  unique_label (preds F l).

Definition getEntryBlock (F : Function) : option BasicBlock := head (blocks F).

(** ** Command-line options *)

Record Options : Type := mkOptions {
  AllBackedges : bool;
  BaseRewriteOnly : bool;
  AllFunctions : bool;
  UseVMState : bool;
  DataflowLiveness : bool;
  NoEntry : bool;
  NoCall : bool;
  NoBackedge : bool;
}.

Definition VMStateRequired (opts : Options) : bool :=
  negb (AllFunctions opts) && UseVMState opts.

(** The opening of the three selectors: [shouldRun] is [AllFunctions] or
    the function's opt-in attribute; the poll function itself is always
    exempt, and asking for it without [AllFunctions] trips the
    "misconfiguration" assertion ([None]). *)
Definition shouldRunOn (opts : Options) (F : Function) (attr : string)
  : option bool :=
  let shouldRun := AllFunctions opts || fnAttrEquals F attr "true" in
  if shouldRun && bool_decide (fname F = "gc.safepoint_poll"%string)
  then (if AllFunctions opts then Some false else None)
  else Some shouldRun.

(** ** Entry poll: [findLocationForEntrySafepoint] *)

(** The [while (true)] loop, bounded by [fuel]; [None] is fuel exhaustion.
    A [BasicBlock*] that was read from a terminator is resolved in the
    function. *)
Fixpoint entryWalk (F : Function) (fuel : nat) (currentBB : BasicBlock)
  : option BasicBlock :=
  match fuel with
  | 0 => None
  | S fuel' =>
      match getUniqueSuccessor currentBB with
      | None => Some currentBB                       (* split node *)
      | Some next =>
          match getUniquePredecessor F next with
          | None => Some currentBB                   (* next is a join node *)
          | Some _ =>
              match getBlock F next with
              | Some nextBB => entryWalk F fuel' nextBB
              | None => None
              end
          end
      end
  end.

(** The result is [Some None] for the null pointer, [Some (Some term)] for a
    location, and [None] when the function aborts or the walk does not end
    within [fuel] steps. *)
Definition findLocationForEntrySafepoint (opts : Options) (fuel : nat)
           (F : Function) : option (option Instruction) :=
  shouldRun ← shouldRunOn opts F "gc-add-entry-safepoints";
  if negb shouldRun then Some None
  else
    entry ← getEntryBlock F;
    currentBB ← entryWalk F fuel entry;
    Some (getTerminator currentBB).

(** The walk of the entry poll as a relation: one step goes from a block to
    its unique successor when that successor has a unique predecessor. *)
Definition entryStep (F : Function) (B B' : BasicBlock) : Prop :=
  exists p, getUniqueSuccessor B = Some (bid B') /\
            getUniquePredecessor F (bid B') = Some p /\
            getBlock F (bid B') = Some B'.

(** A split (no unique successor) or a merge ahead (the unique successor is
    a join node). *)
Definition entryStop (F : Function) (B : BasicBlock) : Prop :=
  getUniqueSuccessor B = None \/
  exists next, getUniqueSuccessor B = Some next /\
               getUniquePredecessor F next = None.

Inductive entryChain (F : Function) : BasicBlock -> BasicBlock -> Prop :=
| entryChain_here B : entryChain F B B
| entryChain_next B B' B'' :
    entryStep F B B' -> entryChain F B' B'' -> entryChain F B B''.

(** What the verifier guarantees and the walk relies on: the entry block has
    no predecessor and every branch target is a block of the function. *)
Definition entry_wf (F : Function) : Prop :=
  (exists entry, getEntryBlock F = Some entry /\ preds F (bid entry) = []) /\
  (forall B l, B ∈ blocks F -> l ∈ succs B -> is_Some (getBlock F l)).

(** ** Backedge polls: [PlaceBackedgeSafepointsImpl::runOnLoop] *)

(** A natural loop as [LoopInfo] gives it. *)
Record Loop : Type := mkLoop {
  getHeader : label;
  loopBlocks : list label;
}.

Definition contains (L : Loop) (l : label) : bool :=
  bool_decide (l ∈ loopBlocks L).

(** [Loop::getLoopLatch]: the in-loop predecessor of the header when there
    is exactly one backedge. *)
Definition getLoopLatch (F : Function) (L : Loop) : option label :=
  match filter (fun l => contains L l = true) (preds F (getHeader L)) with
  | [latch] => Some latch
  | _ => None
  end.

(** The trip-count query of [ScalarEvolution], an [unsigned]. *)
Record ScalarEvolution : Type := mkScalarEvolution {
  getSmallConstantTripCount : Loop -> label -> N;
}.

Definition mustBeFiniteCountedLoop (F : Function) (L : Loop)
           (SE : ScalarEvolution) : bool :=
  let TripCount :=
    match getLoopLatch F L with
    | Some LatchBlock => getSmallConstantTripCount SE L LatchBlock
    | None => 0%N
    end in
  bool_decide (0 < TripCount)%N.

(** The body of the loop over the predecessors of the header; the state is
    [(modified, PollLocations)]. *)
Definition runOnLoop_pred (opts : Options) (F : Function) (L : Loop)
           (SE : ScalarEvolution)
           (st : bool * list Instruction) (edge : BasicBlock * Instruction)
  : bool * list Instruction :=
  let '(pred, term) := edge in
  if negb (contains L (bid pred)) then st
  else if negb (AllBackedges opts) && mustBeFiniteCountedLoop F L SE then st
  else (true, snd st ++ [term]).

(** [runOnLoop]: [PollLocations] is the member of the pass that collects the
    terminators; the result is the returned flag and the new member.  [None]
    is the misconfiguration assertion. *)
Definition runOnLoop (opts : Options) (F : Function) (SE : ScalarEvolution)
           (L : Loop) (PollLocations : list Instruction)
  : option (bool * list Instruction) :=
  shouldRun ← shouldRunOn opts F "gc-add-backedge-safepoints";
  if negb shouldRun then Some (false, PollLocations)
  else Some (foldl (runOnLoop_pred opts F L SE) (false, PollLocations)
                   (pred_edges F (getHeader L))).

(** ** Call polls: [needsStatepoint], [isGCLeafFunction], [findCallSafepoints] *)

(** A [CallSite] wraps a call or an invoke instruction. *)
Definition CallSite := Instruction.

Definition isCall (CS : CallSite) : bool := bool_decide (iop CS = Call).
Definition isInvoke (CS : CallSite) : bool := bool_decide (iop CS = Invoke).

(** [CS.getCalledValue()]: the last value operand. *)
Definition getCalledValue (CS : CallSite) : option Value := last (operands CS).

(** [CS.arg_begin() .. CS.arg_end()]. *)
Definition callArgs (CS : CallSite) : list Value := removelast (operands CS).

(** [CS.getCalledFunction()]: null for an indirect call. *)
Definition getCalledFunction (M : Module) (CS : CallSite) : option Function :=
  match getCalledValue CS with
  | Some (FunctionRef name _) => getFunction M name
  | _ => None
  end.

(** [call->isInlineAsm()]. *)
Definition isInlineAsm (CS : CallSite) : bool :=
  match getCalledValue CS with
  | Some (InlineAsm _) => true
  | _ => false
  end.

(** The intrinsic a call site calls, read off the called value. *)
Definition calledIntrinsic (CS : CallSite) : IntrinsicID :=
  match getCalledValue CS with
  | Some (FunctionRef _ id) => id
  | _ => not_intrinsic
  end.

(** [dyn_cast<IntrinsicInst>(inst)]: a call instruction whose callee is an
    intrinsic function; the result is its intrinsic ID. *)
Definition asIntrinsicInst (I : Instruction) : option IntrinsicID :=
  if isCall I then
    if decide (calledIntrinsic I = not_intrinsic) then None
    else Some (calledIntrinsic I)
  else None.

(** Modelled from the spec: [isStatepoint], [isGCRelocate] and [isGCResult]
    come from the statepoint support headers, not from the pass; they
    recognise the "already-inserted statepoint/relocate/result intrinsics"
    by the intrinsic a call site calls. *)
Definition isStatepoint (CS : CallSite) : bool :=
  bool_decide (calledIntrinsic CS = statepoint).
Definition isGCRelocate (CS : CallSite) : bool :=
  bool_decide (calledIntrinsic CS = gc_relocate).
Definition isGCResult (CS : CallSite) : bool :=
  bool_decide (calledIntrinsic CS ∈ [gc_result_int; gc_result_float; gc_result_ptr]).

Definition isGCLeafFunction (M : Module) (CS : CallSite) : bool :=
  let generic :=
    match getCalledFunction M CS with
    | Some F => fnAttrEquals F "gc-leaf-function" "true"
    | None => false
    end in
  match asIntrinsicInst CS with
  | Some memset | Some memmove | Some memcpy => generic
  | Some _ => true
  | None => generic
  end.

Definition needsStatepoint (M : Module) (CS : CallSite) : bool :=
  if isGCLeafFunction M CS then false
  else if isCall CS && isInlineAsm CS then false
  else if isStatepoint CS || isGCRelocate CS || isGCResult CS then false
  else true.

Definition isCallOrInvoke (I : Instruction) : bool :=
  bool_decide (iop I = Call) || bool_decide (iop I = Invoke).

(** [findCallSafepoints]: the result is [Found], which the caller passes in
    empty. *)
Definition findCallSafepoints (opts : Options) (M : Module) (F : Function)
  : option (list CallSite) :=
  shouldRun ← shouldRunOn opts F "gc-add-call-safepoints";
  if negb shouldRun then Some []
  else Some (filter (fun inst => isCallOrInvoke inst = true
                                 ∧ needsStatepoint M inst = true)
                    (instructions F)).

(** The callee carries the attribute ["gc-leaf-function"="true"]. *)
Definition calleeIsGCLeaf (M : Module) (CS : CallSite) : bool :=
  match getCalledFunction M CS with
  | Some F => fnAttrEquals F "gc-leaf-function" "true"
  | None => false
  end.

(** The intrinsics that do take safepoints. *)
Definition safepointingIntrinsic (id : IntrinsicID) : bool :=
  bool_decide (id ∈ [memset; memmove; memcpy]).

(** The call sites that selection keeps, stated case by case. *)
Definition selectable (M : Module) (CS : CallSite) : Prop :=
  calleeIsGCLeaf M CS = false ∧
  (∀ id, asIntrinsicInst CS = Some id → safepointingIntrinsic id = true) ∧
  ¬ (isCall CS = true ∧ isInlineAsm CS = true) ∧
  isStatepoint CS = false ∧ isGCRelocate CS = false ∧ isGCResult CS = false.

(** ** Sample IR used by the examples *)

Definition defaultOptions : Options :=
  {| AllBackedges := false; BaseRewriteOnly := false; AllFunctions := false;
     UseVMState := true; DataflowLiveness := false;
     NoEntry := false; NoCall := false; NoBackedge := false |}.

Definition declareFunction (name : string) (attrs : gmap string string)
  : Function :=
  {| fname := name; fattrs := attrs; fargs := []; blocks := [] |}.

(** [define void @caller() "gc-add-call-safepoints"="true"]: an invoke of
    [@callee] in the entry block, a call of [@leaf] (a declared GC leaf) in
    the normal destination, and a landing block. *)
Definition sample_invoke : Instruction :=
  mkInstruction 1 Invoke VoidTy [FunctionRef "callee" not_intrinsic] [1; 2] [].
Definition sample_leaf_call : Instruction :=
  mkInstruction 2 Call VoidTy [FunctionRef "leaf" not_intrinsic] [] [].
Definition sample_caller : Function :=
  {| fname := "caller";
     fattrs := {[ "gc-add-call-safepoints"%string := "true"%string ]};
     fargs := [];
     blocks := [ mkBasicBlock 0 [sample_invoke];
                 mkBasicBlock 1 [sample_leaf_call; mkInstruction 3 Ret VoidTy [] [] []];
                 mkBasicBlock 2 [mkInstruction 4 Ret VoidTy [] [] []] ] |}.
Definition sample_module : Module :=
  mkModule [ declareFunction "callee" ∅;
             declareFunction "leaf" {[ "gc-leaf-function"%string := "true"%string ]};
             sample_caller ].

(** The labels met so far by the entry walk, latest first: each has the next
    one as its unique predecessor, and the oldest (the entry block) has no
    predecessor at all. *)
Fixpoint backChain (F : Function) (ls : list label) : Prop :=
  match ls with
  | [] => True
  | c :: rest =>
      match rest with
      | [] => preds F c = []
      | c' :: _ => getUniquePredecessor F c = Some c' ∧ backChain F rest
      end
  end.

(** [entry_wf] as a check that runs. *)
Definition entry_wfb (F : Function) : bool :=
  match getEntryBlock F with
  | Some entry => bool_decide (preds F (bid entry) = [])
  | None => false
  end
  && forallb (fun B => forallb (fun l => bool_decide (is_Some (getBlock F l))) (succs B))
             (blocks F).

(** [define void @chain() "gc-add-entry-safepoints"="true"]: two
    straight-line blocks, then a conditional branch. *)
Definition sample_condbr : Instruction := mkInstruction 12 Br VoidTy [Argument 0 (IntegerTy 1)] [3; 4] [].
Definition sample_chain : Function :=
  {| fname := "chain";
     fattrs := {[ "gc-add-entry-safepoints"%string := "true"%string ]};
     fargs := [Argument 0 (IntegerTy 1)];
     blocks := [ mkBasicBlock 0 [mkInstruction 10 Br VoidTy [] [1] []];
                 mkBasicBlock 1 [mkInstruction 11 Br VoidTy [] [2] []];
                 mkBasicBlock 2 [sample_condbr];
                 mkBasicBlock 3 [mkInstruction 13 Br VoidTy [] [4] []];
                 mkBasicBlock 4 [mkInstruction 14 Ret VoidTy [] [] []] ] |}.

(** [define void @count() "gc-add-backedge-safepoints"="true"]: a
    single-block loop that the trip-count analysis bounds by ten. *)
Definition sample_count : Function :=
  {| fname := "count";
     fattrs := {[ "gc-add-backedge-safepoints"%string := "true"%string ]};
     fargs := [];
     blocks := [ mkBasicBlock 0 [mkInstruction 10 Br VoidTy [] [1] []];
                 mkBasicBlock 1 [mkInstruction 11 Br VoidTy [] [1; 2] []];
                 mkBasicBlock 2 [mkInstruction 12 Ret VoidTy [] [] []] ] |}.
Definition sample_count_loop : Loop := mkLoop 1 [1].
Definition sample_count_SE : ScalarEvolution := mkScalarEvolution (fun _ _ => 10%N).

(** ** Liveness of GC pointers (dataflow mode) *)

Record GCPtrLivenessData : Type := mkGCPtrLivenessData {
  LiveIn : gmap label (gset Value);
  LiveOut : gmap label (gset Value);
}.

(** The USE test of [computeGCPtrLiveness]. *)
Definition isLiveOperand (V : Value) : bool :=
  isGCPointerType (getType V) && negb (isNull V) && negb (isaUndefValue V).

(** One instruction of the backward scan: KILL the definition, then add the
    operands that pass the USE test. *)
Definition computeGCPtrLiveness_inst (LiveTmp : gset Value) (I : Instruction)
  : gset Value :=
  foldl (fun Live V => if isLiveOperand V then {[V]} ∪ Live else Live)
        (LiveTmp ∖ {[valueOf I]}) (operands I).

(** [computeGCPtrLiveness(rbegin, rend, LiveTmp)]: [range] lists the
    instructions in the order the reverse iterator visits them. *)
Definition computeGCPtrLiveness_range (range : list Instruction)
           (LiveTmp : gset Value) : gset Value :=
  foldl computeGCPtrLiveness_inst LiveTmp range.

(** [inst->getParent()], by the identity of the instruction. *)
Definition getParent (F : Function) (id : nat) : option BasicBlock :=
  List.find (fun B => existsb (fun I => bool_decide (iid I = id)) (insts B))
            (blocks F).

(** The instructions of a block from [id] on. *)
Fixpoint instsFrom (id : nat) (l : list Instruction) : option (list Instruction) :=
  match l with
  | [] => None
  | J :: rest => if decide (iid J = id) then Some (J :: rest) else instsFrom id rest
  end.

(** [set_union(LiveOut, Data.LiveIn[succ])] over the successors; the lookup
    is asserted. *)
Definition unionLiveIn (Data : GCPtrLivenessData) (ss : list label)
  : option (gset Value) :=
  foldl (fun acc succ => LiveOutAcc ← acc; In ← LiveIn Data !! succ;
                         Some (LiveOutAcc ∪ In))
        (Some ∅) ss.

(** One turn of the [while (!worklist.empty())] loop of
    [computeGCPtrLiveness(F, Data)].  The worklist is kept with its back at
    the head of the list.  [None] is a failed assertion. *)
Definition computeGCPtrLiveness_step (F : Function)
           (BB : label) (worklist : list label) (Data : GCPtrLivenessData)
  : option (list label * GCPtrLivenessData) :=
  B ← getBlock F BB;
  LiveOut' ← unionLiveIn Data (succs B);
  if negb (bool_decide (LiveOut' = ∅))
     && bool_decide (default ∅ (LiveOut Data !! BB) = LiveOut')
  then Some (worklist, Data)
  else
    let Data1 := mkGCPtrLivenessData (LiveIn Data) (<[BB := LiveOut']> (LiveOut Data)) in
    let LiveTmp := computeGCPtrLiveness_range (rev (insts B)) LiveOut' in
    OldLiveIn ← LiveIn Data1 !! BB;
    if bool_decide (OldLiveIn = LiveTmp) then Some (worklist, Data1)
    else
      let Data2 := mkGCPtrLivenessData (<[BB := LiveTmp]> (LiveIn Data1)) (LiveOut Data1) in
      if bool_decide (LiveTmp = ∅) then Some (worklist, Data2)
      else Some (rev (preds F BB) ++ worklist, Data2).

Fixpoint computeGCPtrLiveness_loop (F : Function) (fuel : nat)
         (worklist : list label) (Data : GCPtrLivenessData)
  : option GCPtrLivenessData :=
  match worklist with
  | [] => Some Data
  | BB :: worklist' =>
      match fuel with
      | 0 => None
      | S fuel' =>
          '(worklist'', Data') ← computeGCPtrLiveness_step F BB worklist' Data;
          computeGCPtrLiveness_loop F fuel' worklist'' Data'
      end
  end.

(** [computeGCPtrLiveness(F, Data)]: every block is put on the worklist and
    starts with empty sets. *)
Definition computeGCPtrLiveness_init (F : Function) : list label * GCPtrLivenessData :=
  (rev (bid <$> blocks F),
   mkGCPtrLivenessData (list_to_map ((fun B => (bid B, ∅)) <$> blocks F))
                       (list_to_map ((fun B => (bid B, ∅)) <$> blocks F))).

Definition computeGCPtrLiveness (F : Function) (fuel : nat)
  : option GCPtrLivenessData :=
  let '(worklist, Data) := computeGCPtrLiveness_init F in
  computeGCPtrLiveness_loop F fuel worklist Data.

(** [findLiveSetAtInst].  [rend(inst)] is the reverse iterator whose base is
    [inst], so the scan runs from the last instruction of the block down to
    [inst] itself, inclusive.  The result is the set added to [out]. *)
Definition findLiveSetAtInst (F : Function) (inst : Instruction)
           (Data : GCPtrLivenessData) : option (gset Value) :=
  BB ← getParent F (iid inst);
  LiveOut0 ← LiveOut Data !! bid BB;
  range ← instsFrom (iid inst) (insts BB);
  let Live := computeGCPtrLiveness_range (rev range) LiveOut0 in
  Some (filter (fun V => V ≠ valueOf inst) Live).

(** What a live set may hold: GC pointers that are neither null nor undef
    and that some instruction of the function uses as an operand. *)
Definition liveSetOk (F : Function) (S : gset Value) : Prop :=
  ∀ V, V ∈ S →
       isGCPointerType (getType V) = true ∧ isNull V = false ∧
       isaUndefValue V = false ∧
       ∃ I, I ∈ instructions F ∧ V ∈ operands I.

Definition livenessDataOk (F : Function) (Data : GCPtrLivenessData) : Prop :=
  (∀ l S, LiveIn Data !! l = Some S → liveSetOk F S) ∧
  (∀ l S, LiveOut Data !! l = Some S → liveSetOk F S).

(** [define i8 addrspace(1)* @derive(i8 addrspace(1)* %p)]: a derived
    pointer [%q] is computed, [@callee] is called with a null argument, and
    [%q] is returned. *)
Definition sample_p : Value := Argument 0 (PointerTy 1).
Definition sample_gep : Instruction :=
  mkInstruction 20 GetElementPtr (PointerTy 1) [sample_p; ConstantInt 64 8] [] [].
Definition sample_call : Instruction :=
  mkInstruction 21 Call VoidTy
                [ConstantPointerNull (PointerTy 1); FunctionRef "callee" not_intrinsic] [] [].
Definition sample_ret : Instruction :=
  mkInstruction 22 Ret VoidTy [valueOf sample_gep] [] [].
Definition sample_derive : Function :=
  {| fname := "derive";
     fattrs := {[ "gc-add-call-safepoints"%string := "true"%string ]};
     fargs := [sample_p];
     blocks := [ mkBasicBlock 0 [sample_gep; sample_call; sample_ret] ] |}.

(** ** Editing the IR

    New instructions get an identity no instruction of the function has
    ([new] returns a pointer distinct from every live object). *)

Definition setBlocks (F : Function) (bs : list BasicBlock) : Function :=
  {| fname := fname F; fattrs := fattrs F; fargs := fargs F; blocks := bs |}.

Definition freshId (F : Function) : nat :=
  S (max_list (iid <$> instructions F)).

Definition freshLabel (F : Function) : label :=
  S (max_list (bid <$> blocks F)).

(** Insert [new] before / after the instruction [id] of a list. *)
Fixpoint insertBeforeIn (id : nat) (new : Instruction) (l : list Instruction)
  : option (list Instruction) :=
  match l with
  | [] => None
  | J :: rest =>
      if decide (iid J = id) then Some (new :: J :: rest)
      else (fun r => J :: r) <$> insertBeforeIn id new rest
  end.

Fixpoint insertAfterIn (id : nat) (new : Instruction) (l : list Instruction)
  : option (list Instruction) :=
  match l with
  | [] => None
  | J :: rest =>
      if decide (iid J = id) then Some (J :: new :: rest)
      else (fun r => J :: r) <$> insertAfterIn id new rest
  end.

(** Apply an edit to the first block that accepts it. *)
Fixpoint editBlocks (f : list Instruction -> option (list Instruction))
         (bs : list BasicBlock) : option (list BasicBlock) :=
  match bs with
  | [] => None
  | B :: rest =>
      match f (insts B) with
      | Some l => Some (mkBasicBlock (bid B) l :: rest)
      | None => (fun r => B :: r) <$> editBlocks f rest
      end
  end.

(** [new ...Inst(..., insertBefore)] and [inst->insertAfter(pos)]; [None]
    when the position is not an instruction of the function. *)
Definition insertBefore (F : Function) (id : nat) (new : Instruction)
  : option Function :=
  setBlocks F <$> editBlocks (insertBeforeIn id new) (blocks F).

Definition insertAfter (F : Function) (id : nat) (new : Instruction)
  : option Function :=
  setBlocks F <$> editBlocks (insertAfterIn id new) (blocks F).

(** Create an instruction with a fresh identity and place it before [IP]
    (what the [IRBuilder] does at its insertion point). *)
Definition emitBefore (F : Function) (IP : nat) (mk : nat -> Instruction)
  : option (Function * Instruction) :=
  let J := mk (freshId F) in
  F' ← insertBefore F IP J;
  Some (F', J).

(** The instruction that follows [id] in its block. *)
Definition nextInstruction (F : Function) (id : nat) : option Instruction :=
  BB ← getParent F id;
  range ← instsFrom id (insts BB);
  range !! 1.

(** [V->use_empty()]: no instruction of the function has [V] as operand. *)
Definition use_empty (F : Function) (V : Value) : bool :=
  forallb (fun J => negb (bool_decide (V ∈ operands J))) (instructions F).

(** [V->users()], each user once, in function order. *)
Definition users (F : Function) (V : Value) : list Instruction :=
  filter (fun J => V ∈ operands J) (instructions F).

(** ** Statepoints: [CreateSafepoint] *)

(** [ConstantInt::get(Type, V)]: the value is kept modulo [2^bits]. *)
Definition ConstantInt_get (bits : nat) (v : Z) : Value :=
  ConstantInt bits (v mod 2 ^ Z.of_nat bits).

Definition i32 (v : Z) : Value := ConstantInt_get 32 v.

(** Modelled from the spec: the [JVMState] view of a VM state call is
    declared in [llvm/IR/JVMState.h], not under src/.  The spec lists what it
    holds: the bytecode index, the stack elements and the locals, each with a
    type tag, and the monitors. *)
Record JVMState : Type := mkJVMState {
  bci : Z;
  stackElements : list (Z * Value);
  locals : list (Z * Value);
  monitors : list Value;
}.

Record PartiallyConstructedSafepointRecord : Type := mkRecord {
  liveset : gset Value;
  base_pairs : gmap Value Value;
  newInsertedDefs : gset Value;
  safepoint : option (Instruction * Instruction);
  result : option Value;
}.

(** [find_index]: the position of the first occurrence, asserted to exist. *)
Definition find_index (livevec : list Value) (val : Value) : option nat :=
  first_index val livevec.

(** The type of the statepoint token of this fork, and the declarations
    [Intrinsic::getDeclaration] returns. *)
Definition tokenTy : Ty := IntegerTy 32.
Definition gc_statepoint_decl : Value := FunctionRef "llvm.statepoint" statepoint.
Definition gc_relocate_decl : Value := FunctionRef "llvm.gc.relocate" gc_relocate.
Definition gc_result_decl (t : Ty) : option Value :=
  if isIntegerTy t then Some (FunctionRef "llvm.gc.result.int" gc_result_int)
  else if isFloatingPointTy t then Some (FunctionRef "llvm.gc.result.float" gc_result_float)
  else if isPointerTy t then Some (FunctionRef "llvm.gc.result.ptr" gc_result_ptr)
  else None.
Definition jvmstate_anchor : Value := GlobalVariable "llvm.jvmstate_anchor" (PointerTy 0).

(** The five fields that describe the abstract state, or the placeholders. *)
Definition vmStateHeader (jvmState : option JVMState) : list Value :=
  match jvmState with
  | Some s => [ i32 0; i32 (bci s);
                i32 (Z.of_nat (length (stackElements s)));
                i32 (Z.of_nat (length (locals s)));
                i32 (Z.of_nat (length (monitors s))) ]
  | None => [ i32 0; i32 (-1); i32 0; i32 0; i32 0 ]
  end.

(** The typed stack elements and locals, then the monitors. *)
Definition vmStateValues (jvmState : option JVMState) : list Value :=
  match jvmState with
  | Some s =>
      flat_map (fun e => [i32 (fst e); snd e]) (stackElements s)
      ++ flat_map (fun e => [i32 (fst e); snd e]) (locals s)
      ++ monitors s
  | None => []
  end.

(** The statepoint arguments that precede the live values. *)
Definition statepointPrefix (Target : Value) (numArgs : nat)
           (jvmState : option JVMState) (origArgs : list Value) : list Value :=
  [Target; i32 (Z.of_nat numArgs); i32 0]
  ++ vmStateHeader jvmState ++ origArgs ++ vmStateValues jvmState.

(** The [gc.relocate] of [liveVariables[i]]: token, then the two indices,
    both offset by [live_start]. *)
Definition relocateArgs (token : Value) (live_start : nat)
           (liveVariables : list Value) (base live : Value) : option (list Value) :=
  bi ← find_index liveVariables base;
  di ← find_index liveVariables live;
  Some [ token; i32 (Z.of_nat (live_start + bi)); i32 (Z.of_nat (live_start + di)) ].

Definition mkCall (ty : Ty) (args : list Value) (callee : Value) (id : nat)
  : Instruction :=
  mkInstruction id Call ty (args ++ [callee]) [] [].

(** The loop that creates one [gc.relocate] per live variable at the
    insertion point [IP]; the state is the function and [newDefs]. *)
Fixpoint emitRelocates (IP : nat) (token : Value) (live_start : nat)
         (liveVariables : list Value) (pairs : list (Value * Value))
         (F : Function) (newDefs : list Instruction)
  : option (Function * list Instruction) :=
  match pairs with
  | [] => Some (F, newDefs)
  | (base, live) :: rest =>
      args ← relocateArgs token live_start liveVariables base live;
      '(F', reloc) ← emitBefore F IP (mkCall (getType live) args gc_relocate_decl);
      emitRelocates IP token live_start liveVariables rest F' (newDefs ++ [reloc])
  end.

(** [BasicBlock::Create(..., F, InsertBefore)]. *)
Fixpoint insertBlockBefore (l : label) (new : BasicBlock) (bs : list BasicBlock)
  : option (list BasicBlock) :=
  match bs with
  | [] => None
  | B :: rest =>
      if decide (bid B = l) then Some (new :: B :: rest)
      else (fun r => B :: r) <$> insertBlockBefore l new rest
  end.

Definition setIncoming (J : Instruction) (bs : list label) : Instruction :=
  mkInstruction (iid J) (iop J) (ity J) (operands J) (successors J) bs.

Definition setOperands (J : Instruction) (ops : list Value) : Instruction :=
  mkInstruction (iid J) (iop J) (ity J) ops (successors J) (incoming J).

(** The loop over the leading phi nodes of the normal destination: every
    incoming edge from [from] now comes from [to]. *)
Fixpoint retargetPhis (from to : label) (l : list Instruction) : list Instruction :=
  match l with
  | [] => []
  | J :: rest =>
      if decide (iop J = PHI)
      then setIncoming J ((fun b => if decide (b = from) then to else b) <$> incoming J)
           :: retargetPhis from to rest
      else l
  end.

Definition mapBlock (l : label) (f : list Instruction -> list Instruction)
           (bs : list BasicBlock) : list BasicBlock :=
  (fun B => if decide (bid B = l) then mkBasicBlock (bid B) (f (insts B)) else B) <$> bs.

(** [VerifySafepointBounds]. *)
Definition VerifySafepointBounds (F : Function) (bounds : Instruction * Instruction)
  : option unit :=
  first ← getParent F (iid (fst bounds));
  second ← getParent F (iid (snd bounds));
  if decide (bid first = bid second) then Some tt
  else
    invoke ← getTerminator first;
    if negb (bool_decide (iop invoke = Invoke)) then None
    else if bool_decide (head (successors invoke) = Some (bid second)) then Some tt
         else None.

Section CreateSafepoint.
(** [isJVMState] and the [JVMState] view of a VM state call come with the
    VM state support of the fork, which is not part of the pass. *)
Variable isJVMState : Value -> bool.
Variable JVMState_of : Instruction -> JVMState.

(** The statepoint itself: a call placed before the call it replaces, with
    the insertion point moved to the instruction after the old call; or an
    invoke with a new normal destination that receives what follows.  The
    result is the function, the token and the insertion point. *)
Definition createToken (F : Function) (CS : CallSite) (args : list Value)
  : option (Function * Instruction * nat) :=
  if isCall CS then
    '(F', call) ← emitBefore F (iid CS) (mkCall tokenTy args gc_statepoint_decl);
    next ← nextInstruction F' (iid CS);
    Some (F', call, iid next)
  else if isInvoke CS then
    oldDest ← successors CS !! 0;
    unwindDest ← successors CS !! 1;
    parent ← getParent F (iid CS);
    let normalDest := freshLabel F in
    let br := mkInstruction (freshId F) Br VoidTy [] [oldDest] [] in
    bs ← insertBlockBefore oldDest (mkBasicBlock normalDest [br]) (blocks F);
    let F1 := setBlocks F (mapBlock oldDest (retargetPhis (bid parent) normalDest) bs) in
    '(F2, invoke) ← emitBefore F1 (iid CS)
                      (fun id => mkInstruction id Invoke tokenTy
                                   (args ++ [gc_statepoint_decl])
                                   [normalDest; unwindDest] []);
    Some (F2, invoke, iid br)
  else None.

(** The called value as the statepoint takes it: cast back to the original
    function type when the call site carries the VM state as an extra first
    argument. *)
Definition statepointTarget (F : Function) (CS : CallSite) (Target : Value)
           (isCallSiteHoldingVMState : bool) : option (Function * Value) :=
  if isCallSiteHoldingVMState
  then '(F', bc) ← emitBefore F (iid CS)
                     (fun id => mkInstruction id Cast (PointerTy 0) [Target] [] []);
       Some (F', valueOf bc)
  else Some (F, Target).

(** The arguments of the original call, without the VM state when the call
    site holds one; in that case the VM state is kept in use by an anchor
    store. *)
Definition statepointOrigArgs (F : Function) (CS : CallSite)
           (jvmStateCall : option Instruction)
           (isCallSiteHoldingVMState : bool) : option (Function * list Value) :=
  if isCallSiteHoldingVMState
  then vm ← jvmStateCall;
       '(F', _) ← emitBefore F (iid CS)
                    (fun id => mkInstruction id Store VoidTy
                                 [valueOf vm; jvmstate_anchor] [] []);
       Some (F', tail (callArgs CS))
  else Some (F, callArgs CS).

(** The [gc_result] of a call whose result is used. *)
Definition emitResult (F : Function) (CS : CallSite) (token : Instruction)
           (IP : nat) : option (Function * option Instruction) :=
  if negb (isVoidTy (ity CS)) && negb (use_empty F (valueOf CS))
  then decl ← gc_result_decl (ity CS);
       '(F', r) ← emitBefore F IP (mkCall (ity CS) [valueOf token] decl);
       Some (F', Some r)
  else Some (F, None).

Definition CreateSafepoint (F : Function) (CS : CallSite)
           (jvmStateCall : option Instruction)
           (basePtrs liveVariables : list Value)
           (result0 : PartiallyConstructedSafepointRecord)
  : option (Function * PartiallyConstructedSafepointRecord) :=
  if negb (bool_decide (length basePtrs = length liveVariables)) then None else
  Target ← getCalledValue CS;
  let isCallSiteHoldingVMState :=
    match head (operands CS) with Some V => isJVMState V | None => false end in
  let jvmState := JVMState_of <$> jvmStateCall in
  '(F1, callee) ← statepointTarget F CS Target isCallSiteHoldingVMState;
  let numArgs := if isCallSiteHoldingVMState then length (callArgs CS) - 1
                 else length (callArgs CS) in
  '(F2, origArgs) ← statepointOrigArgs F1 CS jvmStateCall isCallSiteHoldingVMState;
  let prefix := statepointPrefix callee numArgs jvmState origArgs in
  let live_start := length prefix in
  let args := prefix ++ liveVariables in
  '(F3, token, IP) ← createToken F2 CS args;
  '(F4, gc_result) ← emitResult F3 CS token IP;
  '(F5, newDefs) ← emitRelocates IP (valueOf token) live_start liveVariables
                     (zip basePtrs liveVariables) F4 [];
  let last_inst :=
    match last newDefs with
    | Some l => l
    | None => match gc_result with Some r => r | None => token end
    end in
  _ ← VerifySafepointBounds F5 (token, last_inst);
  Some (F5, mkRecord (liveset result0) (base_pairs result0)
                     (newInsertedDefs result0)
                     (Some (token, last_inst))
                     (valueOf <$> gc_result)).
End CreateSafepoint.

(** [define i8 addrspace(1)* @derive2(...)]: as [sample_derive], with the
    call's result unused. The statepoint for the call relocates [%q] with
    base [%p] and [%p] itself. *)
Definition sample_live : list Value := [valueOf sample_gep; sample_p].
Definition sample_bases : list Value := [sample_p; sample_p].
Definition emptyRecord : PartiallyConstructedSafepointRecord :=
  mkRecord ∅ ∅ ∅ None None.

Definition noJVMState : Instruction -> JVMState := fun _ => mkJVMState 0 [] [] [].
Definition neverJVMState : Value -> bool := fun _ => false.

(** ** Relocation through stack slots: [relocationViaAlloca] *)

(** The instruction with a given identity. *)
Definition getInst (F : Function) (id : nat) : option Instruction :=
  List.find (fun J => bool_decide (iid J = id)) (instructions F).

(** Change the instruction [id] in place. *)
Definition updateInst (F : Function) (id : nat) (f : Instruction -> Instruction)
  : Function :=
  setBlocks F
    ((fun B => mkBasicBlock (bid B)
                 ((fun J => if decide (iid J = id) then f J else J) <$> insts B))
       <$> blocks F).

(** [BB->getFirstNonPHI()]. *)
Definition getFirstNonPHI (B : BasicBlock) : option Instruction :=
  List.find (fun J => negb (bool_decide (iop J = PHI))) (insts B).

(** [cast<Instruction>(V)]. *)
Definition instId (V : Value) : option nat :=
  match V with Inst id _ _ => Some id | _ => None end.

Definition isAlloca (J : Instruction) : bool := bool_decide (iop J = Alloca).

(** The count the pass takes before and after the phase. *)
Definition countAllocas (F : Function) : nat :=
  length (filter (fun J => isAlloca J = true) (instructions F)).

Definition mkAlloca (id : nat) : Instruction :=
  mkInstruction id Alloca (PointerTy 0) [i32 1] [] [].
Definition mkLoad (ty : Ty) (ptr : Value) (id : nat) : Instruction :=
  mkInstruction id Load ty [ptr] [] [].
Definition mkStore (val ptr : Value) (id : nat) : Instruction :=
  mkInstruction id Store VoidTy [val; ptr] [] [].

(** [use->replaceUsesOfWith(From, To)]. *)
Definition replaceUsesOfWith (From To : Value) (J : Instruction) : Instruction :=
  setOperands J ((fun V => if decide (V = From) then To else V) <$> operands J).

(** [phi->setIncomingValue(i, V)]. *)
Definition setIncomingValue (i : nat) (V : Value) (J : Instruction) : Instruction :=
  setOperands J (<[i := V]> (operands J)).

(** Modelled from the spec: [PromoteMemToReg] is the SSA promotion service,
    not part of the pass.  The spec says of it: "Run SSA-promotion of memory
    to registers on the allocated slots, eliminating them."  The model erases
    the slots it is given together with the loads and stores that address
    them; the values the loads stood for are rewired by SSA construction,
    which the spec leaves to the service and the model does not trace. *)
Definition promoted (allocas : list Instruction) (J : Instruction) : bool :=
  bool_decide (iid J ∈ iid <$> allocas)
  || (bool_decide (iop J = Load) && bool_decide (operands J !! 0 ∈ Some <$> (valueOf <$> allocas)))
  || (bool_decide (iop J = Store) && bool_decide (operands J !! 1 ∈ Some <$> (valueOf <$> allocas))).

Definition PromoteMemToReg (allocas : list Instruction) (F : Function) : Function :=
  setBlocks F
    ((fun B => mkBasicBlock (bid B)
                 (filter (fun J => promoted allocas J = false) (insts B)))
       <$> blocks F).

(** [I->eraseFromParent()]. *)
Definition eraseFromParent (F : Function) (id : nat) : Function :=
  setBlocks F
    ((fun B => mkBasicBlock (bid B)
                 (filter (fun J => iid J ≠ id) (insts B)))
       <$> blocks F).

(** The derived pointer of a relocate when the derived index is read as a
    position in the statepoint's argument list, as [CreateSafepoint] writes
    it. *)
Definition derivedPtrAt (F : Function) (relocate : Instruction) : Value :=
  default (UndefValue VoidTy)
    (token ← operands relocate !! 0;
     id ← instId token;
     sp ← getInst F id;
     index ← operands relocate !! 2;
     match index with
     | ConstantInt _ z => callArgs sp !! Z.to_nat z
     | _ => None
     end).

Section RelocationViaAlloca.
(** [GCRelocateOperands(use).derivedPtr()] is read through the statepoint
    support headers, which are not part of the pass. *)
Variable derivedPtr : Function -> Instruction -> Value.

(** "emit alloca for each live gc pointer": the state is the function,
    [allocaMap] and [PromotableAllocas]. *)
Fixpoint emitAllocas (live : list Value) (F : Function)
         (allocaMap : gmap Value Value) (PromotableAllocas : list Instruction)
  : option (Function * gmap Value Value * list Instruction) :=
  match live with
  | [] => Some (F, allocaMap, PromotableAllocas)
  | liveValue :: rest =>
      entry ← getEntryBlock F;
      IP ← getFirstNonPHI entry;
      '(F', alloca) ← emitBefore F (iid IP) mkAlloca;
      emitAllocas rest F' (<[liveValue := valueOf alloca]> allocaMap)
                  (PromotableAllocas ++ [alloca])
  end.

(** [findRelocateValuesAtSP]: every user of the statepoint is cast to an
    intrinsic call; a relocate of a tracked definition is recorded. *)
Definition findRelocateValuesAtSP (F : Function) (statepoint : Instruction)
           (defs : gmap Value (option Value))
  : option (gmap Value (option Value)) :=
  foldl (fun acc use =>
           defs ← acc;
           id ← asIntrinsicInst use;
           if decide (id = gc_relocate)
           then let def := derivedPtr F use in
                if decide (is_Some (defs !! def))
                then Some (<[def := Some (valueOf use)]> defs)
                else Some defs
           else Some defs)
        (Some defs) (users F (valueOf statepoint)).

(** The store that follows one statepoint for one slot. *)
Definition storeAfterStatepoint (allocaMap : gmap Value Value)
           (info : PartiallyConstructedSafepointRecord)
           (acc : option Function) (entry : Value * option Value)
  : option Function :=
  F ← acc;
  let '(def, relocatedValue) := entry in
  alloca ← allocaMap !! def;
  match relocatedValue with
  | Some rv =>
      pos ← instId rv;
      insertAfter F pos (mkStore rv alloca (freshId F))
  | None =>
      if decide (Some def = result info) then Some F
      else
        if negb (isPointerTy (getType def)) then None
        else
          bounds ← safepoint info;
          insertAfter F (iid (snd bounds))
                      (mkStore (ConstantPointerNull (getType def)) alloca (freshId F))
  end.

(** "update gc pointer after each statepoint". *)
Definition storesForRecord (allocaMap : gmap Value Value)
           (acc : option Function) (info : PartiallyConstructedSafepointRecord)
  : option Function :=
  F ← acc;
  bounds ← safepoint info;
  relocations ← findRelocateValuesAtSP F (fst bounds)
                  ((fun _ => None) <$> allocaMap);
  foldl (storeAfterStatepoint allocaMap info) (Some F) (map_to_list relocations).

(** One incoming value of a phi that uses [def]: load in the incoming block. *)
Definition loadForIncoming (def alloca : Value) (useId : nat)
           (acc : option Function) (i : nat) : option Function :=
  F ← acc;
  phi ← getInst F useId;
  V ← operands phi !! i;
  if decide (V = def) then
    b ← incoming phi !! i;
    B ← getBlock F b;
    term ← getTerminator B;
    '(F', load) ← emitBefore F (iid term) (mkLoad (getType def) alloca);
    Some (updateInst F' useId (setIncomingValue i (valueOf load)))
  else Some F.

(** One recorded use of [def]: a load from the slot right before it. *)
Definition loadForUse (def alloca : Value) (acc : option Function) (useId : nat)
  : option Function :=
  F ← acc;
  use ← getInst F useId;
  if decide (iop use = PHI) then
    foldl (loadForIncoming def alloca useId) (Some F)
          (seq 0 (length (operands use)))
  else
    '(F', load) ← emitBefore F useId (mkLoad (getType def) alloca);
    Some (updateInst F' useId (replaceUsesOfWith def (valueOf load))).

(** "update use with load allocas and add store for gc_relocated", for one
    slot: the uses are recorded first, then rewritten, then the initial
    store is placed after the definition, or after the slot when the
    definition is not an instruction. *)
Definition rewriteUsesOf (acc : option Function) (entry : Value * Value)
  : option Function :=
  F ← acc;
  let '(def, alloca) := entry in
  let uses := iid <$> users F def in
  F1 ← foldl (loadForUse def alloca) (Some F) uses;
  pos ← match instId def with
        | Some id => Some id
        | None =>
            match def with
            | Argument _ _ | GlobalVariable _ _ | ConstantPointerNull _
            | ConstantInt _ 0%Z => instId alloca
            | _ => None
            end
        end;
  insertAfter F1 pos (mkStore def alloca (freshId F1)).

(** The maps are [DenseMap]s, whose iteration order is not specified; the
    model walks them in the order of [map_to_list]. *)
Definition relocationViaAlloca (F : Function) (live : list Value)
           (records : list PartiallyConstructedSafepointRecord)
  : option Function :=
  '(F1, allocaMap, PromotableAllocas) ← emitAllocas live F ∅ [];
  F2 ← foldl (storesForRecord allocaMap) (Some F1) records;
  F3 ← foldl rewriteUsesOf (Some F2) (map_to_list allocaMap);
  if bool_decide (PromotableAllocas = []) then Some F3
  else Some (PromoteMemToReg PromotableAllocas F3).
End RelocationViaAlloca.

(** What counting needs of an instruction: its identity and its class. *)
Definition sig (J : Instruction) : nat * Opcode := (iid J, iop J).
Definition sigs (F : Function) : list (nat * Opcode) := sig <$> instructions F.

(** [F'] has the instructions of [F] (possibly with other operands) and, in
    addition, instructions that are not allocas. *)
Definition addsNoAlloca (F F' : Function) : Prop :=
  exists extra, sigs F' ≡ₚ extra ++ sigs F ∧ Forall (fun p => snd p ≠ Alloca) extra.

(** ** Definitions used to state further properties *)

(** The meet over inputs, continued from a running result. *)
Definition meetFrom (is_base_value : Value -> bool)
           (phiStates : gmap Value PhiState)
           (acc : option PhiState) (Vs : list Value) : option PhiState :=
  foldl (fun acc V => cur ← acc; meetWith is_base_value phiStates cur V) acc Vs.

(** A phi of GC pointers and two arguments, for the examples. *)
Definition sample_phi : Value := Inst 40 PHI (PointerTy 1).
Definition sample_q : Value := Argument 1 (PointerTy 1).
Definition no_metadata : Value -> bool := fun _ => false.

(** Liveness before a straight-line run of instructions, given what is live
    after it: [V] is used by the first instruction, or it is live before the
    rest and the first instruction does not define it. *)
Fixpoint liveBefore (range : list Instruction) (LiveAfter : gset Value)
         (V : Value) : Prop :=
  match range with
  | [] => V ∈ LiveAfter
  | J :: rest =>
      (V ∈ operands J ∧ isLiveOperand V = true)
      ∨ (V ≠ valueOf J ∧ liveBefore rest LiveAfter V)
  end.

(** [F'] is [F] with new instructions put in between the old ones: nothing
    of [F] is removed or changed, the new instructions have identities [F]
    does not use, and every block keeps its label and its last instruction
    (hence its successors). *)
Definition sameShape (B B' : BasicBlock) : Prop :=
  bid B = bid B' ∧ last (insts B) = last (insts B').

Definition extends (F F' : Function) : Prop :=
  (exists new, instructions F' ≡ₚ new ++ instructions F ∧
               Forall (fun J => iid J ∉ (iid <$> instructions F)) new) ∧
  Forall2 sameShape (blocks F) (blocks F').

(** What [findRelocateValuesAtSP] looks for among the users of a statepoint:
    a [gc.relocate] of [def]. *)
Definition relocates (derivedPtr : Function -> Instruction -> Value)
           (F : Function) (def : Value) (use : Instruction) : Prop :=
  asIntrinsicInst use = Some gc_relocate ∧ derivedPtr F use = def.

(** [sample_derive] after [CreateSafepoint] at its call, with the record of
    that statepoint, and the statepoint itself. *)
Definition sample_statepointed : Function * PartiallyConstructedSafepointRecord :=
  default (sample_derive, emptyRecord)
          (CreateSafepoint neverJVMState noJVMState sample_derive sample_call None
                           sample_bases sample_live emptyRecord).

Definition sample_token : Instruction :=
  match safepoint (snd sample_statepointed) with
  | Some (token, _) => token
  | None => sample_call
  end.

Definition sample_tracked : gmap Value (option Value) :=
  {[ sample_p := None; valueOf sample_gep := None ]}.

(** The terminators of the backedges of [L]: one per edge into the header
    that comes from a block of the loop, in predecessor order. *)
Definition backedgeTerminators (F : Function) (L : Loop) : list Instruction :=
  snd <$> filter (fun edge => contains L (bid (fst edge)) = true)
                 (pred_edges F (getHeader L)).

(** [define void @gc.safepoint_poll()], asking for every kind of poll. *)
Definition sample_poll_function : Function :=
  {| fname := "gc.safepoint_poll";
     fattrs := {[ "gc-add-call-safepoints"%string := "true"%string ]};
     fargs := [];
     blocks := [ mkBasicBlock 0 [mkInstruction 1 Call VoidTy
                                   [FunctionRef "do_safepoint" not_intrinsic] [] [];
                                 mkInstruction 2 Ret VoidTy [] [] []] ] |}.

Definition allFunctionsOptions : Options :=
  {| AllBackedges := false; BaseRewriteOnly := false; AllFunctions := true;
     UseVMState := false; DataflowLiveness := true;
     NoEntry := false; NoCall := false; NoBackedge := false |}.

(** ** The meet iteration of [findBasePointer]

    [states] is the [std::map<Value*, PhiState>] of the merges (phis and
    selects) whose base is not known yet.  The loop visits the keys in the
    order of the map, which for a map keyed by pointers is no property of
    the program; the model visits them in the order of [map_to_list], and
    [meetPassOver] takes any order. *)

Section FindBasePointer.
Variable is_base_value : Value -> bool.
(** [inputBDVs v]: [findBaseOrBDV] of the true and of the false value of a
    select, of every incoming value of a phi, in operand order.  The cache
    of base-defining values makes the answer for one input the same at every
    visit of the loop. *)
Variable inputBDVs : Value -> list Value.

(** The body of [for (auto Pair : states)]; the state is the table and
    [progress]. *)
Definition meetStep (st : option (gmap Value PhiState * bool)) (v : Value)
  : option (gmap Value PhiState * bool) :=
  '(states, progress) ← st;
  if isKnownBaseResult is_base_value v then None
  else if negb (isaSelectInst v || isaPHINode v) then None
  else
    newState ← meetAll is_base_value states (inputBDVs v);
    let oldState := default PhiState_default (states !! v) in
    if decide (oldState ≠ newState)
    then Some (<[v := newState]> states, true)
    else Some (states, progress).

Definition meetPassOver (keys : list Value) (states : gmap Value PhiState)
  : option (gmap Value PhiState * bool) :=
  foldl meetStep (Some (states, false)) keys.

Definition meetPass (states : gmap Value PhiState)
  : option (gmap Value PhiState * bool) :=
  meetPassOver (fst <$> map_to_list states) states.

(** [while (progress)], bounded by [fuel]; the two assertions on the size
    of the table close every round. *)
Fixpoint meetIterate (fuel : nat) (states : gmap Value PhiState)
  : option (gmap Value PhiState) :=
  match fuel with
  | 0 => None
  | S fuel' =>
      let oldSize := size states in
      '(states', progress) ← meetPass states;
      if negb (bool_decide (oldSize ≤ size states')) then None
      else if negb (bool_decide (oldSize = size states') || progress) then None
      else if progress then meetIterate fuel' states' else Some states'
  end.
End FindBasePointer.

(** The order of the lattice, [Conflict] below [Base(b)] below [Unknown],
    and the height of a state in it. *)
Definition PhiState_le (s t : PhiState) : Prop :=
  t = PhiState_default ∨ s = PhiState_conflict ∨ s = t.

Definition rank (s : PhiState) : nat :=
  match getStatus s with Unknown => 2 | Base => 1 | Conflict => 0 end.

Definition measure (states : gmap Value PhiState) : nat :=
  sum_list_with (fun p => rank (snd p)) (map_to_list states).

(** The table is closed: an input of a merge of the table is a known base
    or a merge of the table; and no key is a known base. *)
Definition table_closed (is_base_value : Value -> bool)
           (inputBDVs : Value -> list Value)
           (states : gmap Value PhiState) : Prop :=
  forall v, v ∈ dom states ->
    isKnownBaseResult is_base_value v = false ∧
    forall V, V ∈ inputBDVs v ->
              isKnownBaseResult is_base_value V = true ∨ V ∈ dom states.

(** [v] has the state its inputs give it. *)
Definition settled (is_base_value : Value -> bool)
           (inputBDVs : Value -> list Value)
           (states : gmap Value PhiState) (v : Value) : Prop :=
  exists s, states !! v = Some s ∧
            meetAll is_base_value states (inputBDVs v) = Some s.

(** The bases recorded in the table are known bases. *)
Definition bases_known (is_base_value : Value -> bool)
           (states : gmap Value PhiState) : Prop :=
  forall v s b, states !! v = Some s -> getBase s = Some b ->
                isKnownBaseResult is_base_value b = true.

(** Two phis that feed each other, [%a = phi [%p, %b]] and
    [%b = phi [%q, %a]], and a phi [%c = phi [%p, %c]] that only has itself
    and [%p]. *)
Definition sample_a : Value := Inst 41 PHI (PointerTy 1).
Definition sample_b : Value := Inst 42 PHI (PointerTy 1).
Definition sample_c : Value := Inst 43 PHI (PointerTy 1).
Definition sample_inputs (v : Value) : list Value :=
  if decide (v = sample_a) then [sample_p; sample_b]
  else if decide (v = sample_b) then [sample_q; sample_a]
  else if decide (v = sample_c) then [sample_p; sample_c]
  else [].
Definition sample_states : gmap Value PhiState :=
  {[ sample_a := PhiState_default; sample_b := PhiState_default;
     sample_c := PhiState_default ]}.

(** ** The dataflow equations of liveness *)

(** The control-flow graph is well formed: block labels are unique and every
    successor is a block of the function. *)
Definition cfg_wf (F : Function) : Prop :=
  NoDup (bid <$> blocks F) ∧
  forall B s, B ∈ blocks F -> s ∈ succs B -> s ∈ (bid <$> blocks F).

(** [Data] solves the liveness equations of [F]: what is live out of a block
    is what is live into its successors, and what is live into a block is
    what the backward scan of the block makes of its live-out set. *)
Definition liveEquations (F : Function) (Data : GCPtrLivenessData) : Prop :=
  forall B, B ∈ blocks F ->
    exists In Out,
      LiveIn Data !! bid B = Some In ∧ LiveOut Data !! bid B = Some Out ∧
      unionLiveIn Data (succs B) = Some Out ∧
      In = computeGCPtrLiveness_range (rev (insts B)) Out.

(** Everything a live set can hold: the operands of [F] that pass the USE
    test. *)
Definition liveOperands (F : Function) : gset Value :=
  list_to_set (filter (fun V => isLiveOperand V = true)
                      (flat_map operands (instructions F))).

Definition edgeCount (F : Function) : nat := length (flat_map succs (blocks F)).

(** A number of turns of the worklist loop that always suffices. *)
Definition livenessFuel (F : Function) : nat :=
  length (blocks F) * size (liveOperands F) * S (edgeCount F) + length (blocks F).

(** The entry of a block in a map of sets, empty when there is none, and
    the union over a list of blocks. *)
Definition liveAt (M : gmap label (gset Value)) (l : label) : gset Value :=
  default ∅ (M !! l).

Definition unionOf (M : gmap label (gset Value)) (ss : list label) : gset Value :=
  foldl (fun acc s => acc ∪ liveAt M s) ∅ ss.

(** What the worklist loop keeps true. *)
Record livenessInv (F : Function) (worklist : list label)
       (Data : GCPtrLivenessData) : Prop := mkLivenessInv {
  inv_dom_in : dom (LiveIn Data) = list_to_set (bid <$> blocks F);
  inv_dom_out : dom (LiveOut Data) = list_to_set (bid <$> blocks F);
  inv_worklist : forall l, l ∈ worklist -> l ∈ (bid <$> blocks F);
  inv_scanned : forall B, B ∈ blocks F ->
      liveAt (LiveIn Data) (bid B)
      = computeGCPtrLiveness_range (rev (insts B)) (liveAt (LiveOut Data) (bid B))
      ∨ (bid B ∈ worklist ∧ liveAt (LiveIn Data) (bid B) = ∅
         ∧ liveAt (LiveOut Data) (bid B) = ∅);
  inv_below : forall B, B ∈ blocks F ->
      liveAt (LiveOut Data) (bid B) ⊆ unionOf (LiveIn Data) (succs B);
  inv_settled : forall B, B ∈ blocks F -> bid B ∉ worklist ->
      liveAt (LiveOut Data) (bid B) = unionOf (LiveIn Data) (succs B);
  inv_bound : forall l, liveAt (LiveIn Data) l ⊆ liveOperands F;
}.

(** The room left for the live-in sets to grow. *)
Definition livenessRoom (F : Function) (Data : GCPtrLivenessData) : nat :=
  sum_list_with (fun B => size (liveOperands F) - size (liveAt (LiveIn Data) (bid B)))
                (blocks F).

(** ** Base-defining values: [findBaseDefiningValue], [findBaseOrBDV] *)

Definition isaCastInst (V : Value) : bool :=
  match V with Inst _ (Cast | IntToPtr) _ => true | _ => false end.

Section FindBaseDefiningValue.
Variable opts : Options.
(** The function whose instructions the values denote. *)
Variable F : Function.
(** [Value::stripPointerCasts], [getMetadata("verifier_exception")] and
    [AtomicRMWInst::getOperation() == Xchg] are read through the IR library,
    which is not part of the pass. *)
Variable stripPointerCasts : Value -> Value.
Variable verifier_exception : Value -> bool.
Variable isXchg : Instruction -> bool.

(** [findBaseDefiningValue].  The recursion through casts and GEPs is
    bounded by [fuel]; [None] is a failed assertion, an unreachable, or the
    end of the fuel.  The instruction classes that the opening assertions
    reject and the ones no case takes are all [None]: terminators other than
    invoke, stores, and the rest ([OtherOp]: vector operations, comparisons,
    binary operators, fences, landing pads, [insertvalue]). *)
Fixpoint findBaseDefiningValue (fuel : nat) (I : Value) : option Value :=
  match fuel with
  | 0 => None
  | S fuel' =>
      if negb (isPointerTy (getType I)) then None
      else
        match I with
        | Argument _ _ => Some I
        | GlobalVariable _ _ => if AllFunctions opts then Some I else None
        | UndefValue _ => if AllFunctions opts then Some I else None
        | ConstantInt _ _ | ConstantPointerNull _ | FunctionRef _ _ =>
            if isNullValue I then Some I else None
        | InlineAsm _ => None
        | Inst id op _ =>
            match op with
            | Br | Ret | Unreachable | IndirectBr | Store | OtherOp => None
            | Cast | IntToPtr =>
                let def := stripPointerCasts I in
                if negb (isPointerTy (getType def)) then None
                else if isaCastInst def then
                  match def with
                  | Inst _ IntToPtr _ =>
                      if verifier_exception def then Some def
                      else if AllFunctions opts then Some def
                      else None
                  | _ => None
                  end
                else findBaseDefiningValue fuel' def
            | Load =>
                LI ← getInst F id;
                Op ← operands LI !! 0;
                if isPointerTy (getType Op) then Some I else None
            | GetElementPtr =>
                GEP ← getInst F id;
                Op ← operands GEP !! 0;
                if isPointerTy (getType Op) then findBaseDefiningValue fuel' Op
                else None
            | Alloca => if AllFunctions opts then Some I else None
            | Call =>
                call ← getInst F id;
                match asIntrinsicInst call with
                | Some (statepoint | gc_result_ptr | gc_result_float
                       | gc_result_int | gc_relocate | gcroot) => None
                | _ => Some I
                end
            | Invoke => Some I
            | AtomicCmpXchg => cas ← getInst F id; operands cas !! 0
            | AtomicRMW =>
                atomic ← getInst F id;
                if isXchg atomic then operands atomic !! 0 else None
            | ExtractValue => Some I
            | Select | PHI => Some I
            end
        end
  end.

(** [findBaseDefiningValueCached]: the result and the cache after the call. *)
Definition findBaseDefiningValueCached (fuel : nat) (I : Value)
           (cache : gmap Value Value) : option (Value * gmap Value Value) :=
  match cache !! I with
  | Some r => Some (r, cache)
  | None => r ← findBaseDefiningValue fuel I; Some (r, <[I := r]> cache)
  end.

(** [findBaseOrBDV]. *)
Definition findBaseOrBDV (fuel : nat) (I : Value) (cache : gmap Value Value)
  : option (Value * gmap Value Value) :=
  '(def, cache') ← findBaseDefiningValueCached fuel I cache;
  match cache' !! def with
  | Some r => Some (r, cache')
  | None => Some (def, cache')
  end.
End FindBaseDefiningValue.

(** The values [findBaseDefiningValue] returns as themselves: pointers that
    are arguments, null, loads, calls, invokes, [extractvalue]s, selects and
    phis, marked [inttoptr]s, and, under [AllFunctions] only, globals,
    undefs, allocas and unmarked [inttoptr]s. *)
Definition baseDefining (opts : Options) (verifier_exception : Value -> bool)
           (V : Value) : Prop :=
  isPointerTy (getType V) = true ∧
  match V with
  | Argument _ _ | ConstantPointerNull _ => True
  | GlobalVariable _ _ | UndefValue _ => AllFunctions opts = true
  | Inst _ op _ =>
      match op with
      | Load | Call | Invoke | ExtractValue | Select | PHI => True
      | Alloca => AllFunctions opts = true
      | IntToPtr => verifier_exception V = true ∨ AllFunctions opts = true
      | _ => False
      end
  | _ => False
  end.

(** [V] is the pointer operand of a [cmpxchg] or an [atomicrmw] of [F]. *)
Definition atomicPointerOperand (F : Function) (V : Value) : Prop :=
  exists id op t J, (op = AtomicCmpXchg ∨ op = AtomicRMW) ∧
                    isPointerTy (getType (Inst id op t)) = true ∧
                    getInst F id = Some J ∧ operands J !! 0 = Some V.

(** The cache holds base-defining values only. *)
Definition cacheOfBDVs (bdv : Value -> option Value) (cache : gmap Value Value) : Prop :=
  forall v r, cache !! v = Some r -> bdv v = Some r.

(** [stripPointerCasts] on the samples: nothing to strip. *)
Definition noCasts : Value -> Value := fun V => V.
Definition neverXchg : Instruction -> bool := fun _ => false.

(** [%old = cmpxchg i8 addrspace(1)* %q, ...] after the GEP [%q] of
    [sample_derive]. *)
Definition sample_cas : Instruction :=
  mkInstruction 30 AtomicCmpXchg (PointerTy 1)
                [valueOf sample_gep; sample_p; sample_p] [] [].
Definition sample_atomic : Function :=
  {| fname := "atomic";
     fattrs := ∅;
     fargs := [sample_p];
     blocks := [ mkBasicBlock 0 [sample_gep; sample_cas; sample_ret] ] |}.

(** ** Liveness after base insertion: [fixupLiveness] (dataflow mode) *)

(** "if (base_pairs.count(V)) assert(base_pairs[V] == V);
     else base_pairs[V] = V". *)
Definition ownBase (acc : option (gmap Value Value)) (V : Value)
  : option (gmap Value Value) :=
  bp ← acc;
  match bp !! V with
  | Some b => if decide (b = V) then Some bp else None
  | None => Some (<[V := V]> bp)
  end.

(** The closing loop: every base goes into the live set, and every key of
    [base_pairs] is asserted to be in it by then. *)
Definition addBaseToLive (acc : option (gset Value)) (Pair : Value * Value)
  : option (gset Value) :=
  updated ← acc;
  let updated' := {[snd Pair]} ∪ updated in
  if decide (fst Pair ∈ updated') then Some updated' else None.

(** [fixupLiveness(RevisedLivenessData, CS, allInsertedDefs, info)].  The
    sets and the map are walked in the order of [elements] and
    [map_to_list]. *)
Definition fixupLiveness (F : Function) (RevisedLivenessData : GCPtrLivenessData)
           (CS : CallSite) (allInsertedDefs : gset Value)
           (info : PartiallyConstructedSafepointRecord)
  : option PartiallyConstructedSafepointRecord :=
  updated ← findLiveSetAtInst F CS RevisedLivenessData;
  bp1 ← foldl (fun acc V => if decide (V ∈ allInsertedDefs) then ownBase acc V else acc)
              (Some (base_pairs info)) (elements updated);
  let bases : gset Value := map_img bp1 in
  bp2 ← foldl ownBase (Some bp1) (elements bases);
  if negb (bool_decide (set_Forall (fun V => V ∈ liveset info ∨ V ∈ bases
                                             ∨ V ∈ allInsertedDefs) updated))
  then None
  else
    updated' ← foldl addBaseToLive (Some updated) (map_to_list bp2);
    Some (mkRecord updated' bp2 (newInsertedDefs info) (safepoint info)
                   (result info)).

(** The liveness of [sample_derive], and the record of its call before the
    fix-up: [%q] is live across the call, with base [%p]. *)
Definition sample_liveness : GCPtrLivenessData :=
  default (mkGCPtrLivenessData ∅ ∅) (computeGCPtrLiveness sample_derive 10).
Definition sample_record : PartiallyConstructedSafepointRecord :=
  mkRecord {[ valueOf sample_gep ]} {[ valueOf sample_gep := sample_p ]} ∅ None None.

(** ** [InsertSafepoint] *)

(** One turn of the loop that fills [livevec] and [basevec]: the base is
    asserted to exist. *)
Definition basePairOf (base_pairs : gmap Value Value) (L : Value)
  : option (Value * Value) :=
  base ← base_pairs !! L;
  Some (base, L).

Section InsertSafepoint.
Variable isJVMState : Value -> bool.
Variable JVMState_of : Instruction -> JVMState.
(** [stablize_order] sorts the (base, derived) pairs by the name of the
    derived value with [std::sort].  Names are not part of this embedding,
    and [std::sort] does not fix the order among equal names. *)
Variable stablize_order : list (Value * Value) -> list (Value * Value).

(** [basevec] and [livevec] as handed to [CreateSafepoint]. *)
Definition safepointVectors (result : PartiallyConstructedSafepointRecord)
  : option (list Value * list Value) :=
  temp ← mapM (basePairOf (base_pairs result)) (elements (liveset result));
  let sorted := stablize_order temp in
  Some (fst <$> sorted, snd <$> sorted).

Definition InsertSafepoint (opts : Options) (F : Function) (CS : CallSite)
           (vm_state : option Instruction)
           (result : PartiallyConstructedSafepointRecord)
  : option (Function * PartiallyConstructedSafepointRecord) :=
  if BaseRewriteOnly opts then Some (F, result)
  else
    '(basevec, livevec) ← safepointVectors result;
    CreateSafepoint isJVMState JVMState_of F CS vm_state basevec livevec result.
End InsertSafepoint.

(** The order the samples are given in. *)
Definition keepOrder : list (Value * Value) -> list (Value * Value) := fun l => l.

(** ** [addBasesAsLiveValues] *)

(** The first loop: the base of a live value that is not live itself is
    [missing]; it is asserted to have no base of its own yet. *)
Definition missingBase (liveset : gset Value) (base_pairs : gmap Value Value)
           (acc : option (gset Value)) (L : Value) : option (gset Value) :=
  missing ← acc;
  base ← base_pairs !! L;
  if decide (base ∈ liveset) then Some missing
  else if decide (is_Some (base_pairs !! base)) then None
  else Some ({[base]} ∪ missing).

(** The second loop: a missing base becomes live, as its own base. *)
Definition addMissing (st : gset Value * gmap Value Value) (base : Value)
  : gset Value * gmap Value Value :=
  ({[base]} ∪ fst st, <[base := base]> (snd st)).

Definition addBasesAsLiveValues (liveset : gset Value)
           (base_pairs : gmap Value Value)
  : option (gset Value * gmap Value Value) :=
  missing ← foldl (missingBase liveset base_pairs) (Some ∅) (elements liveset);
  let st := foldl addMissing (liveset, base_pairs) (elements missing) in
  if decide (size (fst st) = size (snd st)) then Some st else None.

(** ** The pass on one function: [PlaceSafepoints::runOnFunction] *)

#[global] Instance Instruction_countable : Countable Instruction.
Proof.
  apply (inj_countable'
           (fun J => (iid J, iop J, ity J, operands J, successors J, incoming J))
           (fun '(a, b, c, d, e, f) => mkInstruction a b c d e f)).
  by intros [].
Defined.

Section RunOnFunction.
Variable opts : Options.
(** The module of the function, for the attributes of callees. *)
Variable M : Module.
(** The bound of the entry walk. *)
Variable fuel : nat.
(** What the pass calls outside this file: the removal of unreachable
    blocks; the loop pass manager, which brings the function into
    loop-simplified form and names the loops it visits with their trip-count
    analysis; the inlining of the poll function before an instruction, with
    the calls found in the inlined code; the merging of VM states; and the
    rewriting of the parse points, which is [insertParsePoints]. *)
Variable removeUnreachableBlocks : Function -> Function * bool.
Variable loopPasses : Function -> Function * list Loop * ScalarEvolution.
Variable InsertSafepointPoll :
  Function -> Instruction -> option (Function * list CallSite).
Variable MergeNonDominatingVMStates : list Instruction -> Function -> Function.
Variable insertParsePoints : Function -> list CallSite -> option (Function * bool).

(** [FPM.run(F)] with [PlaceBackedgeSafepointsImpl]: the function after the
    loop passes and [PBS->PollLocations]. *)
Definition backedgePollLocations (F : Function)
  : option (Function * list Instruction) :=
  let '(F', loops, SE) := loopPasses F in
  PollLocations ← foldl (fun acc L =>
                           PollLocations ← acc;
                           '(_, PollLocations') ← runOnLoop opts F' SE L PollLocations;
                           Some PollLocations')
                        (Some []) loops;
  Some (F', PollLocations).

(** "Insert a poll at each point the analysis pass identified"; the state is
    the function, [modified] and [ParsePointNeeded]. *)
Definition insertPollAt (acc : option (Function * bool * list CallSite))
           (term : Instruction) : option (Function * bool * list CallSite) :=
  '(F, _, ParsePointNeeded) ← acc;
  '(F', ParsePoints) ← InsertSafepointPoll F term;
  Some (F', true, ParsePointNeeded ++ ParsePoints).

Definition runOnFunction (F : Function) : option (Function * bool) :=
  if bool_decide (blocks F = []) then Some (F, false)
  else
    let '(F0, modified0) := removeUnreachableBlocks F in
    '(F1, modified1, Needed1) ←
      (if negb (NoBackedge opts)
       then '(F', PollLocations) ← backedgePollLocations F0;
            foldl insertPollAt (Some (F', modified0, [])) PollLocations
       else Some (F0, modified0, []));
    '(F2, modified2, Needed2) ←
      (if negb (NoEntry opts)
       then term ← findLocationForEntrySafepoint opts fuel F1;
            match term with
            | None => Some (F1, modified1, Needed1)
            | Some term => insertPollAt (Some (F1, modified1, Needed1)) term
            end
       else Some (F1, modified1, Needed1));
    Needed3 ←
      (if negb (NoCall opts)
       then Calls ← findCallSafepoints opts M F2; Some (Needed2 ++ Calls)
       else Some Needed2);
    let ParsePointNeeded := unique_unsorted Needed3 in
    let F3 := if VMStateRequired opts
              then MergeNonDominatingVMStates ParsePointNeeded F2 else F2 in
    '(F4, modified4) ← insertParsePoints F3 ParsePointNeeded;
    Some (F4, modified2 || modified4).
End RunOnFunction.

(** None of the three kinds of safepoints is asked for on [F]: without
    [AllFunctions] the function carries no opt-in attribute, or [F] is the
    poll function under [AllFunctions]. *)
Definition notOptedIn (opts : Options) (F : Function) : Prop :=
  (AllFunctions opts = false ∧
   fnAttrEquals F "gc-add-backedge-safepoints" "true" = false ∧
   fnAttrEquals F "gc-add-entry-safepoints" "true" = false ∧
   fnAttrEquals F "gc-add-call-safepoints" "true" = false)
  ∨ (AllFunctions opts = true ∧ fname F = "gc.safepoint_poll"%string).

(** A service of the pass manager keeps the name and the attributes of the
    function it works on. *)
Definition sameHeader (F F' : Function) : Prop :=
  fname F' = fname F ∧ fattrs F' = fattrs F.

(** Stand-ins for the services on the samples: nothing is unreachable, the
    function is already loop-simplified, no poll function is available, VM
    states need no merging, and the rewriting reports whether it was given
    work. *)
Definition keepBlocks : Function -> Function * bool := fun F => (F, false).
Definition noLoopPasses : Function -> Function * list Loop * ScalarEvolution :=
  fun F => (F, [sample_count_loop], sample_count_SE).
Definition noPollFunction : Function -> Instruction -> option (Function * list CallSite) :=
  fun _ _ => None.
Definition keepVMStates : list Instruction -> Function -> Function := fun _ F => F.
Definition reportWork : Function -> list CallSite -> option (Function * bool) :=
  fun F toUpdate => Some (F, negb (bool_decide (toUpdate = []))).


(** [define void @polled() "gc-add-entry-safepoints"="true"
    "gc-add-call-safepoints"="true"]: a call of [@callee] and a return in the
    entry block, and a block 9 that nothing branches to. *)
Definition sample_polled_call : Instruction :=
  mkInstruction 50 Call VoidTy [FunctionRef "callee" not_intrinsic] [] [].
Definition sample_polled : Function :=
  {| fname := "polled";
     fattrs := {[ "gc-add-entry-safepoints"%string := "true"%string;
                  "gc-add-call-safepoints"%string := "true"%string ]};
     fargs := [];
     blocks := [ mkBasicBlock 0 [sample_polled_call;
                                 mkInstruction 51 Ret VoidTy [] [] []];
                 mkBasicBlock 9 [mkInstruction 52 Ret VoidTy [] [] []] ] |}.

(** Stand-ins for the services on [sample_polled]: block 9 is the
    unreachable one; there is no loop; the poll function is one call of
    [@do_safepoint], placed before the instruction and reported as the parse
    point of the poll; and the rewriting returns the parse points it is
    handed as the only block of the function. *)
Definition dropBlock9 : Function -> Function * bool :=
  fun F => (setBlocks F (filter (fun B => bid B ≠ 9) (blocks F)),
            bool_decide (9 ∈ (bid <$> blocks F))).
Definition pollBefore : Function -> Instruction -> option (Function * list CallSite) :=
  fun F term =>
    '(F', poll) ← emitBefore F (iid term)
                    (fun id => mkInstruction id Call VoidTy
                                 [FunctionRef "do_safepoint" not_intrinsic] [] []);
    Some (F', [poll]).
Definition sample_poll_call : Instruction :=
  mkInstruction 52 Call VoidTy [FunctionRef "do_safepoint" not_intrinsic] [] [].


(** ** The scan of the inlined poll: [scanOneBB], [scanInlinedCode] *)

(** "if (seen.count(Succ) == 0) { worklist.push_back(Succ);
    seen.insert(Succ); }".  The worklist is kept with its back at the head. *)
Definition pushSucc (st : gset label * list label) (Succ : label)
  : gset label * list label :=
  if decide (Succ ∈ fst st) then st
  else ({[Succ]} ∪ fst st, Succ :: snd st).

(** [scanOneBB]: [range] is the block from [start] on and [succsBB] the
    successors of the block; the scan stops at [end] or at the end of the
    block.  An invoke trips the assertion. *)
Fixpoint scanOneBB (endId : nat) (succsBB : list label) (range : list Instruction)
         (calls : list Instruction) (seen : gset label) (worklist : list label)
  : option (list Instruction * gset label * list label) :=
  match range with
  | [] => Some (calls, seen, worklist)
  | J :: rest =>
      if decide (iid J = endId) then Some (calls, seen, worklist)
      else
        let calls' := if isCall J then calls ++ [J] else calls in
        if isInvoke J then None
        else
          let st := if isTerminator J then foldl pushSucc (seen, worklist) succsBB
                    else (seen, worklist) in
          scanOneBB endId succsBB rest calls' (fst st) (snd st)
  end.

(** The [while (!worklist.empty())] loop of [scanInlinedCode], bounded by
    [fuel]. *)
Fixpoint scanInlinedCode_loop (F : Function) (endId : nat) (fuel : nat)
         (calls : list Instruction) (seen : gset label) (worklist : list label)
  : option (list Instruction * gset label) :=
  match worklist with
  | [] => Some (calls, seen)
  | BB :: worklist' =>
      match fuel with
      | 0 => None
      | S fuel' =>
          B ← getBlock F BB;
          '(calls', seen', worklist'') ←
            scanOneBB endId (succs B) (insts B) calls seen worklist';
          scanInlinedCode_loop F endId fuel' calls' seen' worklist''
      end
  end.

(** [scanInlinedCode(start, end, calls, seen)]: [calls] is cleared, [seen]
    is extended. *)
Definition scanInlinedCode (F : Function) (start end_ : Instruction) (fuel : nat)
           (seen : gset label) : option (list Instruction * gset label) :=
  B ← getParent F (iid start);
  range ← instsFrom (iid start) (insts B);
  '(calls, seen', worklist) ←
    scanOneBB (iid end_) (succs B) range [] ({[bid B]} ∪ seen) [];
  scanInlinedCode_loop F (iid end_) fuel calls seen' worklist.

(** The part of a run of instructions before [end], and whether a
    terminator lies in it. *)
Fixpoint takeUntil (endId : nat) (l : list Instruction) : list Instruction :=
  match l with
  | [] => []
  | J :: rest => if decide (iid J = endId) then [] else J :: takeUntil endId rest
  end.

Definition regionCalls (endId : nat) (l : list Instruction) : list Instruction :=
  filter (fun J => isCall J = true) (takeUntil endId l).

Definition reachesTerminator (endId : nat) (l : list Instruction) : bool :=
  existsb isTerminator (takeUntil endId l).

(** What the worklist loop of [scanInlinedCode] keeps true.  [seen0] is the
    set the caller passes in, [b0] the block of [start] with successors
    [ss0], [range0] that block from [start] on, and [scanned] the blocks
    taken off the worklist so far. *)
Record scanInv (F : Function) (endId : nat) (seen0 : gset label) (b0 : label)
       (ss0 : list label) (range0 : list Instruction)
       (scanned : gset label) (calls : list Instruction)
       (seen : gset label) (worklist : list label) : Prop := mkScanInv {
  si_seen : seen = seen0 ∪ {[b0]} ∪ scanned ∪ list_to_set worklist;
  si_nodup : NoDup worklist;
  si_worklist : forall l, l ∈ worklist ->
      (l ∉ scanned) ∧ (l ∉ seen0) ∧ l ≠ b0 ∧ l ∈ (bid <$> blocks F);
  si_scanned : forall l, l ∈ scanned ->
      (l ∉ seen0) ∧ l ≠ b0 ∧ l ∈ (bid <$> blocks F);
  si_calls : forall J, J ∈ calls <->
      J ∈ regionCalls endId range0 ∨
      exists B, B ∈ blocks F ∧ bid B ∈ scanned ∧ J ∈ regionCalls endId (insts B);
  si_closed0 : reachesTerminator endId range0 = true ->
      forall s, s ∈ ss0 -> s ∈ seen;
  si_closed : forall B, B ∈ blocks F -> bid B ∈ scanned ->
      reachesTerminator endId (insts B) = true ->
      forall s, s ∈ succs B -> s ∈ seen;
  si_from : forall l, l ∈ scanned ∨ l ∈ worklist ->
      (reachesTerminator endId range0 = true ∧ l ∈ ss0) ∨
      exists B, B ∈ blocks F ∧ bid B ∈ scanned ∧
                reachesTerminator endId (insts B) = true ∧ l ∈ succs B;
}.

(** A function after the poll was inlined at the head of block 0: the fast
    path tests a flag and branches over the slow path, block 1 holds the
    slow-path call, and block 2 starts with the instruction [after] that
    followed the poll. *)
Definition sample_slow_call : Instruction :=
  mkInstruction 32 Call VoidTy [FunctionRef "do_safepoint" not_intrinsic] [] [].
Definition sample_poll_start : Instruction :=
  mkInstruction 30 Load (IntegerTy 1) [Argument 0 (PointerTy 0)] [] [].
Definition sample_poll_after : Instruction :=
  mkInstruction 34 Call VoidTy [FunctionRef "work" not_intrinsic] [] [].
Definition sample_poll_entry : BasicBlock :=
  mkBasicBlock 0 [sample_poll_start;
                  mkInstruction 31 Br VoidTy [valueOf sample_poll_start] [1; 2] []].
Definition sample_inlined : Function :=
  {| fname := "inlined";
     fattrs := ∅;
     fargs := [Argument 0 (PointerTy 0)];
     blocks := [ sample_poll_entry;
                 mkBasicBlock 1 [sample_slow_call;
                                 mkInstruction 33 Br VoidTy [] [2] []];
                 mkBasicBlock 2 [sample_poll_after;
                                 mkInstruction 35 Ret VoidTy [] [] []] ] |}.

(** ** Liveness of GC pointers (dominator-tree mode) *)

Section DominatorLiveness.
Variable F : Function.
(** [DT.dominates] on two blocks and on a definition and an instruction,
    [isPotentiallyReachable] on two blocks and
    [isPotentiallyReachableNotViaDef(term, use, def, DT, LI)] come with the
    analyses the pass is handed. *)
Variable dominates : label -> label -> bool.
Variable dominatesInst : Value -> Instruction -> bool.
Variable isPotentiallyReachable : label -> label -> bool.
Variable isPotentiallyReachableNotViaDef : Instruction -> Instruction -> Value -> bool.

(** [isLiveAtSafepoint]. *)
Definition isLiveAtSafepoint (term use : Instruction) (def : Value) : bool :=
  isPotentiallyReachableNotViaDef term use def.

(** "for (User* U : def.users()) if (isLiveAtSafepoint(term, use, def, DT,
    LI)) { ...; break; }": whether the body before the [break] is reached. *)
Fixpoint hasLiveUse (term : Instruction) (def : Value) (us : list Instruction) : bool :=
  match us with
  | [] => false
  | use :: rest =>
      if isLiveAtSafepoint term use def then true else hasLiveUse term def rest
  end.

(** The loop over the arguments of the function. *)
Definition findLiveGCArguments (term : Instruction) (liveValues : gset Value)
  : gset Value :=
  foldl (fun live arg =>
           if negb (isGCPointerType (getType arg)) then live
           else if hasLiveUse term arg (users F arg) then {[arg]} ∪ live
           else live)
        liveValues (fargs F).

(** The loop over the instructions of one dominating block; [isPred] is
    [pred == BBI]. *)
Fixpoint findLiveGCValuesInBlock (term : Instruction) (isPred : bool)
         (range : list Instruction) (liveValues : gset Value) : gset Value :=
  match range with
  | [] => liveValues
  | inst :: rest =>
      if isPred && bool_decide (iid inst = iid term) then liveValues
      else if negb (isGCPointerType (ity inst))
      then findLiveGCValuesInBlock term isPred rest liveValues
      else
        findLiveGCValuesInBlock term isPred rest
          (if hasLiveUse term (valueOf inst) (users F (valueOf inst))
           then {[valueOf inst]} ∪ liveValues else liveValues)
  end.

(** [findLiveGCValuesAtInst(term, pred, DT, LI, liveValues)]: the result is
    [liveValues], which is cleared first. *)
Definition findLiveGCValuesAtInst (term : Instruction) (pred : label)
  : option (gset Value) :=
  if negb (isCall term || isInvoke term || isTerminator term) then None
  else
    foldl (fun acc BBI =>
             liveValues ← acc;
             if dominates (bid BBI) pred then
               if negb (isPotentiallyReachable (bid BBI) pred) then None
               else Some (findLiveGCValuesInBlock term (bool_decide (bid BBI = pred))
                                                  (insts BBI) liveValues)
             else Some liveValues)
          (Some (findLiveGCArguments term ∅)) (blocks F).

(** One inserted definition in [fixupLiveness] (dominator-tree mode). *)
Definition fixupNewDef (inst : Instruction)
           (acc : option (gset Value * gmap Value Value)) (newDef : Value)
  : option (gset Value * gmap Value Value) :=
  st ← acc;
  if decide (newDef ∈ fst st) then Some st
  else if negb (isaInstruction newDef) then None
  else if negb (dominatesInst newDef inst) then Some st
  else if hasLiveUse inst newDef (users F newDef)
  then Some ({[newDef]} ∪ fst st, <[newDef := newDef]> (snd st))
  else Some st.

(** [fixupLiveness(DT, CS, allInsertedDefs, result)].  The set of inserted
    definitions is walked in the order of [elements]. *)
Definition fixupLiveness_DT (CS : CallSite) (allInsertedDefs : gset Value)
           (info : PartiallyConstructedSafepointRecord)
  : option PartiallyConstructedSafepointRecord :=
  st0 ← addBasesAsLiveValues (liveset info) (base_pairs info);
  st ← foldl (fixupNewDef CS) (Some st0) (elements allInsertedDefs);
  Some (mkRecord (fst st) (snd st) (newInsertedDefs info) (safepoint info)
                 (result info)).

End DominatorLiveness.

(** Reachability on the single block of [sample_derive]: a use is reached
    from [term] when it comes later in the block. *)
Definition sample_dominates : label -> label -> bool := fun a b => bool_decide (a = b).
Definition sample_reachable : label -> label -> bool := fun _ _ => true.
Definition sample_reachableNotViaDef : Instruction -> Instruction -> Value -> bool :=
  fun term use _ => bool_decide (iid term < iid use).

(** ** The VM state at a safepoint: [findVMState] *)

Section FindVMState.
Variable F : Function.
(** [isJVMStateAnchorInstruction] and [isJVMState] come with the headers of
    the VM.  The dominator tree maps each block that has a node to its
    immediate dominator, if it has one. *)
Variable isJVMStateAnchorInstruction : Instruction -> bool.
Variable isJVMState : Value -> bool.
Variable DT : gmap label (option label).

(** [cast<CallInst>(V)]: the call instruction that [V] is. *)
Definition castCallInst (V : Value) : option Instruction :=
  match V with
  | Inst id Call _ => getInst F id
  | _ => None
  end.

(** The two tests of the inner loop on one instruction: [Some None] when
    neither returns, [None] when a cast trips. *)
Definition vmStateAt (J : Instruction) : option (option Instruction) :=
  if isJVMStateAnchorInstruction J then
    if bool_decide (iop J = Store) then
      V ← operands J !! 0;
      CI ← castCallInst V;
      Some (Some CI)
    else None
  else if isCall J then
    match callArgs J with
    | arg0 :: _ =>
        if isJVMState arg0 then CI ← castCallInst arg0; Some (Some CI)
        else Some None
    | [] => Some None
    end
  else Some None.

(** "while (maybeVMSAnchor != E)": [range] is [I, E) in the order the
    reverse iterator visits it. *)
Fixpoint searchVMState (range : list Instruction) : option (option Instruction) :=
  match range with
  | [] => Some None
  | J :: rest =>
      r ← vmStateAt J;
      match r with
      | Some CI => Some (Some CI)
      | None => searchVMState rest
      end
  end.

(** The [while (true)] loop, bounded by [fuel].  [BB] is [I->getParent()],
    which reads through [I]: an empty range has no instruction to read. *)
Fixpoint findVMState_loop (fuel : nat) (BB : label) (range : list Instruction)
  : option (option Instruction) :=
  match fuel with
  | 0 => None
  | S fuel' =>
      r ← searchVMState range;
      match r with
      | Some CI => Some (Some CI)
      | None =>
          match range with
          | [] => None
          | _ :: _ =>
              node ← DT !! BB;
              match node with
              | None => Some None
              | Some immediateDominator =>
                  B ← getBlock F immediateDominator;
                  findVMState_loop fuel' immediateDominator (rev (insts B))
              end
          end
      end
  end.

(** [findVMState(term, DT)]: the first loop walks the block backwards to
    [term], asserting that it is there; [Some None] is the null result. *)
Definition findVMState (fuel : nat) (term : Instruction)
  : option (option Instruction) :=
  B ← getParent F (iid term);
  range ← instsFrom (iid term) (rev (insts B));
  findVMState_loop fuel (bid B) range.

(** An instruction at which the inner loop returns. *)
Definition holdsVMState (J : Instruction) : bool :=
  isJVMStateAnchorInstruction J
  || (isCall J && match callArgs J with
                  | arg0 :: _ => isJVMState arg0
                  | [] => false
                  end).

(** The walk up the dominator tree: from the range searched in [BB] to the
    range searched in [BB'], every range left behind holding no VM state. *)
Inductive vmStateWalk : label -> list Instruction -> label -> list Instruction -> Prop :=
| vmStateWalk_here BB range : vmStateWalk BB range BB range
| vmStateWalk_idom BB range d B BB' range' :
    (forall J, J ∈ range -> holdsVMState J = false) ->
    DT !! BB = Some (Some d) ->
    getBlock F d = Some B ->
    vmStateWalk d (rev (insts B)) BB' range' ->
    vmStateWalk BB range BB' range'.

(** Where the walk ends, for each result: at the first instruction of the
    range that holds a VM state, or at a block without immediate dominator
    whose range holds none. *)
Definition vmStateOutcome (BB' : label) (range' : list Instruction)
           (r : option Instruction) : Prop :=
  match r with
  | Some CI =>
      exists pre J post,
        range' = pre ++ J :: post ∧
        (forall J', J' ∈ pre -> holdsVMState J' = false) ∧
        holdsVMState J = true ∧ vmStateAt J = Some (Some CI)
  | None =>
      (forall J, J ∈ range' -> holdsVMState J = false) ∧ DT !! BB' = Some None
  end.

End FindVMState.

(** A function with a VM state: block 0 calls [@jvmstate_0] and stores the
    result to the anchor, block 1 holds the call to [@work]. *)
Definition sample_state_call : Instruction :=
  mkInstruction 40 Call (IntegerTy 32) [FunctionRef "jvmstate_0" not_intrinsic] [] [].
Definition sample_anchor : Instruction :=
  mkStore (valueOf sample_state_call) (GlobalVariable "anchor" (PointerTy 0)) 41.
Definition sample_work_call : Instruction :=
  mkInstruction 43 Call VoidTy [FunctionRef "work" not_intrinsic] [] [].
Definition sample_vmstate : Function :=
  {| fname := "vmstate";
     fattrs := ∅;
     fargs := [];
     blocks := [ mkBasicBlock 0 [sample_state_call; sample_anchor;
                                 mkInstruction 42 Br VoidTy [] [1] []];
                 mkBasicBlock 1 [sample_work_call;
                                 mkInstruction 44 Ret VoidTy [] [] []] ] |}.
Definition sample_isAnchor : Instruction -> bool := fun J => bool_decide (iid J = 41).
Definition sample_isJVMState : Value -> bool :=
  fun V => bool_decide (V = valueOf sample_state_call).
Definition sample_DT : gmap label (option label) := {[ 0 := None; 1 := Some 0 ]}.

(** ** [findBasePointer]: the merges reachable from a base-defining value *)

Section FindBasePointerDiscovery.
Variable is_base_value : Value -> bool.
Variable inputBDVs : Value -> list Value.

(** "if (!isKnownBaseResult(local) && states.find(local) == states.end())
     { states[local] = PhiState(); done = false; }" *)
Definition discoverInput (st : gmap Value PhiState * bool) (local : Value)
  : gmap Value PhiState * bool :=
  if negb (isKnownBaseResult is_base_value local)
     && bool_decide (fst st !! local = None)
  then (<[local := PhiState_default]> (fst st), false)
  else st.

(** The body of [for (auto Pair : states)]; the state is the table and
    [done]. *)
Definition discoverStep (st : option (gmap Value PhiState * bool)) (v : Value)
  : option (gmap Value PhiState * bool) :=
  st ← st;
  if isKnownBaseResult is_base_value v then None
  else if isaPHINode v then
    if bool_decide (inputBDVs v = []) then None
    else Some (foldl discoverInput st (inputBDVs v))
  else if isaSelectInst v then Some (foldl discoverInput st (inputBDVs v))
  else Some st.

(** One round over the table.  The round visits the keys the table has when
    it starts; a key added on the way is visited in the next round, which
    follows since [done] is false by then. *)
Definition discoverPassOver (keys : list Value) (states : gmap Value PhiState)
  : option (gmap Value PhiState * bool) :=
  foldl discoverStep (Some (states, true)) keys.

Definition discoverPass (states : gmap Value PhiState)
  : option (gmap Value PhiState * bool) :=
  discoverPassOver (fst <$> map_to_list states) states.

(** [while (!done)], bounded by [fuel]. *)
Fixpoint discover (fuel : nat) (states : gmap Value PhiState)
  : option (gmap Value PhiState) :=
  match fuel with
  | 0 => None
  | S fuel' =>
      '(states', done_) ← discoverPass states;
      if (done_ : bool) then Some states' else discover fuel' states'
  end.

(** The table [findBasePointer] starts the meet iteration with: "states[def]
    = PhiState()" and the discovery loop. *)
Definition discoverFrom (fuel : nat) (def : Value) : option (gmap Value PhiState) :=
  discover fuel {[def := PhiState_default]}.

(** A set of values that holds, with every merge that is not a known base,
    the inputs of the merge that are not known bases. *)
Definition inputs_closed (S : gset Value) : Prop :=
  forall v, v ∈ S -> isKnownBaseResult is_base_value v = false ->
    forall V, V ∈ inputBDVs v ->
              isKnownBaseResult is_base_value V = true ∨ V ∈ S.

(** What the discovery loop keeps true of the table. *)
Definition discoverInv (def : Value) (states : gmap Value PhiState) : Prop :=
  def ∈ dom states ∧
  (forall v s, states !! v = Some s -> s = PhiState_default) ∧
  (forall v, v ∈ dom states -> isKnownBaseResult is_base_value v = false) ∧
  (forall S : gset Value, def ∈ S -> inputs_closed S -> dom states ⊆ S).

End FindBasePointerDiscovery.

(** * Properties *)

(** ** The meet of the base-pointer lattice *)

Lemma PhiState_copy_wf (x : PhiState) : PhiState_wf x -> PhiState_copy x = Some x.
Proof.
  unfold PhiState_wf, PhiState_copy. intros Hwf.
  destruct (getStatus x) eqn:Hs.
  - rewrite decide_True; [done|]. by left.
  - rewrite decide_True; [done|]. by right.
  - rewrite decide_True; [done|]. by left.
Qed.

Lemma PhiState_copy_Some (x r : PhiState) : PhiState_copy x = Some r -> r = x.
Proof. unfold PhiState_copy. case_decide; [by intros [= <-]|done]. Qed.

(** The copy of a [Base] state without base trips the assertion. *)
Lemma PhiState_copy_None (x : PhiState) :
  PhiState_copy x = None <-> getStatus x = Base ∧ getBase x = None.
Proof.
  unfold PhiState_copy. case_decide as Hd.
  - split; [done|]. intros [Hs Hb]. destruct Hd as [Hd|[b Hd]]; congruence.
  - split; [|done]. intros _. split.
    + destruct (decide (getStatus x = Base)); [done|]. exfalso. apply Hd. by left.
    + destruct (getBase x) eqn:Hb; [|done]. exfalso. apply Hd. right. eauto.
Qed.

Lemma pureMeet_unknown_l (x : PhiState) :
  PhiState_wf x -> pureMeet PhiState_default x = Some x.
Proof. intros Hwf. unfold pureMeet. simpl. by apply PhiState_copy_wf. Qed.

Lemma pureMeet_conflict_l (x : PhiState) :
  pureMeet PhiState_conflict x = Some PhiState_conflict.
Proof. reflexivity. Qed.

Lemma pureMeet_base_same (b : Value) :
  pureMeet (PhiState_base b) (PhiState_base b) = Some (PhiState_base b).
Proof.
  unfold pureMeet; simpl.
  destruct (decide (Some b = Some b)) as [_|Hne]; [reflexivity | congruence].
Qed.

Lemma pureMeet_base_distinct (b1 b2 : Value) :
  b1 <> b2 ->
  pureMeet (PhiState_base b1) (PhiState_base b2) = Some PhiState_conflict.
Proof.
  intros Hne. unfold pureMeet; simpl.
  destruct (decide (Some b1 = Some b2)) as [Heq|_]; [congruence | reflexivity].
Qed.

Lemma PhiState_base_wf (b : Value) : PhiState_wf (PhiState_base b).
Proof. unfold PhiState_wf; simpl; eauto. Qed.

(** The well-formed states are the three shapes of the lattice. *)
Lemma PhiState_wf_cases (s : PhiState) :
  PhiState_wf s <->
  s = PhiState_default \/ (exists b, s = PhiState_base b) \/ s = PhiState_conflict.
Proof.
  destruct s as [st b]; unfold PhiState_wf; simpl. split.
  - destruct st; intros Hwf.
    + left. by subst.
    + right; left. destruct Hwf as [v ->]. by exists v.
    + right; right. by subst.
  - intros [Heq | [[v Heq] | Heq]]; inversion Heq; subst; simpl; eauto.
Qed.

(** The meet stays inside the lattice. *)
Lemma pureMeet_wf (a b r : PhiState) :
  PhiState_wf a -> PhiState_wf b -> pureMeet a b = Some r -> PhiState_wf r.
Proof.
  intros Ha%PhiState_wf_cases Hb%PhiState_wf_cases.
  destruct Ha as [-> | [[va ->] | ->]], Hb as [-> | [[vb ->] | ->]];
    unfold pureMeet; simpl; try (by intros [= <-]; apply PhiState_wf_cases; eauto).
  destruct (decide (Some va = Some vb)); intros [= <-];
    apply PhiState_wf_cases; eauto.
Qed.

(** On the lattice the meet never trips an assertion. *)
Lemma pureMeet_total (a b : PhiState) :
  PhiState_wf a -> PhiState_wf b -> is_Some (pureMeet a b).
Proof.
  intros Ha%PhiState_wf_cases Hb%PhiState_wf_cases.
  destruct Ha as [-> | [[va ->] | ->]], Hb as [-> | [[vb ->] | ->]];
    unfold pureMeet; simpl; eauto.
  destruct (decide (Some va = Some vb)); eauto.
Qed.

Lemma pureMeet_comm (a b : PhiState) :
  PhiState_wf a -> PhiState_wf b -> pureMeet a b = pureMeet b a.
Proof.
  intros Ha%PhiState_wf_cases Hb%PhiState_wf_cases.
  destruct Ha as [-> | [[va ->] | ->]], Hb as [-> | [[vb ->] | ->]];
    try reflexivity.
  unfold pureMeet; simpl.
  destruct (decide (Some va = Some vb)) as [Heq|Hne],
           (decide (Some vb = Some va)) as [Heq'|Hne']; try congruence.
Qed.


(** C1. The four meet rules of the lattice: [Unknown ⊓ x = x] for every
    state [x] of the lattice, [Conflict ⊓ x = Conflict] for every [x],
    [Base(b) ⊓ Base(b) = Base(b)], and [Base(b1) ⊓ Base(b2) = Conflict] for
    distinct [b1], [b2].  Outside the lattice the first rule has one
    exception: a [Base] state without base cannot be copied, and the meet
    of [Unknown] with it trips the assertion of the copy. *)
Theorem pureMeet_rules :
  (forall x, PhiState_wf x -> pureMeet PhiState_default x = Some x) /\
  (forall x, pureMeet PhiState_conflict x = Some PhiState_conflict) /\
  (forall b, pureMeet (PhiState_base b) (PhiState_base b) = Some (PhiState_base b)) /\
  (forall b1 b2, b1 <> b2 ->
     pureMeet (PhiState_base b1) (PhiState_base b2) = Some PhiState_conflict) /\
  (forall x, pureMeet PhiState_default x = None <->
             getStatus x = Base ∧ getBase x = None).
Proof.
  split; [exact pureMeet_unknown_l|].
  split; [exact pureMeet_conflict_l|].
  split; [exact pureMeet_base_same|].
  split; [exact pureMeet_base_distinct|].
  intros x. unfold pureMeet. simpl. apply PhiState_copy_None.
Qed.

Lemma pureMeet_rules_witness :
  PhiState_wf (PhiState_base (Argument 0 (PointerTy 1))) /\
  pureMeet PhiState_default (PhiState_base (Argument 0 (PointerTy 1)))
  = Some (PhiState_base (Argument 0 (PointerTy 1))) /\
  Argument 0 (PointerTy 1) <> Argument 1 (PointerTy 1) /\
  pureMeet (PhiState_base (Argument 0 (PointerTy 1)))
           (PhiState_base (Argument 1 (PointerTy 1))) = Some PhiState_conflict.
Proof.
  assert (Hb : PhiState_wf (PhiState_base (Argument 0 (PointerTy 1))))
    by (unfold PhiState_wf; simpl; eauto).
  split; [exact Hb|].
  split; [exact (proj1 pureMeet_rules _ Hb)|].
  split; [discriminate|].
  apply (proj1 (proj2 (proj2 (proj2 pureMeet_rules)))). discriminate.
Defined.



(** A [Conflict] state that carries a base (the resolver builds such states,
    [PhiState(PhiState::Conflict, phi)], once the meet iteration is over) is
    outside the lattice, and the meet does not commute on it. *)
Remark pureMeet_not_comm_outside_lattice :
  let c := PhiState_status Conflict (Some (Argument 7 (PointerTy 1))) in
  let b := PhiState_base (Argument 0 (PointerTy 1)) in
  ~ PhiState_wf c /\ pureMeet b c <> pureMeet c b.
Proof. split; [intros [=] | intros [=]]. Qed.

Section MeetWithFacts.
Variable is_base_value : Value -> bool.

Definition states_wf (phiStates : gmap Value PhiState) : Prop :=
  forall v s, phiStates !! v = Some s -> PhiState_wf s.

Lemma getStateForBDV_wf phiStates V s :
  states_wf phiStates ->
  getStateForBDV is_base_value phiStates V = Some s -> PhiState_wf s.
Proof.
  intros Hwf. unfold getStateForBDV, lookupFromMap.
  destruct (isKnownBaseResult is_base_value V).
  - intros [= <-]. apply PhiState_base_wf.
  - apply Hwf.
Qed.

(** The commutativity assertion of [meetWith] never fires during the
    iteration: with lattice states in the table and a lattice state as the
    running result, [meetWith] is the meet with the looked-up state. *)
Lemma meetWith_meet phiStates cur V other :
  states_wf phiStates -> PhiState_wf cur ->
  getStateForBDV is_base_value phiStates V = Some other ->
  meetWith is_base_value phiStates cur V = pureMeet other cur /\
  is_Some (meetWith is_base_value phiStates cur V).
Proof.
  intros Hwf Hcur Hget.
  pose proof (getStateForBDV_wf _ _ _ Hwf Hget) as Hother.
  unfold meetWith. rewrite Hget. simpl.
  rewrite (pureMeet_comm cur other) by assumption.
  destruct (pureMeet_total other cur Hother Hcur) as [r Hr].
  rewrite Hr. simpl. rewrite decide_True by reflexivity. eauto.
Qed.

Lemma meetWith_wf phiStates cur V r :
  states_wf phiStates -> PhiState_wf cur ->
  meetWith is_base_value phiStates cur V = Some r -> PhiState_wf r.
Proof.
  intros Hwf Hcur Hm.
  destruct (getStateForBDV is_base_value phiStates V) as [other|] eqn:Hget.
  - destruct (meetWith_meet _ _ _ _ Hwf Hcur Hget) as [Heq _].
    rewrite Heq in Hm.
    eapply pureMeet_wf; [| |exact Hm]; eauto using getStateForBDV_wf.
  - unfold meetWith in Hm. rewrite Hget in Hm. discriminate.
Qed.
End MeetWithFacts.

(** ** [unique_unsorted] *)

Section UniqueUnsortedFacts.
Context {T : Type} {EqT : EqDecision T} {CountT : Countable T}.
Implicit Types (l vec : list T) (seen : gset T).

Lemma unique_unsorted_loop_app seen l vec :
  unique_unsorted_loop seen l vec = vec ++ unique_unsorted_loop seen l [].
Proof.
  revert seen vec. induction l as [|V rest IH]; intros seen vec; simpl.
  - by rewrite app_nil_r.
  - destruct (decide (V ∈ seen)); [apply IH|].
    rewrite (IH _ (vec ++ [V])), (IH _ ([] ++ [V])).
    by rewrite <- app_assoc.
Qed.

Lemma unique_unsorted_loop_cons seen V rest :
  unique_unsorted_loop seen (V :: rest) [] =
  if decide (V ∈ seen) then unique_unsorted_loop seen rest []
  else V :: unique_unsorted_loop ({[V]} ∪ seen) rest [].
Proof.
  simpl. destruct (decide (V ∈ seen)); [done|].
  by rewrite unique_unsorted_loop_app.
Qed.

Lemma elem_of_unique_unsorted_loop seen l x :
  x ∈ unique_unsorted_loop seen l [] <-> x ∈ l /\ x ∉ seen.
Proof.
  revert seen. induction l as [|V rest IH]; intros seen.
  - simpl. set_solver.
  - rewrite unique_unsorted_loop_cons.
    destruct (decide (V ∈ seen)) as [Hin|Hnin].
    + rewrite IH, elem_of_cons. split; [tauto|].
      intros [[->|Hx] Hs]; [contradiction | tauto].
    + rewrite !elem_of_cons, IH, not_elem_of_union, elem_of_singleton.
      split.
      * intros [->|(Hx & Hne & Hs)]; tauto.
      * intros [[->|Hx] Hs]; [tauto|].
        destruct (decide (x = V)); tauto.
Qed.

Lemma NoDup_unique_unsorted_loop seen l :
  NoDup (unique_unsorted_loop seen l []).
Proof.
  revert seen. induction l as [|V rest IH]; intros seen.
  - constructor.
  - rewrite unique_unsorted_loop_cons.
    destruct (decide (V ∈ seen)); [apply IH|].
    constructor; [|apply IH].
    rewrite elem_of_unique_unsorted_loop. set_solver.
Qed.

Lemma first_index_Some x l : x ∈ l <-> is_Some (first_index x l).
Proof.
  induction l as [|y l IH]; simpl.
  - split; [inversion 1 | intros [? [=]]].
  - destruct (decide (y = x)) as [->|Hne].
    + split; eauto. intros _. left.
    + rewrite elem_of_cons, IH, fmap_is_Some. naive_solver.
Qed.

Lemma first_before_cons_ne V x y l :
  x <> V -> y <> V -> first_before x y (V :: l) <-> first_before x y l.
Proof.
  intros Hx Hy. unfold first_before; simpl.
  rewrite !decide_False by congruence.
  split.
  - intros (i & j & Hi & Hj & Hlt).
    destruct (first_index x l) as [i'|]; [|discriminate].
    destruct (first_index y l) as [j'|]; [|discriminate].
    simpl in *. simplify_eq. exists i', j'. repeat split; lia.
  - intros (i & j & -> & -> & Hlt). exists (S i), (S j). simpl.
    repeat split; lia.
Qed.

Lemma first_before_head V y l :
  first_before V y (V :: l) <-> y <> V /\ y ∈ l.
Proof.
  unfold first_before; simpl. rewrite decide_True by done. split.
  - intros (i & j & [= <-] & Hj & Hlt).
    destruct (decide (V = y)) as [->|Hne]; [simplify_eq; lia|].
    split; [congruence|]. apply first_index_Some.
    destruct (first_index y l); [eauto | discriminate].
  - intros [Hne [j Hj]%first_index_Some].
    exists 0, (S j). rewrite decide_False by congruence.
    rewrite Hj. repeat split; simpl; lia.
Qed.

Lemma first_before_not_head x V l : ~ first_before x V (V :: l).
Proof.
  unfold first_before; simpl.
  intros (i & j & _ & Hj & Hlt).
  rewrite decide_True in Hj by done. simplify_eq. lia.
Qed.

Lemma first_before_elem x y l : first_before x y l -> x ∈ l ∧ y ∈ l.
Proof.
  intros (i & j & Hi & Hj & _). rewrite !first_index_Some. eauto.
Qed.

Lemma unique_unsorted_loop_order seen l x y :
  first_before x y (unique_unsorted_loop seen l []) ↔
  first_before x y l ∧ (x ∉ seen) ∧ (y ∉ seen).
Proof.
  revert seen. induction l as [|V rest IH]; intros seen.
  - simpl. split.
    + intros (i & j & [=] & _).
    + intros [(i & j & [=] & _) _].
  - rewrite unique_unsorted_loop_cons.
    destruct (decide (V ∈ seen)) as [Hin|Hnin].
    + rewrite IH. split.
      * intros (Hb & Hx & Hy). repeat split; try done.
        apply first_before_cons_ne; [set_solver..|done].
      * intros (Hb & Hx & Hy). repeat split; try done.
        apply first_before_cons_ne in Hb; [done|set_solver..].
    + destruct (decide (y = V)) as [->|Hy].
      { split.
        - intros Hb. by apply first_before_not_head in Hb.
        - intros [Hb _]. by apply first_before_not_head in Hb. }
      destruct (decide (x = V)) as [->|Hx].
      { rewrite !first_before_head, elem_of_unique_unsorted_loop.
        set_solver. }
      rewrite !first_before_cons_ne, IH by done. set_solver.
Qed.
End UniqueUnsortedFacts.

(** C10. [unique_unsorted] keeps exactly one copy of every element of its
    input, ordered by first occurrence: the output has no duplicates, has the
    same elements as the input, and two elements are met in the output in
    the same order as their first occurrences are met in the input. *)
Theorem unique_unsorted_first_occurrence {T : Type} `{Countable T} (vec : list T) :
  NoDup (unique_unsorted vec) /\
  (forall x, x ∈ unique_unsorted vec <-> x ∈ vec) /\
  (forall x y, first_before x y (unique_unsorted vec) <-> first_before x y vec).
Proof.
  unfold unique_unsorted. split; [apply NoDup_unique_unsorted_loop|]. split.
  - intros x. rewrite elem_of_unique_unsorted_loop. set_solver.
  - intros x y. rewrite unique_unsorted_loop_order. set_solver.
Qed.

Example unique_unsorted_example :
  unique_unsorted [3; 1; 3; 2; 1; 4] = [3; 1; 2; 4].
Proof. reflexivity. Qed.

(** ** Backedge polls *)

Lemma runOnLoop_pred_finite opts F L SE st edge :
  AllBackedges opts = false ->
  mustBeFiniteCountedLoop F L SE = true ->
  runOnLoop_pred opts F L SE st edge = st.
Proof.
  intros HAll Hfin. unfold runOnLoop_pred. destruct edge as [pred term].
  rewrite HAll, Hfin. simpl. by destruct (contains L (bid pred)).
Qed.

Lemma foldl_fixed {A B} (f : A -> B -> A) (a : A) (l : list B) :
  (forall a' b, f a' b = a') -> foldl f a l = a.
Proof.
  intros Hf. induction l as [|b l IH] in a |- *; simpl; [done|].
  by rewrite Hf.
Qed.

Lemma mustBeFiniteCountedLoop_spec F L SE :
  mustBeFiniteCountedLoop F L SE = true <->
  exists latch, getLoopLatch F L = Some latch /\
                (0 < getSmallConstantTripCount SE L latch)%N.
Proof.
  unfold mustBeFiniteCountedLoop. rewrite bool_decide_eq_true.
  destruct (getLoopLatch F L) as [latch|].
  - split; [eauto|]. by intros (? & [= <-] & ?).
  - split; [lia|]. by intros (? & [=] & _).
Qed.

(** C4. For a loop whose latch has a positive constant trip count, with
    [AllBackedges] off, the backedge selector records nothing: it returns
    "not modified" and leaves [PollLocations] as it found it (whenever the
    selector runs at all, that is, the misconfiguration assertion of the
    poll function does not fire). *)
Theorem runOnLoop_finite_loop_no_poll opts F SE L latch PollLocations :
  AllBackedges opts = false ->
  getLoopLatch F L = Some latch ->
  (0 < getSmallConstantTripCount SE L latch)%N ->
  is_Some (shouldRunOn opts F "gc-add-backedge-safepoints") ->
  runOnLoop opts F SE L PollLocations = Some (false, PollLocations).
Proof.
  intros HAll Hlatch Hcount [shouldRun Hrun].
  assert (Hfin : mustBeFiniteCountedLoop F L SE = true)
    by (apply mustBeFiniteCountedLoop_spec; eauto).
  unfold runOnLoop. rewrite Hrun. simpl.
  destruct shouldRun; simpl; [|done].
  f_equal. apply foldl_fixed. intros st edge.
  by apply runOnLoop_pred_finite.
Qed.

(** ** Call polls *)

Lemma isGCLeafFunction_spec M CS :
  isGCLeafFunction M CS = false ↔
  calleeIsGCLeaf M CS = false ∧
  (∀ id, asIntrinsicInst CS = Some id → safepointingIntrinsic id = true).
Proof.
  unfold isGCLeafFunction, calleeIsGCLeaf, safepointingIntrinsic.
  destruct (asIntrinsicInst CS) as [id|]; [|naive_solver].
  destruct id; split; try (intros [? Hid]; specialize (Hid _ eq_refl));
    try done; try (intros ->; split; [done|]; intros ? [= <-]; done).
Qed.

Lemma needsStatepoint_spec M CS :
  needsStatepoint M CS = true <-> selectable M CS.
Proof.
  unfold needsStatepoint, selectable.
  pose proof (isGCLeafFunction_spec M CS) as Hleaf.
  destruct (isGCLeafFunction M CS); [naive_solver|].
  destruct Hleaf as [[Hl1 Hl2] _]; [done|].
  destruct (isCall CS), (isInlineAsm CS), (isStatepoint CS),
    (isGCRelocate CS), (isGCResult CS); simpl;
    (split; [try discriminate; intros _; repeat split; try done; intros [? ?]; done
            | try done; intros (_ & _ & Hn & ? & ? & ?); try discriminate;
              exfalso; apply Hn; done]).
Qed.

Lemma findCallSafepoints_run opts M F :
  shouldRunOn opts F "gc-add-call-safepoints" = Some true ->
  findCallSafepoints opts M F =
  Some (filter (fun inst => isCallOrInvoke inst = true ∧ needsStatepoint M inst = true)
               (instructions F)).
Proof. intros Hrun. unfold findCallSafepoints. by rewrite Hrun. Qed.

Lemma isCallOrInvoke_spec I :
  isCallOrInvoke I = true <-> isCall I = true \/ isInvoke I = true.
Proof.
  unfold isCallOrInvoke, isCall, isInvoke. by rewrite orb_true_iff.
Qed.

Lemma asIntrinsicInst_invoke CS : isInvoke CS = true -> asIntrinsicInst CS = None.
Proof.
  unfold isInvoke, asIntrinsicInst, isCall. intros Hinv%bool_decide_eq_true.
  rewrite bool_decide_eq_false_2; [done|]. by rewrite Hinv.
Qed.

(** On an invoke only the leaf test and the statepoint, relocate and result
    tests remain: [dyn_cast<IntrinsicInst>] fails and [CS.isCall()] is
    false. *)
Lemma selectable_invoke M CS :
  isInvoke CS = true ->
  selectable M CS <->
  calleeIsGCLeaf M CS = false ∧
  isStatepoint CS = false ∧ isGCRelocate CS = false ∧ isGCResult CS = false.
Proof.
  intros Hinv. unfold selectable. rewrite (asIntrinsicInst_invoke CS Hinv).
  assert (Hcall : isCall CS = false).
  { unfold isInvoke, isCall in *. apply bool_decide_eq_true in Hinv.
    apply bool_decide_eq_false_2. by rewrite Hinv. }
  rewrite Hcall. split.
  - intros (Hleaf & _ & _ & Hrest). by split.
  - intros (Hleaf & Hrest). split; [done|]. split; [done|]. split; [|done].
    by intros [? _].
Qed.

(** On a call instruction the four tests come down to: no leaf callee, no
    inline assembly, and no intrinsic other than memset, memmove, memcpy. *)
Lemma selectable_call M CS :
  isCall CS = true ->
  selectable M CS <->
  calleeIsGCLeaf M CS = false ∧ isInlineAsm CS = false ∧
  (calledIntrinsic CS = not_intrinsic ∨
   safepointingIntrinsic (calledIntrinsic CS) = true).
Proof.
  intros Hcall. unfold selectable, asIntrinsicInst, isStatepoint, isGCRelocate,
    isGCResult, safepointingIntrinsic. rewrite Hcall.
  destruct (decide (calledIntrinsic CS = not_intrinsic)) as [Hni|Hi].
  - rewrite Hni. split.
    + intros (Hleaf & _ & Hasm & _). split; [done|]. split; [|by left].
      destruct (isInlineAsm CS); [|done]. exfalso. by apply Hasm.
    + intros (Hleaf & Hasm & _). split; [done|]. split; [done|].
      split; [rewrite Hasm; by intros [_ ?]|]. by repeat split.
  - split.
    + intros (Hleaf & Hid & Hasm & _). split; [done|]. split.
      * destruct (isInlineAsm CS); [|done]. exfalso. by apply Hasm.
      * right. by apply Hid.
    + intros (Hleaf & Hasm & [?|Hid]); [done|].
      split; [done|]. split; [by intros id [= <-]|].
      split; [rewrite Hasm; by intros [_ ?]|].
      apply bool_decide_eq_true in Hid.
      destruct (calledIntrinsic CS); repeat split; try done;
        exfalso; set_solver.
Qed.

(** C6, as the code has it.  When selection runs, the call sites found are
    exactly the calls and invokes of the function that are [selectable].
    The inline-assembly test and the intrinsic test apply to call
    instructions only; the leaf test and the statepoint, relocate and result
    tests to calls and invokes alike.  Hence a call instruction is found
    exactly when its callee is no GC leaf, it is no inline-assembly call, and
    it calls no intrinsic or one of memset, memmove, memcpy; and an invoke is
    found exactly when its callee is no GC leaf and it invokes no statepoint,
    relocate or result intrinsic. *)
Theorem findCallSafepoints_selection opts M F :
  shouldRunOn opts F "gc-add-call-safepoints" = Some true ->
  exists Found,
    findCallSafepoints opts M F = Some Found ∧
    (∀ CS, CS ∈ Found ↔
           CS ∈ instructions F ∧
           (isCall CS = true ∨ isInvoke CS = true) ∧
           selectable M CS) ∧
    (∀ CS, isCall CS = true ->
           (CS ∈ Found ↔
            CS ∈ instructions F ∧
            calleeIsGCLeaf M CS = false ∧ isInlineAsm CS = false ∧
            (calledIntrinsic CS = not_intrinsic ∨
             safepointingIntrinsic (calledIntrinsic CS) = true))) ∧
    (∀ CS, isInvoke CS = true ->
           (CS ∈ Found ↔
            CS ∈ instructions F ∧
            calleeIsGCLeaf M CS = false ∧
            isStatepoint CS = false ∧ isGCRelocate CS = false ∧
            isGCResult CS = false)).
Proof.
  intros Hrun. eexists. split; [by apply findCallSafepoints_run|].
  assert (Hmem : ∀ CS,
            CS ∈ filter (fun inst => isCallOrInvoke inst = true
                                     ∧ needsStatepoint M inst = true)
                        (instructions F) ↔
            CS ∈ instructions F ∧
            (isCall CS = true ∨ isInvoke CS = true) ∧ selectable M CS).
  { intros CS. rewrite list_elem_of_filter.
    rewrite isCallOrInvoke_spec, needsStatepoint_spec. tauto. }
  split; [exact Hmem|]. split.
  - intros CS Hcall. rewrite Hmem, (selectable_call M CS Hcall). tauto.
  - intros CS Hinv. rewrite Hmem, (selectable_invoke M CS Hinv). tauto.
Qed.

Lemma findCallSafepoints_selection_witness :
  shouldRunOn defaultOptions sample_caller "gc-add-call-safepoints" = Some true ∧
  exists Found,
    findCallSafepoints defaultOptions sample_module sample_caller = Some Found ∧
    (∀ CS, CS ∈ Found ↔
           CS ∈ instructions sample_caller ∧
           (isCall CS = true ∨ isInvoke CS = true) ∧
           selectable sample_module CS) ∧
    (∀ CS, isCall CS = true ->
           (CS ∈ Found ↔
            CS ∈ instructions sample_caller ∧
            calleeIsGCLeaf sample_module CS = false ∧ isInlineAsm CS = false ∧
            (calledIntrinsic CS = not_intrinsic ∨
             safepointingIntrinsic (calledIntrinsic CS) = true))) ∧
    (∀ CS, isInvoke CS = true ->
           (CS ∈ Found ↔
            CS ∈ instructions sample_caller ∧
            calleeIsGCLeaf sample_module CS = false ∧
            isStatepoint CS = false ∧ isGCRelocate CS = false ∧
            isGCResult CS = false)).
Proof.
  split; [reflexivity|].
  apply (findCallSafepoints_selection defaultOptions sample_module sample_caller).
  reflexivity.
Defined.

(** The two tests that look at call instructions only: an inline-assembly
    call and a call of an intrinsic that takes no safepoint are skipped,
    the same call sites as invokes are selected. *)
Example needsStatepoint_call_only_tests :
  needsStatepoint sample_module
    (mkInstruction 5 Call VoidTy [InlineAsm 0] [] []) = false ∧
  needsStatepoint sample_module
    (mkInstruction 5 Invoke VoidTy [InlineAsm 0] [1; 2] []) = true ∧
  needsStatepoint sample_module
    (mkInstruction 6 Call VoidTy
       [FunctionRef "llvm.donothing" other_intrinsic] [] []) = false ∧
  needsStatepoint sample_module
    (mkInstruction 6 Invoke VoidTy
       [FunctionRef "llvm.donothing" other_intrinsic] [1; 2] []) = true.
Proof. repeat split. Qed.

(** The invoke of [sample_caller] is selected (and the leaf call is not):
    selection does not skip invokes. *)
Lemma findCallSafepoints_keeps_invoke :
  findCallSafepoints defaultOptions sample_module sample_caller
  = Some [sample_invoke] ∧
  isInvoke sample_invoke = true.
Proof. split; reflexivity. Qed.

(** ** Entry poll *)

Lemma unique_label_Some ls l x :
  unique_label ls = Some l -> x ∈ ls -> x = l.
Proof.
  destruct ls as [|l0 rest]; simpl; [done|].
  destruct (forallb _ rest) eqn:Hall; [|done].
  intros [= <-] [->|Hin]%elem_of_cons; [done|].
  rewrite forallb_forall in Hall.
  apply list_elem_of_In, Hall, bool_decide_eq_true in Hin. done.
Qed.

Lemma unique_label_nil_iff ls : ls = [] -> unique_label ls = None.
Proof. by intros ->. Qed.

Lemma getBlock_Some F l B :
  getBlock F l = Some B -> B ∈ blocks F ∧ bid B = l.
Proof.
  unfold getBlock. intros Hfind. apply find_some in Hfind as [Hin Hbid].
  apply bool_decide_eq_true in Hbid. by rewrite list_elem_of_In.
Qed.

Lemma elem_of_preds F B l :
  B ∈ blocks F -> l ∈ succs B -> bid B ∈ preds F l.
Proof.
  intros HB Hl. unfold preds, pred_edges.
  apply list_elem_of_fmap. exists (B, default (mkInstruction 0 Ret VoidTy [] [] []) (getTerminator B)).
  split; [done|].
  apply list_elem_of_In, in_flat_map. exists B. split; [by apply list_elem_of_In|].
  unfold succs in Hl. destruct (getTerminator B) as [t|]; [|by inversion Hl].
  simpl. apply list_elem_of_In, list_elem_of_fmap.
  exists l. split; [done|]. by apply list_elem_of_filter.
Qed.

Lemma getUniqueSuccessor_elem B l :
  getUniqueSuccessor B = Some l -> l ∈ succs B.
Proof.
  unfold getUniqueSuccessor, unique_label.
  destruct (succs B) as [|l0 rest]; [done|].
  destruct (forallb _ rest); [|done]. intros [= <-]. left.
Qed.

(** A step of the walk goes back through the unique predecessor. *)
Lemma entryStep_back F B next p :
  B ∈ blocks F ->
  getUniqueSuccessor B = Some next ->
  getUniquePredecessor F next = Some p ->
  p = bid B.
Proof.
  intros HB Hs Hp. symmetry.
  eapply unique_label_Some; [exact Hp|].
  apply elem_of_preds; [done|]. by apply getUniqueSuccessor_elem.
Qed.

Lemma entryWalk_sound F fuel B B' :
  entryWalk F fuel B = Some B' -> entryChain F B B' ∧ entryStop F B'.
Proof.
  revert B. induction fuel as [|fuel IH]; intros B; simpl; [done|].
  destruct (getUniqueSuccessor B) as [next|] eqn:Hs.
  - destruct (getUniquePredecessor F next) as [p|] eqn:Hp.
    + destruct (getBlock F next) as [nextBB|] eqn:Hb; [|done].
      intros Hw. destruct (IH _ Hw) as [Hchain Hstop]. split; [|done].
      apply getBlock_Some in Hb as Hb'. destruct Hb' as [_ <-].
      eapply entryChain_next; [|exact Hchain]. by exists p.
    + intros [= <-]. split; [constructor|]. right. eauto.
  - intros [= <-]. split; [constructor|]. by left.
Qed.

(** The walk is deterministic: a chain that ends at a stop block ends at the
    block the walk returns. *)
Lemma entryStop_no_step F B B' : entryStop F B -> ~ entryStep F B B'.
Proof.
  intros [Hn | (next & Hs & Hp)] (p & Hs' & Hp' & _); congruence.
Qed.

Lemma entryStep_det F B B1 B2 :
  entryStep F B B1 -> entryStep F B B2 -> B1 = B2.
Proof.
  intros (p1 & Hs1 & _ & Hb1) (p2 & Hs2 & _ & Hb2).
  rewrite Hs1 in Hs2. injection Hs2 as Heq. rewrite Heq in Hb1. congruence.
Qed.

Lemma entryChain_stop_unique F B B1 B2 :
  entryChain F B B1 -> entryStop F B1 ->
  entryChain F B B2 -> entryStop F B2 -> B1 = B2.
Proof.
  intros Hc1. revert B2. induction Hc1 as [B|B B' B'' Hstep Hc IH];
    intros B2 Hstop1 Hc2 Hstop2.
  - destruct Hc2 as [|B B' B'' Hstep _]; [done|].
    by apply entryStop_no_step in Hstep.
  - destruct Hc2 as [|B Bx By Hstep' Hc2].
    + by apply entryStop_no_step in Hstep.
    + rewrite (entryStep_det _ _ _ _ Hstep' Hstep) in Hc2. by apply IH.
Qed.

Lemma backChain_pred F ls x y :
  backChain F ls -> x ∈ ls -> getUniquePredecessor F x = Some y ->
  y ∈ tail ls.
Proof.
  induction ls as [|c rest IH]; [by inversion 2|].
  intros Hbc Hx Hy. simpl in Hbc.
  destruct rest as [|c' rest'].
  - apply list_elem_of_singleton in Hx as ->.
    unfold getUniquePredecessor in Hy. by rewrite Hbc in Hy.
  - destruct Hbc as [Hc Hbc].
    apply elem_of_cons in Hx as [->|Hx].
    + rewrite Hc in Hy. injection Hy as <-. left.
    + simpl. right. by apply IH.
Qed.

(** With [fuel] for every block not yet visited the walk comes to an end. *)
Lemma entryWalk_terminates F fuel B visited :
  (forall B0 l, B0 ∈ blocks F -> l ∈ succs B0 -> is_Some (getBlock F l)) ->
  B ∈ blocks F ->
  NoDup (bid B :: visited) ->
  bid B :: visited ⊆ bid <$> blocks F ->
  backChain F (bid B :: visited) ->
  length (blocks F) <= fuel + length visited ->
  is_Some (entryWalk F fuel B).
Proof.
  intros Hres. revert B visited.
  induction fuel as [|fuel IH]; intros B visited HB Hnd Hsub Hbc Hlen.
  - exfalso.
    assert (length (bid B :: visited) <= length (bid <$> blocks F)) as Hle.
    { apply submseteq_length, NoDup_submseteq; [done|].
      intros x Hx. by apply Hsub. }
    rewrite length_fmap in Hle. simpl in *. lia.
  - simpl. destruct (getUniqueSuccessor B) as [next|] eqn:Hs; [|eauto].
    destruct (getUniquePredecessor F next) as [p|] eqn:Hp; [|eauto].
    destruct (Hres B next HB (getUniqueSuccessor_elem _ _ Hs)) as [nextBB Hb].
    rewrite Hb. apply getBlock_Some in Hb as [HnextBB Hbid].
    pose proof (entryStep_back _ _ _ _ HB Hs Hp) as ->.
    apply (IH nextBB (bid B :: visited)); rewrite ?Hbid.
    + done.
    + constructor; [|done].
      intros Hin.
      pose proof (backChain_pred _ _ _ _ Hbc Hin Hp) as Htl. simpl in Htl.
      by apply NoDup_cons in Hnd as [Hnin _].
    + intros x [->|Hx]%elem_of_cons; [|by apply Hsub].
      rewrite <- Hbid. by apply list_elem_of_fmap_2.
    + simpl. split; [done|]. exact Hbc.
    + simpl. lia.
Qed.

(** C5. When the entry selector runs on a well-formed function, the walk
    from the entry block ends (fuel for one step per block is enough) and
    the location returned is the terminator of the block [last] that the
    chain of unique-successor / unique-predecessor steps leads to from the
    entry block and at which the chain stops: [last] has no unique
    successor (a split) or its unique successor has no unique predecessor
    (a merge).  That block is the only one with these properties. *)
Theorem findLocationForEntrySafepoint_walk opts F :
  shouldRunOn opts F "gc-add-entry-safepoints" = Some true ->
  entry_wf F ->
  exists entry last,
    getEntryBlock F = Some entry ∧
    findLocationForEntrySafepoint opts (length (blocks F)) F
      = Some (getTerminator last) ∧
    entryChain F entry last ∧ entryStop F last ∧
    (∀ B, entryChain F entry B → entryStop F B → B = last).
Proof.
  intros Hrun [(entry & Hentry & Hnopred) Hres].
  assert (Hin : entry ∈ blocks F).
  { unfold getEntryBlock in Hentry. destruct (blocks F); [done|].
    injection Hentry as <-. left. }
  destruct (entryWalk_terminates F (length (blocks F)) entry [] Hres Hin)
    as [last Hwalk].
  - apply NoDup_singleton.
  - intros x ->%list_elem_of_singleton. by apply list_elem_of_fmap_2.
  - exact Hnopred.
  - simpl. lia.
  - destruct (entryWalk_sound _ _ _ _ Hwalk) as [Hchain Hstop].
    exists entry, last. split; [done|]. split; [|split; [done|split; [done|]]].
    + unfold findLocationForEntrySafepoint. rewrite Hrun. simpl.
      rewrite Hentry. simpl. by rewrite Hwalk.
    + intros B HcB HsB. eapply entryChain_stop_unique; eauto.
Qed.

Lemma entry_wfb_spec F : entry_wfb F = true -> entry_wf F.
Proof.
  unfold entry_wfb, entry_wf. rewrite andb_true_iff. intros [He Hall]. split.
  - destruct (getEntryBlock F) as [entry|]; [|done].
    apply bool_decide_eq_true in He. eauto.
  - intros B l HB Hl. rewrite forallb_forall in Hall.
    apply list_elem_of_In, Hall in HB. rewrite forallb_forall in HB.
    apply list_elem_of_In, HB in Hl. by apply bool_decide_eq_true in Hl.
Qed.

Example findLocationForEntrySafepoint_sample :
  findLocationForEntrySafepoint defaultOptions 5 sample_chain
  = Some (Some sample_condbr).
Proof. reflexivity. Qed.

Lemma findLocationForEntrySafepoint_walk_witness :
  shouldRunOn defaultOptions sample_chain "gc-add-entry-safepoints" = Some true ∧
  entry_wf sample_chain ∧
  exists entry last,
    getEntryBlock sample_chain = Some entry ∧
    findLocationForEntrySafepoint defaultOptions (length (blocks sample_chain)) sample_chain
      = Some (getTerminator last) ∧
    entryChain sample_chain entry last ∧ entryStop sample_chain last ∧
    (∀ B, entryChain sample_chain entry B → entryStop sample_chain B → B = last).
Proof.
  split; [reflexivity|]. split; [by apply entry_wfb_spec|].
  apply (findLocationForEntrySafepoint_walk defaultOptions sample_chain).
  - reflexivity.
  - by apply entry_wfb_spec.
Defined.

Lemma runOnLoop_finite_loop_no_poll_witness :
  AllBackedges defaultOptions = false ∧
  getLoopLatch sample_count sample_count_loop = Some 1 ∧
  (0 < getSmallConstantTripCount sample_count_SE sample_count_loop 1%nat)%N ∧
  is_Some (shouldRunOn defaultOptions sample_count "gc-add-backedge-safepoints") ∧
  runOnLoop defaultOptions sample_count sample_count_SE sample_count_loop []
  = Some (false, []).
Proof.
  assert (H1 : AllBackedges defaultOptions = false) by reflexivity.
  assert (H2 : getLoopLatch sample_count sample_count_loop = Some 1) by reflexivity.
  assert (H3 : (0 < getSmallConstantTripCount sample_count_SE sample_count_loop 1%nat)%N)
    by reflexivity.
  assert (H4 : is_Some (shouldRunOn defaultOptions sample_count
                                    "gc-add-backedge-safepoints"))
    by (by eexists).
  split; [exact H1|]. split; [exact H2|]. split; [exact H3|]. split; [exact H4|].
  exact (runOnLoop_finite_loop_no_poll _ _ _ _ _ [] H1 H2 H3 H4).
Defined.

(** Without the trip-count bound the same loop gets its poll location. *)
Example runOnLoop_unbounded_sample :
  runOnLoop defaultOptions sample_count (mkScalarEvolution (fun _ _ => 0%N))
            sample_count_loop []
  = Some (true, [mkInstruction 11 Br VoidTy [] [1; 2] []]).
Proof. reflexivity. Qed.

(** ** Liveness *)

Lemma elem_of_rev {A} (x : A) (l : list A) : x ∈ rev l <-> x ∈ l.
Proof. rewrite !list_elem_of_In. symmetry. apply in_rev. Qed.

Lemma liveSetOk_empty F : liveSetOk F ∅.
Proof. intros V HV. set_solver. Qed.

Lemma liveSetOk_subseteq F (S S' : gset Value) :
  S' ⊆ S -> liveSetOk F S -> liveSetOk F S'.
Proof. intros Hsub Hok V HV. apply Hok. set_solver. Qed.

Lemma liveSetOk_union F (S S' : gset Value) :
  liveSetOk F S -> liveSetOk F S' -> liveSetOk F (S ∪ S').
Proof. intros Hok Hok' V [HV|HV]%elem_of_union; eauto. Qed.

Lemma isLiveOperand_true V :
  isLiveOperand V = true ->
  isGCPointerType (getType V) = true ∧ isNull V = false ∧ isaUndefValue V = false.
Proof.
  unfold isLiveOperand. rewrite !andb_true_iff, !negb_true_iff. tauto.
Qed.

Lemma liveSetOk_uses F J (ops : list Value) (Live : gset Value) :
  J ∈ instructions F -> ops ⊆ operands J -> liveSetOk F Live ->
  liveSetOk F (foldl (fun Live V => if isLiveOperand V then {[V]} ∪ Live else Live)
                     Live ops).
Proof.
  intros HJ. revert Live. induction ops as [|V ops IH]; intros Live Hsub Hok.
  - exact Hok.
  - simpl. apply IH; [set_solver|].
    destruct (isLiveOperand V) eqn:HV; [|done].
    apply liveSetOk_union; [|done].
    intros V' ->%elem_of_singleton.
    destruct (isLiveOperand_true _ HV) as (? & ? & ?).
    repeat split; try done. exists J. split; [done|]. apply Hsub. left.
Qed.

Lemma computeGCPtrLiveness_inst_ok F J Live :
  J ∈ instructions F -> liveSetOk F Live ->
  liveSetOk F (computeGCPtrLiveness_inst Live J).
Proof.
  intros HJ Hok. unfold computeGCPtrLiveness_inst.
  apply (liveSetOk_uses F J); [done|done|].
  eapply liveSetOk_subseteq; [|exact Hok]. set_solver.
Qed.

Lemma computeGCPtrLiveness_range_ok F range Live :
  range ⊆ instructions F -> liveSetOk F Live ->
  liveSetOk F (computeGCPtrLiveness_range range Live).
Proof.
  unfold computeGCPtrLiveness_range. revert Live.
  induction range as [|J range IH]; intros Live Hsub Hok; [done|].
  simpl. apply IH; [set_solver|].
  apply computeGCPtrLiveness_inst_ok; [|done]. apply Hsub. left.
Qed.

Lemma insts_instructions F B :
  B ∈ blocks F -> insts B ⊆ instructions F.
Proof.
  intros HB J HJ. unfold instructions.
  apply list_elem_of_In, in_flat_map. exists B. by rewrite <- !list_elem_of_In.
Qed.

Lemma unionLiveIn_ok F Data ss S :
  livenessDataOk F Data -> unionLiveIn Data ss = Some S -> liveSetOk F S.
Proof.
  intros [HIn _]. unfold unionLiveIn.
  assert (Hgen : forall acc S0, (forall A, acc = Some A -> liveSetOk F A) ->
            foldl (fun acc succ => LiveOutAcc ← acc; In ← LiveIn Data !! succ;
                                   Some (LiveOutAcc ∪ In)) acc ss = Some S0 ->
            liveSetOk F S0).
  { induction ss as [|s ss IH]; intros acc S0 Hacc; simpl.
    - apply Hacc.
    - apply IH. intros A. destruct acc as [A0|]; simpl; [|done].
      destruct (LiveIn Data !! s) as [In|] eqn:Hs; simpl; [|done].
      intros [= <-]. apply liveSetOk_union; eauto. }
  apply Hgen. intros A [= <-]. apply liveSetOk_empty.
Qed.

Lemma livenessDataOk_insert_out F Data l S :
  livenessDataOk F Data -> liveSetOk F S ->
  livenessDataOk F (mkGCPtrLivenessData (LiveIn Data) (<[l := S]> (LiveOut Data))).
Proof.
  intros [HIn HOut] HS. split; simpl; [exact HIn|].
  intros l' S' [[_ <-]|[_ Hl]]%lookup_insert_Some; eauto.
Qed.

Lemma livenessDataOk_insert_in F Data l S :
  livenessDataOk F Data -> liveSetOk F S ->
  livenessDataOk F (mkGCPtrLivenessData (<[l := S]> (LiveIn Data)) (LiveOut Data)).
Proof.
  intros [HIn HOut] HS. split; simpl; [|exact HOut].
  intros l' S' [[_ <-]|[_ Hl]]%lookup_insert_Some; eauto.
Qed.

Lemma computeGCPtrLiveness_step_ok F BB worklist Data worklist' Data' :
  livenessDataOk F Data ->
  computeGCPtrLiveness_step F BB worklist Data = Some (worklist', Data') ->
  livenessDataOk F Data'.
Proof.
  intros Hok. unfold computeGCPtrLiveness_step.
  destruct (getBlock F BB) as [B|] eqn:HB; simpl; [|done].
  destruct (unionLiveIn Data (succs B)) as [LiveOut'|] eqn:HU; simpl; [|done].
  pose proof (unionLiveIn_ok _ _ _ _ Hok HU) as HLO.
  apply getBlock_Some in HB as [HB _].
  assert (HTmp : liveSetOk F (computeGCPtrLiveness_range (rev (insts B)) LiveOut')).
  { apply computeGCPtrLiveness_range_ok; [|done].
    intros J HJ. apply (proj1 (elem_of_rev _ _)) in HJ. exact (insts_instructions F B HB J HJ). }
  destruct (_ && _); [by intros [= <- <-]|].
  destruct (LiveIn Data !! BB) as [Old|]; simpl; [|done].
  pose proof (livenessDataOk_insert_out F Data BB LiveOut' Hok HLO) as Hok1.
  destruct (bool_decide (Old = _)); [by intros [= <- <-]|].
  pose proof (livenessDataOk_insert_in F _ BB _ Hok1 HTmp) as Hok2.
  destruct (bool_decide (_ = ∅)); by intros [= <- <-].
Qed.

Lemma computeGCPtrLiveness_loop_ok F fuel worklist Data Data' :
  livenessDataOk F Data ->
  computeGCPtrLiveness_loop F fuel worklist Data = Some Data' ->
  livenessDataOk F Data'.
Proof.
  revert worklist Data. induction fuel as [|fuel IH]; intros worklist Data Hok.
  - destruct worklist; simpl; [by intros [= <-] | done].
  - destruct worklist as [|BB worklist]; simpl; [by intros [= <-]|].
    destruct (computeGCPtrLiveness_step F BB worklist Data)
      as [[worklist'' Data'']|] eqn:Hstep; simpl; [|done].
    apply IH. by eapply computeGCPtrLiveness_step_ok.
Qed.

Lemma computeGCPtrLiveness_init_ok F :
  livenessDataOk F (snd (computeGCPtrLiveness_init F)).
Proof.
  assert (H : forall l (S : gset Value),
             (list_to_map ((fun B => (bid B, ∅)) <$> blocks F) : gmap label (gset Value))
               !! l = Some S -> liveSetOk F S).
  { intros l S Hl. apply elem_of_list_to_map_2, list_elem_of_fmap in Hl
      as (B & [= _ ->] & _). apply liveSetOk_empty. }
  split; exact H.
Qed.

Lemma computeGCPtrLiveness_ok F fuel Data :
  computeGCPtrLiveness F fuel = Some Data -> livenessDataOk F Data.
Proof.
  unfold computeGCPtrLiveness.
  pose proof (computeGCPtrLiveness_init_ok F) as Hinit.
  destruct (computeGCPtrLiveness_init F) as [worklist Data0].
  by apply computeGCPtrLiveness_loop_ok.
Qed.

Lemma instsFrom_subseteq id l range :
  instsFrom id l = Some range -> range ⊆ l.
Proof.
  revert range. induction l as [|J l IH]; intros range; simpl; [done|].
  destruct (decide (iid J = id)); [by intros [= <-]|].
  intros Hr. apply IH in Hr. set_solver.
Qed.

Lemma getParent_Some F id B : getParent F id = Some B -> B ∈ blocks F.
Proof.
  unfold getParent. intros [Hin _]%find_some. by apply list_elem_of_In.
Qed.

(** C8. With liveness data computed by the dataflow pass, the live set found
    for the entry of an instruction does not contain the instruction's own
    value, and each member is a GC pointer that is not the null constant,
    not undef, and is an operand of some instruction of the function. *)
Theorem findLiveSetAtInst_members F fuel Data inst out :
  computeGCPtrLiveness F fuel = Some Data ->
  findLiveSetAtInst F inst Data = Some out ->
  (valueOf inst ∉ out) ∧
  ∀ V, V ∈ out →
       isGCPointerType (getType V) = true ∧ isNull V = false ∧
       isaUndefValue V = false ∧
       ∃ J, J ∈ instructions F ∧ V ∈ operands J.
Proof.
  intros HData%computeGCPtrLiveness_ok. unfold findLiveSetAtInst.
  destruct (getParent F (iid inst)) as [BB|] eqn:HBB; simpl; [|done].
  destruct (LiveOut Data !! bid BB) as [LiveOut0|] eqn:HLO; simpl; [|done].
  destruct (instsFrom (iid inst) (insts BB)) as [range|] eqn:Hr; simpl; [|done].
  intros [= <-]. split.
  - rewrite elem_of_filter. tauto.
  - intros V [_ HV]%elem_of_filter. revert V HV.
    apply computeGCPtrLiveness_range_ok.
    + intros J HJ. apply (proj1 (elem_of_rev _ _)) in HJ.
      apply (insts_instructions F BB (getParent_Some _ _ _ HBB)).
      exact (instsFrom_subseteq _ _ _ Hr J HJ).
    + destruct HData as [_ HOut]. by eapply HOut.
Qed.

Example computeGCPtrLiveness_sample :
  exists Data,
    computeGCPtrLiveness sample_derive 4 = Some Data ∧
    LiveIn Data !! 0 = Some {[sample_p]} ∧
    findLiveSetAtInst sample_derive sample_call Data = Some {[valueOf sample_gep]}.
Proof. eexists. split; [reflexivity|]. split; reflexivity. Qed.

Lemma findLiveSetAtInst_members_witness :
  exists Data out,
    computeGCPtrLiveness sample_derive 4 = Some Data ∧
    findLiveSetAtInst sample_derive sample_call Data = Some out ∧
    (valueOf sample_call ∉ out) ∧
    ∀ V, V ∈ out →
         isGCPointerType (getType V) = true ∧ isNull V = false ∧
         isaUndefValue V = false ∧
         ∃ J, J ∈ instructions sample_derive ∧ V ∈ operands J.
Proof.
  eexists; eexists.
  split; [reflexivity|].
  split; [reflexivity|].
  eapply (findLiveSetAtInst_members sample_derive 4 _ sample_call).
  - reflexivity.
  - reflexivity.
Defined.

(** ** Editing the IR *)

Lemma insertBeforeIn_perm id new l l' :
  insertBeforeIn id new l = Some l' -> l' ≡ₚ new :: l.
Proof.
  revert l'. induction l as [|J rest IH]; intros l'; simpl; [done|].
  destruct (decide (iid J = id)); [by intros [= <-]|].
  destruct (insertBeforeIn id new rest) as [r|]; simpl; [|done].
  intros [= <-]. rewrite (IH r eq_refl). apply Permutation_swap.
Qed.

Lemma insertAfterIn_perm id new l l' :
  insertAfterIn id new l = Some l' -> l' ≡ₚ new :: l.
Proof.
  revert l'. induction l as [|J rest IH]; intros l'; simpl; [done|].
  destruct (decide (iid J = id)); [intros [= <-]; apply Permutation_swap|].
  destruct (insertAfterIn id new rest) as [r|]; simpl; [|done].
  intros [= <-]. rewrite (IH r eq_refl). apply Permutation_swap.
Qed.

Lemma editBlocks_perm f new bs bs' :
  (forall l l', f l = Some l' -> l' ≡ₚ new :: l) ->
  editBlocks f bs = Some bs' ->
  flat_map insts bs' ≡ₚ new :: flat_map insts bs.
Proof.
  intros Hf. revert bs'. induction bs as [|B rest IH]; intros bs'; simpl; [done|].
  destruct (f (insts B)) as [l|] eqn:HB.
  - intros [= <-]. simpl. by rewrite (Hf _ _ HB).
  - destruct (editBlocks f rest) as [r|]; simpl; [|done].
    intros [= <-]. simpl. rewrite (IH r eq_refl).
    by rewrite Permutation_middle.
Qed.

Lemma insertBefore_perm F id new F' :
  insertBefore F id new = Some F' ->
  instructions F' ≡ₚ new :: instructions F.
Proof.
  unfold insertBefore, instructions.
  destruct (editBlocks _ (blocks F)) as [bs|] eqn:Hbs; simpl; [|done].
  intros [= <-]. simpl.
  exact (editBlocks_perm _ _ _ _ (insertBeforeIn_perm id new) Hbs).
Qed.

Lemma insertAfter_perm F id new F' :
  insertAfter F id new = Some F' ->
  instructions F' ≡ₚ new :: instructions F.
Proof.
  unfold insertAfter, instructions.
  destruct (editBlocks _ (blocks F)) as [bs|] eqn:Hbs; simpl; [|done].
  intros [= <-]. simpl.
  exact (editBlocks_perm _ _ _ _ (insertAfterIn_perm id new) Hbs).
Qed.

Lemma emitBefore_perm F IP mk F' J :
  emitBefore F IP mk = Some (F', J) ->
  J = mk (freshId F) ∧ instructions F' ≡ₚ J :: instructions F.
Proof.
  unfold emitBefore.
  destruct (insertBefore F IP (mk (freshId F))) as [F1|] eqn:Hins; simpl; [|done].
  intros [= <- <-]. split; [done|]. by apply (insertBefore_perm F IP).
Qed.

Lemma emitBefore_elem F IP mk F' J x :
  emitBefore F IP mk = Some (F', J) ->
  x ∈ instructions F' <-> x = J \/ x ∈ instructions F.
Proof.
  intros [_ Hperm]%emitBefore_perm. rewrite Hperm. apply elem_of_cons.
Qed.

(** ** Statepoints *)

Lemma first_index_lookup {T} `{EqDecision T} (x : T) (l : list T) i :
  first_index x l = Some i -> l !! i = Some x.
Proof.
  revert i. induction l as [|y l IH]; intros i; simpl; [done|].
  destruct (decide (y = x)) as [->|Hne]; [by intros [= <-]|].
  destruct (first_index x l) as [j|]; simpl; [|done].
  intros [= <-]. simpl. by apply IH.
Qed.

Lemma callArgs_mkCall ty args callee id :
  callArgs (mkCall ty args callee id) = args.
Proof. unfold callArgs, mkCall; simpl. apply removelast_last. Qed.

Lemma calledIntrinsic_mkCall ty args name intr id :
  calledIntrinsic (mkCall ty args (FunctionRef name intr) id) = intr.
Proof.
  unfold calledIntrinsic, getCalledValue, mkCall; simpl.
  by rewrite last_snoc.
Qed.

(** What [emitRelocates] creates for one pair. *)
Definition relocateOf (token : Value) (live_start : nat)
           (liveVariables : list Value) (pair : Value * Value)
           (reloc : Instruction) : Prop :=
  exists bi di,
    find_index liveVariables (fst pair) = Some bi ∧
    find_index liveVariables (snd pair) = Some di ∧
    calledIntrinsic reloc = gc_relocate ∧
    ity reloc = getType (snd pair) ∧
    callArgs reloc = [ token; i32 (Z.of_nat (live_start + bi));
                       i32 (Z.of_nat (live_start + di)) ].

Lemma emitRelocates_spec IP token live_start liveVariables pairs F newDefs F' newDefs' :
  emitRelocates IP token live_start liveVariables pairs F newDefs
  = Some (F', newDefs') ->
  (forall x, x ∈ instructions F -> x ∈ instructions F') ∧
  exists new, newDefs' = newDefs ++ new ∧
              Forall2 (relocateOf token live_start liveVariables) pairs new ∧
              (forall r, r ∈ new -> r ∈ instructions F').
Proof.
  revert F newDefs. induction pairs as [|[base live] rest IH]; intros F newDefs; simpl.
  - intros [= <- <-]. split; [done|]. exists []. rewrite app_nil_r.
    split; [done|]. split; [constructor|]. by intros r Hr%elem_of_nil.
  - destruct (relocateArgs token live_start liveVariables base live)
      as [args|] eqn:Hargs; simpl; [|done].
    destruct (emitBefore F IP _) as [[F1 reloc]|] eqn:Hemit; simpl; [|done].
    intros Hrest. destruct (IH _ _ Hrest) as (Hkeep & new & -> & Hall & Hin).
    pose proof (emitBefore_perm _ _ _ _ _ Hemit) as [Hreloc _].
    split.
    + intros x Hx. apply Hkeep. rewrite (emitBefore_elem _ _ _ _ _ x Hemit). by right.
    + exists (reloc :: new). rewrite <- app_assoc. split; [done|]. split.
      * constructor; [|done].
        unfold relocateArgs in Hargs.
        destruct (find_index liveVariables base) as [bi|] eqn:Hbi;
          simpl in Hargs; [|done].
        destruct (find_index liveVariables live) as [di|] eqn:Hdi;
          simpl in Hargs; [|done].
        injection Hargs as <-. exists bi, di. subst reloc. simpl.
        rewrite callArgs_mkCall. unfold gc_relocate_decl.
        rewrite calledIntrinsic_mkCall. done.
      * intros r [->|Hr]%elem_of_cons; [|by apply Hin].
        apply Hkeep. rewrite (emitBefore_elem _ _ _ _ _ _ Hemit). by left.
Qed.







(** ** Relocation through stack slots *)

Lemma countAllocas_sigs F :
  countAllocas F = length (filter (fun p => snd p = Alloca) (sigs F)).
Proof.
  unfold countAllocas, sigs.
  induction (instructions F) as [|J l IH]; [done|].
  cbn.
  destruct (decide (isAlloca J = true)) as [H1|H1],
           (decide (iop J = Alloca)) as [H2|H2]; simpl.
  - f_equal. exact IH.
  - exfalso. unfold isAlloca in H1. by apply bool_decide_eq_true in H1.
  - exfalso. apply H1. unfold isAlloca. by apply bool_decide_eq_true.
  - exact IH.
Qed.

Lemma addsNoAlloca_refl F : addsNoAlloca F F.
Proof. exists []. split; [done|constructor]. Qed.

Lemma addsNoAlloca_trans F1 F2 F3 :
  addsNoAlloca F1 F2 -> addsNoAlloca F2 F3 -> addsNoAlloca F1 F3.
Proof.
  intros (e1 & H1 & Hf1) (e2 & H2 & Hf2). exists (e2 ++ e1). split.
  - by rewrite H2, H1, app_assoc.
  - by apply Forall_app.
Qed.

Lemma sigs_perm_cons F F' J :
  instructions F' ≡ₚ J :: instructions F -> sigs F' ≡ₚ sig J :: sigs F.
Proof. unfold sigs. intros ->. by rewrite fmap_cons. Qed.

Lemma addsNoAlloca_insert F F' J :
  instructions F' ≡ₚ J :: instructions F -> iop J ≠ Alloca ->
  addsNoAlloca F F'.
Proof.
  intros Hperm Hop. exists [sig J]. split.
  - by apply sigs_perm_cons.
  - by repeat constructor.
Qed.

Lemma sigs_updateInst F id f :
  (forall J, iid (f J) = iid J ∧ iop (f J) = iop J) ->
  sigs (updateInst F id f) = sigs F.
Proof.
  intros Hf. unfold sigs, updateInst, instructions. simpl.
  induction (blocks F) as [|B bs IH]; [done|].
  rewrite fmap_cons. simpl. rewrite !fmap_app, IH. f_equal.
  induction (insts B) as [|J l IHl]; [done|].
  rewrite !fmap_cons, IHl. f_equal.
  destruct (decide (iid J = id)); [|done].
  unfold sig. by destruct (Hf J) as [-> ->].
Qed.

Lemma addsNoAlloca_updateInst F F' id f :
  (forall J, iid (f J) = iid J ∧ iop (f J) = iop J) ->
  addsNoAlloca F F' -> addsNoAlloca F (updateInst F' id f).
Proof.
  intros Hf (extra & Hperm & Hall). exists extra.
  by rewrite sigs_updateInst.
Qed.

Lemma addsNoAlloca_foldl {A} (f : option Function -> A -> option Function)
      (l : list A) F F' :
  (forall x, f None x = None) ->
  (forall F0 F1 x, f (Some F0) x = Some F1 -> addsNoAlloca F0 F1) ->
  foldl f (Some F) l = Some F' -> addsNoAlloca F F'.
Proof.
  intros Hnone Hstep. revert F.
  induction l as [|x l IH]; intros F; simpl.
  - intros [= <-]. apply addsNoAlloca_refl.
  - destruct (f (Some F) x) as [F1|] eqn:Hx.
    + intros HF'. eapply addsNoAlloca_trans; [by eapply Hstep|by apply IH].
    + intros Hl. exfalso. clear -Hnone Hl.
      induction l as [|y l IHl]; simpl in Hl; [done|].
      rewrite Hnone in Hl. by apply IHl.
Qed.

Lemma addsNoAlloca_emitBefore F IP mk F' J :
  (forall id, iop (mk id) ≠ Alloca) ->
  emitBefore F IP mk = Some (F', J) -> addsNoAlloca F F'.
Proof.
  intros Hmk [-> Hperm]%emitBefore_perm.
  by eapply addsNoAlloca_insert.
Qed.

Lemma addsNoAlloca_insertAfter F pos J F' :
  iop J ≠ Alloca -> insertAfter F pos J = Some F' -> addsNoAlloca F F'.
Proof.
  intros Hop Hins%insertAfter_perm. by eapply addsNoAlloca_insert.
Qed.

Lemma freshId_fresh F J : J ∈ instructions F -> iid J < freshId F.
Proof.
  intros HJ. unfold freshId.
  assert (iid J ≤ max_list (iid <$> instructions F)); [|lia].
  apply max_list_elem_of_le, list_elem_of_fmap. eauto.
Qed.

Lemma freshId_not_in_sigs F : freshId F ∉ (fst <$> sigs F).
Proof.
  unfold sigs. rewrite <- list_fmap_compose.
  intros (J & Heq & HJ)%list_elem_of_fmap. simpl in Heq.
  apply freshId_fresh in HJ. lia.
Qed.

Section RelocationFacts.
Variable derivedPtr : Function -> Instruction -> Value.

Lemma emitAllocas_spec live F allocaMap Promotable F1 allocaMap1 Promotable1 :
  emitAllocas live F allocaMap Promotable = Some (F1, allocaMap1, Promotable1) ->
  exists new,
    Promotable1 = Promotable ++ new ∧
    length new = length live ∧
    sigs F1 ≡ₚ (sig <$> new) ++ sigs F ∧
    Forall (fun J => iop J = Alloca) new ∧
    Forall (fun J => iid J ∉ (fst <$> sigs F)) new.
Proof.
  revert F allocaMap Promotable.
  induction live as [|liveValue rest IH]; intros F allocaMap Promotable; simpl.
  - intros [= <- <- <-]. exists []. rewrite app_nil_r. by repeat split.
  - intros (entry & _ & H)%bind_Some.
    apply bind_Some in H as (IP & _ & H).
    apply bind_Some in H as ([F' alloca] & Hemit & H).
    destruct (IH _ _ _ H) as (new & -> & Hlen & Hperm & Hop & Hfresh).
    apply emitBefore_perm in Hemit as [-> Hperm'].
    apply sigs_perm_cons in Hperm'.
    exists (mkAlloca (freshId F) :: new). rewrite <- app_assoc.
    split; [done|]. split; [simpl; by rewrite Hlen|]. split; [|split].
    + rewrite Hperm, Hperm'. rewrite fmap_cons. simpl.
      by rewrite Permutation_middle.
    + by constructor.
    + constructor; [apply freshId_not_in_sigs|].
      eapply Forall_impl; [exact Hfresh|]. intros J HJ Hin. apply HJ.
      rewrite Hperm', fmap_cons. by right.
Qed.

Lemma storeAfterStatepoint_adds allocaMap info F F' entry :
  storeAfterStatepoint allocaMap info (Some F) entry = Some F' ->
  addsNoAlloca F F'.
Proof.
  unfold storeAfterStatepoint. destruct entry as [def [rv|]]; simpl.
  - intros (alloca & _ & H)%bind_Some.
    apply bind_Some in H as (pos & _ & H).
    by eapply addsNoAlloca_insertAfter; [|exact H].
  - intros (alloca & _ & H)%bind_Some.
    destruct (decide (Some def = result info)).
    { injection H as <-. apply addsNoAlloca_refl. }
    destruct (negb _); [done|].
    apply bind_Some in H as (bounds & _ & H).
    by eapply addsNoAlloca_insertAfter; [|exact H].
Qed.

Lemma storesForRecord_adds allocaMap info F F' :
  storesForRecord derivedPtr allocaMap (Some F) info = Some F' ->
  addsNoAlloca F F'.
Proof.
  unfold storesForRecord. simpl.
  intros (bounds & _ & H)%bind_Some.
  apply bind_Some in H as (relocations & _ & H).
  eapply addsNoAlloca_foldl; [| |exact H].
  - done.
  - intros F0 F1 x. apply storeAfterStatepoint_adds.
Qed.

Lemma loadForIncoming_adds def alloca useId F F' i :
  loadForIncoming def alloca useId (Some F) i = Some F' -> addsNoAlloca F F'.
Proof.
  unfold loadForIncoming. simpl.
  intros (phi & _ & H)%bind_Some.
  apply bind_Some in H as (V & _ & H).
  destruct (decide (V = def)); [|injection H as <-; apply addsNoAlloca_refl].
  apply bind_Some in H as (b & _ & H).
  apply bind_Some in H as (B & _ & H).
  apply bind_Some in H as (term & _ & H).
  apply bind_Some in H as ([F1 load] & Hemit & [= <-]).
  apply addsNoAlloca_updateInst; [done|].
  by eapply addsNoAlloca_emitBefore; [|exact Hemit].
Qed.

Lemma loadForUse_adds def alloca F F' useId :
  loadForUse def alloca (Some F) useId = Some F' -> addsNoAlloca F F'.
Proof.
  unfold loadForUse. simpl.
  intros (use & _ & H)%bind_Some.
  destruct (decide (iop use = PHI)).
  - eapply addsNoAlloca_foldl; [| |exact H]; [done|].
    intros F0 F1 i. apply loadForIncoming_adds.
  - apply bind_Some in H as ([F1 load] & Hemit & [= <-]).
    apply addsNoAlloca_updateInst; [done|].
    by eapply addsNoAlloca_emitBefore; [|exact Hemit].
Qed.

Lemma rewriteUsesOf_adds F F' entry :
  rewriteUsesOf (Some F) entry = Some F' -> addsNoAlloca F F'.
Proof.
  unfold rewriteUsesOf. destruct entry as [def alloca]. simpl.
  intros (F1 & Hloads & H)%bind_Some.
  apply bind_Some in H as (pos & _ & H).
  eapply addsNoAlloca_trans.
  - eapply addsNoAlloca_foldl; [| |exact Hloads]; [done|].
    intros F0 F2 useId. apply loadForUse_adds.
  - by eapply addsNoAlloca_insertAfter; [|exact H].
Qed.
End RelocationFacts.

Lemma instructions_PromoteMemToReg allocas F :
  instructions (PromoteMemToReg allocas F)
  = filter (fun J => promoted allocas J = false) (instructions F).
Proof.
  unfold PromoteMemToReg, instructions. simpl.
  induction (blocks F) as [|B bs IH]; [done|].
  rewrite fmap_cons. simpl. by rewrite filter_app, IH.
Qed.

(** An alloca stays exactly when it is not one of the promoted slots. *)
Lemma promoted_alloca allocas J :
  iop J = Alloca ->
  promoted allocas J = false <-> iid J ∉ (iid <$> allocas).
Proof.
  intros Hop. unfold promoted. rewrite Hop. simpl.
  rewrite !orb_false_r. by rewrite bool_decide_eq_false.
Qed.

Lemma countAllocas_PromoteMemToReg allocas F :
  countAllocas (PromoteMemToReg allocas F)
  = length (filter (fun p => snd p = Alloca ∧ fst p ∉ (iid <$> allocas)) (sigs F)).
Proof.
  unfold countAllocas, sigs. rewrite instructions_PromoteMemToReg.
  induction (instructions F) as [|J l IH]; [done|].
  cbn.
  destruct (decide (promoted allocas J = false)) as [Hp|Hp];
    destruct (decide (iop J = Alloca ∧ iid J ∉ (iid <$> allocas))) as [[Ha Hi]|Hn];
    cbn.
  - rewrite decide_True by (unfold isAlloca; by apply bool_decide_eq_true).
    simpl. f_equal. exact IH.
  - destruct (decide (isAlloca J = true)) as [Ha|Ha]; [|exact IH].
    exfalso. apply Hn. unfold isAlloca in Ha. apply bool_decide_eq_true in Ha.
    split; [done|]. by apply promoted_alloca.
  - exfalso. apply Hp. by apply promoted_alloca.
  - exact IH.
Qed.

Lemma filter_length_perm {A} (P : A -> Prop) `{forall x, Decision (P x)} (l k : list A) :
  l ≡ₚ k -> length (filter P l) = length (filter P k).
Proof. intros Hperm. by rewrite Hperm. Qed.

Lemma filter_length_none {A} (P : A -> Prop) `{forall x, Decision (P x)} (l : list A) :
  Forall (fun x => ¬ P x) l -> length (filter P l) = 0.
Proof.
  induction 1 as [|x l Hx _ IH]; [done|].
  cbn. by rewrite decide_False.
Qed.

Lemma filter_length_ext {A} (P Q : A -> Prop) `{forall x, Decision (P x)}
      `{forall x, Decision (Q x)} (l : list A) :
  Forall (fun x => P x <-> Q x) l -> length (filter P l) = length (filter Q l).
Proof.
  induction 1 as [|x l Hx _ IH]; [done|].
  cbn. destruct (decide (P x)) as [HP|HP], (decide (Q x)) as [HQ|HQ]; simpl.
  - f_equal. exact IH.
  - exfalso. tauto.
  - exfalso. tauto.
  - exact IH.
Qed.

(** C9.  When the relocation phase completes, the function holds as many
    allocas as before: the phase adds one slot per live value, adds nothing
    else that is an alloca, and hands exactly the slots it added to SSA
    promotion, which eliminates them. *)
Theorem relocationViaAlloca_alloca_count derivedPtr F live records F' :
  relocationViaAlloca derivedPtr F live records = Some F' ->
  countAllocas F' = countAllocas F.
Proof.
  unfold relocationViaAlloca.
  intros ([[F1 allocaMap] Promotable] & Hallocas & H)%bind_Some.
  apply bind_Some in H as (F2 & Hstores & H).
  apply bind_Some in H as (F3 & Hloads & H).
  destruct (emitAllocas_spec _ _ _ _ _ _ _ Hallocas)
    as (new & Hnew & Hlen & Hperm1 & Hop & Hfresh).
  simpl in Hnew. subst Promotable.
  assert (H12 : addsNoAlloca F1 F2).
  { eapply addsNoAlloca_foldl; [| |exact Hstores]; [done|].
    intros F0 F4 info. apply storesForRecord_adds. }
  assert (H23 : addsNoAlloca F2 F3).
  { eapply addsNoAlloca_foldl; [| |exact Hloads]; [done|].
    intros F0 F4 entry. apply rewriteUsesOf_adds. }
  destruct (addsNoAlloca_trans _ _ _ H12 H23) as (extra & Hperm3 & Hextra).
  assert (Hsigs : sigs F3 ≡ₚ extra ++ (sig <$> new) ++ sigs F)
    by (by rewrite Hperm3, Hperm1).
  destruct (bool_decide (new = [])) eqn:Hempty.
  - injection H as <-. apply bool_decide_eq_true in Hempty. subst new.
    rewrite !countAllocas_sigs.
    rewrite (filter_length_perm _ _ _ Hsigs). simpl.
    rewrite filter_app, length_app.
    rewrite filter_length_none; [done|].
    eapply Forall_impl; [exact Hextra|]. by intros p Hp.
  - injection H as <-.
    rewrite countAllocas_PromoteMemToReg, countAllocas_sigs.
    rewrite (filter_length_perm _ _ _ Hsigs).
    rewrite !filter_app, !length_app.
    rewrite filter_length_none.
    2:{ eapply Forall_impl; [exact Hextra|]. intros p Hp [Ha _]. done. }
    rewrite filter_length_none.
    2:{ apply Forall_fmap, Forall_forall. intros J HJ [_ Hi]. apply Hi.
        simpl. by apply list_elem_of_fmap_2. }
    simpl. apply filter_length_ext, Forall_forall.
    intros p Hp. split; [tauto|]. intros Ha. split; [done|].
    intros (J & Heq & HJ)%list_elem_of_fmap.
    rewrite Forall_forall in Hfresh. apply (Hfresh J HJ).
    rewrite <- Heq. by apply list_elem_of_fmap_2.
Qed.

Lemma relocationViaAlloca_alloca_count_witness :
  exists F',
    relocationViaAlloca derivedPtrAt (fst sample_statepointed) sample_live
                        [snd sample_statepointed] = Some F' ∧
    countAllocas F' = countAllocas (fst sample_statepointed).
Proof.
  eexists. split; [vm_compute; reflexivity|].
  apply (relocationViaAlloca_alloca_count derivedPtrAt (fst sample_statepointed)
           sample_live [snd sample_statepointed]).
  vm_compute; reflexivity.
Defined.

(** * Further properties of the code *)

(** ** The meet over the inputs of a merge *)

Section MeetAllFacts.
Variable is_base_value : Value -> bool.
Implicit Types (phiStates : gmap Value PhiState) (cur : PhiState).

Lemma meetWith_None phiStates cur V :
  getStateForBDV is_base_value phiStates V = None ->
  meetWith is_base_value phiStates cur V = None.
Proof. intros Hget. unfold meetWith. by rewrite Hget. Qed.

(** Two meets in a row can be swapped. *)
Lemma pureMeet_swap cur sx sy :
  PhiState_wf cur -> PhiState_wf sx -> PhiState_wf sy ->
  (pureMeet sx cur ≫= pureMeet sy) = (pureMeet sy cur ≫= pureMeet sx).
Proof.
  intros Hc%PhiState_wf_cases Hx%PhiState_wf_cases Hy%PhiState_wf_cases.
  destruct Hc as [-> | [[vc ->] | ->]], Hx as [-> | [[vx ->] | ->]],
           Hy as [-> | [[vy ->] | ->]];
    unfold pureMeet; simpl; try reflexivity;
    repeat (case_decide; simpl; try reflexivity; try congruence).
Qed.

Lemma meetWith_swap phiStates cur x y :
  states_wf phiStates -> PhiState_wf cur ->
  (meetWith is_base_value phiStates cur x ≫= fun c => meetWith is_base_value phiStates c y)
  = (meetWith is_base_value phiStates cur y ≫= fun c => meetWith is_base_value phiStates c x).
Proof.
  intros Hwf Hcur.
  destruct (getStateForBDV is_base_value phiStates x) as [sx|] eqn:Hx;
    destruct (getStateForBDV is_base_value phiStates y) as [sy|] eqn:Hy.
  - pose proof (getStateForBDV_wf _ _ _ _ Hwf Hx) as Hsx.
    pose proof (getStateForBDV_wf _ _ _ _ Hwf Hy) as Hsy.
    destruct (meetWith_meet _ _ _ x _ Hwf Hcur Hx) as [Hmx [rx Hrx]].
    destruct (meetWith_meet _ _ _ y _ Hwf Hcur Hy) as [Hmy [ry Hry]].
    rewrite Hrx, Hry. simpl.
    pose proof (meetWith_wf _ _ _ _ _ Hwf Hcur Hrx) as Hwx.
    pose proof (meetWith_wf _ _ _ _ _ Hwf Hcur Hry) as Hwy.
    destruct (meetWith_meet _ _ _ y _ Hwf Hwx Hy) as [-> _].
    destruct (meetWith_meet _ _ _ x _ Hwf Hwy Hx) as [-> _].
    rewrite Hmx in Hrx. rewrite Hmy in Hry.
    pose proof (pureMeet_swap cur sx sy Hcur Hsx Hsy) as Hswap.
    by rewrite Hrx, Hry in Hswap.
  - rewrite (meetWith_None _ cur y Hy). simpl.
    destruct (meetWith is_base_value phiStates cur x); simpl; [|done].
    by apply meetWith_None.
  - rewrite (meetWith_None _ cur x Hx). simpl.
    destruct (meetWith is_base_value phiStates cur y); simpl; [|done].
    symmetry. by apply meetWith_None.
  - by rewrite (meetWith_None _ cur x Hx), (meetWith_None _ cur y Hy).
Qed.

Lemma meetFrom_None phiStates Vs : meetFrom is_base_value phiStates None Vs = None.
Proof. induction Vs as [|V Vs IH]; [done|exact IH]. Qed.

Lemma meetFrom_perm phiStates acc Vs Vs' :
  states_wf phiStates ->
  (forall s, acc = Some s -> PhiState_wf s) ->
  Vs ≡ₚ Vs' ->
  meetFrom is_base_value phiStates acc Vs = meetFrom is_base_value phiStates acc Vs'.
Proof.
  intros Hwf Hacc Hperm. revert acc Hacc.
  induction Hperm as [|x l l' _ IH|x y l|l l' l'' _ IH1 _ IH2]; intros acc Hacc.
  - done.
  - simpl. apply IH. intros s Hs. destruct acc as [cur|]; [|done].
    simpl in Hs. eapply meetWith_wf; eauto.
  - simpl. f_equal. destruct acc as [cur|]; [|done]. simpl.
    symmetry. apply meetWith_swap; eauto.
  - rewrite IH1 by done. by apply IH2.
Qed.
End MeetAllFacts.

(** X1. The state computed for a merge does not depend on the order in
    which its inputs are met: for a table of lattice states, [meetAll] gives
    the same result (or fails alike) on any two orderings of the inputs. *)
Theorem meetAll_order_independent is_base_value phiStates Vs Vs' :
  states_wf phiStates ->
  Vs ≡ₚ Vs' ->
  meetAll is_base_value phiStates Vs = meetAll is_base_value phiStates Vs'.
Proof.
  intros Hwf Hperm. unfold meetAll.
  apply (meetFrom_perm is_base_value phiStates (Some PhiState_default)); try done.
  by intros s [= <-].
Qed.

Lemma meetAll_order_independent_witness :
  states_wf {[ sample_phi := PhiState_base sample_p ]} ∧
  [sample_p; sample_q; sample_phi] ≡ₚ [sample_phi; sample_p; sample_q] ∧
  meetAll no_metadata {[ sample_phi := PhiState_base sample_p ]}
          [sample_p; sample_q; sample_phi]
  = meetAll no_metadata {[ sample_phi := PhiState_base sample_p ]}
            [sample_phi; sample_p; sample_q].
Proof.
  assert (Hwf : states_wf {[ sample_phi := PhiState_base sample_p ]}).
  { intros v s [_ <-]%lookup_singleton_Some. apply PhiState_base_wf. }
  assert (Hperm : [sample_p; sample_q; sample_phi] ≡ₚ [sample_phi; sample_p; sample_q]).
  { change ([sample_p; sample_q] ++ [sample_phi] ≡ₚ [sample_phi] ++ [sample_p; sample_q]).
    apply Permutation_app_comm. }
  split; [exact Hwf|]. split; [exact Hperm|].
  exact (meetAll_order_independent no_metadata _ _ _ Hwf Hperm).
Defined.

Lemma PhiState_default_wf : PhiState_wf PhiState_default.
Proof. reflexivity. Qed.

Lemma PhiState_conflict_wf : PhiState_wf PhiState_conflict.
Proof. reflexivity. Qed.

Section MeetAllValue.
Variable is_base_value : Value -> bool.
Variable phiStates : gmap Value PhiState.
Hypothesis Hwf : states_wf phiStates.

#[local] Abbreviation stateOf := (getStateForBDV is_base_value phiStates).
#[local] Abbreviation meetFrom' := (meetFrom is_base_value phiStates).

Lemma meetWith_state cur V s :
  PhiState_wf cur -> stateOf V = Some s ->
  meetWith is_base_value phiStates cur V = pureMeet s cur.
Proof. intros Hcur Hs. by apply meetWith_meet. Qed.

Lemma meetFrom_conflict Vs :
  (forall V, V ∈ Vs -> is_Some (stateOf V)) ->
  meetFrom' (Some PhiState_conflict) Vs = Some PhiState_conflict.
Proof.
  induction Vs as [|V Vs IH]; intros Hall; [done|].
  destruct (Hall V) as [s Hs]; [left|].
  unfold meetFrom. simpl. rewrite (meetWith_state _ V s) by done.
  pose proof (getStateForBDV_wf _ _ _ _ Hwf Hs) as Hsw.
  apply PhiState_wf_cases in Hsw as [-> | [[v ->] | ->]]; simpl;
    apply IH; intros V' HV'; apply Hall; by right.
Qed.

Lemma meetFrom_base b Vs :
  (forall V, V ∈ Vs ->
             stateOf V = Some (PhiState_base b) \/ stateOf V = Some PhiState_default) ->
  meetFrom' (Some (PhiState_base b)) Vs = Some (PhiState_base b).
Proof.
  induction Vs as [|V Vs IH]; intros Hall; [done|].
  unfold meetFrom. simpl.
  assert (meetWith is_base_value phiStates (PhiState_base b) V
          = Some (PhiState_base b)) as ->.
  { destruct (Hall V) as [Hs|Hs]; [left| |];
      rewrite (meetWith_state _ V _ (PhiState_base_wf b) Hs).
    - apply pureMeet_base_same.
    - reflexivity. }
  apply IH. intros V' HV'. apply Hall. by right.
Qed.

Lemma meetFrom_unknown Vs :
  (forall V, V ∈ Vs -> stateOf V = Some PhiState_default) ->
  meetFrom' (Some PhiState_default) Vs = Some PhiState_default.
Proof.
  induction Vs as [|V Vs IH]; intros Hall; [done|].
  unfold meetFrom. simpl.
  rewrite (meetWith_state _ V PhiState_default PhiState_default_wf)
    by (apply Hall; left).
  simpl. apply IH. intros V' HV'. apply Hall. by right.
Qed.
End MeetAllValue.

(** X2. What the meet over the inputs of a merge comes to, when every input
    has a state.  It is [Conflict] as soon as one input is in conflict or two
    inputs have different bases; it is [Base(b)] when some input has base [b]
    and every other input has base [b] or is still unknown; it is [Unknown]
    when every input is unknown. *)
Theorem meetAll_value is_base_value phiStates Vs :
  states_wf phiStates ->
  (forall V, V ∈ Vs -> is_Some (getStateForBDV is_base_value phiStates V)) ->
  ((exists V, V ∈ Vs ∧
              getStateForBDV is_base_value phiStates V = Some PhiState_conflict) ->
   meetAll is_base_value phiStates Vs = Some PhiState_conflict) ∧
  (forall V1 V2 b1 b2,
      V1 ∈ Vs -> V2 ∈ Vs -> b1 <> b2 ->
      getStateForBDV is_base_value phiStates V1 = Some (PhiState_base b1) ->
      getStateForBDV is_base_value phiStates V2 = Some (PhiState_base b2) ->
      meetAll is_base_value phiStates Vs = Some PhiState_conflict) ∧
  (forall V b,
      V ∈ Vs ->
      getStateForBDV is_base_value phiStates V = Some (PhiState_base b) ->
      (forall V', V' ∈ Vs ->
         getStateForBDV is_base_value phiStates V' = Some (PhiState_base b) \/
         getStateForBDV is_base_value phiStates V' = Some PhiState_default) ->
      meetAll is_base_value phiStates Vs = Some (PhiState_base b)) ∧
  ((forall V, V ∈ Vs ->
      getStateForBDV is_base_value phiStates V = Some PhiState_default) ->
   meetAll is_base_value phiStates Vs = Some PhiState_default).
Proof.
  intros Hwf Hall.
  assert (Hdef : forall s, Some PhiState_default = Some s -> PhiState_wf s)
    by (by intros s [= <-]).
  assert (Hfront : forall V rest, Vs ≡ₚ V :: rest ->
            meetAll is_base_value phiStates Vs
            = meetFrom is_base_value phiStates (Some PhiState_default) (V :: rest)).
  { intros V rest Hperm. unfold meetAll.
    by apply (meetFrom_perm is_base_value phiStates (Some PhiState_default)). }
  split; [|split; [|split]].
  - intros (V & HV & Hs).
    apply elem_of_Permutation in HV as [rest Hperm].
    rewrite (Hfront _ _ Hperm). unfold meetFrom. simpl.
    rewrite (meetWith_state _ _ Hwf _ V _ PhiState_default_wf Hs). simpl.
    apply (meetFrom_conflict _ _ Hwf).
    intros V' HV'. apply Hall. rewrite Hperm. by right.
  - intros V1 V2 b1 b2 HV1 HV2 Hne Hs1 Hs2.
    apply elem_of_Permutation in HV1 as [rest Hperm].
    assert (HV2' : V2 ∈ rest).
    { rewrite Hperm in HV2. apply elem_of_cons in HV2 as [->|]; [|done].
      rewrite Hs1 in Hs2. by injection Hs2. }
    apply elem_of_Permutation in HV2' as [rest' Hperm'].
    rewrite Hperm' in Hperm.
    rewrite (Hfront _ _ Hperm). unfold meetFrom. simpl.
    rewrite (meetWith_state _ _ Hwf _ V1 _ PhiState_default_wf Hs1). simpl.
    rewrite (meetWith_state _ _ Hwf _ V2 _ (PhiState_base_wf b1) Hs2).
    rewrite pureMeet_base_distinct by done.
    apply (meetFrom_conflict _ _ Hwf).
    intros V' HV'. apply Hall. rewrite Hperm. by do 2 right.
  - intros V b HV Hs Hothers.
    apply elem_of_Permutation in HV as [rest Hperm].
    rewrite (Hfront _ _ Hperm). unfold meetFrom. simpl.
    rewrite (meetWith_state _ _ Hwf _ V _ PhiState_default_wf Hs). simpl.
    apply (meetFrom_base _ _ Hwf).
    intros V' HV'. apply Hothers. rewrite Hperm. by right.
  - intros Hunk. by apply (meetFrom_unknown _ _ Hwf).
Qed.

Lemma meetAll_value_witness :
  states_wf {[ sample_phi := PhiState_base sample_p ]} ∧
  (forall V, V ∈ [sample_p; sample_q; sample_phi] ->
     is_Some (getStateForBDV no_metadata {[ sample_phi := PhiState_base sample_p ]} V)) ∧
  meetAll no_metadata {[ sample_phi := PhiState_base sample_p ]}
          [sample_p; sample_q; sample_phi] = Some PhiState_conflict.
Proof.
  assert (Hwf : states_wf {[ sample_phi := PhiState_base sample_p ]}).
  { intros v s [_ <-]%lookup_singleton_Some. apply PhiState_base_wf. }
  assert (Hall : forall V, V ∈ [sample_p; sample_q; sample_phi] ->
     is_Some (getStateForBDV no_metadata {[ sample_phi := PhiState_base sample_p ]} V)).
  { intros V HV.
    repeat (apply elem_of_cons in HV as [->|HV]); try (by eexists).
    by apply elem_of_nil in HV. }
  split; [exact Hwf|]. split; [exact Hall|].
  apply (proj1 (proj2 (meetAll_value no_metadata _ _ Hwf Hall))
               sample_p sample_q sample_p sample_q).
  - left.
  - right; left.
  - discriminate.
  - reflexivity.
  - reflexivity.
Defined.

(** X3. Of the two assertions behind [meetWith], only the table lookup can
    fail.  With lattice states in the table and as running result,
    [meetWith] aborts exactly when its argument is an unresolved merge that
    has no entry in the table; in every other case it returns the meet of
    the argument's state with the running result, and the check that the
    meet commutes passes. *)
Theorem meetWith_fails_only_on_lookup is_base_value phiStates cur V :
  states_wf phiStates -> PhiState_wf cur ->
  (meetWith is_base_value phiStates cur V = None <->
   isKnownBaseResult is_base_value V = false ∧ phiStates !! V = None) ∧
  (isKnownBaseResult is_base_value V = true ->
   meetWith is_base_value phiStates cur V = pureMeet (PhiState_base V) cur) ∧
  (forall s, isKnownBaseResult is_base_value V = false -> phiStates !! V = Some s ->
   meetWith is_base_value phiStates cur V = pureMeet s cur) ∧
  (forall r, meetWith is_base_value phiStates cur V = Some r -> PhiState_wf r).
Proof.
  intros Hwf Hcur. split; [|split; [|split]].
  - unfold getStateForBDV, lookupFromMap.
    destruct (getStateForBDV is_base_value phiStates V) as [s|] eqn:Hs.
    + destruct (meetWith_meet _ _ _ V _ Hwf Hcur Hs) as [_ [r Hr]].
      rewrite Hr. split; [done|]. intros [Hk Hl]. exfalso.
      unfold getStateForBDV, lookupFromMap in Hs. rewrite Hk in Hs. congruence.
    + rewrite (meetWith_None _ _ cur V Hs). split; [|done]. intros _.
      unfold getStateForBDV, lookupFromMap in Hs.
      by destruct (isKnownBaseResult is_base_value V).
  - intros Hk. apply meetWith_meet; try done.
    unfold getStateForBDV. by rewrite Hk.
  - intros s Hk Hl. apply meetWith_meet; try done.
    unfold getStateForBDV, lookupFromMap. by rewrite Hk.
  - intros r. by apply meetWith_wf.
Qed.

Lemma meetWith_fails_only_on_lookup_witness :
  states_wf (∅ : gmap Value PhiState) ∧ PhiState_wf (PhiState_base sample_p) ∧
  meetWith no_metadata ∅ (PhiState_base sample_p) sample_phi = None ∧
  meetWith no_metadata ∅ (PhiState_base sample_p) sample_q = Some PhiState_conflict.
Proof.
  assert (Hwf : states_wf (∅ : gmap Value PhiState)) by (by intros v s Hl).
  pose proof (meetWith_fails_only_on_lookup no_metadata ∅ (PhiState_base sample_p)
                sample_phi Hwf (PhiState_base_wf sample_p)) as (Hnone & _).
  pose proof (meetWith_fails_only_on_lookup no_metadata ∅ (PhiState_base sample_p)
                sample_q Hwf (PhiState_base_wf sample_p)) as (_ & Hknown & _).
  split; [exact Hwf|]. split; [apply PhiState_base_wf|]. split.
  - apply Hnone. by split.
  - rewrite Hknown by reflexivity. reflexivity.
Defined.

(** ** More on [unique_unsorted] *)

Lemma unique_unsorted_loop_NoDup_id {T} `{Countable T} (seen : gset T) (l : list T) :
  NoDup l -> (forall x, x ∈ l -> x ∉ seen) ->
  unique_unsorted_loop seen l [] = l.
Proof.
  revert seen. induction l as [|V rest IH]; intros seen Hnd Hseen; [done|].
  rewrite unique_unsorted_loop_cons.
  apply NoDup_cons in Hnd as [Hnin Hnd].
  rewrite decide_False by (apply Hseen; left).
  f_equal. apply IH; [done|].
  intros x Hx. rewrite not_elem_of_union, not_elem_of_singleton. split.
  - intros ->. done.
  - apply Hseen. by right.
Qed.

(** X4. A vector without duplicates passes through [unique_unsorted]
    unchanged, so applying [unique_unsorted] twice is the same as applying
    it once; and the result is never longer than the input. *)
Theorem unique_unsorted_stable {T : Type} `{Countable T} (vec : list T) :
  (NoDup vec -> unique_unsorted vec = vec) ∧
  unique_unsorted (unique_unsorted vec) = unique_unsorted vec ∧
  length (unique_unsorted vec) <= length vec.
Proof.
  assert (Hid : forall l : list T, NoDup l -> unique_unsorted l = l).
  { intros l Hnd. apply unique_unsorted_loop_NoDup_id; [done|]. set_solver. }
  split; [apply Hid|]. split.
  - apply Hid, NoDup_unique_unsorted_loop.
  - apply submseteq_length, NoDup_submseteq.
    + apply NoDup_unique_unsorted_loop.
    + intros x. unfold unique_unsorted.
      rewrite elem_of_unique_unsorted_loop. tauto.
Qed.

(** ** More on liveness *)

Lemma elem_of_uses (ops : list Value) (Live : gset Value) V :
  V ∈ foldl (fun Live V => if isLiveOperand V then {[V]} ∪ Live else Live) Live ops
  <-> (V ∈ ops ∧ isLiveOperand V = true) ∨ V ∈ Live.
Proof.
  revert Live. induction ops as [|V0 ops IH]; intros Live; simpl.
  - split; [by right|]. intros [[Hin _]|H]; [by apply elem_of_nil in Hin|done].
  - rewrite IH, elem_of_cons. destruct (isLiveOperand V0) eqn:HV0.
    + rewrite elem_of_union, elem_of_singleton. split.
      * intros [[? ?]|[->|?]]; eauto.
      * intros [[[->|?] ?]|?]; eauto.
    + split.
      * intros [[? ?]|?]; eauto.
      * intros [[[->|?] ?]|?]; eauto. congruence.
Qed.

Lemma elem_of_computeGCPtrLiveness_inst Live J V :
  V ∈ computeGCPtrLiveness_inst Live J <->
  (V ∈ operands J ∧ isLiveOperand V = true) ∨ (V ∈ Live ∧ V ≠ valueOf J).
Proof.
  unfold computeGCPtrLiveness_inst.
  rewrite elem_of_uses, elem_of_difference, elem_of_singleton. tauto.
Qed.

Lemma elem_of_computeGCPtrLiveness_range range LiveAfter V :
  V ∈ computeGCPtrLiveness_range (rev range) LiveAfter <->
  liveBefore range LiveAfter V.
Proof.
  induction range as [|J rest IH]; simpl; [done|].
  unfold computeGCPtrLiveness_range in *. rewrite foldl_app. simpl.
  rewrite elem_of_computeGCPtrLiveness_inst, IH. tauto.
Qed.

(** X5. The backward scan is the kill/gen rule of liveness.  Before one
    instruction, a value is live exactly when the instruction has it as an
    operand of GC-pointer type that is neither null nor undef (any other
    constant of that type counts), or when it is live after the instruction
    and is not the instruction's own value.  Over a run of instructions, a
    value is live before the run exactly when it is upward exposed (some
    instruction of the run has it as such an operand and no earlier
    instruction of the run is that value) or it is live after the run and no
    instruction of the run is that value. *)
Theorem computeGCPtrLiveness_kill_gen :
  (forall Live J V,
      V ∈ computeGCPtrLiveness_inst Live J <->
      (V ∈ operands J ∧ isGCPointerType (getType V) = true ∧
       isNull V = false ∧ isaUndefValue V = false)
      ∨ (V ∈ Live ∧ V ≠ valueOf J)) ∧
  (forall range LiveAfter V,
      V ∈ computeGCPtrLiveness_range (rev range) LiveAfter <->
      (exists pre J post,
          range = pre ++ J :: post ∧
          V ∈ operands J ∧ isGCPointerType (getType V) = true ∧
          isNull V = false ∧ isaUndefValue V = false ∧
          forall K, K ∈ pre -> V ≠ valueOf K)
      ∨ (V ∈ LiveAfter ∧ forall K, K ∈ range -> V ≠ valueOf K)).
Proof.
  assert (Hop : forall V, isLiveOperand V = true <->
            isGCPointerType (getType V) = true ∧
            isNull V = false ∧ isaUndefValue V = false).
  { intros V. unfold isLiveOperand.
    rewrite !andb_true_iff, !negb_true_iff. tauto. }
  split.
  - intros Live J V. rewrite elem_of_computeGCPtrLiveness_inst, Hop. tauto.
  - intros range LiveAfter V. rewrite elem_of_computeGCPtrLiveness_range.
    induction range as [|J rest IH]; simpl.
    + split.
      * intros HV. right. split; [done|]. by intros K ?%elem_of_nil.
      * intros [(pre & J & post & Heq & _)|[HV _]]; [|done].
        by destruct pre.
    + rewrite IH, Hop. clear IH. split.
      * intros [[Hin Hlive]|[Hne [(pre & J' & post & -> & Hin & Hrest)|[HV Hall]]]].
        -- left. exists [], J, rest. split; [done|]. split; [done|].
           destruct Hlive as (? & ? & ?). repeat split; try done.
           by intros K ?%elem_of_nil.
        -- left. exists (J :: pre), J', post. split; [done|]. split; [done|].
           destruct Hrest as (? & ? & ? & Hpre). repeat split; try done.
           intros K [->|HK]%elem_of_cons; [done|by apply Hpre].
        -- right. split; [done|].
           intros K [->|HK]%elem_of_cons; [done|by apply Hall].
      * intros [(pre & J' & post & Heq & Hin & Hg & Hn & Hu & Hpre)|[HV Hall]].
        -- destruct pre as [|P pre]; simpl in Heq; injection Heq as <- ->.
           ++ by left.
           ++ right. split; [apply Hpre; left|]. left.
              exists pre, J', post. repeat split; try done.
              intros K HK. apply Hpre. by right.
        -- right. split; [apply Hall; left|]. right. split; [done|].
           intros K HK. apply Hall. by right.
Qed.

(** A global of GC-pointer type is a constant, and it is live where it is
    used: only null and undef are left out. *)
Example computeGCPtrLiveness_global_live :
  let g := GlobalVariable "table" (PointerTy 1) in
  let load := mkInstruction 7 Load (IntegerTy 64) [g] [] [] in
  computeGCPtrLiveness_range (rev [load]) ∅ = {[g]} ∧
  computeGCPtrLiveness_range
    (rev [mkInstruction 7 Load (IntegerTy 64) [ConstantPointerNull (PointerTy 1)] [] []])
    ∅ = ∅.
Proof. split; reflexivity. Qed.

Lemma instsFrom_Some_head id l range :
  instsFrom id l = Some range ->
  exists J rest, range = J :: rest ∧ iid J = id.
Proof.
  revert range. induction l as [|J l IH]; intros range; simpl; [done|].
  destruct (decide (iid J = id)); [intros [= <-]; eauto|]. apply IH.
Qed.

Lemma instsFrom_is_Some id l :
  existsb (fun J => bool_decide (iid J = id)) l = true -> is_Some (instsFrom id l).
Proof.
  induction l as [|J l IH]; simpl; [done|].
  destruct (decide (iid J = id)) as [Heq|Hne]; [eauto|].
  rewrite bool_decide_eq_false_2 by done. exact IH.
Qed.

Lemma getParent_instsFrom F id BB :
  getParent F id = Some BB -> is_Some (instsFrom id (insts BB)).
Proof.
  unfold getParent. intros [_ Hex]%find_some. by apply instsFrom_is_Some.
Qed.

(** X6. The live set [findLiveSetAtInst] returns for an instruction, in
    full.  The function fails only when the instruction is in no block or
    its block has no live-out entry.  Otherwise a value is in the result
    exactly when it is not the instruction itself and it is either a live
    operand of the instruction or live before the instructions that follow
    it in the block: the instruction's own GC-pointer operands count as live
    at its entry.  Nothing but the instruction's own value is taken out of
    the scan: a live operand is any operand of GC-pointer type that is
    neither null nor undef, other constants included. *)
Theorem findLiveSetAtInst_exact F inst Data :
  (findLiveSetAtInst F inst Data = None <->
   getParent F (iid inst) = None ∨
   exists BB, getParent F (iid inst) = Some BB ∧ LiveOut Data !! bid BB = None) ∧
  (forall out,
      findLiveSetAtInst F inst Data = Some out ->
      exists BB J rest LiveOut0,
        getParent F (iid inst) = Some BB ∧
        instsFrom (iid inst) (insts BB) = Some (J :: rest) ∧
        iid J = iid inst ∧
        LiveOut Data !! bid BB = Some LiveOut0 ∧
        forall V, V ∈ out <->
                  V ≠ valueOf inst ∧
                  ((V ∈ operands J ∧ isLiveOperand V = true) ∨
                   (V ≠ valueOf J ∧ liveBefore rest LiveOut0 V))).
Proof.
  unfold findLiveSetAtInst.
  destruct (getParent F (iid inst)) as [BB|] eqn:HBB; simpl.
  2:{ split; [split; eauto|done]. }
  destruct (getParent_instsFrom _ _ _ HBB) as [range Hr].
  destruct (instsFrom_Some_head _ _ _ Hr) as (J & rest & -> & HJ).
  destruct (LiveOut Data !! bid BB) as [LiveOut0|] eqn:HLO; simpl.
  2:{ split; [|done]. split; [|done]. intros _. right. eauto. }
  rewrite Hr. simpl. split.
  - split; [done|]. intros [?|(BB' & [= <-] & ?)]; congruence.
  - intros out [= <-]. exists BB, J, rest, LiveOut0.
    do 4 (split; [done|]). intros V.
    rewrite elem_of_filter, (elem_of_computeGCPtrLiveness_range (J :: rest)).
    reflexivity.
Qed.

(** ** More on [CreateSafepoint] *)

Lemma insertBeforeIn_last id new l l' :
  insertBeforeIn id new l = Some l' -> last l' = last l.
Proof.
  revert l'. induction l as [|J rest IH]; intros l'; simpl; [done|].
  destruct (decide (iid J = id)).
  - intros [= <-]. rewrite (last_cons new).
    destruct (last (J :: rest)) eqn:E; [done|].
    rewrite last_cons in E. by destruct (last rest).
  - destruct (insertBeforeIn id new rest) as [r|] eqn:Hr; simpl; [|done].
    intros [= <-]. by rewrite !last_cons, (IH r eq_refl).
Qed.

Lemma editBlocks_shape f bs bs' :
  (forall l l', f l = Some l' -> last l' = last l) ->
  editBlocks f bs = Some bs' -> Forall2 sameShape bs bs'.
Proof.
  intros Hf. revert bs'. induction bs as [|B rest IH]; intros bs'; simpl; [done|].
  destruct (f (insts B)) as [l|] eqn:HB.
  - intros [= <-]. constructor.
    + split; [done|]. simpl. symmetry. by apply Hf.
    + apply Forall2_same_length_lookup. split; [done|].
      intros i x y Hx Hy. by simplify_eq.
  - destruct (editBlocks f rest) as [r|]; simpl; [|done].
    intros [= <-]. constructor; [done|]. by apply IH.
Qed.

Lemma sameShape_trans B1 B2 B3 : sameShape B1 B2 -> sameShape B2 B3 -> sameShape B1 B3.
Proof. intros [? ?] [? ?]. split; congruence. Qed.

Lemma extends_refl F : extends F F.
Proof.
  split.
  - exists []. by split.
  - apply Forall2_same_length_lookup. split; [done|].
    intros i x y Hx Hy. by simplify_eq.
Qed.

Lemma extends_trans F1 F2 F3 : extends F1 F2 -> extends F2 F3 -> extends F1 F3.
Proof.
  intros [(n1 & Hp1 & Hf1) Hs1] [(n2 & Hp2 & Hf2) Hs2]. split.
  - exists (n2 ++ n1). split; [by rewrite Hp2, Hp1, app_assoc|].
    apply Forall_app. split; [|done].
    eapply Forall_impl; [exact Hf2|]. intros J HJ Hin. apply HJ.
    rewrite Hp1, fmap_app, elem_of_app. by right.
  - assert (Transitive sameShape) by (intros ? ? ?; apply sameShape_trans).
    by etrans.
Qed.

Lemma freshId_not_used F : freshId F ∉ (iid <$> instructions F).
Proof.
  intros (J & Heq & HJ)%list_elem_of_fmap. apply freshId_fresh in HJ. lia.
Qed.

Lemma emitBefore_extends F IP mk F' J :
  (forall id, iid (mk id) = id) ->
  emitBefore F IP mk = Some (F', J) -> extends F F'.
Proof.
  intros Hmk Hemit. pose proof Hemit as [-> Hperm]%emitBefore_perm. split.
  - exists [mk (freshId F)]. split; [done|].
    constructor; [|done]. rewrite Hmk. apply freshId_not_used.
  - unfold emitBefore, insertBefore in Hemit.
    destruct (editBlocks _ (blocks F)) as [bs|] eqn:Hbs; simpl in Hemit; [|done].
    injection Hemit as <-. simpl.
    eapply editBlocks_shape; [|exact Hbs]. apply insertBeforeIn_last.
Qed.

Lemma emitRelocates_extends IP token live_start liveVariables pairs F newDefs F' newDefs' :
  emitRelocates IP token live_start liveVariables pairs F newDefs
  = Some (F', newDefs') -> extends F F'.
Proof.
  revert F newDefs. induction pairs as [|[base live] rest IH]; intros F newDefs; simpl.
  - intros [= <- _]. apply extends_refl.
  - intros (args & _ & H)%bind_Some.
    apply bind_Some in H as ([F1 reloc] & Hemit & H).
    eapply extends_trans; [|by eapply IH].
    by eapply emitBefore_extends; [|exact Hemit].
Qed.

(** X7. [CreateSafepoint] only completes when the base of every live value
    is itself among the live values (and the two vectors have the same
    length): a base that is missing from [liveVariables] trips the assertion
    of [find_index]. *)
Theorem CreateSafepoint_needs_live_bases isJVMState JVMState_of F CS jvmStateCall
        basePtrs liveVariables result0 F' result' :
  CreateSafepoint isJVMState JVMState_of F CS jvmStateCall
                  basePtrs liveVariables result0 = Some (F', result') ->
  length basePtrs = length liveVariables ∧
  forall base, base ∈ basePtrs -> base ∈ liveVariables.
Proof.
  unfold CreateSafepoint.
  destruct (bool_decide (length basePtrs = length liveVariables)) eqn:Hlen;
    simpl; [|done].
  apply bool_decide_eq_true in Hlen.
  intros (Target & _ & H)%bind_Some.
  apply bind_Some in H as ([F1 callee] & _ & H).
  apply bind_Some in H as ([F2 origArgs] & _ & H).
  apply bind_Some in H as ([[F3 token] IP] & _ & H).
  apply bind_Some in H as ([F4 gc_result] & _ & H).
  apply bind_Some in H as ([F5 newDefs] & Hrel & _).
  destruct (emitRelocates_spec _ _ _ _ _ _ _ _ _ Hrel) as (_ & new & _ & Hall & _).
  split; [done|]. intros base [i Hi]%list_elem_of_lookup.
  destruct (lookup_lt_is_Some_2 liveVariables i) as [live Hl].
  { rewrite <- Hlen. by eapply lookup_lt_Some. }
  assert (Hzip : zip basePtrs liveVariables !! i = Some (base, live)).
  { rewrite lookup_zip_with, Hi. simpl. by rewrite Hl. }
  destruct (Forall2_lookup_l _ _ _ _ _ Hall Hzip) as (reloc & _ & Hof).
  destruct Hof as (bi & _ & Hbi & _). cbn [fst] in Hbi.
  unfold find_index in Hbi. apply first_index_lookup in Hbi.
  by eapply list_elem_of_lookup_2.
Qed.

Lemma CreateSafepoint_needs_live_bases_witness :
  exists F' result',
    CreateSafepoint neverJVMState noJVMState sample_derive sample_call None
                    sample_bases sample_live emptyRecord = Some (F', result') ∧
    length sample_bases = length sample_live ∧
    forall base, base ∈ sample_bases -> base ∈ sample_live.
Proof.
  eexists; eexists. split; [vm_compute; reflexivity|].
  eapply (CreateSafepoint_needs_live_bases neverJVMState noJVMState sample_derive
            sample_call None sample_bases sample_live emptyRecord).
  vm_compute; reflexivity.
Defined.

(** A base that is not live makes [CreateSafepoint] abort. *)
Example CreateSafepoint_missing_base :
  CreateSafepoint neverJVMState noJVMState sample_derive sample_call None
                  [sample_p] [valueOf sample_gep] emptyRecord = None.
Proof. reflexivity. Qed.

Lemma statepointTarget_extends F CS Target b F1 callee :
  statepointTarget F CS Target b = Some (F1, callee) -> extends F F1.
Proof.
  unfold statepointTarget. destruct b.
  - intros ([Fa bc] & Hemit & [= <- _])%bind_Some.
    by eapply emitBefore_extends; [|exact Hemit].
  - intros [= <- _]. apply extends_refl.
Qed.

Lemma statepointOrigArgs_extends F CS jvmStateCall b F1 origArgs :
  statepointOrigArgs F CS jvmStateCall b = Some (F1, origArgs) -> extends F F1.
Proof.
  unfold statepointOrigArgs. destruct b.
  - intros (vm & _ & H)%bind_Some.
    apply bind_Some in H as ([Fa st] & Hemit & [= <- _]).
    by eapply emitBefore_extends; [|exact Hemit].
  - intros [= <- _]. apply extends_refl.
Qed.

Lemma emitResult_extends F CS token IP F1 r :
  emitResult F CS token IP = Some (F1, r) -> extends F F1.
Proof.
  unfold emitResult. destruct (_ && _).
  - intros (decl & _ & H)%bind_Some.
    apply bind_Some in H as ([Fa res] & Hemit & [= <- _]).
    by eapply emitBefore_extends; [|exact Hemit].
  - intros [= <- _]. apply extends_refl.
Qed.

(** X8. At a call, [CreateSafepoint] only adds: every instruction of the
    function stays as it is (the original call included), the new ones take
    identities the function did not use, and every block keeps its label and
    its terminator, hence the control-flow graph. *)
Theorem CreateSafepoint_call_extends isJVMState JVMState_of F CS jvmStateCall
        basePtrs liveVariables result0 F' result' :
  isCall CS = true ->
  CreateSafepoint isJVMState JVMState_of F CS jvmStateCall
                  basePtrs liveVariables result0 = Some (F', result') ->
  extends F F'.
Proof.
  intros Hcall. unfold CreateSafepoint.
  destruct (negb _); [done|].
  intros (Target & _ & H)%bind_Some.
  apply bind_Some in H as ([F1 callee] & H1 & H).
  apply bind_Some in H as ([F2 origArgs] & H2 & H).
  apply bind_Some in H as ([[F3 token] IP] & H3 & H).
  apply bind_Some in H as ([F4 gc_result] & H4 & H).
  apply bind_Some in H as ([F5 newDefs] & H5 & H).
  apply bind_Some in H as (_ & _ & [= <- _]).
  pose proof (statepointTarget_extends _ _ _ _ _ _ H1) as E1.
  pose proof (statepointOrigArgs_extends _ _ _ _ _ _ H2) as E2.
  assert (E3 : extends F2 F3).
  { unfold createToken in H3. rewrite Hcall in H3.
    apply bind_Some in H3 as ([Fa call] & Hemit & H3).
    apply bind_Some in H3 as (next & _ & [= <- _ _]).
    by eapply emitBefore_extends; [|exact Hemit]. }
  pose proof (emitResult_extends _ _ _ _ _ _ H4) as E4.
  pose proof (emitRelocates_extends _ _ _ _ _ _ _ _ _ H5) as E5.
  eauto using extends_trans.
Qed.

Lemma CreateSafepoint_call_extends_witness :
  exists F' result',
    CreateSafepoint neverJVMState noJVMState sample_derive sample_call None
                    sample_bases sample_live emptyRecord = Some (F', result') ∧
    extends sample_derive F'.
Proof.
  eexists; eexists. split; [vm_compute; reflexivity|].
  eapply (CreateSafepoint_call_extends neverJVMState noJVMState sample_derive
            sample_call None sample_bases sample_live emptyRecord);
    [reflexivity|vm_compute; reflexivity].
Defined.

(** ** More on [relocationViaAlloca] *)

Section FindRelocateFacts.
Variable derivedPtr : Function -> Instruction -> Value.

Lemma findRelocate_fold_None F (l : list Instruction) :
  foldl (fun acc use =>
           defs ← acc;
           id ← asIntrinsicInst use;
           if decide (id = gc_relocate)
           then let def := derivedPtr F use in
                if decide (is_Some (defs !! def))
                then Some (<[def := Some (valueOf use)]> defs)
                else Some defs
           else Some defs) None l = (None : option (gmap Value (option Value))).
Proof. by induction l. Qed.

Lemma findRelocate_fold F (l : list Instruction)
      (defs defs' : gmap Value (option Value)) :
  foldl (fun acc use =>
           defs ← acc;
           id ← asIntrinsicInst use;
           if decide (id = gc_relocate)
           then let def := derivedPtr F use in
                if decide (is_Some (defs !! def))
                then Some (<[def := Some (valueOf use)]> defs)
                else Some defs
           else Some defs) (Some defs) l = Some defs' ->
  dom defs' = dom defs ∧
  (forall def,
      defs' !! def = defs !! def ∨
      exists use, use ∈ l ∧ relocates derivedPtr F def use ∧
                  is_Some (defs !! def) ∧
                  defs' !! def = Some (Some (valueOf use))) ∧
  (forall use, use ∈ l -> asIntrinsicInst use = Some gc_relocate ->
               is_Some (defs !! derivedPtr F use) ->
               exists use', use' ∈ l ∧
                            relocates derivedPtr F (derivedPtr F use) use' ∧
                            defs' !! derivedPtr F use = Some (Some (valueOf use'))).
Proof.
  revert defs. induction l as [|use rest IH]; intros defs; simpl.
  - intros [= <-]. split; [done|]. split; [by left|].
    by intros use Huse%elem_of_nil.
  - destruct (asIntrinsicInst use) as [id|] eqn:Hid; simpl;
      [|by rewrite findRelocate_fold_None].
    set (d := derivedPtr F use).
    assert (Hkeep : forall defs1 : gmap Value (option Value),
               dom defs1 = dom defs ->
               forall def, is_Some (defs1 !! def) -> is_Some (defs !! def)).
    { intros defs1 Hdom def. by rewrite <- !elem_of_dom, Hdom. }
    destruct (decide (id = gc_relocate)) as [->|Hne];
      [destruct (decide (is_Some (defs !! d))) as [Hd|Hd]|]; intros Hrest;
      destruct (IH _ Hrest) as (Hdom & Hval & Hrel).
    + assert (Hdom1 : dom (<[d:=Some (valueOf use)]> defs) = dom defs).
      { rewrite dom_insert_L. apply elem_of_dom in Hd. set_solver. }
      split; [by rewrite Hdom|]. split.
      * intros def. destruct (Hval def) as [Heq|(u & Hu & Hr & Hs & Heq)].
        -- destruct (decide (def = d)) as [->|Hdef].
           ++ right. exists use. rewrite Heq, lookup_insert_eq.
              split; [left|]. by repeat split.
           ++ left. by rewrite Heq, lookup_insert_ne.
        -- right. exists u. split; [by right|]. split; [done|].
           split; [|done]. by eapply Hkeep.
      * intros u [->|Hu]%elem_of_cons Hi Hs.
        -- fold d. destruct (Hval d) as [Heq|(u' & Hu' & Hr & _ & Heq)].
           ++ exists use. rewrite Heq, lookup_insert_eq.
              split; [left|]. by repeat split.
           ++ exists u'. split; [by right|]. by split.
        -- destruct (Hrel u Hu Hi) as (u' & Hu' & Hr & Heq).
           { by rewrite <- elem_of_dom, Hdom1, elem_of_dom. }
           exists u'. split; [by right|]. by split.
    + split; [done|]. split.
      * intros def. destruct (Hval def) as [Heq|(u & Hu & Hr & Hs & Heq)];
          [by left|].
        right. exists u. split; [by right|]. by split; [|split].
      * intros u [->|Hu]%elem_of_cons Hi Hs; [exfalso; exact (Hd Hs)|].
        destruct (Hrel u Hu Hi Hs) as (u' & Hu' & Hr & Heq).
        exists u'. split; [by right|]. by split.
    + split; [done|]. split.
      * intros def. destruct (Hval def) as [Heq|(u & Hu & Hr & Hs & Heq)];
          [by left|].
        right. exists u. split; [by right|]. by split; [|split].
      * intros u [->|Hu]%elem_of_cons Hi Hs; [congruence|].
        destruct (Hrel u Hu Hi Hs) as (u' & Hu' & Hr & Heq).
        exists u'. split; [by right|]. by split.
Qed.

(** X9. [findRelocateValuesAtSP] keeps the keys of [defs] as they are: it
    adds none and removes none.  An entry is either left as it was, or it is
    a tracked definition that now maps to a [gc.relocate] among the users of
    the statepoint whose derived pointer it is; and a tracked definition
    that has such a relocate never keeps its old entry by omission: it maps
    to one of its relocates. *)
Theorem findRelocateValuesAtSP_spec F statepoint defs defs' :
  findRelocateValuesAtSP derivedPtr F statepoint defs = Some defs' ->
  dom defs' = dom defs ∧
  (forall def,
      defs' !! def = defs !! def ∨
      exists use, use ∈ users F (valueOf statepoint) ∧
                  relocates derivedPtr F def use ∧
                  is_Some (defs !! def) ∧
                  defs' !! def = Some (Some (valueOf use))) ∧
  (forall use, use ∈ users F (valueOf statepoint) ->
               asIntrinsicInst use = Some gc_relocate ->
               is_Some (defs !! derivedPtr F use) ->
               exists use', use' ∈ users F (valueOf statepoint) ∧
                            relocates derivedPtr F (derivedPtr F use) use' ∧
                            defs' !! derivedPtr F use = Some (Some (valueOf use'))).
Proof. unfold findRelocateValuesAtSP. apply findRelocate_fold. Qed.

End FindRelocateFacts.

Lemma findRelocateValuesAtSP_spec_witness :
  exists defs',
    findRelocateValuesAtSP derivedPtrAt (fst sample_statepointed) sample_token
                           sample_tracked = Some defs' ∧
    dom defs' = dom sample_tracked ∧
    (forall def,
        defs' !! def = sample_tracked !! def ∨
        exists use, use ∈ users (fst sample_statepointed) (valueOf sample_token) ∧
                    relocates derivedPtrAt (fst sample_statepointed) def use ∧
                    is_Some (sample_tracked !! def) ∧
                    defs' !! def = Some (Some (valueOf use))) ∧
    (forall use, use ∈ users (fst sample_statepointed) (valueOf sample_token) ->
                 asIntrinsicInst use = Some gc_relocate ->
                 is_Some (sample_tracked !! derivedPtrAt (fst sample_statepointed) use) ->
                 exists use', use' ∈ users (fst sample_statepointed) (valueOf sample_token) ∧
                              relocates derivedPtrAt (fst sample_statepointed)
                                        (derivedPtrAt (fst sample_statepointed) use) use' ∧
                              defs' !! derivedPtrAt (fst sample_statepointed) use
                              = Some (Some (valueOf use'))).
Proof.
  eexists. split; [reflexivity|].
  apply (findRelocateValuesAtSP_spec derivedPtrAt (fst sample_statepointed)
           sample_token sample_tracked).
  reflexivity.
Defined.

Lemma emitAllocas_NoDup live F allocaMap Promotable F1 allocaMap1 Promotable1 :
  emitAllocas live F allocaMap Promotable = Some (F1, allocaMap1, Promotable1) ->
  NoDup (iid <$> Promotable) ->
  (forall J, J ∈ Promotable -> iid J ∈ (fst <$> sigs F)) ->
  NoDup (iid <$> Promotable1).
Proof.
  revert F allocaMap Promotable.
  induction live as [|liveValue rest IH]; intros F allocaMap Promotable; simpl.
  - by intros [= <- <- <-].
  - intros (entry & _ & H)%bind_Some.
    apply bind_Some in H as (IP & _ & H).
    apply bind_Some in H as ([F' alloca] & Hemit & H).
    intros Hnd Hin. apply emitBefore_perm in Hemit as [-> Hperm'].
    apply sigs_perm_cons in Hperm'.
    eapply IH; [exact H| |].
    + rewrite fmap_app. apply NoDup_app. split; [done|]. split.
      * intros id (J & Hid & HJ)%list_elem_of_fmap Hid'.
        apply list_elem_of_singleton in Hid'. simpl in Hid'.
        apply Hin in HJ. rewrite <- Hid, Hid' in HJ.
        by apply freshId_not_in_sigs in HJ.
      * apply NoDup_singleton.
    + intros J [HJ|HJ]%elem_of_app; rewrite Hperm', fmap_cons.
      * right. by apply Hin.
      * apply list_elem_of_singleton in HJ as ->. by left.
Qed.

Lemma filter_length_all {A} (P : A -> Prop) `{forall x, Decision (P x)} (l : list A) :
  Forall P l -> length (filter P l) = length l.
Proof.
  induction 1 as [|x l Hx _ IH]; [done|].
  cbn. destruct (decide (P x)); [|done]. simpl. f_equal. exact IH.
Qed.

Section SlotFacts.
Variable derivedPtr : Function -> Instruction -> Value.

(** X10. What [relocationViaAlloca] hands to SSA promotion: exactly one
    slot per entry of [live], each a new alloca of the rewritten function
    with an identity of its own that the input function did not use.  Before
    promotion the function holds the allocas it had plus these, and nothing
    else was added that is an alloca; promotion is not called when [live] is
    empty. *)
Theorem relocationViaAlloca_slots F live records F' :
  relocationViaAlloca derivedPtr F live records = Some F' ->
  exists F3 slots,
    F' = (if bool_decide (slots = []) then F3 else PromoteMemToReg slots F3) ∧
    length slots = length live ∧
    NoDup (iid <$> slots) ∧
    Forall (fun J => iop J = Alloca ∧ sig J ∈ sigs F3 ∧
                     iid J ∉ (fst <$> sigs F)) slots ∧
    countAllocas F3 = countAllocas F + length live.
Proof.
  unfold relocationViaAlloca.
  intros ([[F1 allocaMap] Promotable] & Hallocas & H)%bind_Some.
  apply bind_Some in H as (F2 & Hstores & H).
  apply bind_Some in H as (F3 & Hloads & H).
  pose proof (emitAllocas_NoDup _ _ _ _ _ _ _ Hallocas (NoDup_nil_2)) as Hnd.
  destruct (emitAllocas_spec _ _ _ _ _ _ _ Hallocas)
    as (new & Hnew & Hlen & Hperm1 & Hop & Hfresh).
  simpl in Hnew. subst Promotable.
  assert (H12 : addsNoAlloca F1 F2).
  { eapply addsNoAlloca_foldl; [| |exact Hstores]; [done|].
    intros F0 F4 info. apply storesForRecord_adds. }
  assert (H23 : addsNoAlloca F2 F3).
  { eapply addsNoAlloca_foldl; [| |exact Hloads]; [done|].
    intros F0 F4 entry. apply rewriteUsesOf_adds. }
  destruct (addsNoAlloca_trans _ _ _ H12 H23) as (extra & Hperm3 & Hextra).
  assert (Hsigs : sigs F3 ≡ₚ extra ++ (sig <$> new) ++ sigs F)
    by (by rewrite Hperm3, Hperm1).
  exists F3, new. split.
  { destruct (bool_decide (new = [])); by injection H as <-. }
  split; [done|]. split.
  { apply Hnd. by intros J HJ%elem_of_nil. }
  split.
  - rewrite Forall_forall in Hop, Hfresh. apply Forall_forall. intros J HJ.
    split; [by apply Hop|]. split; [|by apply Hfresh].
    rewrite Hsigs, !elem_of_app. right. left. by apply list_elem_of_fmap_2.
  - rewrite !countAllocas_sigs, (filter_length_perm _ _ _ Hsigs).
    rewrite !filter_app, !length_app.
    rewrite filter_length_none.
    2:{ eapply Forall_impl; [exact Hextra|]. by intros p Hp. }
    rewrite filter_length_all, length_fmap; [lia|].
    apply Forall_fmap. eapply Forall_impl; [exact Hop|]. by intros J HJ.
Qed.

Lemma storesForRecord_no_slots F info F1 :
  storesForRecord derivedPtr ∅ (Some F) info = Some F1 -> F1 = F.
Proof.
  unfold storesForRecord. simpl.
  intros (bounds & _ & H)%bind_Some.
  apply bind_Some in H as (relocations & Hrel & H).
  rewrite fmap_empty in Hrel.
  apply findRelocate_fold in Hrel as (Hdom & _).
  rewrite dom_empty_L in Hdom. apply dom_empty_inv_L in Hdom. subst relocations.
  rewrite map_to_list_empty in H. by injection H.
Qed.

(** X11. With nothing live, [relocationViaAlloca] leaves the function as it
    is: no slot, no store, no load, no promotion. *)
Theorem relocationViaAlloca_nothing_live F records F' :
  relocationViaAlloca derivedPtr F [] records = Some F' -> F' = F.
Proof.
  unfold relocationViaAlloca. simpl.
  intros (F2 & Hstores & H)%bind_Some.
  assert (F2 = F) as ->.
  { clear H. revert F Hstores.
    induction records as [|info rest IH]; intros F0; cbn [foldl].
    - by intros [= <-].
    - destruct (storesForRecord derivedPtr ∅ (Some F0) info) as [F1|] eqn:H1.
      + apply storesForRecord_no_slots in H1 as ->. apply IH.
      + intros Hnone. exfalso. revert Hnone. clear.
        induction rest as [|i r IHr]; cbn [foldl]; [done|]. exact IHr. }
  rewrite map_to_list_empty in H. simpl in H. by injection H.
Qed.

End SlotFacts.

Lemma relocationViaAlloca_slots_witness :
  exists F',
    relocationViaAlloca derivedPtrAt (fst sample_statepointed) sample_live
                        [snd sample_statepointed] = Some F' ∧
    exists F3 slots,
      F' = (if bool_decide (slots = []) then F3 else PromoteMemToReg slots F3) ∧
      length slots = length sample_live ∧
      NoDup (iid <$> slots) ∧
      Forall (fun J => iop J = Alloca ∧ sig J ∈ sigs F3 ∧
                       iid J ∉ (fst <$> sigs (fst sample_statepointed))) slots ∧
      countAllocas F3 = countAllocas (fst sample_statepointed) + length sample_live.
Proof.
  eexists. split; [vm_compute; reflexivity|].
  apply (relocationViaAlloca_slots derivedPtrAt (fst sample_statepointed)
           sample_live [snd sample_statepointed]).
  vm_compute; reflexivity.
Defined.

Lemma relocationViaAlloca_nothing_live_witness :
  exists F',
    relocationViaAlloca derivedPtrAt (fst sample_statepointed) []
                        [snd sample_statepointed] = Some F' ∧
    F' = fst sample_statepointed.
Proof.
  eexists. split; [vm_compute; reflexivity|].
  apply (relocationViaAlloca_nothing_live derivedPtrAt (fst sample_statepointed)
           [snd sample_statepointed]).
  vm_compute; reflexivity.
Defined.

(** ** The three selectors *)

(** X12. No selector ever selects a location in [gc.safepoint_poll]: under
    [AllFunctions], or when the function does not carry the selector's
    opt-in attribute, the selector returns empty-handed; when the poll
    function opts in without [AllFunctions], the selector stops at the
    misconfiguration assertion. *)
Theorem selectors_exempt_poll_function opts M F SE L PollLocations fuel :
  fname F = "gc.safepoint_poll"%string ->
  runOnLoop opts F SE L PollLocations
  = (if AllFunctions opts || negb (fnAttrEquals F "gc-add-backedge-safepoints" "true")
     then Some (false, PollLocations) else None) ∧
  findLocationForEntrySafepoint opts fuel F
  = (if AllFunctions opts || negb (fnAttrEquals F "gc-add-entry-safepoints" "true")
     then Some None else None) ∧
  findCallSafepoints opts M F
  = (if AllFunctions opts || negb (fnAttrEquals F "gc-add-call-safepoints" "true")
     then Some [] else None).
Proof.
  intros Hname.
  unfold runOnLoop, findLocationForEntrySafepoint, findCallSafepoints, shouldRunOn.
  rewrite Hname. rewrite (bool_decide_eq_true_2 _ eq_refl).
  split; [|split].
  - by destruct (AllFunctions opts), (fnAttrEquals F "gc-add-backedge-safepoints" "true").
  - by destruct (AllFunctions opts), (fnAttrEquals F "gc-add-entry-safepoints" "true").
  - by destruct (AllFunctions opts), (fnAttrEquals F "gc-add-call-safepoints" "true").
Qed.

Lemma selectors_exempt_poll_function_witness :
  findCallSafepoints allFunctionsOptions sample_module sample_poll_function = Some [] ∧
  findCallSafepoints defaultOptions sample_module sample_poll_function = None.
Proof.
  destruct (selectors_exempt_poll_function allFunctionsOptions sample_module
              sample_poll_function sample_count_SE sample_count_loop [] 0 eq_refl)
    as (_ & _ & H1).
  destruct (selectors_exempt_poll_function defaultOptions sample_module
              sample_poll_function sample_count_SE sample_count_loop [] 0 eq_refl)
    as (_ & _ & H2).
  split; [exact H1|exact H2].
Defined.

Lemma runOnLoop_fold opts F L SE (edges : list (BasicBlock * Instruction)) m P :
  (AllBackedges opts = true ∨ mustBeFiniteCountedLoop F L SE = false) ->
  foldl (runOnLoop_pred opts F L SE) (m, P) edges
  = (m || negb (bool_decide
                  (filter (fun edge => contains L (bid (fst edge)) = true) edges = [])),
     P ++ (snd <$> filter (fun edge => contains L (bid (fst edge)) = true) edges)).
Proof.
  intros Hplace. revert m P.
  induction edges as [|[pred term] rest IH]; intros m P; simpl.
  - by rewrite orb_false_r, app_nil_r.
  - assert (Hskip : negb (AllBackedges opts) && mustBeFiniteCountedLoop F L SE = false)
      by (destruct Hplace as [-> | ->]; [done|by rewrite andb_false_r]).
    rewrite Hskip. rewrite filter_cons. cbn [fst].
    destruct (decide (contains L (bid pred) = true)) as [Hin|Hin].
    + rewrite Hin. cbn [negb]. rewrite IH. cbn [fmap list_fmap snd].
      rewrite (bool_decide_eq_false_2 ((_ :: _) = [])) by done.
      by rewrite orb_true_r, <- app_assoc.
    + apply not_true_is_false in Hin. rewrite Hin. cbn [negb]. by rewrite IH.
Qed.

(** X13. When the backedge selector runs on a loop that is not pruned
    ([AllBackedges], or no positive constant trip count through a unique
    latch), it appends to [PollLocations] the terminator of every backedge,
    that is of every edge into the header from a block of the loop, in
    predecessor order, and nothing else; it reports a modification exactly
    when there is such an edge. *)
Theorem runOnLoop_places_polls opts F SE L PollLocations :
  shouldRunOn opts F "gc-add-backedge-safepoints" = Some true ->
  AllBackedges opts = true ∨ mustBeFiniteCountedLoop F L SE = false ->
  runOnLoop opts F SE L PollLocations
  = Some (negb (bool_decide (backedgeTerminators F L = [])),
          PollLocations ++ backedgeTerminators F L).
Proof.
  intros Hrun Hplace. unfold runOnLoop. rewrite Hrun. simpl.
  rewrite (runOnLoop_fold _ _ _ _ _ _ _ Hplace). simpl.
  unfold backedgeTerminators. do 3 f_equal.
  apply bool_decide_ext. split; [by intros ->|].
  by intros ?%fmap_nil_inv.
Qed.

Lemma runOnLoop_places_polls_witness :
  runOnLoop defaultOptions sample_count (mkScalarEvolution (fun _ _ => 0%N))
            sample_count_loop []
  = Some (negb (bool_decide (backedgeTerminators sample_count sample_count_loop = [])),
          [] ++ backedgeTerminators sample_count sample_count_loop).
Proof.
  apply (runOnLoop_places_polls defaultOptions sample_count
           (mkScalarEvolution (fun _ _ => 0%N)) sample_count_loop []);
    [reflexivity|right; reflexivity].
Defined.

(** ** The meet iteration of [findBasePointer] *)

Lemma PhiState_le_refl s : PhiState_le s s.
Proof. right. by right. Qed.

Lemma PhiState_le_trans s t u : PhiState_le s t -> PhiState_le t u -> PhiState_le s u.
Proof.
  unfold PhiState_le. intros [-> | [-> | ->]] [-> | [Ht | ->]]; auto; discriminate.
Qed.

Lemma PhiState_le_rank s t :
  PhiState_wf s -> PhiState_wf t -> PhiState_le s t -> s ≠ t -> rank s < rank t.
Proof.
  intros Hs%PhiState_wf_cases Ht%PhiState_wf_cases Hle Hne.
  destruct Hs as [-> | [[vs ->] | ->]], Ht as [-> | [[vt ->] | ->]];
    destruct Hle as [Hle|[Hle|Hle]]; try done; cbn; lia.
Qed.

Lemma rank_le_2 s : rank s ≤ 2.
Proof. unfold rank. destruct (getStatus s); lia. Qed.

Lemma pureMeet_cases a b m :
  pureMeet a b = Some m -> m = a ∨ m = b ∨ m = PhiState_conflict.
Proof.
  unfold pureMeet. destruct (getStatus a).
  - intros ->%PhiState_copy_Some. auto.
  - destruct (getBase a); [|done].
    repeat case_match;
      first [intros ->%PhiState_copy_Some | intros [= <-]]; auto.
  - intros ->%PhiState_copy_Some. auto.
Qed.

Lemma pureMeet_lower a b m :
  PhiState_wf a -> PhiState_wf b -> pureMeet a b = Some m ->
  PhiState_le m a ∧ PhiState_le m b.
Proof.
  intros Ha%PhiState_wf_cases Hb%PhiState_wf_cases.
  destruct Ha as [-> | [[va ->] | ->]], Hb as [-> | [[vb ->] | ->]];
    unfold pureMeet; cbn; try (intros [= <-]; unfold PhiState_le; by auto).
  destruct (decide (Some va = Some vb)) as [[= ->]|Hne]; intros [= <-];
    unfold PhiState_le; auto.
Qed.

Lemma pureMeet_greatest a b c m :
  PhiState_wf a -> PhiState_wf b -> PhiState_wf c ->
  PhiState_le c a -> PhiState_le c b -> pureMeet a b = Some m -> PhiState_le c m.
Proof.
  intros Ha%PhiState_wf_cases Hb%PhiState_wf_cases Hc%PhiState_wf_cases.
  destruct Ha as [-> | [[va ->] | ->]], Hb as [-> | [[vb ->] | ->]];
    unfold pureMeet; cbn; intros Hca Hcb;
    try (intros [= <-]; by auto).
  destruct (decide (Some va = Some vb)) as [[= ->]|Hne]; intros [= <-]; [done|].
  destruct Hca as [Hca | [-> | ->]]; [done|by right; left|].
  destruct Hcb as [Hcb|[Hcb|Hcb]]; [done|done|].
  exfalso. apply Hne. by injection Hcb as ->.
Qed.

Lemma pureMeet_mono a a' b b' m m' :
  PhiState_wf a -> PhiState_wf a' -> PhiState_wf b -> PhiState_wf b' ->
  PhiState_le a' a -> PhiState_le b' b ->
  pureMeet a' b' = Some m' -> pureMeet a b = Some m -> PhiState_le m' m.
Proof.
  intros Ha Ha' Hb Hb' Hla Hlb Hm' Hm.
  destruct (pureMeet_lower _ _ _ Ha' Hb' Hm') as [H1 H2].
  eapply pureMeet_greatest; [exact Ha|exact Hb| | | |exact Hm].
  - eapply pureMeet_wf; [| |exact Hm']; done.
  - exact (PhiState_le_trans _ _ _ H1 Hla).
  - exact (PhiState_le_trans _ _ _ H2 Hlb).
Qed.

Lemma measure_insert (states : gmap Value PhiState) v old new :
  states !! v = Some old ->
  measure (<[v := new]> states) + rank old = measure states + rank new.
Proof.
  intros Hold. unfold measure.
  rewrite <- (insert_delete_id states v old Hold) at 2.
  rewrite <- (insert_delete_eq states v new).
  rewrite !(map_to_list_insert (delete v states)) by apply lookup_delete_eq.
  simpl. lia.
Qed.

Lemma measure_bound (states : gmap Value PhiState) :
  measure states ≤ 2 * size states.
Proof.
  unfold measure. rewrite <- length_map_to_list.
  induction (map_to_list states) as [|[v s] l IH]; simpl; [lia|].
  pose proof (rank_le_2 s). lia.
Qed.

Section MeetIteration.
Variable is_base_value : Value -> bool.
Variable inputBDVs : Value -> list Value.
Implicit Types (states : gmap Value PhiState).

#[local] Abbreviation known := (isKnownBaseResult is_base_value).
#[local] Abbreviation stateIn := (getStateForBDV is_base_value).
#[local] Abbreviation meetOver := (meetFrom is_base_value).

Definition table_le states' states : Prop :=
  forall v s' s, states' !! v = Some s' -> states !! v = Some s -> PhiState_le s' s.

Definition meetInv states : Prop :=
  states_wf states ∧
  table_closed is_base_value inputBDVs states ∧
  bases_known is_base_value states ∧
  forall v s, states !! v = Some s ->
    exists m, meetAll is_base_value states (inputBDVs v) = Some m ∧ PhiState_le m s.

Lemma meetOver_cons states acc V Vs :
  meetOver states (Some acc) (V :: Vs)
  = meetOver states (meetWith is_base_value states acc V) Vs.
Proof. done. Qed.

Lemma stateIn_mono states' states V s' s :
  table_le states' states ->
  stateIn states' V = Some s' -> stateIn states V = Some s -> PhiState_le s' s.
Proof.
  intros Hle. unfold getStateForBDV, lookupFromMap. destruct (known V).
  - intros [= <-] [= <-]. apply PhiState_le_refl.
  - apply Hle.
Qed.

Lemma meetWith_Some_state states cur V r :
  meetWith is_base_value states cur V = Some r -> is_Some (stateIn states V).
Proof.
  intros Hm. destruct (stateIn states V) eqn:Hs; [eauto|].
  by rewrite (meetWith_None _ _ _ _ Hs) in Hm.
Qed.

Lemma meetOver_mono states' states Vs acc' acc m' m :
  states_wf states' -> states_wf states -> table_le states' states ->
  PhiState_wf acc' -> PhiState_wf acc -> PhiState_le acc' acc ->
  meetOver states' (Some acc') Vs = Some m' ->
  meetOver states (Some acc) Vs = Some m -> PhiState_le m' m.
Proof.
  intros Hwf' Hwf Hle. revert acc' acc.
  induction Vs as [|V Vs IH]; intros acc' acc Ha' Ha Hacc.
  - by intros [= <-] [= <-].
  - rewrite !meetOver_cons.
    destruct (meetWith is_base_value states' acc' V) as [a1'|] eqn:H1';
      [|by rewrite meetFrom_None].
    destruct (meetWith is_base_value states acc V) as [a1|] eqn:H1;
      [|by rewrite meetFrom_None].
    apply IH.
    + exact (meetWith_wf _ _ _ _ _ Hwf' Ha' H1').
    + exact (meetWith_wf _ _ _ _ _ Hwf Ha H1).
    + destruct (meetWith_Some_state _ _ _ _ H1') as [s' Hs'].
      destruct (meetWith_Some_state _ _ _ _ H1) as [s Hs].
      rewrite (meetWith_state _ _ Hwf' _ _ _ Ha' Hs') in H1'.
      rewrite (meetWith_state _ _ Hwf _ _ _ Ha Hs) in H1.
      eapply pureMeet_mono; [| | | | | |exact H1'|exact H1];
        eauto using getStateForBDV_wf, stateIn_mono.
Qed.

Lemma stateIn_total states V :
  known V = true ∨ V ∈ dom states -> is_Some (stateIn states V).
Proof.
  unfold getStateForBDV, lookupFromMap. intros [HV|HV].
  - rewrite HV. eauto.
  - destruct (known V); [eauto|]. by apply elem_of_dom.
Qed.

Lemma meetOver_total states Vs acc :
  states_wf states -> PhiState_wf acc ->
  (forall V, V ∈ Vs -> known V = true ∨ V ∈ dom states) ->
  exists m, meetOver states (Some acc) Vs = Some m ∧ PhiState_wf m.
Proof.
  intros Hwf. revert acc.
  induction Vs as [|V Vs IH]; intros acc Hacc Hin.
  - by exists acc.
  - rewrite meetOver_cons.
    destruct (stateIn_total states V) as [s Hs]; [apply Hin; left|].
    destruct (meetWith_meet _ _ _ _ _ Hwf Hacc Hs) as [_ [a1 Ha1]].
    rewrite Ha1. apply IH.
    + exact (meetWith_wf _ _ _ _ _ Hwf Hacc Ha1).
    + intros V' HV'. apply Hin. by right.
Qed.

Lemma stateIn_base states V s b :
  bases_known is_base_value states ->
  stateIn states V = Some s -> getBase s = Some b -> known b = true.
Proof.
  intros Hb. unfold getStateForBDV, lookupFromMap.
  destruct (known V) eqn:HV.
  - intros [= <-] [= <-]. exact HV.
  - intros Hs Hbase. by eapply Hb.
Qed.

Lemma meetOver_bases states Vs acc m :
  states_wf states -> PhiState_wf acc -> bases_known is_base_value states ->
  (forall b, getBase acc = Some b -> known b = true) ->
  meetOver states (Some acc) Vs = Some m ->
  forall b, getBase m = Some b -> known b = true.
Proof.
  intros Hwf Hacc Hb. revert acc Hacc.
  induction Vs as [|V Vs IH]; intros acc Hacc Hbacc.
  - by intros [= <-].
  - rewrite meetOver_cons.
    destruct (meetWith is_base_value states acc V) as [a1|] eqn:H1;
      [|by rewrite meetFrom_None].
    apply IH; [exact (meetWith_wf _ _ _ _ _ Hwf Hacc H1)|].
    destruct (meetWith_Some_state _ _ _ _ H1) as [s Hs].
    rewrite (meetWith_state _ _ Hwf _ _ _ Hacc Hs) in H1.
    intros b Hbase.
    destruct (pureMeet_cases _ _ _ H1) as [-> | [-> | ->]]; [| |done].
    + by eapply stateIn_base.
    + by apply Hbacc.
Qed.

Lemma known_false_merge v :
  known v = false -> negb (isaSelectInst v || isaPHINode v) = false.
Proof.
  unfold isKnownBaseResult.
  destruct (isaPHINode v), (isaSelectInst v); simpl; try done.
Qed.

Lemma meetStep_inv states progress v old :
  meetInv states -> states !! v = Some old ->
  exists new,
    meetAll is_base_value states (inputBDVs v) = Some new ∧
    PhiState_wf new ∧ PhiState_le new old ∧
    meetStep is_base_value inputBDVs (Some (states, progress)) v
    = Some (if decide (old ≠ new) then (<[v := new]> states, true)
            else (states, progress)) ∧
    meetInv (<[v := new]> states) ∧
    dom (<[v := new]> states) = dom states.
Proof.
  intros (Hwf & Hclosed & Hbases & Hprefix) Hold.
  assert (Hdomv : v ∈ dom states) by (apply elem_of_dom; eauto).
  destruct (Hclosed v Hdomv) as [Hknown Hinputs].
  destruct (Hprefix v old Hold) as (new & Hnew & Hle).
  assert (Hnewwf : PhiState_wf new).
  { destruct (meetOver_total states (inputBDVs v) PhiState_default Hwf
                PhiState_default_wf Hinputs) as (m & Hm & Hmwf).
    unfold meetAll in Hnew. unfold meetFrom in Hm. by simplify_eq. }
  assert (Hdom : dom (<[v := new]> states) = dom states).
  { rewrite dom_insert_L. set_solver. }
  exists new. split; [done|]. split; [done|]. split; [done|]. split.
  { unfold meetStep. simpl. rewrite Hknown, (known_false_merge v Hknown), Hnew.
    simpl. rewrite Hold. simpl. by destruct (decide (old ≠ new)). }
  split; [|done].
  assert (Hwf' : states_wf (<[v := new]> states)).
  { intros w s [[<- <-]|[_ Hs]]%lookup_insert_Some; [done|by eapply Hwf]. }
  assert (Htle : table_le (<[v := new]> states) states).
  { intros w s' s [[<- <-]|[_ Hs']]%lookup_insert_Some Hs.
    - by simplify_eq.
    - simplify_eq. apply PhiState_le_refl. }
  split; [done|]. split; [|split].
  - intros w Hw. rewrite Hdom in Hw. destruct (Hclosed w Hw) as [Hk Hin].
    split; [done|]. intros V HV. rewrite Hdom. by apply Hin.
  - intros w s b [[<- <-]|[_ Hs]]%lookup_insert_Some Hb.
    + eapply (meetOver_bases states (inputBDVs v) PhiState_default);
        [done|apply PhiState_default_wf|done|done|exact Hnew|exact Hb].
    + by eapply Hbases.
  - intros w s Hs.
    assert (Hw : w ∈ dom states).
    { rewrite <- Hdom. apply elem_of_dom. eauto. }
    destruct (Hclosed w Hw) as [_ Hin].
    destruct (meetOver_total (<[v := new]> states) (inputBDVs w) PhiState_default
                Hwf' PhiState_default_wf) as (m' & Hm' & _).
    { intros V HV. rewrite Hdom. by apply Hin. }
    exists m'. split; [exact Hm'|].
    apply elem_of_dom in Hw as [sw Hsw].
    destruct (Hprefix w sw Hsw) as (mw & Hmw & Hlew).
    assert (Hm'mw : PhiState_le m' mw).
    { eapply (meetOver_mono (<[v := new]> states) states (inputBDVs w)
                PhiState_default PhiState_default);
        [done|done|done|apply PhiState_default_wf|apply PhiState_default_wf
        |apply PhiState_le_refl|exact Hm'|exact Hmw]. }
    apply lookup_insert_Some in Hs as [[<- <-]|[_ Hs]].
    + by simplify_eq.
    + simplify_eq. by eapply PhiState_le_trans.
Qed.

Lemma meetStep_None v : meetStep is_base_value inputBDVs None v = None.
Proof. done. Qed.

Lemma meetPassOver_inv keys states progress :
  meetInv states -> (forall k, k ∈ keys -> k ∈ dom states) ->
  exists states' progress',
    foldl (meetStep is_base_value inputBDVs) (Some (states, progress)) keys
    = Some (states', progress') ∧
    meetInv states' ∧ dom states' = dom states ∧
    ((progress' = progress ∧ states' = states ∧
      forall k, k ∈ keys -> settled is_base_value inputBDVs states k) ∨
     (progress' = true ∧ measure states' < measure states)).
Proof.
  revert states progress.
  induction keys as [|v keys IH]; intros states progress Hinv Hkeys.
  - exists states, progress. split; [done|]. split; [done|]. split; [done|].
    left. split; [done|]. split; [done|]. by intros k Hk%elem_of_nil.
  - destruct (proj1 (elem_of_dom states v) (Hkeys v ltac:(left))) as [old Hold].
    destruct (meetStep_inv states progress v old Hinv Hold)
      as (new & Hnew & Hnewwf & Hle & Hstep & Hinv' & Hdom).
    cbn [foldl]. rewrite Hstep.
    destruct (decide (old ≠ new)) as [Hne|Heq].
    + destruct (IH (<[v := new]> states) true Hinv')
        as (states' & progress' & Hfold & Hinv'' & Hdom' & Hres).
      { intros k Hk. rewrite Hdom. apply Hkeys. by right. }
      exists states', progress'. split; [done|]. split; [done|].
      split; [by rewrite Hdom'|]. right.
      assert (Hlt : measure (<[v := new]> states) < measure states).
      { pose proof (measure_insert states v old new Hold).
        assert (rank new < rank old); [|lia].
        apply PhiState_le_rank; [done|by destruct Hinv as [Hwf _]; eapply Hwf
                                 |done|congruence]. }
      destruct Hres as [(-> & -> & _) | [-> Hlt']]; split; try done; lia.
    + assert (old = new) as <- by (by destruct (decide (old = new)); [|exfalso; auto]).
      destruct (IH states progress Hinv)
        as (states' & progress' & Hfold & Hinv'' & Hdom' & Hres).
      { intros k Hk. apply Hkeys. by right. }
      exists states', progress'. split; [done|]. split; [done|]. split; [done|].
      destruct Hres as [(-> & -> & Hall)|Hres]; [left|by right].
      split; [done|]. split; [done|].
      intros k [->|Hk]%elem_of_cons; [by exists old|by apply Hall].
Qed.

Lemma meetIterate_inv fuel states :
  meetInv states -> measure states < fuel ->
  exists states',
    meetIterate is_base_value inputBDVs fuel states = Some states' ∧
    meetInv states' ∧ dom states' = dom states ∧
    forall k, k ∈ dom states' -> settled is_base_value inputBDVs states' k.
Proof.
  revert states. induction fuel as [|fuel IH]; intros states Hinv Hfuel; [lia|].
  destruct (meetPassOver_inv (fst <$> map_to_list states) states false Hinv)
    as (states' & progress' & Hfold & Hinv' & Hdom & Hres).
  { intros k ([k' s] & -> & Hk)%list_elem_of_fmap.
    apply elem_of_map_to_list in Hk. apply elem_of_dom. eauto. }
  assert (Hsize : size states' = size states).
  { by rewrite <- !size_dom, Hdom. }
  cbn [meetIterate]. unfold meetPass, meetPassOver. rewrite Hfold. simpl.
  rewrite Hsize.
  rewrite (bool_decide_eq_true_2 (size states ≤ size states)) by lia.
  rewrite (bool_decide_eq_true_2 (size states = size states)) by done.
  simpl.
  destruct Hres as [(-> & -> & Hall)|[-> Hlt]].
  - exists states. split; [done|]. split; [done|]. split; [done|].
    intros k [s Hk]%elem_of_dom. apply Hall.
    apply list_elem_of_fmap. exists (k, s). split; [done|].
    by apply elem_of_map_to_list.
  - destruct (IH states' Hinv') as (states'' & Hit & Hinv'' & Hdom'' & Hall); [lia|].
    exists states''. split; [done|]. split; [done|]. split; [congruence|done].
Qed.

End MeetIteration.

(** X14. The meet iteration of [findBasePointer] terminates and ends in a
    fixed point.  Started on a table whose keys are merges that are not
    known bases, all in state [Unknown], and that is closed (every input of
    a key is a known base or a key), it returns after at most
    [2 * size + 1] rounds over the table, the two states a merge can lose.
    It returns a table with the same keys in which every merge has exactly
    the meet of the states of its inputs; every state is a lattice state, and
    every base it records is a known base.  No assertion fires on the way. *)
Theorem meetIterate_reaches_fixpoint is_base_value inputBDVs states fuel :
  (forall v s, states !! v = Some s -> s = PhiState_default) ->
  table_closed is_base_value inputBDVs states ->
  2 * size states < fuel ->
  exists states',
    meetIterate is_base_value inputBDVs fuel states = Some states' ∧
    dom states' = dom states ∧
    forall v s, states' !! v = Some s ->
      PhiState_wf s ∧
      meetAll is_base_value states' (inputBDVs v) = Some s ∧
      (forall b, getBase s = Some b -> isKnownBaseResult is_base_value b = true).
Proof.
  intros Hinit Hclosed Hfuel.
  assert (Hwf : states_wf states).
  { intros v s Hs. rewrite (Hinit v s Hs). apply PhiState_default_wf. }
  assert (Hinv : meetInv is_base_value inputBDVs states).
  { split; [done|]. split; [done|]. split.
    - intros v s b Hs. by rewrite (Hinit v s Hs).
    - intros v s Hs. rewrite (Hinit v s Hs).
      destruct (meetOver_total is_base_value states (inputBDVs v) PhiState_default
                  Hwf PhiState_default_wf) as (m & Hm & _).
      + apply Hclosed. apply elem_of_dom. eauto.
      + exists m. split; [exact Hm|]. by left. }
  destruct (meetIterate_inv is_base_value inputBDVs fuel states Hinv)
    as (states' & Hit & (Hwf' & _ & Hbases & _) & Hdom & Hall).
  { pose proof (measure_bound states). lia. }
  exists states'. split; [done|]. split; [done|].
  intros v s Hs. split; [by eapply Hwf'|]. split.
  - destruct (Hall v) as (s' & Hs' & Hmeet); [apply elem_of_dom; eauto|].
    by simplify_eq.
  - intros b Hb. by eapply Hbases.
Qed.

Lemma sample_states_cases v s :
  sample_states !! v = Some s ->
  s = PhiState_default ∧ (v = sample_a ∨ v = sample_b ∨ v = sample_c).
Proof.
  unfold sample_states.
  intros [[<- <-]|[_ [[<- <-]|[_ [<- <-]%lookup_singleton_Some]]%lookup_insert_Some]]%lookup_insert_Some;
    auto.
Qed.

Lemma sample_states_closed : table_closed no_metadata sample_inputs sample_states.
Proof.
  intros v [s Hs]%elem_of_dom.
  assert (Hdom : forall V, V = sample_a ∨ V = sample_b ∨ V = sample_c ->
                           V ∈ dom sample_states).
  { intros V HV. apply elem_of_dom.
    destruct HV as [-> | [-> | ->]]; eexists; reflexivity. }
  destruct (sample_states_cases v s Hs) as [_ [-> | [-> | ->]]];
    (split; [reflexivity|]); intros V HV; cbn in HV;
    repeat (apply elem_of_cons in HV as [->|HV]); try (by apply elem_of_nil in HV);
    try (left; reflexivity); right; apply Hdom; auto.
Qed.

Lemma meetIterate_reaches_fixpoint_witness :
  exists states',
    meetIterate no_metadata sample_inputs 7 sample_states = Some states' ∧
    dom states' = dom sample_states ∧
    forall v s, states' !! v = Some s ->
      PhiState_wf s ∧
      meetAll no_metadata states' (sample_inputs v) = Some s ∧
      (forall b, getBase s = Some b -> isKnownBaseResult no_metadata b = true).
Proof.
  apply (meetIterate_reaches_fixpoint no_metadata sample_inputs sample_states 7).
  - intros v s Hs. by destruct (sample_states_cases v s Hs).
  - exact sample_states_closed.
  - vm_compute. lia.
Defined.

(** On the sample, the two phis that feed each other end in conflict and the
    phi that only has itself and [%p] gets base [%p]. *)
Example meetIterate_sample :
  meetIterate no_metadata sample_inputs 7 sample_states
  = Some {[ sample_a := PhiState_conflict; sample_b := PhiState_conflict;
            sample_c := PhiState_base sample_p ]}.
Proof. reflexivity. Qed.

(** ** The worklist loop of [computeGCPtrLiveness] *)

Lemma liveAt_insert (M : gmap label (gset Value)) k S l :
  liveAt (<[k := S]> M) l = if decide (k = l) then S else liveAt M l.
Proof.
  unfold liveAt. destruct (decide (k = l)) as [->|Hne].
  - by rewrite lookup_insert_eq.
  - by rewrite lookup_insert_ne.
Qed.

Lemma elem_of_unionOf_from (M : gmap label (gset Value)) ss (acc : gset Value) V :
  V ∈ foldl (fun acc s => acc ∪ liveAt M s) acc ss
  <-> V ∈ acc ∨ exists s, s ∈ ss ∧ V ∈ liveAt M s.
Proof.
  revert acc. induction ss as [|s ss IH]; intros acc; simpl.
  - split; [by left|]. intros [H|(s & Hs & _)]; [done|by apply elem_of_nil in Hs].
  - rewrite IH, elem_of_union. split.
    + intros [[H|H]|(s' & Hs' & H)]; [by left| |].
      * right. exists s. split; [left|done].
      * right. exists s'. split; [by right|done].
    + intros [H|(s' & [->|Hs']%elem_of_cons & H)]; [by left; left|by left; right|].
      right. by exists s'.
Qed.

Lemma elem_of_unionOf (M : gmap label (gset Value)) ss V :
  V ∈ unionOf M ss <-> exists s, s ∈ ss ∧ V ∈ liveAt M s.
Proof.
  unfold unionOf. rewrite elem_of_unionOf_from. split; [|by right].
  intros [H|H]; [by apply elem_of_empty in H|done].
Qed.

Lemma unionLiveIn_total Data ss :
  (forall s, s ∈ ss -> is_Some (LiveIn Data !! s)) ->
  unionLiveIn Data ss = Some (unionOf (LiveIn Data) ss).
Proof.
  unfold unionLiveIn, unionOf. generalize (∅ : gset Value).
  induction ss as [|s ss IH]; intros acc Hall; simpl; [done|].
  destruct (Hall s) as [In Hs]; [left|].
  rewrite Hs. simpl. unfold liveAt at 2. rewrite Hs. simpl.
  apply IH. intros s' Hs'. apply Hall. by right.
Qed.

Lemma liveBefore_mono range (S S' : gset Value) V :
  S ⊆ S' -> liveBefore range S V -> liveBefore range S' V.
Proof.
  intros Hsub. induction range as [|J rest IH]; simpl; [by apply Hsub|].
  intros [H|[Hne H]]; [by left|right]. split; [done|by apply IH].
Qed.

Lemma scan_mono (l : list Instruction) (S S' : gset Value) :
  S ⊆ S' ->
  computeGCPtrLiveness_range (rev l) S ⊆ computeGCPtrLiveness_range (rev l) S'.
Proof.
  intros Hsub V. rewrite !elem_of_computeGCPtrLiveness_range.
  by apply liveBefore_mono.
Qed.

Lemma liveBefore_cases range (S : gset Value) V :
  liveBefore range S V ->
  V ∈ S ∨ exists J, J ∈ range ∧ V ∈ operands J ∧ isLiveOperand V = true.
Proof.
  induction range as [|J rest IH]; simpl; [by left|].
  intros [[Hop Hlive]|[_ H]].
  - right. exists J. split; [left|done].
  - destruct (IH H) as [HS|(J' & HJ' & H')]; [by left|].
    right. exists J'. split; [by right|done].
Qed.

Lemma scan_bound F B (S : gset Value) :
  B ∈ blocks F -> S ⊆ liveOperands F ->
  computeGCPtrLiveness_range (rev (insts B)) S ⊆ liveOperands F.
Proof.
  intros HB Hsub V HV%elem_of_computeGCPtrLiveness_range.
  destruct (liveBefore_cases _ _ _ HV) as [HS|(J & HJ & Hop & Hlive)];
    [by apply Hsub|].
  unfold liveOperands. apply elem_of_list_to_set, list_elem_of_filter.
  split; [done|]. apply list_elem_of_In, in_flat_map.
  exists J. split; [|by apply list_elem_of_In].
  apply list_elem_of_In. by apply (insts_instructions F B HB).
Qed.

Lemma getBlock_unique F B :
  NoDup (bid <$> blocks F) -> B ∈ blocks F -> getBlock F (bid B) = Some B.
Proof.
  unfold getBlock. induction (blocks F) as [|B0 bs IH]; simpl.
  - by intros _ HB%elem_of_nil.
  - intros [Hnot Hnd]%NoDup_cons [->|HB]%elem_of_cons.
    + by rewrite bool_decide_eq_true_2.
    + rewrite bool_decide_eq_false_2; [by apply IH|].
      intros Heq. apply Hnot. rewrite Heq. by apply list_elem_of_fmap_2.
Qed.

Lemma block_of_label F l :
  l ∈ (bid <$> blocks F) -> exists B, B ∈ blocks F ∧ bid B = l.
Proof. intros (B & -> & HB)%list_elem_of_fmap. eauto. Qed.

Lemma preds_succs F B l :
  NoDup (bid <$> blocks F) -> B ∈ blocks F ->
  bid B ∈ preds F l -> l ∈ succs B.
Proof.
  intros Hnd HB. unfold preds, pred_edges.
  intros ([B' t] & Hbid & Hin)%list_elem_of_fmap. simpl in Hbid.
  apply list_elem_of_In, in_flat_map in Hin as (B'' & HB'' & Hin).
  apply list_elem_of_In in HB''.
  destruct (getTerminator B'') as [t'|] eqn:Ht; [|done].
  apply list_elem_of_In, list_elem_of_fmap in Hin as (s & [= -> ->] & Hs).
  apply list_elem_of_filter in Hs as [-> Hs].
  assert (B = B'') as ->.
  { pose proof (getBlock_unique F B Hnd HB) as H1.
    pose proof (getBlock_unique F B'' Hnd HB'') as H2.
    rewrite Hbid in H1. congruence. }
  unfold succs. by rewrite Ht.
Qed.

Lemma length_preds F l : length (preds F l) ≤ edgeCount F.
Proof.
  unfold preds, pred_edges, edgeCount. rewrite length_fmap.
  induction (blocks F) as [|B bs IH]; simpl; [done|].
  rewrite !length_app. unfold succs at 1.
  destruct (getTerminator B) as [t|]; simpl; [|lia].
  rewrite length_fmap. pose proof (length_filter (fun s => s = l) (successors t)). lia.
Qed.

Lemma sum_list_with_ext_in {A} (f g : A -> nat) (l : list A) :
  (forall x, x ∈ l -> f x = g x) -> sum_list_with f l = sum_list_with g l.
Proof.
  induction l as [|x l IH]; intros Hext; simpl; [done|].
  rewrite (Hext x) by left. f_equal. apply IH. intros y Hy. apply Hext. by right.
Qed.

Lemma livenessRoom_same F Data Data' :
  (forall B, B ∈ blocks F ->
             liveAt (LiveIn Data') (bid B) = liveAt (LiveIn Data) (bid B)) ->
  livenessRoom F Data' = livenessRoom F Data.
Proof.
  intros Hsame. unfold livenessRoom. apply sum_list_with_ext_in.
  intros B HB. by rewrite Hsame.
Qed.

Lemma livenessRoom_grow F Data Data' B :
  NoDup (bid <$> blocks F) -> B ∈ blocks F ->
  (forall B', B' ∈ blocks F -> bid B' ≠ bid B ->
              liveAt (LiveIn Data') (bid B') = liveAt (LiveIn Data) (bid B')) ->
  liveAt (LiveIn Data) (bid B) ⊂ liveAt (LiveIn Data') (bid B) ->
  liveAt (LiveIn Data') (bid B) ⊆ liveOperands F ->
  livenessRoom F Data' < livenessRoom F Data.
Proof.
  unfold livenessRoom. generalize (liveOperands F) as U.
  intros U Hnd HB Hsame Hgrow%subset_size Hbound%subseteq_size.
  induction (blocks F) as [|B0 bs IH]; [by apply elem_of_nil in HB|].
  simpl. rewrite fmap_cons in Hnd. apply NoDup_cons in Hnd as [Hnot Hnd].
  apply elem_of_cons in HB as [->|HB].
  - rewrite (sum_list_with_ext_in
               (fun B => size U - size (liveAt (LiveIn Data') (bid B)))
               (fun B => size U - size (liveAt (LiveIn Data) (bid B))) bs); [lia|].
    intros B' HB'. rewrite Hsame; [done|by right|].
    intros Heq. apply Hnot. rewrite <- Heq. by apply list_elem_of_fmap_2.
  - rewrite (Hsame B0); [|left|].
    + assert (sum_list_with (fun B => size U - size (liveAt (LiveIn Data') (bid B))) bs
              < sum_list_with (fun B => size U - size (liveAt (LiveIn Data) (bid B))) bs);
        [|lia].
      apply IH; [done|done|].
      intros B' HB' Hne. apply Hsame; [by right|done].
    + intros Heq. apply Hnot. rewrite Heq. by apply list_elem_of_fmap_2.
Qed.

Lemma block_eq F B B' :
  NoDup (bid <$> blocks F) -> B ∈ blocks F -> B' ∈ blocks F ->
  bid B = bid B' -> B = B'.
Proof.
  intros Hnd HB HB' Heq.
  pose proof (getBlock_unique F B Hnd HB) as H1.
  pose proof (getBlock_unique F B' Hnd HB') as H2.
  rewrite Heq in H1. congruence.
Qed.

Lemma unionOf_mono (M M' : gmap label (gset Value)) ss :
  (forall l, liveAt M l ⊆ liveAt M' l) -> unionOf M ss ⊆ unionOf M' ss.
Proof.
  intros Hsub V (s & Hs & HV)%elem_of_unionOf.
  apply elem_of_unionOf. exists s. split; [done|]. by apply Hsub.
Qed.

Lemma unionOf_insert_other (M : gmap label (gset Value)) k S ss :
  k ∉ ss -> unionOf (<[k := S]> M) ss = unionOf M ss.
Proof.
  intros Hk. apply set_eq. intros V. rewrite !elem_of_unionOf.
  split; intros (s & Hs & HV); exists s; (split; [done|]);
    rewrite liveAt_insert in *; destruct (decide (k = s)) as [->|]; done.
Qed.

Lemma unionOf_bound F (M : gmap label (gset Value)) ss :
  (forall l, liveAt M l ⊆ liveOperands F) -> unionOf M ss ⊆ liveOperands F.
Proof.
  intros Hb V (s & _ & HV)%elem_of_unionOf. by apply (Hb s).
Qed.

Lemma computeGCPtrLiveness_step_inv F BB W Data :
  cfg_wf F -> livenessInv F (BB :: W) Data ->
  exists W' Data',
    computeGCPtrLiveness_step F BB W Data = Some (W', Data') ∧
    livenessInv F W' Data' ∧
    ((livenessRoom F Data' = livenessRoom F Data ∧ W' = W) ∨
     (livenessRoom F Data' < livenessRoom F Data ∧
      length W' ≤ edgeCount F + length W)).
Proof.
  intros [Hnd Hsucc] [Hdi Hdo HW Hsc Hbe Hse Hbo].
  destruct (block_of_label F BB) as (B & HB & <-); [apply HW; left|].
  pose proof (getBlock_unique F B Hnd HB) as HgetB.
  assert (Hunion : unionLiveIn Data (succs B) = Some (unionOf (LiveIn Data) (succs B))).
  { apply unionLiveIn_total. intros s Hs. apply elem_of_dom.
    rewrite Hdi. apply elem_of_list_to_set. by eapply Hsucc. }
  assert (HoldIn : LiveIn Data !! bid B = Some (liveAt (LiveIn Data) (bid B))).
  { assert (Hin : bid B ∈ dom (LiveIn Data)).
    { rewrite Hdi. apply elem_of_list_to_set. by apply list_elem_of_fmap_2. }
    apply elem_of_dom in Hin as [In HIn]. unfold liveAt. by rewrite HIn. }
  set (O' := unionOf (LiveIn Data) (succs B)) in *.
  set (T := computeGCPtrLiveness_range (rev (insts B)) O').
  assert (HT : liveAt (LiveIn Data) (bid B) ⊆ T).
  { destruct (Hsc B HB) as [-> | (_ & -> & _)]; [|set_solver].
    apply scan_mono. by apply Hbe. }
  assert (HTb : T ⊆ liveOperands F).
  { apply scan_bound; [done|]. by apply unionOf_bound. }
  unfold computeGCPtrLiveness_step. rewrite HgetB. simpl. rewrite Hunion. simpl.
  fold (liveAt (LiveOut Data) (bid B)). fold O'.
  destruct (negb (bool_decide (O' = ∅))
            && bool_decide (liveAt (LiveOut Data) (bid B) = O')) eqn:Hskip.
  - apply andb_true_iff in Hskip as [HO' Heq].
    apply negb_true_iff, bool_decide_eq_false in HO'.
    apply bool_decide_eq_true in Heq.
    exists W, Data. split; [done|]. split; [|by left].
    constructor; try done.
    + intros l Hl. apply HW. by right.
    + intros B0 HB0. destruct (Hsc B0 HB0) as [H|(Hin & Hi & Ho)]; [by left|].
      apply elem_of_cons in Hin as [Heq0|Hin]; [|by right].
      rewrite Heq0, Heq in Ho. done.
    + intros B0 HB0 Hnot. destruct (decide (bid B0 = bid B)) as [Heq0|Hne0].
      * rewrite (block_eq F B0 B Hnd HB0 HB Heq0). exact Heq.
      * apply Hse; [done|]. by apply not_elem_of_cons.
  - clear Hskip. rewrite HoldIn. simpl. fold T.
    destruct (bool_decide (liveAt (LiveIn Data) (bid B) = T)) eqn:Hsame.
    + apply bool_decide_eq_true in Hsame.
      eexists W, _. split; [done|]. split; [|left; split; [|done]].
      * constructor; simpl.
        -- done.
        -- rewrite dom_insert_L, Hdo.
           assert (bid B ∈ (list_to_set (bid <$> blocks F) : gset label)); [|set_solver].
           apply elem_of_list_to_set. by apply list_elem_of_fmap_2.
        -- intros l Hl. apply HW. by right.
        -- intros B0 HB0. rewrite liveAt_insert.
           destruct (decide (bid B = bid B0)) as [Heq0|Hne0].
           ++ left. rewrite <- (block_eq F B B0 Hnd HB HB0 Heq0). exact Hsame.
           ++ destruct (Hsc B0 HB0) as [H|(Hin & Hi & Ho)]; [by left|].
              apply elem_of_cons in Hin as [Heq0|Hin]; [done|by right].
        -- intros B0 HB0. rewrite liveAt_insert.
           destruct (decide (bid B = bid B0)) as [Heq0|Hne0]; [|by apply Hbe].
           by rewrite <- (block_eq F B B0 Hnd HB HB0 Heq0).
        -- intros B0 HB0 Hnot. rewrite liveAt_insert.
           destruct (decide (bid B = bid B0)) as [Heq0|Hne0].
           ++ by rewrite <- (block_eq F B B0 Hnd HB HB0 Heq0).
           ++ apply Hse; [done|]. apply not_elem_of_cons. split; [done|done].
        -- done.
      * by apply livenessRoom_same.
    + apply bool_decide_eq_false in Hsame.
      assert (HTne : T ≠ ∅).
      { intros HTe. apply Hsame. rewrite HTe in HT |- *. set_solver. }
      rewrite (bool_decide_eq_false_2 _ HTne).
      assert (Hgrow : forall l, liveAt (LiveIn Data) l
                                ⊆ liveAt (<[bid B := T]> (LiveIn Data)) l).
      { intros l. rewrite liveAt_insert. by destruct (decide (bid B = l)) as [<-|]. }
      eexists _, _. split; [done|]. split; [|right; split].
      * constructor; simpl.
        -- rewrite dom_insert_L, Hdi.
           assert (bid B ∈ (list_to_set (bid <$> blocks F) : gset label)); [|set_solver].
           apply elem_of_list_to_set. by apply list_elem_of_fmap_2.
        -- rewrite dom_insert_L, Hdo.
           assert (bid B ∈ (list_to_set (bid <$> blocks F) : gset label)); [|set_solver].
           apply elem_of_list_to_set. by apply list_elem_of_fmap_2.
        -- intros l [Hl|Hl]%elem_of_app; [|apply HW; by right].
           apply (proj1 (elem_of_rev _ _)) in Hl.
           unfold preds in Hl. apply list_elem_of_fmap in Hl as ([B' t] & -> & Hin).
           unfold pred_edges in Hin.
           apply list_elem_of_In, in_flat_map in Hin as (B'' & HB'' & Hin).
           destruct (getTerminator B''); [|done].
           apply list_elem_of_In, list_elem_of_fmap in Hin as (s & [= -> ->] & _).
           simpl. by apply list_elem_of_fmap_2, list_elem_of_In.
        -- intros B0 HB0. rewrite !liveAt_insert.
           destruct (decide (bid B = bid B0)) as [Heq0|Hne0].
           ++ left. by rewrite <- (block_eq F B B0 Hnd HB HB0 Heq0).
           ++ destruct (Hsc B0 HB0) as [H|(Hin & Hi & Ho)]; [by left|].
              apply elem_of_cons in Hin as [Heq0|Hin]; [done|].
              right. split; [|done]. apply elem_of_app. by right.
        -- intros B0 HB0. rewrite liveAt_insert.
           destruct (decide (bid B = bid B0)) as [Heq0|Hne0].
           ++ rewrite <- (block_eq F B B0 Hnd HB HB0 Heq0).
              by apply unionOf_mono.
           ++ etrans; [by apply Hbe|]. by apply unionOf_mono.
        -- intros B0 HB0 Hnot. rewrite liveAt_insert.
           apply not_elem_of_app in Hnot as [Hnp HnW].
           assert (Hns : bid B ∉ succs B0).
           { intros Hs. apply Hnp. apply (proj2 (elem_of_rev _ _)).
             by apply elem_of_preds. }
           rewrite (unionOf_insert_other _ _ _ _ Hns).
           destruct (decide (bid B = bid B0)) as [Heq0|Hne0].
           ++ by rewrite <- (block_eq F B B0 Hnd HB HB0 Heq0).
           ++ apply Hse; [done|]. apply not_elem_of_cons. split; [done|done].
        -- intros l. rewrite liveAt_insert.
           by destruct (decide (bid B = l)).
      * apply (livenessRoom_grow F Data _ B); simpl; try done.
        -- intros B' HB' Hne. rewrite liveAt_insert.
           by destruct (decide (bid B = bid B')).
        -- rewrite liveAt_insert, decide_True by done. set_solver.
        -- by rewrite liveAt_insert, decide_True.
      * rewrite length_app, length_rev. pose proof (length_preds F (bid B)). lia.
Qed.

Lemma computeGCPtrLiveness_loop_inv F fuel W Data :
  cfg_wf F -> livenessInv F W Data ->
  livenessRoom F Data * S (edgeCount F) + length W < fuel ->
  exists Data',
    computeGCPtrLiveness_loop F fuel W Data = Some Data' ∧ livenessInv F [] Data'.
Proof.
  intros Hcfg. revert W Data.
  induction fuel as [|fuel IH]; intros W Data Hinv Hfuel; [lia|].
  destruct W as [|BB W]; [by exists Data|].
  destruct (computeGCPtrLiveness_step_inv F BB W Data Hcfg Hinv)
    as (W' & Data' & Hstep & Hinv' & Hless).
  cbn [computeGCPtrLiveness_loop]. rewrite Hstep. simpl.
  apply IH; [done|]. simpl in Hfuel.
  destruct Hless as [[-> ->]|[Hroom Hlen]]; [lia|]. nia.
Qed.

Lemma liveAt_init F l :
  liveAt (list_to_map ((fun B => (bid B, ∅)) <$> blocks F)) l = ∅.
Proof.
  unfold liveAt.
  destruct (list_to_map _ !! l) as [S|] eqn:Hl; [|done].
  by apply elem_of_list_to_map_2, list_elem_of_fmap in Hl as (B & [= _ ->] & _).
Qed.

Lemma computeGCPtrLiveness_init_inv F :
  livenessInv F (fst (computeGCPtrLiveness_init F)) (snd (computeGCPtrLiveness_init F)).
Proof.
  assert (Hdom : dom (list_to_map ((fun B => (bid B, (∅ : gset Value))) <$> blocks F)
                      : gmap label (gset Value))
                 = list_to_set (bid <$> blocks F)).
  { rewrite dom_list_to_map_L. by rewrite <- list_fmap_compose. }
  constructor; simpl; try done.
  - intros l Hl. by apply (proj1 (elem_of_rev _ _)) in Hl.
  - intros B HB. right. rewrite !liveAt_init. split; [|done].
    apply (proj2 (elem_of_rev _ _)). by apply list_elem_of_fmap_2.
  - intros B HB. rewrite liveAt_init. set_solver.
  - intros B HB Hnot. exfalso. apply Hnot.
    apply (proj2 (elem_of_rev _ _)). by apply list_elem_of_fmap_2.
  - intros l. rewrite liveAt_init. set_solver.
Qed.

Lemma livenessRoom_init F :
  livenessRoom F (snd (computeGCPtrLiveness_init F))
  = length (blocks F) * size (liveOperands F).
Proof.
  unfold livenessRoom. cbn [snd computeGCPtrLiveness_init LiveIn].
  rewrite (sum_list_with_ext_in _ (fun _ => size (liveOperands F))).
  - induction (blocks F) as [|B bs IH]; simpl; [done|]. rewrite IH. lia.
  - intros B _. rewrite liveAt_init, size_empty. lia.
Qed.

(** X15. The worklist loop of [computeGCPtrLiveness] terminates on every
    function with a well-formed control-flow graph, trips no assertion, and
    ends in a solution of the liveness equations: for every block, the
    live-out set is the union of the live-in sets of the successors, and the
    live-in set is the backward scan of the block applied to its live-out
    set.  The skipping of blocks whose live-out set is unchanged, and of the
    predecessors of a block whose live-in set is empty, loses nothing. *)
Theorem computeGCPtrLiveness_solves F fuel :
  cfg_wf F ->
  livenessFuel F < fuel ->
  exists Data,
    computeGCPtrLiveness F fuel = Some Data ∧ liveEquations F Data.
Proof.
  intros Hcfg Hfuel. unfold computeGCPtrLiveness.
  pose proof (computeGCPtrLiveness_init_inv F) as Hinit.
  pose proof (livenessRoom_init F) as Hroom.
  destruct (computeGCPtrLiveness_init F) as [W0 Data0] eqn:Hinit0.
  simpl in Hinit, Hroom.
  assert (HW0 : length W0 = length (blocks F)).
  { unfold computeGCPtrLiveness_init in Hinit0. injection Hinit0 as <- _.
    by rewrite length_rev, length_fmap. }
  destruct (computeGCPtrLiveness_loop_inv F fuel W0 Data0 Hcfg Hinit)
    as (Data & Hloop & [Hdi Hdo _ Hsc _ Hse _]).
  { rewrite Hroom, HW0. unfold livenessFuel in Hfuel. lia. }
  exists Data. split; [done|].
  intros B HB.
  assert (Hlab : bid B ∈ (list_to_set (bid <$> blocks F) : gset label)).
  { apply elem_of_list_to_set. by apply list_elem_of_fmap_2. }
  assert (HIn : bid B ∈ dom (LiveIn Data)) by (by rewrite Hdi).
  assert (HOut : bid B ∈ dom (LiveOut Data)) by (by rewrite Hdo).
  apply elem_of_dom in HIn as [In HIn]. apply elem_of_dom in HOut as [Out HOut].
  exists In, Out. split; [done|]. split; [done|].
  pose proof (Hse B HB) as Hset. pose proof (Hsc B HB) as Hscan.
  unfold liveAt in Hset, Hscan. rewrite HOut in Hset, Hscan. rewrite HIn in Hscan.
  simpl in Hset, Hscan. split.
  - rewrite Hset by (by intros ?%elem_of_nil).
    apply unionLiveIn_total. intros s Hs. apply elem_of_dom.
    rewrite Hdi. apply elem_of_list_to_set. destruct Hcfg as [_ Hsucc]. by eapply Hsucc.
  - destruct Hscan as [H|(Hin & _)]; [done|by apply elem_of_nil in Hin].
Qed.

Lemma sample_derive_cfg_wf : cfg_wf sample_derive.
Proof.
  split.
  - simpl. apply NoDup_singleton.
  - intros B s [->|HB%elem_of_nil]%elem_of_cons; [|done].
    by intros Hs%elem_of_nil.
Qed.

Lemma computeGCPtrLiveness_solves_witness :
  exists Data,
    computeGCPtrLiveness sample_derive 10 = Some Data ∧
    liveEquations sample_derive Data.
Proof.
  apply (computeGCPtrLiveness_solves sample_derive 10 sample_derive_cfg_wf).
  vm_compute. lia.
Defined.

(** ** Base-defining values *)

Section FindBaseDefiningValueFacts.
Variable opts : Options.
Variable F : Function.
Variable stripPointerCasts : Value -> Value.
Variable verifier_exception : Value -> bool.
Variable isXchg : Instruction -> bool.

#[local] Abbreviation bdv :=
  (findBaseDefiningValue opts F stripPointerCasts verifier_exception isXchg).

Lemma getInst_Some id J : getInst F id = Some J -> J ∈ instructions F ∧ iid J = id.
Proof.
  unfold getInst. intros [Hin Hid]%find_some.
  apply bool_decide_eq_true in Hid. by rewrite list_elem_of_In.
Qed.

Lemma findBaseDefiningValue_class fuel I r :
  bdv fuel I = Some r ->
  baseDefining opts verifier_exception r ∨ atomicPointerOperand F r.
Proof.
  revert I. induction fuel as [|fuel IH]; intros I; [done|]. cbn [findBaseDefiningValue].
  destruct (isPointerTy (getType I)) eqn:Hty; [|done]. cbn [negb].
  destruct I as [i t|i op t|b z|t|t|n t|n i|i]; simpl in Hty; try done.
  - intros [= <-]. by left.
  - destruct op; try done.
    + destruct (AllFunctions opts) eqn:HA; [|done]. intros [= <-]. by left.
    + intros (LI & _ & H)%bind_Some. apply bind_Some in H as (Op & _ & H).
      destruct (isPointerTy (getType Op)); [|done]. injection H as <-. by left.
    + intros (GEP & _ & H)%bind_Some. apply bind_Some in H as (Op & _ & H).
      destruct (isPointerTy (getType Op)); [|done]. by apply IH in H.
    + destruct (isPointerTy (getType (stripPointerCasts _))) eqn:Hd; [|done].
      cbn [negb]. destruct (isaCastInst _) eqn:Hc; [|by intros H%IH].
      destruct (stripPointerCasts _) as [| ? [] ?| | | | | |] eqn:Hs; try done.
      destruct (verifier_exception _) eqn:Hv.
      * intros [= <-]. left. split; [done|]. by left.
      * destruct (AllFunctions opts) eqn:HA; [|done].
        intros [= <-]. left. split; [done|]. by right.
    + destruct (isPointerTy (getType (stripPointerCasts _))) eqn:Hd; [|done].
      cbn [negb]. destruct (isaCastInst _) eqn:Hc; [|by intros H%IH].
      destruct (stripPointerCasts _) as [| ? [] ?| | | | | |] eqn:Hs; try done.
      destruct (verifier_exception _) eqn:Hv.
      * intros [= <-]. left. split; [done|]. by left.
      * destruct (AllFunctions opts) eqn:HA; [|done].
        intros [= <-]. left. split; [done|]. by right.
    + intros [= <-]. by left.
    + intros [= <-]. by left.
    + intros (call & _ & H)%bind_Some.
      destruct (asIntrinsicInst call) as [[]|]; try done; injection H as <-; by left.
    + intros [= <-]. by left.
    + intros (cas & Hget & H)%bind_Some.
      right. exists i, AtomicCmpXchg, t, cas. split; [by left|]. by split.
    + intros (atomic & Hget & H)%bind_Some.
      destruct (isXchg atomic); [|done].
      right. exists i, AtomicRMW, t, atomic. split; [by right|]. by split.
    + intros [= <-]. by left.
  - intros [= <-]. by left.
  - destruct (AllFunctions opts) eqn:HA; [|done]. intros [= <-]. by left.
  - destruct (AllFunctions opts) eqn:HA; [|done]. intros [= <-]. by left.
Qed.

Lemma findBaseDefiningValue_atomic fuel i op t r :
  op = AtomicCmpXchg ∨ op = AtomicRMW ->
  bdv fuel (Inst i op t) = Some r -> atomicPointerOperand F r.
Proof.
  intros Hop. destruct fuel as [|fuel]; [done|]. cbn [findBaseDefiningValue].
  destruct (isPointerTy (getType (Inst i op t))) eqn:Hty; [|done]. cbn [negb].
  destruct Hop as [-> | ->].
  - intros (cas & Hget & H)%bind_Some. exists i, AtomicCmpXchg, t, cas. by auto.
  - intros (atomic & Hget & H)%bind_Some. destruct (isXchg atomic); [|done].
    exists i, AtomicRMW, t, atomic. by auto.
Qed.

Lemma findBaseDefiningValue_fuel n m I r :
  bdv n I = Some r -> n ≤ m -> bdv m I = Some r.
Proof.
  revert m I. induction n as [|n IH]; intros m I; [done|].
  intros H Hle. destruct m as [|m]; [lia|]. revert H.
  cbn [findBaseDefiningValue].
  destruct (isPointerTy (getType I)); [|done]. cbn [negb].
  destruct I as [i t|i op t|b z|t|t|na t|na i|i]; try done.
  destruct op; try done.
  - intros (GEP & HG & H)%bind_Some. apply bind_Some in H as (Op & HO & H).
    rewrite HG. cbn. rewrite HO. cbn.
    destruct (isPointerTy (getType Op)); [|done]. apply IH; [done|lia].
  - destruct (negb _); [done|]. destruct (isaCastInst _); [done|].
    intros H. apply IH; [done|lia].
  - destruct (negb _); [done|]. destruct (isaCastInst _); [done|].
    intros H. apply IH; [done|lia].
Qed.

Ltac bdv_step :=
  cbn [findBaseDefiningValue getType negb mbind option_bind isaCastInst].

Lemma findBaseDefiningValue_self fuel I r :
  (forall V, stripPointerCasts (stripPointerCasts V) = stripPointerCasts V) ->
  bdv fuel I = Some r ->
  atomicPointerOperand F r ∨ bdv 1 r = Some r.
Proof.
  intros Hstrip. remember 1 as k eqn:Hk.
  revert I. induction fuel as [|fuel IH]; intros I; [done|].
  intros Hrun. pose proof Hrun as Hrun'. revert Hrun.
  cbn [findBaseDefiningValue].
  destruct (isPointerTy (getType I)) eqn:Hty; [|done]. cbn [negb].
  destruct I as [i t|i op t|b z|t|t|na t|na i|i]; simpl in Hty; try done.
  - intros [= <-]. right. subst k. bdv_step. by rewrite Hty.
  - destruct op; try done.
    + destruct (AllFunctions opts) eqn:HA; [|done]. intros [= <-].
      right. subst k. bdv_step. by rewrite Hty, HA.
    + intros (LI & HLI & H)%bind_Some. apply bind_Some in H as (Op & HOp & H).
      destruct (isPointerTy (getType Op)) eqn:HOpt; [|done]. injection H as <-.
      right. subst k. bdv_step. rewrite Hty. bdv_step. rewrite HLI. bdv_step. rewrite HOp. bdv_step. by rewrite HOpt.
    + intros (GEP & _ & H)%bind_Some. apply bind_Some in H as (Op & _ & H).
      destruct (isPointerTy (getType Op)); [|done]. by apply IH in H.
    + destruct (isPointerTy (getType (stripPointerCasts _))) eqn:Hd; [|done].
      cbn [negb]. destruct (isaCastInst _) eqn:Hc; [|by intros H%IH].
      destruct (stripPointerCasts _) as [| i' [] t'| | | | | |] eqn:Hs; try done.
      assert (Hs' : stripPointerCasts (Inst i' IntToPtr t') = Inst i' IntToPtr t')
        by (by rewrite <- Hs, Hstrip).
      destruct (verifier_exception _) eqn:Hv.
      * intros [= <-]. right. subst k. simpl in Hd. bdv_step. rewrite Hs'. bdv_step. rewrite !Hd. bdv_step.
        by rewrite Hv.
      * destruct (AllFunctions opts) eqn:HA; [|done].
        intros [= <-]. right. subst k. simpl in Hd. bdv_step. rewrite Hs'. bdv_step. rewrite !Hd. bdv_step.
        by rewrite Hv, HA.
    + destruct (isPointerTy (getType (stripPointerCasts _))) eqn:Hd; [|done].
      cbn [negb]. destruct (isaCastInst _) eqn:Hc; [|by intros H%IH].
      destruct (stripPointerCasts _) as [| i' [] t'| | | | | |] eqn:Hs; try done.
      assert (Hs' : stripPointerCasts (Inst i' IntToPtr t') = Inst i' IntToPtr t')
        by (by rewrite <- Hs, Hstrip).
      destruct (verifier_exception _) eqn:Hv.
      * intros [= <-]. right. subst k. simpl in Hd. bdv_step. rewrite Hs'. bdv_step. rewrite !Hd. bdv_step.
        by rewrite Hv.
      * destruct (AllFunctions opts) eqn:HA; [|done].
        intros [= <-]. right. subst k. simpl in Hd. bdv_step. rewrite Hs'. bdv_step. rewrite !Hd. bdv_step.
        by rewrite Hv, HA.
    + intros [= <-]. right. subst k. bdv_step. by rewrite Hty.
    + intros [= <-]. right. subst k. bdv_step. by rewrite Hty.
    + intros (call & Hcall & H)%bind_Some.
      assert (r = Inst i Call t) as ->.
      { destruct (asIntrinsicInst call) as [[]|]; try done; by injection H as <-. }
      right. subst k. bdv_step. rewrite Hty. bdv_step. rewrite Hcall. bdv_step. exact H.
    + intros [= <-]. right. subst k. bdv_step. by rewrite Hty.
    + intros _. left.
      exact (findBaseDefiningValue_atomic _ _ _ _ _ (or_introl eq_refl) Hrun').
    + intros _. left.
      exact (findBaseDefiningValue_atomic _ _ _ _ _ (or_intror eq_refl) Hrun').
    + intros [= <-]. right. subst k. bdv_step. by rewrite Hty.
  - intros [= <-]. right. subst k. bdv_step. by rewrite Hty.
  - destruct (AllFunctions opts) eqn:HA; [|done]. intros [= <-].
    right. subst k. bdv_step. by rewrite Hty, HA.
  - destruct (AllFunctions opts) eqn:HA; [|done]. intros [= <-].
    right. subst k. bdv_step. by rewrite Hty, HA.
Qed.

(** X17. With a cache that holds base-defining values only,
    [findBaseOrBDV(I)] is the base-defining value of [I] whenever that value
    is its own base-defining value, whatever the cache already holds; the
    cache keeps its entries, gains at most the entry of [I], and still holds
    base-defining values only.  So the answer for [I] is the same at every
    call. *)
Theorem findBaseOrBDV_agrees fuel I cache r :
  cacheOfBDVs (bdv fuel) cache ->
  bdv fuel I = Some r -> bdv fuel r = Some r ->
  exists cache',
    findBaseOrBDV opts F stripPointerCasts verifier_exception isXchg fuel I cache
    = Some (r, cache') ∧
    cache ⊆ cache' ∧ cacheOfBDVs (bdv fuel) cache' ∧
    dom cache' = {[I]} ∪ dom cache.
Proof.
  intros Hcache HI Hr. unfold findBaseOrBDV, findBaseDefiningValueCached.
  destruct (cache !! I) as [r'|] eqn:HcI.
  - assert (r' = r) as -> by (apply Hcache in HcI; congruence).
    exists cache. cbn [mbind option_bind]. split; [|split; [done|split; [done|]]].
    + destruct (cache !! r) as [b|] eqn:Hcr; [|done].
      apply Hcache in Hcr. congruence.
    + apply elem_of_dom_2 in HcI. set_solver.
  - rewrite HI. cbn [mbind option_bind].
    assert (Hcache' : cacheOfBDVs (bdv fuel) (<[I := r]> cache)).
    { intros v b [[<- <-]|[_ Hv]]%lookup_insert_Some; [done|by apply Hcache]. }
    exists (<[I := r]> cache). split; [|split; [|split; [done|]]].
    + destruct (<[I := r]> cache !! r) as [b|] eqn:Hcr; [|done].
      apply Hcache' in Hcr. congruence.
    + by apply insert_subseteq.
    + by rewrite dom_insert_L.
Qed.

End FindBaseDefiningValueFacts.

(** X16. What [findBaseDefiningValue] returns.  Leaving aside the pointer
    operand of a [cmpxchg] or [atomicrmw], which is returned unexamined,
    every result is a pointer of one of the classes that end the search (never
    a GEP, never a pointer cast; a global, an undef, an alloca or an unmarked
    [inttoptr] only under [AllFunctions]), and it is its own base-defining
    value: asking again returns it, with any fuel.  [stripPointerCasts] is
    only required to return its own results unchanged. *)
Theorem findBaseDefiningValue_result opts F stripPointerCasts verifier_exception
        isXchg fuel I r :
  (forall V, stripPointerCasts (stripPointerCasts V) = stripPointerCasts V) ->
  findBaseDefiningValue opts F stripPointerCasts verifier_exception isXchg fuel I
  = Some r ->
  (baseDefining opts verifier_exception r ∧
   forall n, findBaseDefiningValue opts F stripPointerCasts verifier_exception
                                   isXchg (S n) r = Some r)
  ∨ atomicPointerOperand F r.
Proof.
  intros Hstrip Hrun.
  destruct (findBaseDefiningValue_self _ _ _ _ _ _ _ _ Hstrip Hrun) as [Hat|Hself];
    [by right|].
  destruct (findBaseDefiningValue_class _ _ _ _ _ _ _ _ Hrun) as [Hbd|Hat];
    [|by right].
  left. split; [done|]. intros n.
  eapply findBaseDefiningValue_fuel; [exact Hself|lia].
Qed.

Lemma findBaseDefiningValue_result_witness :
  findBaseDefiningValue defaultOptions sample_derive noCasts no_metadata neverXchg
                        2 (valueOf sample_gep) = Some sample_p ∧
  ((baseDefining defaultOptions no_metadata sample_p ∧
    forall n, findBaseDefiningValue defaultOptions sample_derive noCasts no_metadata
                                    neverXchg (S n) sample_p = Some sample_p)
   ∨ atomicPointerOperand sample_derive sample_p).
Proof.
  split; [reflexivity|].
  apply (findBaseDefiningValue_result defaultOptions sample_derive noCasts
           no_metadata neverXchg 2 (valueOf sample_gep) sample_p);
    [done|reflexivity].
Defined.

(** The base-defining value of a [cmpxchg] is its pointer operand as it
    stands, here a GEP, whose own base-defining value is another value. *)
Example findBaseDefiningValue_cmpxchg_sample :
  findBaseDefiningValue defaultOptions sample_atomic noCasts no_metadata neverXchg
                        3 (valueOf sample_cas) = Some (valueOf sample_gep) ∧
  findBaseDefiningValue defaultOptions sample_atomic noCasts no_metadata neverXchg
                        3 (valueOf sample_gep) = Some sample_p.
Proof. split; reflexivity. Qed.

Lemma findBaseOrBDV_agrees_witness :
  exists cache',
    findBaseOrBDV defaultOptions sample_derive noCasts no_metadata neverXchg
                  2 (valueOf sample_gep) ∅ = Some (sample_p, cache') ∧
    (∅ : gmap Value Value) ⊆ cache' ∧
    cacheOfBDVs (findBaseDefiningValue defaultOptions sample_derive noCasts
                                       no_metadata neverXchg 2) cache' ∧
    dom cache' = {[valueOf sample_gep]} ∪ dom (∅ : gmap Value Value).
Proof.
  apply (findBaseOrBDV_agrees defaultOptions sample_derive noCasts no_metadata
           neverXchg 2 (valueOf sample_gep) ∅ sample_p).
  - by intros v r Hv.
  - reflexivity.
  - reflexivity.
Defined.

(** ** [fixupLiveness] *)

Lemma ownBase_fold (f : option (gmap Value Value) -> Value -> option (gmap Value Value))
      (Q : Value -> Prop) (l : list Value) (bp bp' : gmap Value Value) :
  (forall acc V, (Q V ∧ f acc V = ownBase acc V) ∨ (¬ Q V ∧ f acc V = acc)) ->
  foldl f (Some bp) l = Some bp' ->
  bp ⊆ bp' ∧
  (forall V, V ∈ l -> Q V -> bp' !! V = Some V) ∧
  (forall k b, bp' !! k = Some b -> bp !! k = Some b ∨ (k ∈ l ∧ Q k ∧ b = k)).
Proof.
  intros Hf. revert bp.
  assert (Hnone : forall l', foldl f None l' = None).
  { induction l' as [|V l' IH]; [done|]. simpl.
    destruct (Hf None V) as [[_ ->]|[_ ->]]; exact IH. }
  induction l as [|V l IH]; intros bp; simpl.
  - intros [= <-]. split; [done|]. split; [by intros V HV%elem_of_nil|]. by left.
  - destruct (Hf (Some bp) V) as [[HQ ->]|[HQ ->]].
    + unfold ownBase at 1. simpl. destruct (bp !! V) as [b|] eqn:HbV.
      * destruct (decide (b = V)) as [->|Hne]; [|by rewrite Hnone].
        intros Hrest. destruct (IH _ Hrest) as (Hsub & Hown & Hold).
        split; [done|]. split.
        -- intros V' [->|HV']%elem_of_cons HQ'; [|by apply Hown].
           by eapply lookup_weaken.
        -- intros k b Hk. destruct (Hold k b Hk) as [H|(Hin & HQk & ->)]; [by left|].
           right. split; [by right|done].
      * intros Hrest. destruct (IH _ Hrest) as (Hsub & Hown & Hold).
        split; [etrans; [by apply insert_subseteq|done]|]. split.
        -- intros V' [->|HV']%elem_of_cons HQ'; [|by apply Hown].
           eapply lookup_weaken; [|exact Hsub]. by rewrite lookup_insert_eq.
        -- intros k b Hk. destruct (Hold k b Hk) as [H|(Hin & HQk & ->)].
           ++ apply lookup_insert_Some in H as [[<- <-]|[_ H]]; [|by left].
              right. split; [left|done].
           ++ right. split; [by right|done].
    + intros Hrest. destruct (IH _ Hrest) as (Hsub & Hown & Hold).
      split; [done|]. split.
      * intros V' [->|HV']%elem_of_cons HQ'; [done|by apply Hown].
      * intros k b Hk. destruct (Hold k b Hk) as [H|(Hin & HQk & ->)]; [by left|].
        right. split; [by right|done].
Qed.

Lemma addBaseToLive_fold (pairs : list (Value * Value)) (u u' : gset Value) :
  foldl addBaseToLive (Some u) pairs = Some u' ->
  u' = u ∪ list_to_set (snd <$> pairs) ∧ forall p, p ∈ pairs -> fst p ∈ u'.
Proof.
  assert (Hnone : forall l', foldl addBaseToLive None l' = None)
    by (induction l' as [|p l' IH]; [done|exact IH]).
  revert u. induction pairs as [|p pairs IH]; intros u; simpl.
  - intros [= <-]. split; [set_solver|]. by intros p Hp%elem_of_nil.
  - destruct (decide (fst p ∈ {[snd p]} ∪ u)) as [Hin|Hnin]; [|by rewrite Hnone].
    intros Hrest. destruct (IH _ Hrest) as [-> Hall]. split; [set_solver|].
    intros p' [->|Hp']%elem_of_cons; [set_solver|by apply Hall].
Qed.

Lemma fixupLiveness_inv F RevisedLivenessData CS allInsertedDefs info info' :
  liveset info ⊆ dom (base_pairs info) ->
  fixupLiveness F RevisedLivenessData CS allInsertedDefs info = Some info' ->
  exists updated,
    findLiveSetAtInst F CS RevisedLivenessData = Some updated ∧
    liveset info' = updated ∪ map_img (base_pairs info') ∧
    dom (base_pairs info') = liveset info' ∧
    base_pairs info ⊆ base_pairs info' ∧
    (forall d b, base_pairs info' !! d = Some b -> base_pairs info' !! b = Some b) ∧
    (forall V, V ∈ updated -> V ∈ allInsertedDefs ->
               base_pairs info' !! V = Some V) ∧
    newInsertedDefs info' = newInsertedDefs info ∧
    safepoint info' = safepoint info ∧ result info' = result info.
Proof.
  intros Hpre. unfold fixupLiveness.
  intros (updated & Hupd & H)%bind_Some.
  apply bind_Some in H as (bp1 & H1 & H).
  apply bind_Some in H as (bp2 & H2 & H).
  destruct (bool_decide (set_Forall _ updated)) eqn:Hstable; [|done].
  apply bool_decide_eq_true in Hstable. cbn [negb] in H.
  apply bind_Some in H as (updated' & H4 & [= <-]). cbn.
  apply (ownBase_fold _ (fun V => V ∈ allInsertedDefs)) in H1
    as (Hsub1 & Hown1 & Hold1).
  2:{ intros acc V. destruct (decide (V ∈ allInsertedDefs)); [left|right]; done. }
  apply (ownBase_fold _ (fun _ => True)) in H2 as (Hsub2 & Hown2 & Hold2).
  2:{ intros acc V. by left. }
  apply addBaseToLive_fold in H4 as [-> Hkeys].
  assert (Himg : map_img bp2 = (map_img bp1 : gset Value)).
  { apply set_eq. intros b. rewrite !elem_of_map_img. split.
    - intros [k Hk]. destruct (Hold2 k b Hk) as [H|(Hin & _ & ->)]; [by exists k|].
      by apply elem_of_elements, elem_of_map_img in Hin.
    - intros [k Hk]. exists k. by eapply lookup_weaken. }
  assert (Hbases : forall b, b ∈ (map_img bp2 : gset Value) -> bp2 !! b = Some b).
  { intros b Hb. apply Hown2; [|done]. apply elem_of_elements. by rewrite <- Himg. }
  assert (Hlive : updated ∪ list_to_set (map_to_list bp2).*2
                  = updated ∪ map_img bp2).
  { by rewrite map_img_alt_L. }
  exists updated. split; [done|]. split; [done|]. split; [|split; [|split; [|split]]].
  - rewrite Hlive. apply set_eq. intros V. split.
    + intros [b Hb]%elem_of_dom. rewrite <- Hlive.
      apply (Hkeys (V, b)). by apply elem_of_map_to_list.
    + intros [HV|HV]%elem_of_union.
      * destruct (Hstable V HV) as [Hl|[Hb|Hd]].
        -- apply Hpre in Hl. apply elem_of_dom in Hl as [b Hb].
           apply elem_of_dom. exists b.
           eapply lookup_weaken; [|exact Hsub2]. by eapply lookup_weaken.
        -- apply elem_of_dom. exists V. apply Hbases. by rewrite Himg.
        -- apply elem_of_dom. exists V. eapply lookup_weaken; [|exact Hsub2].
           apply Hown1; [|done]. by apply elem_of_elements.
      * apply elem_of_dom. exists V. by apply Hbases.
  - by etrans.
  - intros d b Hd. apply Hbases. apply elem_of_map_img. by exists d.
  - intros V HV Hdef. eapply lookup_weaken; [|exact Hsub2].
    apply Hown1; [|done]. by apply elem_of_elements.
  - done.
Qed.

(** X18. What [fixupLiveness] (dataflow mode) leaves in the record when it
    completes, given that every value of the old live set had a base: the
    new live set is the revised liveness at the call together with all the
    bases; the keys of [base_pairs] are exactly the new live set, so every
    live value has a base and every base is live; every base is its own
    base; old pairs are kept; and an inserted definition that is live at the
    call is its own base.  The other fields are untouched. *)
Theorem fixupLiveness_spec F RevisedLivenessData CS allInsertedDefs info info' :
  liveset info ⊆ dom (base_pairs info) ->
  fixupLiveness F RevisedLivenessData CS allInsertedDefs info = Some info' ->
  exists updated,
    findLiveSetAtInst F CS RevisedLivenessData = Some updated ∧
    liveset info' = updated ∪ map_img (base_pairs info') ∧
    dom (base_pairs info') = liveset info' ∧
    (forall L, L ∈ liveset info' -> exists b, base_pairs info' !! L = Some b ∧
                                              b ∈ liveset info') ∧
    base_pairs info ⊆ base_pairs info' ∧
    (forall d b, base_pairs info' !! d = Some b -> base_pairs info' !! b = Some b) ∧
    (forall V, V ∈ updated -> V ∈ allInsertedDefs ->
               base_pairs info' !! V = Some V) ∧
    newInsertedDefs info' = newInsertedDefs info ∧
    safepoint info' = safepoint info ∧ result info' = result info.
Proof.
  intros Hpre Hrun.
  destruct (fixupLiveness_inv _ _ _ _ _ _ Hpre Hrun)
    as (updated & Hupd & Hlive & Hdom & Hsub & Hown & Hdefs & Hrest).
  exists updated. split; [done|]. split; [done|]. split; [done|].
  split; [|split; [done|split; [done|split; [done|exact Hrest]]]].
  intros L HL. rewrite <- Hdom in HL. apply elem_of_dom in HL as [b Hb].
  exists b. split; [done|]. rewrite Hlive. apply elem_of_union. right.
  apply elem_of_map_img. by exists L.
Qed.

Lemma fixupLiveness_spec_witness :
  exists info' updated,
    fixupLiveness sample_derive sample_liveness sample_call ∅ sample_record
    = Some info' ∧
    findLiveSetAtInst sample_derive sample_call sample_liveness = Some updated ∧
    liveset info' = updated ∪ map_img (base_pairs info') ∧
    dom (base_pairs info') = liveset info' ∧
    (forall L, L ∈ liveset info' -> exists b, base_pairs info' !! L = Some b ∧
                                              b ∈ liveset info') ∧
    base_pairs sample_record ⊆ base_pairs info' ∧
    (forall d b, base_pairs info' !! d = Some b -> base_pairs info' !! b = Some b) ∧
    (forall V, V ∈ updated -> V ∈ (∅ : gset Value) ->
               base_pairs info' !! V = Some V) ∧
    newInsertedDefs info' = newInsertedDefs sample_record ∧
    safepoint info' = safepoint sample_record ∧
    result info' = result sample_record.
Proof.
  assert (Hrun : is_Some (fixupLiveness sample_derive sample_liveness sample_call ∅
                                        sample_record)).
  { eexists. reflexivity. }
  destruct Hrun as [info' Hrun]. exists info'.
  destruct (fixupLiveness_spec sample_derive sample_liveness sample_call ∅
              sample_record info') as (updated & H); [|exact Hrun|].
  - intros V HV. cbn in HV. apply elem_of_singleton in HV as ->.
    apply elem_of_dom. eexists. reflexivity.
  - exists updated. split; [exact Hrun|exact H].
Defined.

(** On the sample the base [%p] joins the live set as its own base. *)
Example fixupLiveness_sample :
  (fun info' => (liveset info', base_pairs info'))
    <$> fixupLiveness sample_derive sample_liveness sample_call ∅ sample_record
  = Some ({[ valueOf sample_gep; sample_p ]},
          {[ valueOf sample_gep := sample_p; sample_p := sample_p ]}).
Proof. reflexivity. Qed.

(** ** [InsertSafepoint] after [fixupLiveness] *)

Lemma first_index_is_Some {T} `{Countable T} (x : T) (l : list T) :
  x ∈ l -> is_Some (first_index x l).
Proof.
  induction l as [|y l IH]; [by intros ?%elem_of_nil|].
  intros Hin. simpl. destruct (decide (y = x)); [eauto|].
  apply elem_of_cons in Hin as [->|Hin]; [done|].
  destruct (IH Hin) as [i ->]. simpl. eauto.
Qed.

Lemma safepointVectors_ok stablize_order result :
  (forall l, stablize_order l ≡ₚ l) ->
  dom (base_pairs result) = liveset result ->
  (forall L b, base_pairs result !! L = Some b -> b ∈ liveset result) ->
  exists sorted,
    safepointVectors stablize_order result = Some (fst <$> sorted, snd <$> sorted) ∧
    snd <$> sorted ≡ₚ elements (liveset result) ∧
    forall b L, (b, L) ∈ sorted -> base_pairs result !! L = Some b.
Proof.
  intros Hperm Hdom Himg. unfold safepointVectors.
  destruct (mapM_is_Some_2 (basePairOf (base_pairs result)) (elements (liveset result)))
    as [temp Htemp].
  { apply Forall_forall. intros L HL%elem_of_elements.
    rewrite <- Hdom in HL. apply elem_of_dom in HL as [b Hb].
    unfold basePairOf. simpl. rewrite Hb. simpl. eauto. }
  rewrite Htemp. cbn [mbind option_bind].
  exists (stablize_order temp). split; [done|].
  apply mapM_Some_1 in Htemp.
  assert (Hsnd : snd <$> temp = elements (liveset result)).
  { clear -Htemp. induction Htemp as [|L p ls ps Hp _ IH]; [done|].
    rewrite fmap_cons, IH. f_equal.
    unfold basePairOf in Hp. destruct (base_pairs result !! L); [|done].
    by injection Hp as <-. }
  split; [by rewrite Hperm, Hsnd|].
  intros b L Hin. rewrite Hperm in Hin. clear -Htemp Hin.
  induction Htemp as [|L' p ls ps Hp _ IH]; [by apply elem_of_nil in Hin|].
  apply elem_of_cons in Hin as [<-|Hin]; [|by apply IH].
  unfold basePairOf in Hp. destruct (base_pairs result !! L') eqn:HL; [|done].
  by injection Hp as <- <-.
Qed.

(** X19. [fixupLiveness] leaves the record in the shape [InsertSafepoint]
    and [CreateSafepoint] assert.  After a completed fix-up, and whatever
    permutation the sort produces, the loop that fills the two vectors finds
    a base for every live value; [livevec] lists the live set without
    repetition; [basevec] holds, position by position, the base of the entry
    of [livevec]; and every base is itself in [livevec], so that both
    [find_index] lookups of every [gc.relocate] succeed. *)
Theorem fixupLiveness_feeds_InsertSafepoint F RevisedLivenessData CS
        allInsertedDefs info info' stablize_order :
  (forall l, stablize_order l ≡ₚ l) ->
  liveset info ⊆ dom (base_pairs info) ->
  fixupLiveness F RevisedLivenessData CS allInsertedDefs info = Some info' ->
  exists basevec livevec,
    safepointVectors stablize_order info' = Some (basevec, livevec) ∧
    length basevec = length livevec ∧
    NoDup livevec ∧
    (forall V, V ∈ livevec <-> V ∈ liveset info') ∧
    (forall i b L, basevec !! i = Some b -> livevec !! i = Some L ->
                   base_pairs info' !! L = Some b) ∧
    (forall b, b ∈ basevec -> b ∈ livevec) ∧
    (forall token live_start i b L,
        basevec !! i = Some b -> livevec !! i = Some L ->
        is_Some (relocateArgs token live_start livevec b L)).
Proof.
  intros Hperm Hpre Hrun.
  destruct (fixupLiveness_inv _ _ _ _ _ _ Hpre Hrun)
    as (updated & _ & Hlive & Hdom & _ & _ & _).
  assert (Himg : forall L b, base_pairs info' !! L = Some b -> b ∈ liveset info').
  { intros L b HL. rewrite Hlive. apply elem_of_union. right.
    apply elem_of_map_img. by exists L. }
  destruct (safepointVectors_ok stablize_order info' Hperm Hdom Himg)
    as (sorted & Hvec & Hsnd & Hpairs).
  assert (Hmem : forall V, V ∈ snd <$> sorted <-> V ∈ liveset info').
  { intros V. by rewrite Hsnd, elem_of_elements. }
  assert (Hat : forall i b L, (fst <$> sorted) !! i = Some b ->
                              (snd <$> sorted) !! i = Some L -> (b, L) ∈ sorted).
  { intros i b L Hb HL. rewrite list_lookup_fmap in Hb, HL.
    destruct (sorted !! i) as [[b' L']|] eqn:Hi; [|done].
    simpl in Hb, HL. simplify_eq. by eapply list_elem_of_lookup_2. }
  assert (Hbase : forall b, b ∈ fst <$> sorted -> b ∈ snd <$> sorted).
  { intros b ([b' L] & -> & Hin)%list_elem_of_fmap. simpl.
    apply Hmem. eapply Himg. by apply Hpairs. }
  exists (fst <$> sorted), (snd <$> sorted). split; [done|].
  split; [by rewrite !length_fmap|]. split.
  { rewrite Hsnd. apply NoDup_elements. }
  split; [done|]. split; [|split; [done|]].
  - intros i b L Hb HL. apply Hpairs. by eapply Hat.
  - intros token live_start i b L Hb HL. unfold relocateArgs, find_index.
    destruct (first_index_is_Some b (snd <$> sorted)) as [bi ->].
    { apply Hbase. by eapply list_elem_of_lookup_2. }
    destruct (first_index_is_Some L (snd <$> sorted)) as [di ->].
    { by eapply list_elem_of_lookup_2. }
    simpl. eauto.
Qed.

Lemma fixupLiveness_feeds_InsertSafepoint_witness :
  exists info' basevec livevec,
    fixupLiveness sample_derive sample_liveness sample_call ∅ sample_record
    = Some info' ∧
    safepointVectors keepOrder info' = Some (basevec, livevec) ∧
    length basevec = length livevec ∧
    NoDup livevec ∧
    (forall V, V ∈ livevec <-> V ∈ liveset info') ∧
    (forall i b L, basevec !! i = Some b -> livevec !! i = Some L ->
                   base_pairs info' !! L = Some b) ∧
    (forall b, b ∈ basevec -> b ∈ livevec) ∧
    (forall token live_start i b L,
        basevec !! i = Some b -> livevec !! i = Some L ->
        is_Some (relocateArgs token live_start livevec b L)).
Proof.
  assert (Hrun : is_Some (fixupLiveness sample_derive sample_liveness sample_call ∅
                                        sample_record)).
  { eexists. reflexivity. }
  destruct Hrun as [info' Hrun]. exists info'.
  destruct (fixupLiveness_feeds_InsertSafepoint sample_derive sample_liveness
              sample_call ∅ sample_record info' keepOrder)
    as (basevec & livevec & H); [done| |exact Hrun|].
  - intros V HV. cbn in HV. apply elem_of_singleton in HV as ->.
    apply elem_of_dom. eexists. reflexivity.
  - exists basevec, livevec. split; [exact Hrun|exact H].
Defined.

(** ** [addBasesAsLiveValues] *)

Lemma missingBase_fold liveset base_pairs (l : list Value) (acc missing : gset Value) :
  foldl (missingBase liveset base_pairs) (Some acc) l = Some missing ->
  (forall L, L ∈ l -> is_Some (base_pairs !! L)) ∧
  forall b, b ∈ missing <->
            b ∈ acc ∨ ((b ∉ liveset) ∧ base_pairs !! b = None ∧
                       exists L, L ∈ l ∧ base_pairs !! L = Some b).
Proof.
  assert (Hnone : forall l', foldl (missingBase liveset base_pairs) None l' = None)
    by (induction l' as [|p l' IH]; [done|exact IH]).
  revert acc. induction l as [|L l IH]; intros acc; simpl.
  - intros [= <-]. split; [by intros L HL%elem_of_nil|].
    intros b. split; [by left|]. intros [H|(_ & _ & L & HL%elem_of_nil & _)]; done.
  - destruct (base_pairs !! L) as [base|] eqn:HL; simpl; [|by rewrite Hnone].
    destruct (decide (base ∈ liveset)) as [Hin|Hnin].
    + intros Hrest. destruct (IH _ Hrest) as [Hall Hmiss]. split.
      * intros L' [->|HL']%elem_of_cons; [eauto|by apply Hall].
      * intros b. rewrite Hmiss. split.
        -- intros [H|(Hb & Hnone' & L' & HL' & Hb')]; [by left|].
           right. split; [done|]. split; [done|]. exists L'. split; [by right|done].
        -- intros [H|(Hb & Hnone' & L' & [->|HL']%elem_of_cons & Hb')]; [by left| |].
           ++ simplify_eq. done.
           ++ right. split; [done|]. split; [done|]. by exists L'.
    + destruct (decide (is_Some (base_pairs !! base))) as [Hsome|Hno];
        [by rewrite Hnone|].
      apply eq_None_not_Some in Hno.
      intros Hrest. destruct (IH _ Hrest) as [Hall Hmiss]. split.
      * intros L' [->|HL']%elem_of_cons; [eauto|by apply Hall].
      * intros b. rewrite Hmiss, elem_of_union, elem_of_singleton. split.
        -- intros [[->|H]|(Hb & Hnone' & L' & HL' & Hb')]; [|by left|].
           ++ right. split; [done|]. split; [done|]. exists L. split; [left|done].
           ++ right. split; [done|]. split; [done|]. exists L'. split; [by right|done].
        -- intros [H|(Hb & Hnone' & L' & [->|HL']%elem_of_cons & Hb')];
             [by left; right| |].
           ++ simplify_eq. by left; left.
           ++ right. split; [done|]. split; [done|]. by exists L'.
Qed.

Lemma addMissing_fold (l : list Value) (ls : gset Value) (bp : gmap Value Value) :
  fst (foldl addMissing (ls, bp) l) = ls ∪ list_to_set l ∧
  snd (foldl addMissing (ls, bp) l)
  = foldl (fun m b => <[b := b]> m) bp l.
Proof.
  revert ls bp. induction l as [|b l IH]; intros ls bp; simpl.
  - split; [set_solver|done].
  - unfold addMissing at 2 4. simpl. destruct (IH ({[b]} ∪ ls) (<[b:=b]> bp)) as [-> ->].
    split; [set_solver|done].
Qed.

Lemma insert_self_fold (l : list Value) (bp : gmap Value Value) :
  NoDup l ->
  (forall b, b ∈ l -> bp !! b = None) ->
  bp ⊆ foldl (fun m b => <[b := b]> m) bp l ∧
  dom (foldl (fun m b => <[b := b]> m) bp l) = dom bp ∪ list_to_set l ∧
  (forall k v, foldl (fun m b => <[b := b]> m) bp l !! k = Some v ->
               bp !! k = Some v ∨ (k ∈ l ∧ v = k)).
Proof.
  intros Hnd. revert bp. induction Hnd as [|b l Hbl Hnd IH]; intros bp Hnew; simpl.
  - split; [done|]. split; [set_solver|]. by left.
  - assert (Hstep : bp ⊆ <[b:=b]> bp).
    { apply insert_subseteq. apply Hnew. left. }
    destruct (IH (<[b:=b]> bp)) as (Hsub & Hdom & Hval).
    { intros c Hc. rewrite lookup_insert_ne; [apply Hnew; by right|].
      intros ->. done. }
    split; [by etrans|]. split.
    + rewrite Hdom, dom_insert_L. set_solver.
    + intros k v Hk. destruct (Hval k v Hk) as [H|[Hin ->]].
      * apply lookup_insert_Some in H as [[<- <-]|[_ H]]; [right|by left].
        split; [left|done].
      * right. split; [by right|done].
Qed.

Lemma addBasesAsLiveValues_inv liveset base_pairs :
  (is_Some (addBasesAsLiveValues liveset base_pairs) <->
   dom base_pairs = liveset) ∧
  forall liveset' base_pairs',
    addBasesAsLiveValues liveset base_pairs = Some (liveset', base_pairs') ->
    liveset' = liveset ∪ map_img base_pairs ∧
    base_pairs ⊆ base_pairs' ∧
    dom base_pairs' = liveset' ∧
    map_img base_pairs' ⊆ liveset' ∧
    (forall b, b ∈ liveset' -> (b ∉ liveset) -> base_pairs' !! b = Some b).
Proof.
  unfold addBasesAsLiveValues.
  destruct (foldl (missingBase liveset base_pairs) (Some ∅) (elements liveset))
    as [missing|] eqn:Hfold; cbn [mbind option_bind].
  2:{ split; [|done]. split; [by intros [? ?]|]. intros Hdom. exfalso.
      assert (Hsome : is_Some (foldl (missingBase liveset base_pairs) (Some ∅)
                                     (elements liveset))); [|by rewrite Hfold in Hsome; destruct Hsome].
      clear Hfold. generalize (∅ : gset Value).
      assert (Hall : forall L, L ∈ elements liveset -> L ∈ liveset)
        by (by intros L HL%elem_of_elements).
      induction (elements liveset) as [|L l IH]; intros acc; simpl; [eauto|].
      assert (HL : L ∈ dom base_pairs) by (rewrite Hdom; apply Hall; left).
      apply elem_of_dom in HL as [base HL]. rewrite HL. simpl.
      destruct (decide (base ∈ liveset)) as [Hin|Hnin].
      - apply IH. intros L' HL'. apply Hall. by right.
      - destruct (decide (is_Some (base_pairs !! base))) as [Hs|Hn].
        + exfalso. apply Hnin. rewrite <- Hdom. by apply elem_of_dom.
        + apply IH. intros L' HL'. apply Hall. by right. }
  destruct (missingBase_fold _ _ _ _ _ Hfold) as [Hkeys Hmiss].
  assert (Hsub : liveset ⊆ dom base_pairs).
  { intros L HL. apply elem_of_dom, Hkeys. by apply elem_of_elements. }
  assert (Hmiss' : forall b, b ∈ missing <->
                             (b ∉ liveset) ∧ base_pairs !! b = None ∧
                             exists L, L ∈ liveset ∧ base_pairs !! L = Some b).
  { intros b. rewrite Hmiss. split.
    - intros [H|(H1 & H2 & L & HL%elem_of_elements & H3)]; [set_solver|eauto 10].
    - intros (H1 & H2 & L & HL & H3). right. split; [done|]. split; [done|].
      exists L. split; [by apply elem_of_elements|done]. }
  destruct (addMissing_fold (elements missing) liveset base_pairs) as [Hfst Hsnd].
  destruct (insert_self_fold (elements missing) base_pairs)
    as (Hbsub & Hbdom & Hbval).
  { apply NoDup_elements. }
  { intros b Hb%elem_of_elements. by apply Hmiss'. }
  rewrite list_to_set_elements_L in Hfst, Hbdom.
  assert (Hdisj1 : liveset ## missing).
  { intros b Hb Hm. by apply Hmiss' in Hm as [? _]. }
  assert (Hdisj2 : dom base_pairs ## missing).
  { intros b Hb Hm. apply Hmiss' in Hm as (_ & Hn & _).
    apply elem_of_dom in Hb as [? ?]. congruence. }
  assert (Hsizes : size (fst (foldl addMissing (liveset, base_pairs) (elements missing)))
                   = size (snd (foldl addMissing (liveset, base_pairs) (elements missing)))
                   <-> dom base_pairs = liveset).
  { rewrite Hfst, Hsnd, <- size_dom, Hbdom.
    rewrite !size_union by done. split.
    - intros Hsz. symmetry. apply set_subseteq_size_eq; [done|lia].
    - intros ->. done. }
  split.
  - destruct (decide (size _ = size _)) as [Hsz|Hsz].
    + split; [by intros _; apply Hsizes|eauto].
    + split; [by intros [? ?]|]. intros Hdom. by apply Hsizes in Hdom.
  - intros liveset' base_pairs'.
    destruct (decide (size _ = size _)) as [Hsz|Hsz]; [|done].
    apply Hsizes in Hsz. intros Heq. injection Heq as Heq.
    assert (liveset' = liveset ∪ missing) as ->
      by (by rewrite <- Hfst, Heq).
    assert (base_pairs' = foldl (fun m b => <[b := b]> m) base_pairs (elements missing))
      as -> by (by rewrite <- Hsnd, Heq).
    assert (Himg : liveset ∪ missing = liveset ∪ map_img base_pairs).
    { apply set_eq. intros b. rewrite !elem_of_union, elem_of_map_img. split.
      - intros [H|Hm]; [by left|]. apply Hmiss' in Hm as (_ & _ & L & _ & HL). eauto.
      - intros [H|[L HL]]; [by left|].
        destruct (decide (b ∈ liveset)) as [Hb|Hb]; [by left|]. right.
        apply Hmiss'. split; [done|]. split.
        + apply not_elem_of_dom. by rewrite Hsz.
        + exists L. split; [|done]. rewrite <- Hsz. by apply elem_of_dom. }
    split; [done|]. split; [done|]. split; [by rewrite Hbdom, Hsz|]. split.
    + intros b (L & HL)%elem_of_map_img. destruct (Hbval L b HL) as [H|[Hin ->]].
      * rewrite Himg. apply elem_of_union. right. apply elem_of_map_img. eauto.
      * apply elem_of_union. right. by apply elem_of_elements.
    + intros b [Hb|Hb]%elem_of_union Hnot; [done|].
      assert (Hin : b ∈ dom (foldl (fun m b => <[b := b]> m) base_pairs
                                   (elements missing))).
      { rewrite Hbdom. set_solver. }
      apply elem_of_dom in Hin as [v Hv].
      destruct (Hbval b v Hv) as [H|[_ ->]]; [|done].
      apply Hmiss' in Hb as (_ & Hn & _). congruence.
Qed.

(** X20. [addBasesAsLiveValues] completes exactly when the keys of
    [base_pairs] are the live values.  It then adds to the live set the
    bases that were not live, each as its own base, and nothing else: the
    old live values and pairs are kept, the keys of the new [base_pairs] are
    the new live set, and the base of every live value is live. *)
Theorem addBasesAsLiveValues_spec liveset base_pairs :
  (is_Some (addBasesAsLiveValues liveset base_pairs) <->
   dom base_pairs = liveset) ∧
  forall liveset' base_pairs',
    addBasesAsLiveValues liveset base_pairs = Some (liveset', base_pairs') ->
    liveset' = liveset ∪ map_img base_pairs ∧
    base_pairs ⊆ base_pairs' ∧
    dom base_pairs' = liveset' ∧
    (forall L b, base_pairs' !! L = Some b -> b ∈ liveset') ∧
    (forall b, b ∈ liveset' -> (b ∉ liveset) -> base_pairs' !! b = Some b).
Proof.
  destruct (addBasesAsLiveValues_inv liveset base_pairs) as [Hruns Hresult].
  split; [exact Hruns|].
  intros liveset' base_pairs' Hrun.
  destruct (Hresult liveset' base_pairs' Hrun) as (Hlive & Hsub & Hdom & Himg & Hown).
  split; [done|]. split; [done|]. split; [done|]. split; [|done].
  intros L b HL. apply Himg. apply elem_of_map_img. by exists L.
Qed.

(** ** [runOnFunction] *)

Lemma shouldRunOn_notOptedIn opts F attr :
  notOptedIn opts F ->
  attr = "gc-add-backedge-safepoints"%string ∨
  attr = "gc-add-entry-safepoints"%string ∨
  attr = "gc-add-call-safepoints"%string ->
  shouldRunOn opts F attr = Some false.
Proof.
  unfold shouldRunOn. intros [(HA & H1 & H2 & H3)|[HA Hname]] Hattr.
  - rewrite HA. destruct Hattr as [-> | [-> | ->]]; by rewrite ?H1, ?H2, ?H3.
  - by rewrite HA, Hname.
Qed.

Lemma notOptedIn_sameHeader opts F F' :
  sameHeader F F' -> notOptedIn opts F -> notOptedIn opts F'.
Proof.
  intros [Hname Hattrs]. unfold notOptedIn, fnAttrEquals.
  by rewrite Hname, Hattrs.
Qed.

Lemma backedgePollLocations_notOptedIn opts loopPasses F :
  notOptedIn opts (fst (fst (loopPasses F))) ->
  backedgePollLocations opts loopPasses F = Some (fst (fst (loopPasses F)), []).
Proof.
  intros Hnot. unfold backedgePollLocations.
  destruct (loopPasses F) as [[F' loops] SE]. simpl in *.
  assert (foldl (fun acc L =>
                   PollLocations ← acc;
                   '(_, PollLocations') ← runOnLoop opts F' SE L PollLocations;
                   Some PollLocations') (Some []) loops = Some []) as ->; [|done].
  induction loops as [|L loops IH]; [done|]. simpl.
  unfold runOnLoop at 2.
  rewrite (shouldRunOn_notOptedIn opts F' _ Hnot) by auto. simpl. exact IH.
Qed.

(** X21. On a function that did not opt in (no opt-in attribute without
    [AllFunctions], or the poll function itself under [AllFunctions]) the
    pass selects nothing: no poll is inlined and [insertParsePoints] is
    handed the empty vector.  What can still change the function is what
    runs unconditionally: the removal of unreachable blocks, the loop passes
    of the backedge analysis (whose changes are not reported in the result),
    and the VM-state merge.  A declaration is returned at once. *)
Theorem runOnFunction_not_opted_in opts M fuel removeUnreachableBlocks loopPasses
        InsertSafepointPoll MergeNonDominatingVMStates insertParsePoints F :
  notOptedIn opts F ->
  sameHeader F (fst (removeUnreachableBlocks F)) ->
  sameHeader F (fst (fst (loopPasses (fst (removeUnreachableBlocks F))))) ->
  runOnFunction opts M fuel removeUnreachableBlocks loopPasses InsertSafepointPoll
                MergeNonDominatingVMStates insertParsePoints F
  = if bool_decide (blocks F = []) then Some (F, false)
    else
      let '(F0, modified0) := removeUnreachableBlocks F in
      let F1 := if negb (NoBackedge opts) then fst (fst (loopPasses F0)) else F0 in
      let F3 := if VMStateRequired opts then MergeNonDominatingVMStates [] F1
                else F1 in
      '(F4, modified4) ← insertParsePoints F3 [];
      Some (F4, modified0 || modified4).
Proof.
  intros Hnot Hsame0 Hsame1. unfold runOnFunction.
  destruct (bool_decide (blocks F = [])); [done|].
  destruct (removeUnreachableBlocks F) as [F0 modified0]. simpl in Hsame0, Hsame1.
  pose proof (notOptedIn_sameHeader opts _ _ Hsame0 Hnot) as Hnot0.
  pose proof (notOptedIn_sameHeader opts _ _ Hsame1 Hnot) as Hnot1.
  assert (Hentry : forall F', notOptedIn opts F' ->
                     findLocationForEntrySafepoint opts fuel F' = Some None).
  { intros F' HF'. unfold findLocationForEntrySafepoint.
    by rewrite (shouldRunOn_notOptedIn opts F' _ HF') by auto. }
  assert (Hcalls : forall F', notOptedIn opts F' ->
                     findCallSafepoints opts M F' = Some []).
  { intros F' HF'. unfold findCallSafepoints.
    by rewrite (shouldRunOn_notOptedIn opts F' _ HF') by auto. }
  pose proof (backedgePollLocations_notOptedIn opts loopPasses F0 Hnot1) as Hback.
  destruct (NoBackedge opts), (NoEntry opts), (NoCall opts);
    repeat first [ rewrite Hback
                 | rewrite (Hentry F0 Hnot0) | rewrite (Hcalls F0 Hnot0)
                 | rewrite (Hentry _ Hnot1) | rewrite (Hcalls _ Hnot1)
                 | progress cbn [negb mbind option_bind foldl app] ];
    done.
Qed.

Lemma runOnFunction_not_opted_in_witness :
  runOnFunction defaultOptions sample_module 10 keepBlocks noLoopPasses
                noPollFunction keepVMStates reportWork sample_atomic
  = if bool_decide (blocks sample_atomic = []) then Some (sample_atomic, false)
    else
      let '(F0, modified0) := keepBlocks sample_atomic in
      let F1 := if negb (NoBackedge defaultOptions)
                then fst (fst (noLoopPasses F0)) else F0 in
      let F3 := if VMStateRequired defaultOptions then keepVMStates [] F1 else F1 in
      '(F4, modified4) ← reportWork F3 [];
      Some (F4, modified0 || modified4).
Proof.
  apply (runOnFunction_not_opted_in defaultOptions sample_module 10 keepBlocks
           noLoopPasses noPollFunction keepVMStates reportWork sample_atomic).
  - left. by repeat split.
  - by split.
  - by split.
Defined.




(** With the opt-in attribute the call of [sample_derive] is handed on. *)
Example runOnFunction_sample :
  runOnFunction defaultOptions sample_module 10 keepBlocks noLoopPasses
                noPollFunction keepVMStates reportWork sample_derive
  = Some (sample_derive, true).
Proof. reflexivity. Qed.




(** On [sample_polled] the entry poll reports its call of [@do_safepoint],
    and the scan for call safepoints finds that call again next to the call
    of [@callee]: three parse points are collected, two are handed on. *)
Example runOnFunction_duplicates :
  fst (dropBlock9 sample_polled)
  = setBlocks sample_polled
      [mkBasicBlock 0 [sample_polled_call; mkInstruction 51 Ret VoidTy [] [] []]] ∧
  pollBefore (fst (dropBlock9 sample_polled)) (mkInstruction 51 Ret VoidTy [] [] [])
  = Some (setBlocks sample_polled
            [mkBasicBlock 0 [sample_polled_call; sample_poll_call;
                             mkInstruction 51 Ret VoidTy [] [] []]],
          [sample_poll_call]) ∧
  findCallSafepoints defaultOptions sample_module
    (setBlocks sample_polled
       [mkBasicBlock 0 [sample_polled_call; sample_poll_call;
                        mkInstruction 51 Ret VoidTy [] [] []]])
  = Some [sample_polled_call; sample_poll_call] ∧
  unique_unsorted [sample_poll_call; sample_polled_call; sample_poll_call]
  = [sample_poll_call; sample_polled_call].
Proof. repeat split. Qed.


(** ** [scanInlinedCode] *)

Lemma pushSucc_fold (ss : list label) (seen : gset label) (W : list label) :
  exists added,
    foldl pushSucc (seen, W) ss = (seen ∪ list_to_set ss, added ++ W) ∧
    NoDup added ∧ forall x, x ∈ added <-> x ∈ ss ∧ x ∉ seen.
Proof.
  revert seen W. induction ss as [|s ss IH]; intros seen W; simpl.
  - exists []. split; [f_equal; set_solver|]. split; [constructor|].
    intros x. split; [by intros ?%elem_of_nil|by intros [?%elem_of_nil _]].
  - unfold pushSucc at 2. simpl. destruct (decide (s ∈ seen)) as [Hin|Hnin].
    + destruct (IH seen W) as (added & -> & Hnd & Hadd).
      exists added. split; [f_equal; set_solver|]. split; [done|].
      intros x. rewrite Hadd, elem_of_cons. split; [tauto|].
      intros [[->|Hx] Hn]; [done|tauto].
    + destruct (IH ({[s]} ∪ seen) (s :: W)) as (added & -> & Hnd & Hadd).
      exists (added ++ [s]). split; [|split].
      * f_equal; [set_solver|]. by rewrite <- app_assoc.
      * apply NoDup_app. split; [done|]. split; [|apply NoDup_singleton].
        intros x Hx ->%list_elem_of_singleton. apply Hadd in Hx. set_solver.
      * intros x. rewrite elem_of_app, Hadd, list_elem_of_singleton, elem_of_cons.
        split.
        -- intros [[Hx Hn] | ->]; [|by split; [left|]].
           split; [by right|set_solver].
        -- intros [[->|Hx] Hn]; [by right|].
           destruct (decide (x = s)) as [->|Hne]; [by right|]. left.
           split; [done|set_solver].
Qed.

Lemma pushSucc_fold_seen (ss : list label) (seen : gset label) (W : list label) :
  (forall s, s ∈ ss -> s ∈ seen) -> foldl pushSucc (seen, W) ss = (seen, W).
Proof.
  revert seen W. induction ss as [|s ss IH]; intros seen W Hall; simpl; [done|].
  unfold pushSucc at 2. simpl. rewrite decide_True by (apply Hall; left).
  apply IH. intros s' Hs'. apply Hall. by right.
Qed.

Lemma scanOneBB_spec endId ss range calls seen W :
  (forall J, J ∈ takeUntil endId range -> isInvoke J = false) ->
  scanOneBB endId ss range calls seen W
  = Some (calls ++ regionCalls endId range,
          fst (if reachesTerminator endId range
               then foldl pushSucc (seen, W) ss else (seen, W)),
          snd (if reachesTerminator endId range
               then foldl pushSucc (seen, W) ss else (seen, W))).
Proof.
  unfold regionCalls, reachesTerminator.
  revert calls seen W. induction range as [|J rest IH]; intros calls seen W Hinv; simpl.
  - by rewrite app_nil_r.
  - destruct (decide (iid J = endId)) as [Heq|Hne]; simpl.
    + by rewrite app_nil_r.
    + rewrite (Hinv J).
      2:{ simpl. rewrite decide_False by done. left. }
      assert (Hrest : forall J', J' ∈ takeUntil endId rest -> isInvoke J' = false).
      { intros J' HJ'. apply Hinv. simpl. rewrite decide_False by done. by right. }
      rewrite IH by done. rewrite filter_cons.
      destruct (isTerminator J) eqn:Hterm; simpl.
      * destruct (pushSucc_fold ss seen W) as (added & Hpush & _ & _).
        rewrite Hpush. simpl.
        assert (Hagain : foldl pushSucc (seen ∪ list_to_set ss, added ++ W) ss
                         = (seen ∪ list_to_set ss, added ++ W)).
        { apply pushSucc_fold_seen. intros s Hs. set_solver. }
        destruct (existsb isTerminator (takeUntil endId rest)); rewrite ?Hagain; simpl;
          destruct (isCall J); simpl; by rewrite <- ?app_assoc.
      * destruct (existsb isTerminator (takeUntil endId rest)); simpl;
          destruct (isCall J); simpl; by rewrite <- ?app_assoc.
Qed.

Lemma takeUntil_subseteq (endId : nat) (l : list Instruction) : takeUntil endId l ⊆ l.
Proof.
  induction l as [|J l IH]; simpl; [done|].
  destruct (decide (iid J = endId)); [set_solver|]. set_solver.
Qed.

Lemma scan_measure (F : Function) (seen : gset label) (added : list label) (ss : list label) :
  NoDup added ->
  (forall x, x ∈ added <-> x ∈ ss ∧ x ∉ seen) ->
  (forall s, s ∈ ss -> s ∈ (list_to_set (bid <$> blocks F) : gset label)) ->
  size ((list_to_set (bid <$> blocks F) : gset label) ∖ (seen ∪ list_to_set ss)) + length added = size ((list_to_set (bid <$> blocks F) : gset label) ∖ seen).
Proof.
  intros Hnd Hadd Hss.
  rewrite <- (size_list_to_set (C := gset label) added Hnd).
  rewrite <- size_union.
  - f_equal. apply set_eq. intros x. split.
    + intros [[Hl Hn]%elem_of_difference|Hx%elem_of_list_to_set]%elem_of_union.
      * apply elem_of_difference. split; [done|]. set_solver.
      * apply Hadd in Hx as [Hx Hn]. apply elem_of_difference.
        split; [by apply Hss|done].
    + intros [Hl Hn]%elem_of_difference. destruct (decide (x ∈ ss)) as [Hx|Hx].
      * apply elem_of_union. right. by apply elem_of_list_to_set, Hadd.
      * apply elem_of_union. left. apply elem_of_difference. split; [done|].
        intros [?|?%elem_of_list_to_set]%elem_of_union; done.
  - intros x [Hl Hn]%elem_of_difference Hx%elem_of_list_to_set.
    apply Hadd in Hx as [Hx _]. apply Hn. apply elem_of_union. right.
    by apply elem_of_list_to_set.
Qed.

Section ScanFacts.
Variable F : Function.
Variable endId : nat.
Variable seen0 : gset label.
Variable b0 : label.
Variable ss0 : list label.
Variable range0 : list Instruction.
Hypothesis Hcfg : cfg_wf F.
Hypothesis Hinvoke : forall J, J ∈ instructions F -> isInvoke J = false.

#[local] Abbreviation labels := (list_to_set (bid <$> blocks F) : gset label).

Lemma scanInlinedCode_loop_inv fuel scanned calls seen W :
  scanInv F endId seen0 b0 ss0 range0 scanned calls seen W ->
  size (labels ∖ seen) + length W < fuel ->
  exists calls' seen' scanned',
    scanInlinedCode_loop F endId fuel calls seen W = Some (calls', seen') ∧
    scanInv F endId seen0 b0 ss0 range0 scanned' calls' seen' [].
Proof.
  destruct Hcfg as [Hnd Hsucc].
  revert scanned calls seen W.
  induction fuel as [|fuel IH]; intros scanned calls seen W Hinv Hfuel; [lia|].
  destruct W as [|BB W]; [by exists calls, seen, scanned|].
  destruct Hinv as [Hseen HndW HW Hsc Hcalls Hcl0 Hcl Hfrom].
  destruct (HW BB) as (HBBsc & HBB0 & HBBb & HBBl); [left|].
  destruct (block_of_label F BB HBBl) as (B & HB & <-).
  apply NoDup_cons in HndW as [HBBW HndW].
  cbn [scanInlinedCode_loop]. rewrite (getBlock_unique F B Hnd HB).
  cbn [mbind option_bind]. rewrite scanOneBB_spec.
  2:{ intros J HJ. apply Hinvoke. apply (insts_instructions F B HB).
      by apply (takeUntil_subseteq endId). }
  cbn [mbind option_bind].
  assert (Hcalls' : forall J, J ∈ calls ++ regionCalls endId (insts B) <->
            J ∈ regionCalls endId range0 ∨
            exists B', B' ∈ blocks F ∧ bid B' ∈ {[bid B]} ∪ scanned ∧
                       J ∈ regionCalls endId (insts B')).
  { intros J. rewrite elem_of_app, Hcalls. split.
    - intros [[H|(B' & HB' & Hs & HJ)]|HJ]; [by left| |].
      + right. exists B'. split; [done|]. split; [set_solver|done].
      + right. exists B. split; [done|]. split; [set_solver|done].
    - intros [H|(B' & HB' & [Heq%elem_of_singleton|Hs]%elem_of_union & HJ)];
        [by left; left| |].
      + right. by rewrite <- (block_eq F B' B Hnd HB' HB Heq).
      + left. right. by exists B'. }
  destruct (reachesTerminator endId (insts B)) eqn:Hreach.
  - destruct (pushSucc_fold (succs B) seen W) as (added & -> & Hnda & Hadd).
    cbn [fst snd].
    assert (Hssl : forall s, s ∈ succs B -> s ∈ labels).
    { intros s Hs. apply elem_of_list_to_set. by eapply Hsucc. }
    apply (IH ({[bid B]} ∪ scanned)).
    + constructor.
      * apply set_eq. intros x.
        rewrite !elem_of_union, !elem_of_list_to_set, elem_of_app, Hadd.
        assert (Hx : x ∈ seen <->
                  ((x ∈ seen0 ∨ x ∈ ({[b0]} : gset label)) ∨
                   x ∈ ({[bid B]} : gset label) ∨ x ∈ scanned) ∨ x ∈ W).
        { rewrite Hseen. set_solver. }
        destruct (decide (x ∈ seen)); tauto.
      * apply NoDup_app. split; [done|]. split; [|done].
        intros x Hx HxW. apply Hadd in Hx as [_ Hn]. apply Hn.
        rewrite Hseen. set_solver.
      * intros l [Hl|Hl]%elem_of_app.
        -- apply Hadd in Hl as [Hs Hn]. rewrite Hseen in Hn.
           split; [set_solver|]. split; [set_solver|]. split; [set_solver|].
           by eapply Hsucc.
        -- destruct (HW l) as (H1 & H2 & H3 & H4); [by right|].
           split; [|done]. intros [->%elem_of_singleton|?]%elem_of_union; done.
      * intros l [->%elem_of_singleton|Hl]%elem_of_union; [done|by apply Hsc].
      * exact Hcalls'.
      * intros Hr s Hs. apply elem_of_union. left. by apply Hcl0.
      * intros B' HB' [Heq%elem_of_singleton|Hs]%elem_of_union Hr s Hs'.
        -- rewrite (block_eq F B' B Hnd HB' HB Heq) in Hs'.
           apply elem_of_union. right. by apply elem_of_list_to_set.
        -- apply elem_of_union. left. by eapply Hcl.
      * intros l [[->%elem_of_singleton|Hl]%elem_of_union|[Hl|Hl]%elem_of_app].
        -- destruct (Hfrom (bid B)) as [H|(B' & HB' & Hs & Hr & Hl')];
             [right; left|by left|].
           right. exists B'. split; [done|]. split; [set_solver|done].
        -- destruct (Hfrom l) as [H|(B' & HB' & Hs & Hr & Hl')]; [by left|by left|].
           right. exists B'. split; [done|]. split; [set_solver|done].
        -- right. exists B. split; [done|]. split; [set_solver|].
           split; [done|]. by apply Hadd in Hl as [? _].
        -- destruct (Hfrom l) as [H|(B' & HB' & Hs & Hr & Hl')];
             [right; by right|by left|].
           right. exists B'. split; [done|]. split; [set_solver|done].
    + pose proof (scan_measure F seen added (succs B) Hnda Hadd Hssl) as Hm.
      rewrite length_app. cbn [length] in Hfuel. lia.
  - cbn [fst snd]. apply (IH ({[bid B]} ∪ scanned)).
    + constructor.
      * rewrite Hseen. apply set_eq. intros x.
        rewrite !elem_of_union, !elem_of_list_to_set, elem_of_cons, !elem_of_singleton.
        tauto.
      * done.
      * intros l Hl. destruct (HW l) as (H1 & H2 & H3 & H4); [by right|].
        split; [|done]. intros [->%elem_of_singleton|?]%elem_of_union; done.
      * intros l [->%elem_of_singleton|Hl]%elem_of_union; [done|by apply Hsc].
      * exact Hcalls'.
      * done.
      * intros B' HB' [Heq%elem_of_singleton|Hs]%elem_of_union Hr s Hs'.
        -- rewrite (block_eq F B' B Hnd HB' HB Heq) in Hr. congruence.
        -- by eapply Hcl.
      * intros l [[->%elem_of_singleton|Hl]%elem_of_union|Hl].
        -- destruct (Hfrom (bid B)) as [H|(B' & HB' & Hs & Hr & Hl')];
             [right; left|by left|].
           right. exists B'. split; [done|]. split; [set_solver|done].
        -- destruct (Hfrom l) as [H|(B' & HB' & Hs & Hr & Hl')]; [by left|by left|].
           right. exists B'. split; [done|]. split; [set_solver|done].
        -- destruct (Hfrom l) as [H|(B' & HB' & Hs & Hr & Hl')];
             [right; by right|by left|].
           right. exists B'. split; [done|]. split; [set_solver|done].
    + cbn [length] in Hfuel. lia.
Qed.

End ScanFacts.

Lemma scan_room (F : Function) (X : gset label) :
  NoDup (bid <$> blocks F) ->
  size ((list_to_set (bid <$> blocks F) : gset label) ∖ X) <= length (blocks F).
Proof.
  intros Hnd. rewrite <- (length_fmap bid (blocks F)).
  rewrite <- (size_list_to_set (C := gset label) _ Hnd).
  apply subseteq_size. set_solver.
Qed.

Lemma scanInlinedCode_first F endId seen0 B0 range0 :
  cfg_wf F ->
  (forall J, J ∈ instructions F -> isInvoke J = false) ->
  B0 ∈ blocks F -> range0 ⊆ insts B0 ->
  exists calls1 seen1 W1,
    scanOneBB endId (succs B0) range0 [] ({[bid B0]} ∪ seen0) []
    = Some (calls1, seen1, W1) ∧
    scanInv F endId seen0 (bid B0) (succs B0) range0 ∅ calls1 seen1 W1 ∧
    size ((list_to_set (bid <$> blocks F) : gset label) ∖ seen1) + length W1
    <= length (blocks F).
Proof.
  intros [Hnd Hsucc] Hinvoke HB0 Hsub.
  rewrite scanOneBB_spec.
  2:{ intros J HJ. apply Hinvoke. apply (insts_instructions F B0 HB0).
      apply Hsub. by apply (takeUntil_subseteq endId range0). }
  assert (Hcalls : forall J, J ∈ [] ++ regionCalls endId range0 <->
            J ∈ regionCalls endId range0 ∨
            exists B, B ∈ blocks F ∧ bid B ∈ (∅ : gset label) ∧
                      J ∈ regionCalls endId (insts B)).
  { intros J. simpl. split; [by left|].
    intros [H|(B & _ & Hs & _)]; [done|set_solver]. }
  destruct (reachesTerminator endId range0) eqn:Hreach.
  - destruct (pushSucc_fold (succs B0) ({[bid B0]} ∪ seen0) [])
      as (added & -> & Hnda & Hadd).
    cbn [fst snd]. rewrite app_nil_r.
    eexists _, _, _. split; [done|]. split.
    + constructor.
      * apply set_eq. intros x.
        rewrite !elem_of_union, !elem_of_list_to_set, Hadd.
        destruct (decide (x ∈ ({[bid B0]} ∪ seen0 : gset label))) as [Hx|Hx];
          set_solver.
      * done.
      * intros l [Hs Hn]%Hadd. split; [set_solver|]. split; [set_solver|].
        split; [set_solver|]. by eapply Hsucc.
      * set_solver.
      * exact Hcalls.
      * intros _ s Hs. apply elem_of_union. right. by apply elem_of_list_to_set.
      * set_solver.
      * intros l [Hl|[Hs _]%Hadd]; [set_solver|]. by left.
    + assert (Hssl : forall s, s ∈ succs B0 ->
                s ∈ (list_to_set (bid <$> blocks F) : gset label)).
      { intros s Hs. apply elem_of_list_to_set. by eapply Hsucc. }
      rewrite (scan_measure F _ added (succs B0) Hnda Hadd Hssl).
      by apply scan_room.
  - cbn [fst snd]. eexists _, _, _. split; [done|]. split.
    + constructor.
      * set_solver.
      * constructor.
      * by intros l ?%elem_of_nil.
      * set_solver.
      * exact Hcalls.
      * intros Hr. congruence.
      * set_solver.
      * intros l [Hl|Hl%elem_of_nil]; [set_solver|done].
    + simpl. rewrite Nat.add_0_r. by apply scan_room.
Qed.

(** X23. On a function whose control-flow graph is well formed and that
    holds no invoke, [scanInlinedCode] from [start] (an instruction of block
    [B0]) to [end] returns once the fuel exceeds the number of blocks.  The
    set it returns is the set passed in, the block of [start], and the
    blocks it scanned, none of which was in the set passed in.  The calls it
    returns are exactly the calls that lie before [end] in the block of
    [start] from [start] on and in the scanned blocks from their first
    instruction on.  Where the scan of a block met the terminator before
    [end], every successor of the block is in the returned set; and every
    scanned block is a successor of such a block. *)
Theorem scanInlinedCode_spec F (start end_ : Instruction) fuel (seen0 : gset label) B0 :
  cfg_wf F ->
  (forall J, J ∈ instructions F -> isInvoke J = false) ->
  getParent F (iid start) = Some B0 ->
  length (blocks F) < fuel ->
  exists range0 calls seen (scanned : gset label),
    instsFrom (iid start) (insts B0) = Some range0 ∧
    scanInlinedCode F start end_ fuel seen0 = Some (calls, seen) ∧
    seen = seen0 ∪ {[bid B0]} ∪ scanned ∧
    (forall l, l ∈ scanned ->
       (l ∉ seen0) ∧ l ≠ bid B0 ∧ l ∈ (bid <$> blocks F)) ∧
    (forall J, J ∈ calls <->
       J ∈ regionCalls (iid end_) range0 ∨
       exists B, B ∈ blocks F ∧ bid B ∈ scanned ∧
                 J ∈ regionCalls (iid end_) (insts B)) ∧
    (reachesTerminator (iid end_) range0 = true ->
       forall s, s ∈ succs B0 -> s ∈ seen) ∧
    (forall B, B ∈ blocks F -> bid B ∈ scanned ->
       reachesTerminator (iid end_) (insts B) = true ->
       forall s, s ∈ succs B -> s ∈ seen) ∧
    (forall l, l ∈ scanned ->
       (reachesTerminator (iid end_) range0 = true ∧ l ∈ succs B0) ∨
       exists B, B ∈ blocks F ∧ bid B ∈ scanned ∧
                 reachesTerminator (iid end_) (insts B) = true ∧ l ∈ succs B).
Proof.
  intros Hcfg Hinvoke HB0 Hfuel.
  destruct (getParent_instsFrom _ _ _ HB0) as [range0 Hr].
  pose proof (getParent_Some _ _ _ HB0) as HB0in.
  destruct (scanInlinedCode_first F (iid end_) seen0 B0 range0 Hcfg Hinvoke HB0in
              (instsFrom_subseteq _ _ _ Hr))
    as (calls1 & seen1 & W1 & Hscan & Hinv & Hm).
  destruct (scanInlinedCode_loop_inv F (iid end_) seen0 (bid B0) (succs B0) range0
              Hcfg Hinvoke fuel ∅ calls1 seen1 W1 Hinv)
    as (calls & seen & scanned & Hloop & Hfin); [lia|].
  exists range0, calls, seen, scanned.
  split; [done|]. split.
  { unfold scanInlinedCode. rewrite HB0. cbn [mbind option_bind].
    rewrite Hr. cbn [mbind option_bind]. rewrite Hscan. by cbn [mbind option_bind]. }
  destruct Hfin as [Hseen _ _ Hsc Hcalls Hcl0 Hcl Hfrom].
  split; [rewrite Hseen; set_solver|].
  split; [done|]. split; [done|]. split; [done|]. split; [done|].
  intros l Hl. apply Hfrom. by left.
Qed.

Lemma sample_inlined_cfg_wf : cfg_wf sample_inlined.
Proof.
  split.
  - simpl. repeat constructor; set_solver.
  - intros B s HB Hs. simpl in HB.
    repeat (apply elem_of_cons in HB as [->|HB]); [..|by apply elem_of_nil in HB];
      cbn in Hs; set_solver.
Qed.

Lemma sample_inlined_no_invoke J :
  J ∈ instructions sample_inlined -> isInvoke J = false.
Proof.
  intros HJ. cbn in HJ.
  repeat (apply elem_of_cons in HJ as [->|HJ]); [..|by apply elem_of_nil in HJ];
    reflexivity.
Qed.

Lemma scanInlinedCode_spec_witness :
  exists range0 calls seen (scanned : gset label),
    instsFrom (iid sample_poll_start) (insts sample_poll_entry) = Some range0 ∧
    scanInlinedCode sample_inlined sample_poll_start sample_poll_after 4 ∅
    = Some (calls, seen) ∧
    seen = ∅ ∪ {[bid sample_poll_entry]} ∪ scanned ∧
    (forall l, l ∈ scanned ->
       (l ∉ (∅ : gset label)) ∧ l ≠ bid sample_poll_entry ∧ l ∈ (bid <$> blocks sample_inlined)) ∧
    (forall J, J ∈ calls <->
       J ∈ regionCalls (iid sample_poll_after) range0 ∨
       exists B, B ∈ blocks sample_inlined ∧ bid B ∈ scanned ∧
                 J ∈ regionCalls (iid sample_poll_after) (insts B)) ∧
    (reachesTerminator (iid sample_poll_after) range0 = true ->
       forall s, s ∈ succs sample_poll_entry -> s ∈ seen) ∧
    (forall B, B ∈ blocks sample_inlined -> bid B ∈ scanned ->
       reachesTerminator (iid sample_poll_after) (insts B) = true ->
       forall s, s ∈ succs B -> s ∈ seen) ∧
    (forall l, l ∈ scanned ->
       (reachesTerminator (iid sample_poll_after) range0 = true ∧ l ∈ succs sample_poll_entry) ∨
       exists B, B ∈ blocks sample_inlined ∧ bid B ∈ scanned ∧
                 reachesTerminator (iid sample_poll_after) (insts B) = true ∧
                 l ∈ succs B).
Proof.
  apply (scanInlinedCode_spec sample_inlined sample_poll_start sample_poll_after 4 ∅
           sample_poll_entry sample_inlined_cfg_wf sample_inlined_no_invoke).
  - reflexivity.
  - simpl. lia.
Defined.

(** The scan of the sample collects the slow-path call alone: the call
    [after] ends the scan of block 2 and is not collected. *)
Example scanInlinedCode_sample :
  scanInlinedCode sample_inlined sample_poll_start sample_poll_after 4 ∅
  = Some ([sample_slow_call], {[0; 1; 2]}).
Proof. vm_compute. f_equal. Qed.

Lemma instsFrom_takeUntil id (l range : list Instruction) :
  instsFrom id l = Some range -> l = takeUntil id l ++ range.
Proof.
  induction l as [|J l IH]; simpl; [done|].
  destruct (decide (iid J = id)); [by intros [= <-]|].
  intros H. simpl. f_equal. by apply IH.
Qed.

Lemma NoDup_ids_apart (l1 l2 : list Instruction) I1 I2 :
  NoDup (iid <$> (l1 ++ l2)) -> I1 ∈ l1 -> I2 ∈ l2 -> iid I1 ≠ iid I2.
Proof.
  rewrite fmap_app. intros (_ & Hdisj & _)%NoDup_app H1 H2 Heq.
  apply (Hdisj (iid I1)).
  - apply list_elem_of_fmap. by exists I1.
  - apply list_elem_of_fmap. by exists I2.
Qed.

Lemma NoDup_ids_block (bs : list BasicBlock) B :
  NoDup (iid <$> flat_map insts bs) -> B ∈ bs -> NoDup (iid <$> insts B).
Proof.
  induction bs as [|X bs IH]; simpl; [by intros _ ?%elem_of_nil|].
  rewrite fmap_app. intros (H1 & _ & H2)%NoDup_app [->|HB]%elem_of_cons; [done|].
  by apply IH.
Qed.

Lemma same_id_same_block (bs : list BasicBlock) B1 B2 I1 I2 :
  NoDup (iid <$> flat_map insts bs) ->
  B1 ∈ bs -> B2 ∈ bs -> I1 ∈ insts B1 -> I2 ∈ insts B2 -> iid I1 = iid I2 ->
  B1 = B2.
Proof.
  induction bs as [|X bs IH]; simpl; [by intros _ ?%elem_of_nil|].
  intros Hnd HB1 HB2 HI1 HI2 Heq.
  assert (Hin : forall B I, B ∈ bs -> I ∈ insts B -> I ∈ flat_map insts bs).
  { intros B I HB HI. apply list_elem_of_In, in_flat_map. exists B.
    by rewrite <- !list_elem_of_In. }
  apply elem_of_cons in HB1 as [->|HB1]; apply elem_of_cons in HB2 as [->|HB2].
  - done.
  - exfalso. exact (NoDup_ids_apart _ _ I1 I2 Hnd HI1 (Hin _ _ HB2 HI2) Heq).
  - exfalso. symmetry in Heq.
    exact (NoDup_ids_apart _ _ I2 I1 Hnd HI2 (Hin _ _ HB1 HI1) Heq).
  - rewrite fmap_app in Hnd. apply NoDup_app in Hnd as (_ & _ & Hnd).
    by apply IH.
Qed.

(** ** Liveness in dominator-tree mode *)

Section DominatorLivenessFacts.
Variable F : Function.
Variable dominates : label -> label -> bool.
Variable dominatesInst : Value -> Instruction -> bool.
Variable isPotentiallyReachable : label -> label -> bool.
Variable isPotentiallyReachableNotViaDef : Instruction -> Instruction -> Value -> bool.

#[local] Abbreviation hasLiveUse := (hasLiveUse isPotentiallyReachableNotViaDef).
#[local] Abbreviation liveUse term V :=
  (exists use, use ∈ users F V ∧ isPotentiallyReachableNotViaDef term use V = true).

Lemma hasLiveUse_spec term def us :
  hasLiveUse term def us = true <->
  exists use, use ∈ us ∧ isPotentiallyReachableNotViaDef term use def = true.
Proof.
  induction us as [|use us IH]; simpl.
  - split; [done|]. by intros (use & ?%elem_of_nil & _).
  - unfold isLiveAtSafepoint at 1.
    destruct (isPotentiallyReachableNotViaDef term use def) eqn:Hlive.
    + split; [|done]. intros _. exists use. split; [left|done].
    + rewrite IH. split.
      * intros (u & Hu & Hl). exists u. split; [by right|done].
      * intros (u & [->|Hu]%elem_of_cons & Hl); [congruence|]. by exists u.
Qed.

Lemma findLiveGCArguments_fold term (args : list Value) (live0 : gset Value) V :
  V ∈ foldl (fun live arg =>
               if negb (isGCPointerType (getType arg)) then live
               else if hasLiveUse term arg (users F arg) then {[arg]} ∪ live
               else live) live0 args <->
  V ∈ live0 ∨ (V ∈ args ∧ isGCPointerType (getType V) = true ∧ liveUse term V).
Proof.
  revert live0. induction args as [|arg args IH]; intros live0; simpl.
  - split; [by left|]. by intros [?|[?%elem_of_nil _]].
  - rewrite IH. clear IH.
    destruct (isGCPointerType (getType arg)) eqn:Hgc; simpl.
    + destruct (hasLiveUse term arg (users F arg)) eqn:Hlive.
      * apply hasLiveUse_spec in Hlive. rewrite elem_of_union, elem_of_singleton.
        split.
        -- intros [[->|H]|(Hin & Hg & Hl)]; [right|by left|right].
           ++ split; [left|done].
           ++ split; [by right|done].
        -- intros [H|([->|Hin]%elem_of_cons & Hg & Hl)];
             [by left; right|by left; left|right; done].
      * split.
        -- intros [H|(Hin & Hg & Hl)]; [by left|right]. split; [by right|done].
        -- intros [H|([->|Hin]%elem_of_cons & Hg & Hl)]; [by left| |by right].
           apply hasLiveUse_spec in Hl. congruence.
    + split.
      * intros [H|(Hin & Hg & Hl)]; [by left|right]. split; [by right|done].
      * intros [H|([->|Hin]%elem_of_cons & Hg & Hl)]; [by left|congruence|by right].
Qed.

Lemma findLiveGCValuesInBlock_spec term isPred range (live0 : gset Value) V :
  V ∈ findLiveGCValuesInBlock F isPotentiallyReachableNotViaDef term isPred range live0 <->
  V ∈ live0 ∨
  exists I, I ∈ (if isPred then takeUntil (iid term) range else range) ∧
            V = valueOf I ∧ isGCPointerType (ity I) = true ∧ liveUse term V.
Proof.
  revert live0. induction range as [|I range IH]; intros live0; simpl.
  - split; [by left|]. intros [?|(I & HI & _)]; [done|].
    destruct isPred; by apply elem_of_nil in HI.
  - destruct isPred; simpl.
    + destruct (decide (iid I = iid term)) as [Heq|Hne].
      * rewrite bool_decide_eq_true_2 by done.
        split; [by left|]. by intros [?|(I' & ?%elem_of_nil & _)].
      * rewrite bool_decide_eq_false_2 by done.
        destruct (isGCPointerType (ity I)) eqn:Hgc; simpl; rewrite IH; clear IH.
        -- destruct (hasLiveUse term (valueOf I) (users F (valueOf I))) eqn:Hlive.
           ++ apply hasLiveUse_spec in Hlive.
              rewrite elem_of_union, elem_of_singleton. split.
              ** intros [[->|H]|(I' & HI' & Hrest)]; [right|by left|right].
                 --- exists I. split; [left|done].
                 --- exists I'. split; [by right|done].
              ** intros [H|(I' & [->|HI']%elem_of_cons & Hrest)];
                   [by left; right| |right; by exists I'].
                 left. left. by destruct Hrest as [-> _].
           ++ split.
              ** intros [H|(I' & HI' & Hrest)]; [by left|right].
                 exists I'. split; [by right|done].
              ** intros [H|(I' & [->|HI']%elem_of_cons & Hrest)];
                   [by left| |right; by exists I'].
                 destruct Hrest as (-> & _ & Hl). apply hasLiveUse_spec in Hl.
                 congruence.
        -- split.
           ++ intros [H|(I' & HI' & Hrest)]; [by left|right].
              exists I'. split; [by right|done].
           ++ intros [H|(I' & [->|HI']%elem_of_cons & Hrest)];
                [by left| |right; by exists I'].
              destruct Hrest as (_ & Hg & _). congruence.
    + destruct (isGCPointerType (ity I)) eqn:Hgc; simpl; rewrite IH; clear IH.
      * destruct (hasLiveUse term (valueOf I) (users F (valueOf I))) eqn:Hlive.
        -- apply hasLiveUse_spec in Hlive.
           rewrite elem_of_union, elem_of_singleton. split.
           ++ intros [[->|H]|(I' & HI' & Hrest)]; [right|by left|right].
              ** exists I. split; [left|done].
              ** exists I'. split; [by right|done].
           ++ intros [H|(I' & [->|HI']%elem_of_cons & Hrest)];
                [by left; right| |right; by exists I'].
              left. left. by destruct Hrest as [-> _].
        -- split.
           ++ intros [H|(I' & HI' & Hrest)]; [by left|right].
              exists I'. split; [by right|done].
           ++ intros [H|(I' & [->|HI']%elem_of_cons & Hrest)];
                [by left| |right; by exists I'].
              destruct Hrest as (-> & _ & Hl). apply hasLiveUse_spec in Hl.
              congruence.
      * split.
        -- intros [H|(I' & HI' & Hrest)]; [by left|right].
           exists I'. split; [by right|done].
        -- intros [H|(I' & [->|HI']%elem_of_cons & Hrest)];
             [by left| |right; by exists I'].
           destruct Hrest as (_ & Hg & _). congruence.
Qed.

#[local] Abbreviation blockStep term pred :=
  (fun (acc : option (gset Value)) BBI =>
     liveValues ← acc;
     if dominates (bid BBI) pred then
       if negb (isPotentiallyReachable (bid BBI) pred) then None
       else Some (findLiveGCValuesInBlock F isPotentiallyReachableNotViaDef term
                    (bool_decide (bid BBI = pred)) (insts BBI) liveValues)
     else Some liveValues).

Lemma findLiveGCValues_blocks_None term pred (bs : list BasicBlock) :
  foldl (blockStep term pred) None bs = None.
Proof. by induction bs. Qed.

Lemma findLiveGCValues_blocks term pred (bs : list BasicBlock) (live0 : gset Value) :
  (is_Some (foldl (blockStep term pred) (Some live0) bs) <->
   forall B, B ∈ bs -> dominates (bid B) pred = true ->
             isPotentiallyReachable (bid B) pred = true) ∧
  forall live, foldl (blockStep term pred) (Some live0) bs = Some live ->
    forall V, V ∈ live <->
      V ∈ live0 ∨
      exists B I, B ∈ bs ∧ dominates (bid B) pred = true ∧
        I ∈ (if bool_decide (bid B = pred)
             then takeUntil (iid term) (insts B) else insts B) ∧
        V = valueOf I ∧ isGCPointerType (ity I) = true ∧ liveUse term V.
Proof.
  revert live0. induction bs as [|B bs IH]; intros live0.
  - split.
    + split; [by intros _ B ?%elem_of_nil|by eexists].
    + intros live [= <-] V. split; [by left|].
      by intros [?|(B & I & ?%elem_of_nil & _)].
  - cbn [foldl mbind option_bind].
    destruct (dominates (bid B) pred) eqn:Hdom.
    + destruct (isPotentiallyReachable (bid B) pred) eqn:Hreach; cbn [negb].
      * destruct (IH (findLiveGCValuesInBlock F isPotentiallyReachableNotViaDef term
                        (bool_decide (bid B = pred)) (insts B) live0)) as [IH1 IH2].
        split.
        -- rewrite IH1. split.
           ++ intros H B' [->|HB']%elem_of_cons; [done|by apply H].
           ++ intros H B' HB'. apply H. by right.
        -- intros live Hrun V. rewrite (IH2 live Hrun V).
           rewrite findLiveGCValuesInBlock_spec. split.
           ++ intros [[H|(I & HI & Hrest)]|(B' & I & HB' & Hrest)]; [by left| |].
              ** right. exists B, I. split; [left|]. by split.
              ** right. exists B', I. split; [by right|done].
           ++ intros [H|(B' & I & [->|HB']%elem_of_cons & Hd & HI & Hrest)];
                [by left; left| |].
              ** left. right. by exists I.
              ** right. by exists B', I.
      * rewrite findLiveGCValues_blocks_None. split; [|done]. split.
        -- by intros [? ?].
        -- intros H. specialize (H B (list_elem_of_here _ _) Hdom). congruence.
    + destruct (IH live0) as [IH1 IH2]. split.
      * rewrite IH1. split.
        -- intros H B' [->|HB']%elem_of_cons; [congruence|by apply H].
        -- intros H B' HB'. apply H. by right.
      * intros live Hrun V. rewrite (IH2 live Hrun V). split.
        -- intros [H|(B' & I & HB' & Hrest)]; [by left|].
           right. exists B', I. split; [by right|done].
        -- intros [H|(B' & I & [->|HB']%elem_of_cons & Hd & Hrest)];
             [by left|congruence|].
           right. by exists B', I.
Qed.

(** X24. [findLiveGCValuesAtInst] (dominator-tree mode), in full.  It
    completes exactly when [term] is a call, an invoke or a terminator and
    every block that dominates [pred] is potentially reachable to it.  A
    value is then in the result exactly when it is a GC-pointer argument of
    the function or the GC-pointer result of an instruction in a block that
    dominates [pred], and one of its users is reachable from [term] not via
    the definition; in the block [pred] itself only the instructions before
    [term] count. *)
Theorem findLiveGCValuesAtInst_spec term pred :
  (is_Some (findLiveGCValuesAtInst F dominates isPotentiallyReachable
              isPotentiallyReachableNotViaDef term pred) <->
   (isCall term || isInvoke term || isTerminator term) = true ∧
   forall B, B ∈ blocks F -> dominates (bid B) pred = true ->
             isPotentiallyReachable (bid B) pred = true) ∧
  forall live,
    findLiveGCValuesAtInst F dominates isPotentiallyReachable
      isPotentiallyReachableNotViaDef term pred = Some live ->
    forall V, V ∈ live <->
      (V ∈ fargs F ∧ isGCPointerType (getType V) = true ∧ liveUse term V) ∨
      exists B I, B ∈ blocks F ∧ dominates (bid B) pred = true ∧
        I ∈ (if bool_decide (bid B = pred)
             then takeUntil (iid term) (insts B) else insts B) ∧
        V = valueOf I ∧ isGCPointerType (ity I) = true ∧ liveUse term V.
Proof.
  unfold findLiveGCValuesAtInst.
  destruct (isCall term || isInvoke term || isTerminator term) eqn:Hterm; cbn [negb].
  2:{ split; [|done]. split; [by intros [? ?]|by intros [? _]]. }
  destruct (findLiveGCValues_blocks term pred (blocks F)
              (findLiveGCArguments F isPotentiallyReachableNotViaDef term ∅))
    as [H1 H2].
  split.
  - rewrite H1. split; [by split|by intros [_ ?]].
  - intros live Hrun V. rewrite (H2 live Hrun V).
    unfold findLiveGCArguments. rewrite findLiveGCArguments_fold.
    split; [intros [[?%elem_of_empty|?]|?]|intros [?|?]]; tauto.
Qed.

(** X25. With instruction identities unique in the function and no
    instruction among its arguments, what [findLiveGCValuesAtInst] reports
    live at [term] in its own block never holds the result of [term] itself
    nor of an instruction that follows it in that block. *)
Theorem findLiveGCValuesAtInst_excludes_term term pred B range live :
  NoDup (iid <$> instructions F) ->
  (forall V, V ∈ fargs F -> isaInstruction V = false) ->
  B ∈ blocks F -> bid B = pred ->
  instsFrom (iid term) (insts B) = Some range ->
  findLiveGCValuesAtInst F dominates isPotentiallyReachable
    isPotentiallyReachableNotViaDef term pred = Some live ->
  forall I, I ∈ range -> valueOf I ∉ live.
Proof.
  intros Hids Hargs HB Hpred Hrange Hrun I HI Hlive.
  unfold findLiveGCValuesAtInst in Hrun.
  destruct (negb _); [done|].
  apply (proj2 (findLiveGCValues_blocks term pred _ _)) with (V := valueOf I) in Hrun.
  apply Hrun in Hlive. clear Hrun.
  unfold findLiveGCArguments in Hlive. rewrite findLiveGCArguments_fold in Hlive.
  destruct Hlive as [[?%elem_of_empty|(Harg & _)]|(B' & I' & HB' & _ & HI' & Hval & _)];
    [done|by apply Hargs in Harg|].
  assert (Hid : iid I' = iid I) by (by injection Hval).
  assert (HIB : I ∈ insts B) by exact (instsFrom_subseteq _ _ _ Hrange I HI).
  assert (HI'B : I' ∈ insts B').
  { destruct (bool_decide (bid B' = pred)); [|done].
    by apply (takeUntil_subseteq (iid term)). }
  assert (B' = B) as ->
    by exact (same_id_same_block _ _ _ _ _ Hids HB' HB HI'B HIB Hid).
  rewrite bool_decide_eq_true_2 in HI' by done.
  pose proof (NoDup_ids_block _ _ Hids HB) as Hnd.
  rewrite (instsFrom_takeUntil _ _ _ Hrange) in Hnd.
  exact (NoDup_ids_apart _ _ I' I Hnd HI' HI Hid).
Qed.

#[local] Abbreviation newDefStep CS :=
  (fixupNewDef F dominatesInst isPotentiallyReachableNotViaDef CS).

Lemma fixupNewDef_None CS (defs : list Value) : foldl (newDefStep CS) None defs = None.
Proof. by induction defs. Qed.

Lemma fixupNewDef_fold CS (defs : list Value) (L0 : gset Value)
      (bp0 : gmap Value Value) :
  dom bp0 = L0 ->
  (is_Some (foldl (newDefStep CS) (Some (L0, bp0)) defs) <->
   forall d, d ∈ defs -> (d ∉ L0) -> isaInstruction d = true) ∧
  forall L bp,
    foldl (newDefStep CS) (Some (L0, bp0)) defs = Some (L, bp) ->
    (forall V, V ∈ L <->
       V ∈ L0 ∨ (V ∈ defs ∧ dominatesInst V CS = true ∧ liveUse CS V)) ∧
    dom bp = L ∧ bp0 ⊆ bp ∧
    (forall k v, bp !! k = Some v ->
       bp0 !! k = Some v ∨ (v = k ∧ k ∈ L ∧ (k ∉ L0))).
Proof.
  revert L0 bp0. induction defs as [|d defs IH]; intros L0 bp0 Hdom.
  - split; [split; [by intros _ d ?%elem_of_nil|by eexists]|].
    intros L bp [= <- <-]. split; [|split; [done|split; [done|by left]]].
    intros V. split; [by left|]. by intros [?|[?%elem_of_nil _]].
  - cbn [foldl fixupNewDef mbind option_bind fst snd].
    assert (Hsame : forall (P : Prop), (d ∈ L0 ∨ P) ->
      (forall V, V = d -> dominatesInst V CS = true -> liveUse CS V -> V ∈ L0) ->
      (P -> isaInstruction d = true) ->
      (is_Some (foldl (newDefStep CS) (Some (L0, bp0)) defs) <->
       forall d', d' ∈ d :: defs -> (d' ∉ L0) -> isaInstruction d' = true) ∧
      forall L bp,
        foldl (newDefStep CS) (Some (L0, bp0)) defs = Some (L, bp) ->
        (forall V, V ∈ L <->
           V ∈ L0 ∨ (V ∈ d :: defs ∧ dominatesInst V CS = true ∧ liveUse CS V)) ∧
        dom bp = L ∧ bp0 ⊆ bp ∧
        (forall k v, bp !! k = Some v ->
           bp0 !! k = Some v ∨ (v = k ∧ k ∈ L ∧ (k ∉ L0)))).
    { intros P HP Hskip Hisa. destruct (IH L0 bp0 Hdom) as [IH1 IH2]. split.
      - rewrite IH1. split.
        + intros H d' [->|Hd']%elem_of_cons Hn; [|by apply H].
          destruct HP as [?|HP]; [done|by apply Hisa].
        + intros H d' Hd'. apply H. by right.
      - intros L bp Hrun. destruct (IH2 L bp Hrun) as (Hmem & Hd & Hsub & Horig).
        split; [|done]. intros V. rewrite Hmem. split.
        + intros [H|(Hin & Hrest)]; [by left|right]. split; [by right|done].
        + intros [H|([->|Hin]%elem_of_cons & Hd' & Hl)]; [by left| |by right].
          left. by apply Hskip. }
    destruct (decide (d ∈ L0)) as [Hin|Hnin].
    { apply (Hsame False); [by left| |done]. by intros V -> _ _. }
    destruct (isaInstruction d) eqn:Hisa; cbn [negb].
    2:{ rewrite fixupNewDef_None. split; [|done]. split; [by intros [? ?]|].
        intros H. specialize (H d (list_elem_of_here _ _) Hnin). congruence. }
    destruct (dominatesInst d CS) eqn:Hdominates; cbn [negb].
    2:{ apply (Hsame True); [by right| |done]. intros V -> ? _. congruence. }
    destruct (hasLiveUse CS d (users F d)) eqn:Hlive.
    2:{ apply (Hsame True); [by right| |done].
        intros V -> _ Hl%hasLiveUse_spec. congruence. }
    apply hasLiveUse_spec in Hlive.
    assert (Hdom' : dom (<[d := d]> bp0) = {[d]} ∪ L0)
      by (by rewrite dom_insert_L, Hdom).
    assert (Hnone : bp0 !! d = None) by (apply not_elem_of_dom; by rewrite Hdom).
    destruct (IH ({[d]} ∪ L0) (<[d := d]> bp0) Hdom') as [IH1 IH2]. split.
    + rewrite IH1. split.
      * intros H d' [->|Hd']%elem_of_cons Hn; [done|].
        destruct (decide (d' = d)) as [->|Hne]; [done|].
        apply H; [done|]. set_solver.
      * intros H d' Hd' Hn. apply H; [by right|]. set_solver.
    + intros L bp Hrun. destruct (IH2 L bp Hrun) as (Hmem & Hd & Hsub & Horig).
      assert (HdL : d ∈ L) by (apply Hmem; left; set_solver).
      split; [|split; [done|split]].
      * intros V. rewrite Hmem, elem_of_union, elem_of_singleton. split.
        -- intros [[->|H]|(Hin' & Hrest)]; [right|by left|right].
           ++ split; [left|done].
           ++ split; [by right|done].
        -- intros [H|([->|Hin']%elem_of_cons & Hrest)];
             [by left; right|by left; left|by right].
      * etrans; [|exact Hsub]. by apply insert_subseteq.
      * intros k v Hk. destruct (Horig k v Hk) as [H|(-> & HkL & Hn)].
        -- apply lookup_insert_Some in H as [[<- <-]|[_ H]]; [by right|by left].
        -- right. split; [done|]. split; [done|]. set_solver.
Qed.

(** X26. [fixupLiveness] in dominator-tree mode.  It completes exactly
    when the keys of [base_pairs] are the live values and every inserted
    definition that is neither live nor a base is an instruction.  The new
    live set is then the old one, the bases, and the inserted definitions
    that dominate the call and have a user reachable from the call not via
    the definition.  The keys of the new [base_pairs] are the new live set,
    old pairs are kept, the base of every live value is live, every value
    that became live is its own base, and the other fields are untouched. *)
Theorem fixupLiveness_DT_spec CS (allInsertedDefs : gset Value) info :
  (is_Some (fixupLiveness_DT F dominatesInst isPotentiallyReachableNotViaDef
              CS allInsertedDefs info) <->
   dom (base_pairs info) = liveset info ∧
   forall d, d ∈ allInsertedDefs -> (d ∉ liveset info) ->
             (d ∉ (map_img (base_pairs info) : gset Value)) ->
             isaInstruction d = true) ∧
  forall info',
    fixupLiveness_DT F dominatesInst isPotentiallyReachableNotViaDef
      CS allInsertedDefs info = Some info' ->
    (forall V, V ∈ liveset info' <->
       V ∈ liveset info ∨ V ∈ (map_img (base_pairs info) : gset Value) ∨
       (V ∈ allInsertedDefs ∧ dominatesInst V CS = true ∧ liveUse CS V)) ∧
    dom (base_pairs info') = liveset info' ∧
    base_pairs info ⊆ base_pairs info' ∧
    (forall L b, base_pairs info' !! L = Some b -> b ∈ liveset info') ∧
    (forall V, V ∈ liveset info' -> (V ∉ liveset info) ->
               base_pairs info' !! V = Some V) ∧
    newInsertedDefs info' = newInsertedDefs info ∧
    safepoint info' = safepoint info ∧ result info' = result info.
Proof.
  unfold fixupLiveness_DT.
  destruct (addBasesAsLiveValues_inv (liveset info) (base_pairs info)) as [Hruns Hres].
  destruct (addBasesAsLiveValues (liveset info) (base_pairs info))
    as [[L0 bp0]|] eqn:Hadd; cbn [mbind option_bind].
  2:{ split; [|done]. split; [by intros [? ?]|]. intros [Hdom _].
      apply Hruns in Hdom. by destruct Hdom. }
  destruct (Hres L0 bp0 eq_refl) as (HL0 & Hsub0 & Hdom0 & Himg0 & Hown0).
  assert (Hdom : dom (base_pairs info) = liveset info) by (apply Hruns; eauto).
  destruct (fixupNewDef_fold CS (elements allInsertedDefs) L0 bp0 Hdom0) as [H1 H2].
  destruct (foldl (newDefStep CS) (Some (L0, bp0)) (elements allInsertedDefs))
    as [[L bp]|] eqn:Hfold; cbn [mbind option_bind].
  - split.
    + split; [|by eexists]. intros _. split; [done|].
      intros d Hd Hn1 Hn2. apply H1; [by eexists|by apply elem_of_elements|].
      rewrite HL0. set_solver.
    + intros info' [= <-]. cbn [liveset base_pairs newInsertedDefs safepoint result].
      destruct (H2 L bp eq_refl) as (Hmem & HdomL & Hsub & Horig).
      split; [|split; [done|split; [by etrans|split; [|split; [|done]]]]].
      * intros V. rewrite Hmem, HL0, elem_of_union, elem_of_elements. tauto.
      * intros k b Hk. destruct (Horig k b Hk) as [H|(-> & HkL & _)]; [|done].
        apply Hmem. left. apply Himg0. apply elem_of_map_img. by exists k.
      * intros V HV Hn. assert (Hbp : is_Some (bp !! V)).
        { apply elem_of_dom. by rewrite HdomL. }
        destruct Hbp as [b Hb]. destruct (Horig V b Hb) as [H|(-> & _)]; [|done].
        assert (HV0 : V ∈ L0) by (rewrite <- Hdom0; apply elem_of_dom; by exists b).
        pose proof (Hown0 V HV0 Hn) as Hself. rewrite Hself in H.
        injection H as <-. done.
  - split; [|done]. split; [by intros [? ?]|]. intros [_ Hisa].
    assert (Hsome : is_Some (None : option (gset Value * gmap Value Value))).
    { apply H1. intros d Hd%elem_of_elements Hn. rewrite HL0 in Hn.
      apply Hisa; [done|set_solver|set_solver]. }
    by destruct Hsome.
Qed.

End DominatorLivenessFacts.

Lemma findLiveGCValuesAtInst_excludes_term_witness :
  findLiveGCValuesAtInst sample_derive sample_dominates sample_reachable
    sample_reachableNotViaDef sample_call 0 = Some {[valueOf sample_gep]} ∧
  (valueOf sample_call ∉ ({[valueOf sample_gep]} : gset Value)) ∧
  (valueOf sample_ret ∉ ({[valueOf sample_gep]} : gset Value)).
Proof.
  assert (Hrun : findLiveGCValuesAtInst sample_derive sample_dominates sample_reachable
                   sample_reachableNotViaDef sample_call 0
                 = Some {[valueOf sample_gep]}) by reflexivity.
  split; [exact Hrun|].
  assert (Hids : NoDup (iid <$> instructions sample_derive)).
  { vm_compute. repeat constructor; set_solver. }
  assert (Hargs : forall V, V ∈ fargs sample_derive -> isaInstruction V = false).
  { intros V HV. cbn in HV. by apply list_elem_of_singleton in HV as ->. }
  assert (HB : mkBasicBlock 0 [sample_gep; sample_call; sample_ret]
               ∈ blocks sample_derive) by (cbn; left).
  split.
  - apply (findLiveGCValuesAtInst_excludes_term sample_derive sample_dominates
             sample_reachable sample_reachableNotViaDef sample_call 0 _
             [sample_call; sample_ret] _ Hids Hargs HB eq_refl eq_refl Hrun).
    left.
  - apply (findLiveGCValuesAtInst_excludes_term sample_derive sample_dominates
             sample_reachable sample_reachableNotViaDef sample_call 0 _
             [sample_call; sample_ret] _ Hids Hargs HB eq_refl eq_refl Hrun).
    right. left.
Defined.

(** ** The VM state at a safepoint *)

Lemma instsFrom_rev_is_Some F id BB :
  getParent F id = Some BB -> is_Some (instsFrom id (rev (insts BB))).
Proof.
  unfold getParent. intros [_ Hex]%find_some. apply instsFrom_is_Some.
  apply existsb_exists in Hex as (J & HJ & Hid).
  apply existsb_exists. exists J. split; [|done]. by apply in_rev in HJ.
Qed.

Section FindVMStateFacts.
Variable F : Function.
Variable isJVMStateAnchorInstruction : Instruction -> bool.
Variable isJVMState : Value -> bool.
Variable DT : gmap label (option label).

#[local] Abbreviation holds := (holdsVMState isJVMStateAnchorInstruction isJVMState).
#[local] Abbreviation stateAt := (vmStateAt F isJVMStateAnchorInstruction isJVMState).
#[local] Abbreviation search := (searchVMState F isJVMStateAnchorInstruction isJVMState).
#[local] Abbreviation loop :=
  (findVMState_loop F isJVMStateAnchorInstruction isJVMState DT).
#[local] Abbreviation walk :=
  (vmStateWalk F isJVMStateAnchorInstruction isJVMState DT).
#[local] Abbreviation outcome :=
  (vmStateOutcome F isJVMStateAnchorInstruction isJVMState DT).

Lemma vmStateAt_holds J r :
  stateAt J = Some r -> holds J = bool_decide (is_Some r).
Proof.
  unfold vmStateAt, holdsVMState.
  destruct (isJVMStateAnchorInstruction J); simpl.
  - destruct (bool_decide (iop J = Store)); [|done].
    destruct (operands J !! 0) as [V|]; [|done]. simpl.
    destruct (castCallInst F V); [|done]. by intros [= <-].
  - destruct (isCall J); simpl; [|by intros [= <-]].
    destruct (callArgs J) as [|arg0 ?]; [by intros [= <-]|].
    destruct (isJVMState arg0); [|by intros [= <-]].
    destruct (castCallInst F arg0); [|done]. by intros [= <-].
Qed.

Lemma searchVMState_total range :
  (forall J, J ∈ range -> is_Some (stateAt J)) -> is_Some (search range).
Proof.
  induction range as [|J range IH]; intros Hall; simpl; [by eexists|].
  destruct (Hall J) as [r Hr]; [left|]. rewrite Hr. simpl.
  destruct r; [by eexists|]. apply IH. intros J' HJ'. apply Hall. by right.
Qed.

Lemma searchVMState_None range :
  search range = Some None -> forall J, J ∈ range -> holds J = false.
Proof.
  induction range as [|J range IH]; simpl; [by intros _ J ?%elem_of_nil|].
  destruct (stateAt J) as [r|] eqn:Hr; [|done]. simpl.
  destruct r as [CI|]; [done|]. intros Hrest J' [->|HJ']%elem_of_cons.
  - by rewrite (vmStateAt_holds _ _ Hr).
  - by apply IH.
Qed.

Lemma searchVMState_Some range CI :
  search range = Some (Some CI) ->
  exists pre J post,
    range = pre ++ J :: post ∧
    (forall J', J' ∈ pre -> holds J' = false) ∧
    holds J = true ∧ stateAt J = Some (Some CI).
Proof.
  induction range as [|J range IH]; simpl; [done|].
  destruct (stateAt J) as [r|] eqn:Hr; [|done]. simpl.
  destruct r as [CI'|].
  - intros [= ->]. exists [], J, range. split; [done|].
    split; [by intros J' ?%elem_of_nil|].
    split; [by rewrite (vmStateAt_holds _ _ Hr)|done].
  - intros (pre & J0 & post & -> & Hpre & HJ0)%IH.
    exists (J :: pre), J0, post. split; [done|]. split; [|done].
    intros J' [->|HJ']%elem_of_cons; [|by apply Hpre].
    by rewrite (vmStateAt_holds _ _ Hr).
Qed.

Lemma findVMState_loop_walk (depth : label -> nat) fuel BB range :
  (forall b d, DT !! b = Some (Some d) ->
     exists B, getBlock F d = Some B ∧ insts B ≠ [] ∧ depth d < depth b) ->
  (forall B, B ∈ blocks F -> is_Some (DT !! bid B)) ->
  (forall J, J ∈ instructions F -> is_Some (stateAt J)) ->
  BB ∈ (bid <$> blocks F) ->
  range ≠ [] ->
  (forall J, J ∈ range -> J ∈ instructions F) ->
  depth BB < fuel ->
  exists r BB' range',
    loop fuel BB range = Some r ∧ walk BB range BB' range' ∧ outcome BB' range' r.
Proof.
  intros Hidom Hnode Hcast. revert BB range.
  induction fuel as [|fuel IH]; intros BB range HBB Hne Hin Hfuel; [lia|].
  cbn [findVMState_loop].
  destruct (searchVMState_total range) as [r Hr].
  { intros J HJ. apply Hcast. by apply Hin. }
  rewrite Hr. cbn [mbind option_bind].
  destruct r as [CI|].
  { exists (Some CI), BB, range. split; [done|]. split; [constructor|].
    by apply searchVMState_Some. }
  pose proof (searchVMState_None _ Hr) as Hnone.
  destruct range as [|J0 range]; [done|].
  apply list_elem_of_fmap in HBB as (B0 & -> & HB0).
  destruct (Hnode B0 HB0) as [node Hn]. rewrite Hn. cbn [mbind option_bind].
  destruct node as [d|].
  2:{ exists None, (bid B0), (J0 :: range). split; [done|]. split; [constructor|].
      by split. }
  destruct (Hidom _ _ Hn) as (B & HB & Hnonempty & Hdepth).
  rewrite HB. cbn [mbind option_bind].
  destruct (getBlock_Some _ _ _ HB) as [HBin Hbid].
  destruct (IH d (rev (insts B))) as (r & BB' & range' & Hrun & Hwalk & Hout).
  - rewrite <- Hbid. apply list_elem_of_fmap. by exists B.
  - intros Hrev. apply Hnonempty. by rewrite <- (rev_involutive (insts B)), Hrev.
  - intros J HJ. apply (insts_instructions F B HBin).
    by apply (proj1 (elem_of_rev _ _)) in HJ.
  - lia.
  - exists r, BB', range'. split; [done|]. split; [|done].
    by apply (vmStateWalk_idom _ _ _ _ _ _ d B).
Qed.

(** X27. [findVMState] returns the nearest dominating VM state.  Let
    every immediate dominator the tree names be a non-empty block of the
    function at a smaller depth, every block have a node, and the casts
    succeed on every instruction (an anchor is a store of a call, a VM state
    argument is a call).  Then, with fuel above the depth of the block of
    [term], [findVMState] returns; it starts with the instructions from
    [term] back to the head of its block and walks up the immediate
    dominators, block by block, as long as the instructions searched hold no
    VM state.  It returns the state at the first instruction met that holds
    one, and null when a block without immediate dominator holds none. *)
Theorem findVMState_nearest (depth : label -> nat) fuel (term : Instruction) B0 :
  (forall b d, DT !! b = Some (Some d) ->
     exists B, getBlock F d = Some B ∧ insts B ≠ [] ∧ depth d < depth b) ->
  (forall B, B ∈ blocks F -> is_Some (DT !! bid B)) ->
  (forall J, J ∈ instructions F -> is_Some (stateAt J)) ->
  getParent F (iid term) = Some B0 ->
  depth (bid B0) < fuel ->
  exists range r BB' range',
    instsFrom (iid term) (rev (insts B0)) = Some range ∧
    findVMState F isJVMStateAnchorInstruction isJVMState DT fuel term = Some r ∧
    walk (bid B0) range BB' range' ∧ outcome BB' range' r.
Proof.
  intros Hidom Hnode Hcast HB0 Hfuel.
  destruct (instsFrom_rev_is_Some _ _ _ HB0) as [range Hrange].
  pose proof (getParent_Some _ _ _ HB0) as HB0in.
  destruct (instsFrom_Some_head _ _ _ Hrange) as (J & rest & Heq & _).
  destruct (findVMState_loop_walk depth fuel (bid B0) range Hidom Hnode Hcast)
    as (r & BB' & range' & Hrun & Hwalk & Hout).
  - apply list_elem_of_fmap. by exists B0.
  - by rewrite Heq.
  - intros J' HJ'. apply (insts_instructions F B0 HB0in).
    apply (proj1 (elem_of_rev _ _)). exact (instsFrom_subseteq _ _ _ Hrange J' HJ').
  - done.
  - exists range, r, BB', range'. split; [done|]. split; [|done].
    unfold findVMState. rewrite HB0. cbn [mbind option_bind].
    rewrite Hrange. by cbn [mbind option_bind].
Qed.

End FindVMStateFacts.

Lemma findVMState_nearest_witness :
  exists range r BB' range',
    instsFrom (iid sample_work_call)
              (rev (insts (mkBasicBlock 1 [sample_work_call;
                                           mkInstruction 44 Ret VoidTy [] [] []])))
    = Some range ∧
    findVMState sample_vmstate sample_isAnchor sample_isJVMState sample_DT 2
                sample_work_call = Some r ∧
    vmStateWalk sample_vmstate sample_isAnchor sample_isJVMState sample_DT
                1 range BB' range' ∧
    vmStateOutcome sample_vmstate sample_isAnchor sample_isJVMState sample_DT
                   BB' range' r.
Proof.
  apply (findVMState_nearest sample_vmstate sample_isAnchor sample_isJVMState
           sample_DT (fun b => b) 2 sample_work_call
           (mkBasicBlock 1 [sample_work_call; mkInstruction 44 Ret VoidTy [] [] []])).
  - intros b d Hb. unfold sample_DT in Hb.
    apply lookup_insert_Some in Hb as [[_ [=]]|[Hne Hb]].
    apply lookup_singleton_Some in Hb as [<- [= <-]].
    eexists. split; [reflexivity|]. split; [done|lia].
  - intros B HB. cbn in HB.
    repeat (apply elem_of_cons in HB as [->|HB]); [..|by apply elem_of_nil in HB];
      by eexists.
  - intros J HJ. cbn in HJ.
    repeat (apply elem_of_cons in HJ as [->|HJ]); [..|by apply elem_of_nil in HJ];
      by eexists.
  - reflexivity.
  - simpl. lia.
Defined.

(** On the sample the state found for the call to [@work] is the call to
    [@jvmstate_0] that the anchor of the dominating block stores. *)
Example findVMState_sample :
  findVMState sample_vmstate sample_isAnchor sample_isJVMState sample_DT 2
              sample_work_call = Some (Some sample_state_call).
Proof. reflexivity. Qed.

(** ** The discovery loop of [findBasePointer] *)

Section DiscoveryFacts.
Variable is_base_value : Value -> bool.
Variable inputBDVs : Value -> list Value.
Variable def : Value.

#[local] Abbreviation known := (isKnownBaseResult is_base_value).
#[local] Abbreviation closed := (inputs_closed is_base_value inputBDVs).
#[local] Abbreviation inv := (discoverInv is_base_value inputBDVs def).
#[local] Abbreviation input := (discoverInput is_base_value).
#[local] Abbreviation step := (discoverStep is_base_value inputBDVs).

Lemma discoverInput_fold (ins : list Value) (st : gmap Value PhiState) (d : bool) :
  inv st ->
  (forall V, V ∈ ins -> known V = false ->
             forall S : gset Value, def ∈ S -> closed S -> V ∈ S) ->
  exists st' d',
    foldl input (st, d) ins = (st', d') ∧ inv st' ∧ st ⊆ st' ∧
    (forall V, V ∈ ins -> known V = true ∨ V ∈ dom st') ∧
    (d' = true -> d = true ∧ st' = st) ∧
    (d' = false -> d = false ∨ size st < size st').
Proof.
  revert st d. induction ins as [|V ins IH]; intros st d Hinv Hins.
  - exists st, d. split; [done|]. split; [done|]. split; [done|].
    split; [by intros V ?%elem_of_nil|]. split; [done|]. by left.
  - cbn [foldl]. unfold discoverInput at 2. cbn [fst].
    assert (Hrest : forall V', V' ∈ ins -> known V' = false ->
              forall S : gset Value, def ∈ S -> closed S -> V' ∈ S).
    { intros V' HV'. apply Hins. by right. }
    destruct (known V) eqn:HK; cbn [negb andb].
    { destruct (IH st d Hinv Hrest) as (st' & d' & Hf & Hinv' & Hsub & Hin & Ht & Hfl).
      exists st', d'. split; [done|]. split; [done|]. split; [done|].
      split; [|done]. intros V' [->|HV']%elem_of_cons; [by left|by apply Hin]. }
    destruct (st !! V) as [s|] eqn:HV.
    { rewrite bool_decide_eq_false_2 by done.
      destruct (IH st d Hinv Hrest) as (st' & d' & Hf & Hinv' & Hsub & Hin & Ht & Hfl).
      exists st', d'. split; [done|]. split; [done|]. split; [done|].
      split; [|done]. intros V' [->|HV']%elem_of_cons; [|by apply Hin].
      right. apply (subseteq_dom _ _ Hsub). apply elem_of_dom. by exists s. }
    rewrite bool_decide_eq_true_2 by done.
    destruct Hinv as (Hdef & Hall & Hkeys & Hmin).
    assert (Hinv1 : inv (<[V := PhiState_default]> st)).
    { split; [|split; [|split]].
      - rewrite dom_insert_L. set_solver.
      - intros v s [[_ <-]|[_ Hs]]%lookup_insert_Some; [done|by eapply Hall].
      - intros v. rewrite dom_insert_L.
        intros [->%elem_of_singleton|Hv]%elem_of_union; [done|by apply Hkeys].
      - intros S HS Hcl. rewrite dom_insert_L.
        intros v [->%elem_of_singleton|Hv]%elem_of_union.
        + apply (Hins V); [left|done..].
        + by apply (Hmin S HS Hcl). }
    destruct (IH _ false Hinv1 Hrest)
      as (st' & d' & Hf & Hinv' & Hsub & Hin & Ht & Hfl).
    assert (Hsub0 : st ⊆ <[V := PhiState_default]> st) by (by apply insert_subseteq).
    exists st', d'. split; [done|]. split; [done|]. split; [by etrans|].
    split; [|split].
    + intros V' [->|HV']%elem_of_cons; [|by apply Hin].
      right. apply (subseteq_dom _ _ Hsub). rewrite dom_insert_L. set_solver.
    + intros Hd. by destruct (Ht Hd).
    + intros _. right. pose proof (map_subseteq_size _ _ Hsub) as Hsz.
      rewrite map_size_insert_None in Hsz by done. lia.
Qed.

Lemma discoverStep_fold (universe : gset Value) (ks : list Value)
      (st : gmap Value PhiState) (d : bool) :
  def ∈ universe -> closed universe ->
  (forall v, v ∈ universe -> isaPHINode v = true -> inputBDVs v ≠ []) ->
  inv st ->
  (forall k, k ∈ ks -> k ∈ dom st) ->
  exists st' d',
    foldl step (Some (st, d)) ks = Some (st', d') ∧ inv st' ∧ st ⊆ st' ∧
    (forall k V, k ∈ ks -> V ∈ inputBDVs k -> known V = true ∨ V ∈ dom st') ∧
    (d' = true -> d = true ∧ st' = st) ∧
    (d' = false -> d = false ∨ size st < size st').
Proof.
  intros HdefU HclU Hphi. revert st d.
  induction ks as [|k ks IH]; intros st d Hinv Hks.
  - exists st, d. split; [done|]. split; [done|]. split; [done|].
    split; [by intros k V ?%elem_of_nil|]. split; [done|]. by left.
  - cbn [foldl]. unfold discoverStep at 2. cbn [mbind option_bind].
    pose proof Hinv as (Hdef & Hall & Hkeys & Hmin).
    assert (Hk : k ∈ dom st) by (apply Hks; left).
    pose proof (Hkeys k Hk) as HK. rewrite HK.
    assert (Hstep : (if isaPHINode k
                     then if bool_decide (inputBDVs k = []) then None
                          else Some (foldl input (st, d) (inputBDVs k))
                     else if isaSelectInst k
                          then Some (foldl input (st, d) (inputBDVs k))
                          else Some (st, d))
                    = Some (foldl input (st, d) (inputBDVs k))).
    { destruct (isaPHINode k) eqn:Hp.
      - rewrite bool_decide_eq_false_2; [done|].
        apply Hphi; [|done]. by apply (Hmin universe HdefU HclU).
      - destruct (isaSelectInst k) eqn:Hs; [done|].
        unfold isKnownBaseResult in HK. rewrite Hp, Hs in HK. done. }
    rewrite Hstep. clear Hstep.
    destruct (discoverInput_fold (inputBDVs k) st d Hinv)
      as (st1 & d1 & -> & Hinv1 & Hsub1 & Hin1 & Ht1 & Hf1).
    { intros V HV HKV S HS Hcl.
      destruct (Hcl k (Hmin S HS Hcl k Hk) HK V HV) as [H|H]; [congruence|done]. }
    destruct (IH st1 d1 Hinv1) as (st' & d' & Hf & Hinv' & Hsub & Hin & Ht & Hfl).
    { intros k' Hk'. apply (subseteq_dom _ _ Hsub1). apply Hks. by right. }
    exists st', d'. split; [done|]. split; [done|]. split; [by etrans|].
    split; [|split].
    + intros k' V [->|Hk']%elem_of_cons HV; [|by eapply Hin].
      destruct (Hin1 V HV) as [H|H]; [by left|right].
      by apply (subseteq_dom _ _ Hsub).
    + intros Hd. destruct (Ht Hd) as [-> ->]. by apply Ht1.
    + intros Hd. pose proof (map_subseteq_size _ _ Hsub) as Hsz.
      destruct (Hfl Hd) as [->|Hlt].
      * destruct (Hf1 eq_refl) as [H|H]; [by left|right; lia].
      * right. pose proof (map_subseteq_size _ _ Hsub1). lia.
Qed.

Lemma discover_inv (universe : gset Value) fuel (st : gmap Value PhiState) :
  def ∈ universe -> closed universe ->
  (forall v, v ∈ universe -> isaPHINode v = true -> inputBDVs v ≠ []) ->
  inv st ->
  size universe - size st < fuel ->
  exists st',
    discover is_base_value inputBDVs fuel st = Some st' ∧ inv st' ∧
    forall k V, k ∈ dom st' -> V ∈ inputBDVs k -> known V = true ∨ V ∈ dom st'.
Proof.
  intros HdefU HclU Hphi. revert st.
  induction fuel as [|fuel IH]; intros st Hinv Hfuel; [lia|].
  cbn [discover]. unfold discoverPass, discoverPassOver.
  destruct (discoverStep_fold universe (fst <$> map_to_list st) st true
              HdefU HclU Hphi Hinv)
    as (st' & d' & -> & Hinv' & Hsub & Hin & Ht & Hf).
  { intros k ([k' s] & -> & Hks%elem_of_map_to_list)%list_elem_of_fmap.
    apply elem_of_dom. by exists s. }
  cbn [mbind option_bind]. destruct d'.
  - destruct (Ht eq_refl) as [_ ->]. exists st. split; [done|]. split; [done|].
    intros k V [s Hs]%elem_of_dom HV. apply (Hin k V); [|done].
    apply list_elem_of_fmap. exists (k, s). split; [done|].
    by apply elem_of_map_to_list.
  - destruct (Hf eq_refl) as [?|Hlt]; [done|].
    apply IH; [done|].
    destruct Hinv' as (_ & _ & _ & Hmin).
    pose proof (subseteq_size _ _ (Hmin universe HdefU HclU)) as Hsz.
    rewrite size_dom in Hsz. lia.
Qed.

(** X28. The discovery loop of [findBasePointer] computes the merges
    reachable from [def].  Let [def] be no known base and let a finite set
    of values hold [def] and be closed under the inputs of its merges that
    are not known bases, with no phi without inputs in it.  Then, with fuel
    for one round per value of the set, the loop returns a table that holds
    [def], has every state [Unknown], is closed (no key is a known base and
    every input of a key is a known base or a key), and whose keys lie in
    every closed set that holds [def].  No assertion fires on the way, and
    the table is one the meet iteration can start from. *)
Theorem discoverFrom_closure (universe : gset Value) fuel :
  known def = false ->
  def ∈ universe -> closed universe ->
  (forall v, v ∈ universe -> isaPHINode v = true -> inputBDVs v ≠ []) ->
  size universe <= fuel ->
  exists states,
    discoverFrom is_base_value inputBDVs fuel def = Some states ∧
    def ∈ dom states ∧
    (forall v s, states !! v = Some s -> s = PhiState_default) ∧
    table_closed is_base_value inputBDVs states ∧
    (forall S : gset Value, def ∈ S -> closed S -> dom states ⊆ S).
Proof.
  intros HK HdefU HclU Hphi Hfuel.
  assert (Hinv0 : inv {[def := PhiState_default]}).
  { split; [|split; [|split]].
    - rewrite dom_singleton_L. set_solver.
    - by intros v s [_ <-]%lookup_singleton_Some.
    - intros v. rewrite dom_singleton_L. by intros ->%elem_of_singleton.
    - intros S HS _. rewrite dom_singleton_L. set_solver. }
  assert (Hpos : 0 < size universe).
  { assert (Hsub : ({[def]} : gset Value) ⊆ universe) by set_solver.
    apply subseteq_size in Hsub. rewrite size_singleton in Hsub. lia. }
  destruct (discover_inv universe fuel _ HdefU HclU Hphi Hinv0)
    as (states & Hrun & (Hdef & Hall & Hkeys & Hmin) & Hin).
  { rewrite map_size_singleton. lia. }
  exists states. split; [done|]. split; [done|]. split; [done|]. split; [|done].
  intros v Hv. split; [by apply Hkeys|]. intros V HV. by apply (Hin v).
Qed.

End DiscoveryFacts.

Lemma discoverFrom_closure_witness :
  exists states,
    discoverFrom no_metadata sample_inputs 2 sample_a = Some states ∧
    sample_a ∈ dom states ∧
    (forall v s, states !! v = Some s -> s = PhiState_default) ∧
    table_closed no_metadata sample_inputs states ∧
    (forall S : gset Value, sample_a ∈ S ->
       inputs_closed no_metadata sample_inputs S -> dom states ⊆ S).
Proof.
  apply (discoverFrom_closure no_metadata sample_inputs sample_a
           {[sample_a; sample_b]} 2).
  - reflexivity.
  - set_solver.
  - intros v [->%elem_of_singleton | ->%elem_of_singleton]%elem_of_union _ V HV;
      cbn in HV;
      repeat (apply elem_of_cons in HV as [->|HV]); try (by apply elem_of_nil in HV);
      try (left; reflexivity); right; set_solver.
  - by intros v [->%elem_of_singleton | ->%elem_of_singleton]%elem_of_union _.
  - vm_compute. lia.
Defined.

(** From [%a] the loop finds [%b], which feeds [%a], and leaves out [%c]. *)
Example discoverFrom_sample :
  discoverFrom no_metadata sample_inputs 2 sample_a
  = Some {[ sample_a := PhiState_default; sample_b := PhiState_default ]}.
Proof. reflexivity. Qed.
